(** * MazeAI: maze generation and graph search

    A shallow embedding of [maze.py], [util.py], [search.py],
    [features.py] and the labelling of [train.py], and the properties of
    the generator, the frontiers, the four searches, the maze features and
    the labels.

    - Python integers are [Z]; a coordinate is a pair [(row, col)]; the grid
      is a list of rows of one-character cells, indexed as Python indexes
      lists; actions are the strings of the source.
    - Exceptions are values of [exn].  A [while] loop is a function of a
      fuel argument, one unit for each turn, that reports [OutOfFuel] when
      it runs out; the theorems give the fuel that is enough.
    - The search functions are computations over the maze object they are
      handed: they take it and give it back.
    - The global random generator is the sequence of its draws; the
      theorems about generated mazes hold for every such sequence.
    - Floats are the binary64 floats of the kernel; an integer becomes a
      float as Python converts it when it is below 2^53 in size.

    The definitions come first, the properties after them. *)

From Stdlib Require Import Ascii String.
From Stdlib Require Import ZArith List Lia Bool Permutation Sorted.
From Stdlib Require Floats.PrimFloat Floats.FloatAxioms.
From Stdlib Require Numbers.Cyclic.Int63.Uint63.
Import ListNotations.
Local Open Scope Z_scope.

Set Implicit Arguments.
#[local] Set Warnings "-register-all".

(** ** Exceptions and results *)

(** [Exception("No solution")], [Exception("empty frontier")], and the
    built-in [IndexError] and [ValueError]. *)
Inductive exn : Type :=
| NoSolution
| EmptyFrontier
| IndexError
| ValueError.

Inductive result (A : Type) : Type :=
| Ok (a : A)
| Err (e : exn).
Arguments Ok {A} a.
Arguments Err {A} e.

Definition rbind {A B} (r : result A) (k : A -> result B) : result B :=
  match r with
  | Ok a => k a
  | Err e => Err e
  end.

Declare Scope result_scope.
Delimit Scope result_scope with res.
Notation "x <- c ;; k" := (rbind c (fun x => k))
  (at level 61, c at next level, right associativity) : result_scope.
Notation "' p <- c ;; k" := (rbind c (fun x => match x with p => k end))
  (at level 61, p pattern, c at next level, right associativity) : result_scope.

(** What a call with a loop in it can do: return, raise, or use up its fuel. *)
Inductive outcome (A : Type) : Type :=
| Return (a : A)
| Raise (e : exn)
| OutOfFuel.
Arguments Return {A} a.
Arguments Raise {A} e.
Arguments OutOfFuel {A}.

(** ** Python lists *)

(** [l[i]]: a negative index counts from the end; out of range raises. *)
Definition py_index {A} (l : list A) (i : Z) : result A :=
  let n := Z.of_nat (length l) in
  let j := if i <? 0 then i + n else i in
  if (0 <=? j) && (j <? n) then
    match nth_error l (Z.to_nat j) with
    | Some x => Ok x
    | None => Err IndexError
    end
  else Err IndexError.

Fixpoint replace_nth {A} (l : list A) (k : nat) (v : A) : list A :=
  match l, k with
  | [], _ => []
  | _ :: l', O => v :: l'
  | x :: l', S k' => x :: replace_nth l' k' v
  end.

(** [l[i] = v]. *)
Definition py_set_index {A} (l : list A) (i : Z) (v : A) : result (list A) :=
  let n := Z.of_nat (length l) in
  let j := if i <? 0 then i + n else i in
  if (0 <=? j) && (j <? n) then Ok (replace_nth l (Z.to_nat j) v)
  else Err IndexError.

(** [sorted(l, key=key)] and [l.sort(key=key)]: Python's sort is stable, and
    a stable sort has one possible result, which insertion from the right with
    [<=] computes. *)
Section Sort.
Variable A : Type.
Variable key : A -> Z.

Fixpoint insert_by (x : A) (l : list A) : list A :=
  match l with
  | [] => [x]
  | y :: l' => if key x <=? key y then x :: l else y :: insert_by x l'
  end.

Definition py_sorted (l : list A) : list A := fold_right insert_by [] l.
End Sort.

(** ** Coordinates, cells, the maze object *)

Definition coord : Type := Z * Z.

Definition coord_eqb (a b : coord) : bool :=
  (fst a =? fst b) && (snd a =? snd b).

Definition grid : Type := list (list ascii).

Definition WALL : ascii := "#"%char.
Definition OPEN : ascii := " "%char.
Definition START : ascii := "S"%char.
Definition GOAL : ascii := "G"%char.

(** The attributes of a [Maze] once [__init__] has run. *)
Record Maze : Type := mkMaze {
  rows : Z;
  cols : Z;
  start : coord;
  goal : coord;
  maze : grid
}.

(** [maze[r][c]]. *)
Definition grid_get (g : grid) (r c : Z) : result ascii :=
  (row <- py_index g r ;; py_index row c)%res.

(** [maze[r][c] = v]; the rows are distinct list objects. *)
Definition grid_set (g : grid) (r c : Z) (v : ascii) : result grid :=
  (row <- py_index g r ;;
   row' <- py_set_index row c v ;;
   py_set_index g r row')%res.

(** ** Search nodes ([util.py]) *)

Inductive Node : Type :=
  mkNode { n_state : coord; n_parent : option Node; n_action : option string }.

Inductive CostNode : Type :=
  mkCostNode { c_state : coord; c_parent : option CostNode;
               c_action : option string; cost : Z }.

(** What the search loops and [Maze.get_next] use of a node, whichever class
    it is.  [depth] is the number of parent links up to the root: parent
    references form a tree, so every walk towards the root ends. *)
Class NodeLike (N : Type) : Type := {
  state : N -> coord;
  parent : N -> option N;
  action : N -> option string;
  depth : N -> nat;
  depth_parent : forall n p, parent n = Some p -> depth n = S (depth p);
  depth_root : forall n, parent n = None -> depth n = O
}.

Fixpoint node_depth (n : Node) : nat :=
  match n_parent n with
  | None => O
  | Some p => S (node_depth p)
  end.

Fixpoint cost_node_depth (n : CostNode) : nat :=
  match c_parent n with
  | None => O
  | Some p => S (cost_node_depth p)
  end.

#[export, refine] Instance Node_NodeLike : NodeLike Node :=
  {| state := n_state; parent := n_parent; action := n_action;
     depth := node_depth |}.
Proof.
  - intros [s [q|] a] p H; simpl in *; congruence.
  - intros [s [q|] a] H; simpl in *; congruence.
Defined.

#[export, refine] Instance CostNode_NodeLike : NodeLike CostNode :=
  {| state := c_state; parent := c_parent; action := c_action;
     depth := cost_node_depth |}.
Proof.
  - intros [s [q|] a c] p H; simpl in *; congruence.
  - intros [s [q|] a c] H; simpl in *; congruence.
Defined.

(** ** [Maze.__init__]: the dimensions *)

(** [rows if rows % 2 == 1 else rows + 1]. *)
Definition init_dim (n : Z) : Z := if n mod 2 =? 1 then n else n + 1.

(** [self.rows |= 1] at the head of [generate_solvable_maze]. *)
Definition force_odd (n : Z) : Z := Z.lor n 1.

(** The dimension the grid is built with. *)
Definition stored_dim (n : Z) : Z := force_odd (init_dim n).

(** ** [Maze.get_goal], [Maze.is_goal], [Maze.get_next] *)

Definition get_goal (self : Maze) : coord := goal self.

Definition is_goal {N} `{NodeLike N} (self : Maze) (node : N) : bool :=
  if coord_eqb (state node) (goal self) then true else false.

(** The [moves] dictionary, in insertion order. *)
Definition moves : list (string * (Z * Z)) :=
  [("left"%string, (0, -1)); ("right"%string, (0, 1));
   ("up"%string, (-1, 0)); ("down"%string, (1, 0))].

(** One turn of the [for] loop of [get_next]. *)
Definition get_next_body (self : Maze) (st : coord)
    (next_nodes : list (string * coord)) (mv : string * (Z * Z))
  : result (list (string * coord)) :=
  let '(act, (dr, dc)) := mv in
  let next_row := fst st + dr in
  let next_col := snd st + dc in
  if (0 <=? next_row) && (next_row <? rows self)
     && (0 <=? next_col) && (next_col <? cols self)
  then
    (cell <- grid_get (maze self) next_row next_col ;;
     if negb (Ascii.eqb cell WALL)
     then Ok (next_nodes ++ [(act, (next_row, next_col))])
     else Ok next_nodes)%res
  else Ok next_nodes.

Fixpoint for_each {A S} (body : S -> A -> result S) (l : list A) (s : S)
  : result S :=
  match l with
  | [] => Ok s
  | x :: l' => (s' <- body s x ;; for_each body l' s')%res
  end.

Definition get_next {N} `{NodeLike N} (self : Maze) (node : N)
  : result (list (string * coord)) :=
  for_each (get_next_body self (state node)) moves [].

(** ** Frontiers ([util.py]) *)

(** A frontier object is its [self.frontier] list. *)
Module StackFrontier.
Definition t (N : Type) : Type := list N.

Definition new {N} : t N := [].

(** [self.frontier.append(node)] *)
Definition add {N} (self : t N) (node : N) : t N := self ++ [node].

(** [any(node.state == state for node in self.frontier)] *)
Definition contains_state {N} `{NodeLike N} (self : t N) (st : coord)
  : bool :=
  existsb (fun node => coord_eqb (state node) st) self.

(** [len(self.frontier) == 0] *)
Definition empty {N} (self : t N) : bool := (length self =? 0)%nat.

(** [self.frontier[-1]] and [self.frontier[:-1]] *)
Definition remove {N} (self : t N) : result (N * t N) :=
  if empty self then Err EmptyFrontier
  else (node <- py_index self (-1) ;; Ok (node, removelast self))%res.
End StackFrontier.

Module QueueFrontier.
Definition t (N : Type) : Type := StackFrontier.t N.
Definition new {N} : t N := StackFrontier.new.
Definition add {N} : t N -> N -> t N := StackFrontier.add.
Definition contains_state {N} `{NodeLike N} : t N -> coord -> bool :=
  StackFrontier.contains_state.
Definition empty {N} : t N -> bool := StackFrontier.empty.

(** [self.frontier[0]] and [self.frontier[1:]] *)
Definition remove {N} (self : t N) : result (N * t N) :=
  if empty self then Err EmptyFrontier
  else (node <- py_index self 0 ;; Ok (node, tl self))%res.
End QueueFrontier.

(** [self.func] and [self.goal] are set by [__init__] and never assigned
    again: they are parameters of [add]. *)
Module PriorityQueueFrontier.
Definition t (N : Type) : Type := QueueFrontier.t N.
Definition new {N} : t N := QueueFrontier.new.
Definition contains_state {N} `{NodeLike N} : t N -> coord -> bool :=
  QueueFrontier.contains_state.
Definition empty {N} : t N -> bool := QueueFrontier.empty.
Definition remove {N} : t N -> result (N * t N) := QueueFrontier.remove.

(** [self.frontier.append(node)], then
    [self.frontier.sort(key=lambda n: self.func(n, self.goal))] *)
Definition add {N} (func : N -> coord -> Z) (goal : coord)
    (self : t N) (node : N) : t N :=
  py_sorted (fun n => func n goal) (self ++ [node]).
End PriorityQueueFrontier.

Definition manhattan_distance {N} `{NodeLike N} (node : N) (goal : coord)
  : Z :=
  Z.abs (fst (state node) - fst goal) + Z.abs (snd (state node) - snd goal).

Definition cumulative_cost_function (node : CostNode) (goal : coord) : Z :=
  manhattan_distance node goal + cost node.

(** ** The search functions ([search.py]) *)

(** A search function is handed the maze object and calls its methods: a
    computation takes the maze as it is before and gives it back as it is
    after, with what the call did. *)
Definition M (A : Type) : Type := Maze -> outcome A * Maze.

Definition ret {A} (a : A) : M A := fun m => (Return a, m).
Definition raise {A} (e : exn) : M A := fun m => (Raise e, m).
Definition out_of_fuel {A} : M A := fun m => (OutOfFuel, m).

Definition bind {A B} (c : M A) (k : A -> M B) : M B :=
  fun m =>
    match c m with
    | (Return a, m') => k a m'
    | (Raise e, m') => (Raise e, m')
    | (OutOfFuel, m') => (OutOfFuel, m')
    end.

Definition lift {A} (r : result A) : M A :=
  match r with
  | Ok a => ret a
  | Err e => raise e
  end.

(** [maze.get_goal()] and [maze.get_next(node)] *)
Definition call_get_goal : M coord := fun m => (Return (get_goal m), m).
Definition call_get_next {N} `{NodeLike N} (node : N)
  : M (list (string * coord)) :=
  fun m => lift (get_next m node) m.

Declare Scope maze_scope.
Delimit Scope maze_scope with maze.
Notation "x <- c ;; k" := (bind c (fun x => k))
  (at level 61, c at next level, right associativity) : maze_scope.
Notation "' p <- c ;; k" := (bind c (fun x => match x with p => k end))
  (at level 61, p pattern, c at next level, right associativity) : maze_scope.

Definition path : Type := list (option string * coord).

(** [state in explored_states] *)
Definition in_states (st : coord) (explored_states : list coord) : bool :=
  existsb (coord_eqb st) explored_states.

(** The [while node.parent is not None] loop, for each node class. *)
Fixpoint node_back_path (node : Node) : path :=
  match n_parent node with
  | None => []
  | Some p => (n_action node, n_state node) :: node_back_path p
  end.

Fixpoint cost_node_back_path (node : CostNode) : path :=
  match c_parent node with
  | None => []
  | Some p => (c_action node, c_state node) :: cost_node_back_path p
  end.

Fixpoint bfs_loop (fuel : nat) (frontier : QueueFrontier.t Node)
    (explored_states explored : list coord) : M (path * list coord) :=
  match fuel with
  | O => out_of_fuel
  | S fuel' =>
    if QueueFrontier.empty frontier then raise NoSolution
    else
      (' (node, frontier) <- lift (QueueFrontier.remove frontier) ;;
       g <- call_get_goal ;;
       if coord_eqb (state node) g then
         ret (removelast (rev (node_back_path node)), tl explored)
       else
         let explored_states := state node :: explored_states in
         let explored := explored ++ [state node] in
         nexts <- call_get_next node ;;
         let frontier :=
           fold_left
             (fun frontier '(act, st) =>
                if negb (QueueFrontier.contains_state frontier st)
                   && negb (in_states st explored_states)
                then QueueFrontier.add frontier
                       (mkNode st (Some node) (Some act))
                else frontier)
             nexts frontier in
         bfs_loop fuel' frontier explored_states explored)%maze
  end.

Definition breadth_first_search (fuel : nat) (start : coord)
  : M (path * list coord) :=
  let start := mkNode start None None in
  let frontier := QueueFrontier.add QueueFrontier.new start in
  bfs_loop fuel frontier [] [].

Fixpoint dfs_loop (fuel : nat) (frontier : StackFrontier.t Node)
    (explored_states explored : list coord) : M (path * list coord) :=
  match fuel with
  | O => out_of_fuel
  | S fuel' =>
    if StackFrontier.empty frontier then raise NoSolution
    else
      (' (node, frontier) <- lift (StackFrontier.remove frontier) ;;
       g <- call_get_goal ;;
       if coord_eqb (state node) g then
         ret (removelast (rev (node_back_path node)), tl explored)
       else
         let explored_states := state node :: explored_states in
         let explored := explored ++ [state node] in
         nexts <- call_get_next node ;;
         let frontier :=
           fold_left
             (fun frontier '(act, st) =>
                if negb (StackFrontier.contains_state frontier st)
                   && negb (in_states st explored_states)
                then StackFrontier.add frontier
                       (mkNode st (Some node) (Some act))
                else frontier)
             nexts frontier in
         dfs_loop fuel' frontier explored_states explored)%maze
  end.

Definition depth_first_search (fuel : nat) (start : coord)
  : M (path * list coord) :=
  let start := mkNode start None None in
  let frontier := StackFrontier.add StackFrontier.new start in
  dfs_loop fuel frontier [] [].

Fixpoint greedy_loop (fuel : nat) (goal : coord)
    (frontier : PriorityQueueFrontier.t Node)
    (explored_states explored : list coord) : M (path * list coord) :=
  match fuel with
  | O => out_of_fuel
  | S fuel' =>
    if PriorityQueueFrontier.empty frontier then raise NoSolution
    else
      (' (node, frontier) <- lift (PriorityQueueFrontier.remove frontier) ;;
       if coord_eqb (state node) goal then
         ret (removelast (rev (node_back_path node)), tl explored)
       else
         let explored_states := state node :: explored_states in
         let explored := explored ++ [state node] in
         nexts <- call_get_next node ;;
         let frontier :=
           fold_left
             (fun frontier '(act, st) =>
                if negb (PriorityQueueFrontier.contains_state frontier st)
                   && negb (in_states st explored_states)
                then PriorityQueueFrontier.add manhattan_distance goal
                       frontier (mkNode st (Some node) (Some act))
                else frontier)
             nexts frontier in
         greedy_loop fuel' goal frontier explored_states explored)%maze
  end.

Definition greedy_first_search (fuel : nat) (start : coord)
  : M (path * list coord) :=
  (let start := mkNode start None None in
   goal <- call_get_goal ;;
   let frontier :=
     PriorityQueueFrontier.add manhattan_distance goal
       PriorityQueueFrontier.new start in
   greedy_loop fuel goal frontier [] [])%maze.

Fixpoint astar_loop (fuel : nat) (goal : coord)
    (frontier : PriorityQueueFrontier.t CostNode)
    (explored_states explored : list coord) : M (path * list coord) :=
  match fuel with
  | O => out_of_fuel
  | S fuel' =>
    if PriorityQueueFrontier.empty frontier then raise NoSolution
    else
      (' (node, frontier) <- lift (PriorityQueueFrontier.remove frontier) ;;
       if coord_eqb (state node) goal then
         ret (removelast (rev (cost_node_back_path node)), tl explored)
       else
         let explored_states := state node :: explored_states in
         let explored := explored ++ [state node] in
         nexts <- call_get_next node ;;
         let frontier :=
           fold_left
             (fun frontier '(act, st) =>
                if negb (PriorityQueueFrontier.contains_state frontier st)
                   && negb (in_states st explored_states)
                then
                  let cost := cost node + 1 in
                  PriorityQueueFrontier.add cumulative_cost_function goal
                    frontier (mkCostNode st (Some node) (Some act) cost)
                else frontier)
             nexts frontier in
         astar_loop fuel' goal frontier explored_states explored)%maze
  end.

Definition astar_first_search (fuel : nat) (start : coord)
  : M (path * list coord) :=
  (let start := mkCostNode start None None 0 in
   goal <- call_get_goal ;;
   let frontier :=
     PriorityQueueFrontier.add cumulative_cost_function goal
       PriorityQueueFrontier.new start in
   astar_loop fuel goal frontier [] [])%maze.

(** The corridor of the concrete scenario: S at (1,1), G at (1,3). *)
Definition row_of (s : string) : list ascii := list_ascii_of_string s.

Definition corridor : Maze :=
  {| rows := 5; cols := 5; start := (1, 1); goal := (1, 3);
     maze := map row_of
       ["#####"; "#S G#"; "#####"; "#####"; "#####"]%string |}.


(** ** Maze generation ([maze.py]) *)

(** The global random generator: the sequence of its raw draws. *)
Definition rng : Type := nat -> Z.

Definition rng_next (g : rng) : Z * rng := (g O, fun k => g (S k)).

(** [random.randrange(start, stop, step)] for a positive step: it raises
    [ValueError] on an empty range. *)
Definition randrange (start stop step : Z) (g : rng) : result (Z * rng) :=
  let n := (stop - start + step - 1) / step in
  if n <=? 0 then Err ValueError
  else let '(x, g') := rng_next g in Ok (start + step * (x mod n), g').

(** [random.random() + 0.2 * random.randint(0, 1)], as an exact fraction
    scaled by [5 * 2^53]: only the order of the keys is used. *)
Definition biased_key (g : rng) : Z * rng :=
  let '(x, g1) := rng_next g in
  let '(y, g2) := rng_next g1 in
  (5 * (x mod 2 ^ 53) + 2 ^ 53 * (y mod 2), g2).

Fixpoint draw_keys {A} (l : list A) (g : rng) : list (Z * A) * rng :=
  match l with
  | [] => ([], g)
  | x :: l' =>
    let '(k, g1) := biased_key g in
    let '(r, g2) := draw_keys l' g1 in
    ((k, x) :: r, g2)
  end.

(** [sorted(l, key=lambda _: random.random() + 0.2 * random.randint(0, 1))]:
    the key is computed once for each element, in order. *)
Definition sorted_random {A} (l : list A) (g : rng) : list A * rng :=
  let '(kl, g') := draw_keys l g in (map snd (py_sorted fst kl), g').

Definition obind {A B} (o : outcome A) (k : A -> outcome B) : outcome B :=
  match o with
  | Return a => k a
  | Raise e => Raise e
  | OutOfFuel => OutOfFuel
  end.

Definition of_result {A} (r : result A) : outcome A :=
  match r with
  | Ok a => Return a
  | Err e => Raise e
  end.

Declare Scope outcome_scope.
Delimit Scope outcome_scope with out.
Notation "x <- c ;; k" := (obind c (fun x => k))
  (at level 61, c at next level, right associativity) : outcome_scope.
Notation "' p <- c ;; k" := (obind c (fun x => match x with p => k end))
  (at level 61, p pattern, c at next level, right associativity)
  : outcome_scope.

Definition directions : list (Z * Z) := [(0, 1); (1, 0); (0, -1); (-1, 0)].

(** One turn of [for dr, dc in biased_dirs], from the popped cell [(r, c)]. *)
Definition carve_body (rows cols r c : Z) (st : grid * list coord)
    (d : Z * Z) : result (grid * list coord) :=
  let '(maze, stack) := st in
  let '(dr, dc) := d in
  let nr := r + dr * 2 in
  let nc := c + dc * 2 in
  if (0 <=? nr) && (nr <? rows) && (0 <=? nc) && (nc <? cols) then
    (cell <- grid_get maze nr nc ;;
     if Ascii.eqb cell WALL then
       maze <- grid_set maze (r + dr) (c + dc) OPEN ;;
       maze <- grid_set maze nr nc OPEN ;;
       Ok (maze, stack ++ [(nr, nc)])
     else Ok (maze, stack))%res
  else Ok (maze, stack).

(** [while stack:]; the stack grows at the end of the list. *)
Fixpoint carve_loop (fuel : nat) (rows cols : Z) (maze : grid)
    (stack : list coord) (g : rng) : outcome grid :=
  match fuel with
  | O => OutOfFuel
  | S fuel' =>
    match stack with
    | [] => Return maze
    | top :: rest =>
      let '(r, c) := last stack top in
      let stack := removelast stack in
      let '(biased_dirs, g) := sorted_random directions g in
      (' (maze, stack) <-
         of_result (for_each (carve_body rows cols r c) biased_dirs
                      (maze, stack)) ;;
       carve_loop fuel' rows cols maze stack g)%out
    end
  end.

(** One turn of the [for] loop of [find_farthest_point]. *)
Definition farthest_body (maze : grid) (r c dist : Z)
    (queue : list (Z * Z * Z)) (d : Z * Z) : result (list (Z * Z * Z)) :=
  let '(dr, dc) := d in
  let nr := r + dr in
  let nc := c + dc in
  if (0 <=? nr) && (nr <? Z.of_nat (length maze)) then
    (row0 <- py_index maze 0 ;;
     if (0 <=? nc) && (nc <? Z.of_nat (length row0)) then
       cell <- grid_get maze nr nc ;;
       if Ascii.eqb cell OPEN then Ok (queue ++ [(nr, nc, dist + 1)])
       else Ok queue
     else Ok queue)%res
  else Ok queue.

Fixpoint farthest_loop (fuel : nat) (maze : grid) (visited : list coord)
    (queue : list (Z * Z * Z)) (farthest : coord) (max_dist : Z)
  : outcome coord :=
  match fuel with
  | O => OutOfFuel
  | S fuel' =>
    match queue with
    | [] => Return farthest
    | (r, c, dist) :: queue =>
      if in_states (r, c) visited then
        farthest_loop fuel' maze visited queue farthest max_dist
      else
        let visited := (r, c) :: visited in
        let '(max_dist, farthest) :=
          if dist >? max_dist then (dist, (r, c)) else (max_dist, farthest) in
        (queue <-
           of_result (for_each (farthest_body maze r c dist)
                        [(-1, 0); (1, 0); (0, -1); (0, 1)] queue) ;;
         farthest_loop fuel' maze visited queue farthest max_dist)%out
    end
  end.

Definition find_farthest_point (fuel : nat) (maze : grid) (start : coord)
  : outcome coord :=
  farthest_loop fuel maze [] [(fst start, snd start, 0)] start (-1).

(** [generate_solvable_maze], from the [self.rows] and [self.cols] that
    [__init__] stored; it gives the maze object as the constructor leaves
    it. *)
Definition generate_solvable_maze (fuel : nat) (self_rows self_cols : Z)
    (g : rng) : outcome Maze :=
  let rows := force_odd self_rows in
  let cols := force_odd self_cols in
  let maze := repeat (repeat WALL (Z.to_nat cols)) (Z.to_nat rows) in
  (' (start_row, g) <- of_result (randrange 1 rows 2 g) ;;
   ' (start_col, g) <- of_result (randrange 1 cols 2 g) ;;
   maze <- of_result (grid_set maze start_row start_col START) ;;
   maze <- carve_loop fuel rows cols maze [(start_row, start_col)] g ;;
   maze <- of_result (grid_set maze start_row start_col OPEN) ;;
   ' (goal_row, goal_col) <-
     find_farthest_point fuel maze (start_row, start_col) ;;
   maze <- of_result (grid_set maze goal_row goal_col GOAL) ;;
   maze <- of_result (grid_set maze start_row start_col START) ;;
   Return {| rows := rows; cols := cols;
             start := (start_row, start_col);
             goal := (goal_row, goal_col);
             maze := maze |})%out.

(** [Maze(rows, cols)] *)
Definition Maze_init (fuel : nat) (rows cols : Z) (g : rng) : outcome Maze :=
  generate_solvable_maze fuel (init_dim rows) (init_dim cols) g.

(** ** The search skeleton

    The four search functions are one loop over a frontier discipline and a
    node class. *)
Section Skeleton.
Context {N : Type} `{NodeLike N}.
Variable add : list N -> N -> list N.
Variable remove : list N -> result (N * list N).
Variable mk_child : N -> string -> coord -> N.
Variable back_path : N -> path.

(** The variables of the loop. *)
Record search_state : Type := mkState {
  s_frontier : list N;
  s_explored_states : list coord;
  s_explored : list coord
}.

(** The [for action, state in maze.get_next(node)] loop. *)
Definition expand (node : N) (explored_states : list coord)
    (nexts : list (string * coord)) (frontier : list N) : list N :=
  fold_left
    (fun frontier '(act, st) =>
       if negb (StackFrontier.contains_state frontier st)
          && negb (in_states st explored_states)
       then add frontier (mk_child node act st)
       else frontier)
    nexts frontier.

(** One turn of [while True]: the call ends, or the loop goes on. *)
Definition search_step (m : Maze) (s : search_state)
  : outcome (path * list coord) + search_state :=
  if StackFrontier.empty (s_frontier s) then inl (Raise NoSolution)
  else
    match remove (s_frontier s) with
    | Err e => inl (Raise e)
    | Ok (node, frontier) =>
      if coord_eqb (state node) (goal m) then
        inl (Return (removelast (rev (back_path node)), tl (s_explored s)))
      else
        let explored_states := state node :: s_explored_states s in
        let explored := s_explored s ++ [state node] in
        match get_next m node with
        | Err e => inl (Raise e)
        | Ok nexts =>
          inr (mkState (expand node explored_states nexts frontier)
                       explored_states explored)
        end
    end.

Fixpoint search_loop (fuel : nat) (m : Maze) (s : search_state)
  : outcome (path * list coord) :=
  match fuel with
  | O => OutOfFuel
  | S fuel' =>
    match search_step m s with
    | inl r => r
    | inr s' => search_loop fuel' m s'
    end
  end.

(** The loop variables after [k] turns, when the loop gets that far. *)
Fixpoint search_iter (k : nat) (m : Maze) (s : search_state)
  : option search_state :=
  match k with
  | O => Some s
  | S k' =>
    match search_step m s with
    | inl _ => None
    | inr s' => search_iter k' m s'
    end
  end.
End Skeleton.

Definition node_child (p : Node) (act : string) (st : coord) : Node :=
  mkNode st (Some p) (Some act).

Definition cost_node_child (p : CostNode) (act : string) (st : coord)
  : CostNode :=
  mkCostNode st (Some p) (Some act) (cost p + 1).


(** The cell at a coordinate, when the grid has one there. *)
Definition cell_at (g : grid) (p : coord) : option ascii :=
  if (0 <=? fst p) && (0 <=? snd p) then
    match nth_error g (Z.to_nat (fst p)) with
    | Some row => nth_error row (Z.to_nat (snd p))
    | None => None
    end
  else None.

(** A grid of [R] rows of [C] cells each. *)
Definition grid_dims (g : grid) (R C : Z) : Prop :=
  Z.of_nat (length g) = Z.max 0 R /\
  Forall (fun row => Z.of_nat (length row) = Z.max 0 C) g.

Definition in_bounds (R C : Z) (p : coord) : Prop :=
  0 <= fst p < R /\ 0 <= snd p < C.

Definition in_boundsb (R C : Z) (p : coord) : bool :=
  (0 <=? fst p) && (fst p <? R) && (0 <=? snd p) && (snd p <? C).

(** The cell at [p] exists and is not a wall. *)
Definition nonwall (g : grid) (p : coord) : bool :=
  match cell_at g p with
  | Some ch => negb (Ascii.eqb ch WALL)
  | None => false
  end.

(** The grid of the maze object has [rows] rows of [cols] cells. *)
Definition maze_wf (m : Maze) : Prop := grid_dims (maze m) (rows m) (cols m).

Definition move_target (st : coord) (mv : string * (Z * Z)) : coord :=
  (fst st + fst (snd mv), snd st + snd (snd mv)).

(** A move is allowed when its target is within the bounds and not a wall. *)
Definition allowed (m : Maze) (st : coord) (mv : string * (Z * Z)) : bool :=
  in_boundsb (rows m) (cols m) (move_target st mv)
  && nonwall (maze m) (move_target st mv).

Definition neighbours (m : Maze) (st : coord) : list (string * coord) :=
  map (fun mv => (fst mv, move_target st mv)) (filter (allowed m st) moves).

(** ** Walks in the maze *)

(** Two coordinates one move apart. *)
Definition nbr (u v : coord) : Prop :=
  Z.abs (fst u - fst v) + Z.abs (snd u - snd v) = 1.

(** [y] is one move away from [x]: what [get_next] offers at [x]. *)
Definition adj (m : Maze) (x y : coord) : Prop :=
  In y (map snd (neighbours m x)).

(** A walk of [k] moves from [s] to [x]. *)
Inductive walk_len (m : Maze) (s : coord) : coord -> nat -> Prop :=
| walk_here : walk_len m s s O
| walk_move x y k : walk_len m s x k -> adj m x y -> walk_len m s y (S k).

Definition reachable (m : Maze) (s x : coord) : Prop :=
  exists k, walk_len m s x k.

(** [k] is the length of a shortest walk from [s] to [x]. *)
Definition shortest_len (m : Maze) (s x : coord) (k : nat) : Prop :=
  walk_len m s x k /\ forall j, walk_len m s x j -> (k <= j)%nat.

(** ** The search loops: what they maintain *)

(** A node whose parent links lead back to a root at [s], each link one move
    of the maze, and no move undoing the one before it. *)
Inductive good {N} `{NodeLike N} (m : Maze) (s : coord) : N -> Prop :=
| good_root n : parent n = None -> state n = s -> good m s n
| good_child n p :
    parent n = Some p -> good m s p -> adj m (state p) (state n) ->
    (forall q, parent p = Some q -> state q <> state n) ->
    good m s n.

(** Every coordinate within the bounds. *)
Definition all_cells (R C : Z) : list coord :=
  list_prod (map Z.of_nat (seq 0 (Z.to_nat R)))
            (map Z.of_nat (seq 0 (Z.to_nat C))).

(** The bound on the turns of a search loop. *)
Definition search_fuel (m : Maze) : nat :=
  (Z.to_nat (rows m) * Z.to_nat (cols m) + 2)%nat.

(** The state the loops start from. *)
Definition bfs_init (st : coord) : search_state (N := Node) :=
  mkState (QueueFrontier.add QueueFrontier.new (mkNode st None None)) [] [].

Definition dfs_init (st : coord) : search_state (N := Node) :=
  mkState (StackFrontier.add StackFrontier.new (mkNode st None None)) [] [].

Definition greedy_init (m : Maze) (st : coord) : search_state (N := Node) :=
  mkState (PriorityQueueFrontier.add manhattan_distance (goal m)
             PriorityQueueFrontier.new (mkNode st None None)) [] [].

Definition astar_init (m : Maze) (st : coord)
  : search_state (N := CostNode) :=
  mkState (PriorityQueueFrontier.add cumulative_cost_function (goal m)
             PriorityQueueFrontier.new (mkCostNode st None None 0)) [] [].

(** What holds of the loop variables at the head of every turn of a search
    from [s0]. *)
Record Inv {N} `{NodeLike N} (m : Maze) (s0 : coord)
    (s : search_state (N := N)) : Prop := {
  inv_nodup_fr : NoDup (map state (s_frontier s));
  inv_disj :
    forall n, In n (s_frontier s) -> ~ In (state n) (s_explored_states s);
  inv_nodup_es : NoDup (s_explored_states s);
  inv_reach : forall x, In x (s_explored_states s) -> reachable m s0 x;
  inv_good :
    forall n, In n (s_frontier s) ->
      good m s0 n /\
      forall p, parent n = Some p -> In (state p) (s_explored_states s);
  inv_closed :
    forall x y, In x (s_explored_states s) -> adj m x y ->
      In y (s_explored_states s) \/ In y (map state (s_frontier s));
  inv_start :
    In s0 (s_explored_states s) \/ In s0 (map state (s_frontier s));
  inv_goal : ~ In (goal m) (s_explored_states s)
}.

(** The cost of a node counts its parent links: 0 at a root, one more than
    the parent's anywhere else, all the way up. *)
Fixpoint cost_links (n : CostNode) : Prop :=
  match c_parent n with
  | None => cost n = 0
  | Some p => cost n = cost p + 1 /\ cost_links p
  end.

(** ** Frontier ordering *)

(** A list in ascending order of key. *)
Definition ascending {A} (key : A -> Z) (l : list A) : Prop :=
  StronglySorted (fun a b => key a <= key b) l.

(** The frontiers a priority queue can hold: what any sequence of [add] and
    [remove] calls leaves of an empty one. *)
Inductive pq_reachable {N} (func : N -> coord -> Z) (g : coord)
  : list N -> Prop :=
| pq_new : pq_reachable func g PriorityQueueFrontier.new
| pq_added fr n :
    pq_reachable func g fr ->
    pq_reachable func g (PriorityQueueFrontier.add func g fr n)
| pq_removed fr n fr' :
    pq_reachable func g fr ->
    PriorityQueueFrontier.remove fr = Ok (n, fr') ->
    pq_reachable func g fr'.

(** The frontier after adding the nodes of [l], in order, to an empty one. *)
Definition pq_add_all {N} (func : N -> coord -> Z) (g : coord) (l : list N)
  : list N :=
  fold_left (PriorityQueueFrontier.add func g) l PriorityQueueFrontier.new.

(** ** What the generator maintains *)

(** A cell of the carving lattice: odd row, odd column. *)
Definition lattice (p : coord) : Prop :=
  fst p mod 2 = 1 /\ snd p mod 2 = 1.

(** The lattice cell two steps from [p] in direction [dir]. *)
Definition lattice_target (p dir : coord) : coord :=
  (fst p + fst dir * 2, snd p + snd dir * 2).

(** The maze object over a grid, for talking about its walks. *)
Definition maze_of (R C : Z) (s : coord) (g : grid) : Maze :=
  {| rows := R; cols := C; start := s; goal := s; maze := g |}.

(** The open cells form a tree rooted at [s]: [d] gives every open cell its
    depth, two open cells one move apart differ by one in depth, and an open
    cell has at most one open neighbour one level up. *)
Record tree_labelled (g : grid) (s : coord) (d : coord -> nat) : Prop := {
  tl_start : d s = O;
  tl_step :
    forall u v, nonwall g u = true -> nonwall g v = true -> nbr u v ->
                d u = S (d v) \/ d v = S (d u);
  tl_parent :
    forall v u1 u2,
      nonwall g v = true -> nonwall g u1 = true -> nonwall g u2 = true ->
      nbr v u1 -> nbr v u2 -> d v = S (d u1) -> d v = S (d u2) -> u1 = u2
}.

(** The invariant of the carving loop on an [R] by [C] grid, from the start
    cell [s]; [opened] lists the lattice cells carved so far. *)
Record carve_inv (R C : Z) (s : coord) (g : grid) (opened : list coord)
    (d : coord -> nat) : Prop := {
  ci_dims : grid_dims g R C;
  ci_start : nonwall g s = true;
  ci_start_cell : cell_at g s = Some START;
  ci_chars :
    forall q ch, cell_at g q = Some ch -> ch = WALL \/ ch = OPEN \/ q = s;
  ci_opened_nodup : NoDup opened;
  ci_opened : forall q, In q opened -> nonwall g q = true;
  ci_parity :
    forall q, nonwall g q = true -> fst q mod 2 = 1 \/ snd q mod 2 = 1;
  ci_conn_r :
    forall q, nonwall g q = true -> fst q mod 2 = 0 ->
              nonwall g (fst q - 1, snd q) = true /\
              nonwall g (fst q + 1, snd q) = true;
  ci_conn_c :
    forall q, nonwall g q = true -> snd q mod 2 = 0 ->
              nonwall g (fst q, snd q - 1) = true /\
              nonwall g (fst q, snd q + 1) = true;
  ci_tree : tree_labelled g s d;
  ci_reach :
    forall q, nonwall g q = true -> reachable (maze_of R C s g) s q
}.

(** The cells of the stack are open lattice cells. *)
Definition stack_ok (g : grid) (stack : list coord) : Prop :=
  Forall (fun p => lattice p /\ nonwall g p = true) stack.

(** All the lattice neighbours of [p] within the bounds are open. *)
Definition closed_cell (R C : Z) (g : grid) (p : coord) : Prop :=
  forall dir, In dir directions -> in_bounds R C (lattice_target p dir) ->
              nonwall g (lattice_target p dir) = true.

(** Every open lattice cell is still on the stack or has been popped and
    carved from. *)
Definition stack_covers (R C : Z) (g : grid) (stack : list coord) : Prop :=
  forall p, lattice p -> nonwall g p = true ->
            In p stack \/ closed_cell R C g p.

(** The depths after carving from [p] through [mid] to [tgt]. *)
Definition extend_depth (d : coord -> nat) (p mid tgt : coord)
  : coord -> nat :=
  fun x =>
    if coord_eqb x mid then S (d p)
    else if coord_eqb x tgt then S (S (d p))
    else d x.

(** The cell at [q] is an open, unmarked one. *)
Definition is_open (g : grid) (q : coord) : bool :=
  match cell_at g q with
  | Some ch => Ascii.eqb ch OPEN
  | None => false
  end.

(** The queue entries the [for] loop of [find_farthest_point] adds at
    [(r, c)]. *)
Definition open_neighbours (g : grid) (r c dist : Z) (dirs : list (Z * Z))
  : list (Z * Z * Z) :=
  map (fun dir => (r + fst dir, c + snd dir, dist + 1))
      (filter (fun dir => is_open g (r + fst dir, c + snd dir)) dirs).

(** What generation establishes of the maze object. *)
Record generated (m : Maze) : Prop := {
  gen_wf : maze_wf m;
  gen_rows : 3 <= rows m /\ rows m mod 2 = 1;
  gen_cols : 3 <= cols m /\ cols m mod 2 = 1;
  gen_start : lattice (start m) /\ nonwall (maze m) (start m) = true;
  gen_goal : nonwall (maze m) (goal m) = true;
  gen_tree : exists d, tree_labelled (maze m) (start m) d;
  gen_reach :
    forall q, nonwall (maze m) q = true -> reachable m (start m) q;
  gen_start_cell : cell_at (maze m) (start m) = Some START;
  gen_goal_cell :
    goal m <> start m -> cell_at (maze m) (goal m) = Some GOAL;
  gen_cells :
    forall q ch, cell_at (maze m) q = Some ch ->
                 q <> start m -> q <> goal m -> ch = WALL \/ ch = OPEN;
  gen_far : 5 <= rows m \/ 5 <= cols m -> goal m <> start m
}.

(** The fuel that is enough for both loops of the generator on an [R] by
    [C] grid. *)
Definition gen_fuel (R C : Z) : nat :=
  (5 * (Z.to_nat R * Z.to_nat C) + 2)%nat.

(** [p] is the one coordinate whose cell holds [ch]. *)
Definition only_cell (ch : ascii) (g : grid) (p : coord) : Prop :=
  forall q, cell_at g q = Some ch <-> q = p.

(** Exactly one cell of the grid holds [ch]. *)
Definition exactly_one (ch : ascii) (g : grid) : Prop :=
  exists p, only_cell ch g p.

(** The number of cells of a grid that hold [ch]. *)
Definition count_cells (ch : ascii) (g : grid) : nat :=
  list_sum (map (fun row => count_occ Ascii.ascii_dec row ch) g).

(** ** Mazes of the examples *)

(** A maze whose goal is walled off from the start. *)
Definition walled_off : Maze :=
  {| rows := 5; cols := 5; start := (1, 1); goal := (1, 3);
     maze := map row_of
       ["#####"; "#S#G#"; "#####"; "#####"; "#####"]%string |}.

(** The path the concrete scenario expects, and the one the searches give. *)
Definition two_step_path : path :=
  [(Some "right"%string, (1, 2)); (Some "right"%string, (1, 3))].

Definition one_step_path : path := [(Some "right"%string, (1, 2))].

(** A random source that always draws 0. *)
Definition zero_rng : rng := fun _ => 0.

(** The maze [Maze(3, 5)] builds from [zero_rng]. *)
Definition maze_3_5 : Maze :=
  {| rows := 3; cols := 5; start := (1, 1); goal := (1, 3);
     maze := map row_of ["#####"; "#S G#"; "#####"]%string |}.

(** The only maze [Maze(3, 3)] can build: the start cell alone, which is
    also the goal. *)
Definition maze_3_3 : Maze :=
  {| rows := 3; cols := 3; start := (1, 1); goal := (1, 1);
     maze := map row_of ["###"; "#S#"; "###"]%string |}.

(** ** Paths as sequences of moves *)

(** The four search functions. *)
Definition search_functions : list (nat -> coord -> M (path * list coord)) :=
  [breadth_first_search; depth_first_search; greedy_first_search;
   astar_first_search].

(** Every element of the path is a move [get_next] offers at the cell before
    it ([s] before the first), with the cell the move leads to. *)
Fixpoint path_from (m : Maze) (s : coord) (p : path) : Prop :=
  match p with
  | [] => True
  | (a, x) :: p' =>
    (exists act, a = Some act /\ In (act, x) (neighbours m s)) /\
    path_from m x p'
  end.

(** The cell a path from [s] ends on. *)
Definition path_end (s : coord) (p : path) : coord := last (map snd p) s.

(** A node whose parent links lead back to a root at [s], the action and
    state of each node being a move [get_next] offers at its parent. *)
Inductive linked {N} `{NodeLike N} (m : Maze) (s : coord) : N -> Prop :=
| linked_root n : parent n = None -> state n = s -> linked m s n
| linked_child n p act :
    parent n = Some p -> action n = Some act ->
    In (act, state n) (neighbours m (state p)) ->
    linked m s p -> linked m s n.

(** [q] is [n] or one of the nodes its parent links lead to. *)
Inductive ancestor {N} `{NodeLike N} : N -> N -> Prop :=
| ancestor_self n : ancestor n n
| ancestor_up n p q : parent n = Some p -> ancestor p q -> ancestor n q.

(** What else holds of the loop variables at the head of every turn. *)
Record Inv_path {N} `{NodeLike N} (m : Maze) (s0 : coord)
    (s : search_state (N := N)) : Prop := {
  ip_inv : Inv m s0 s;
  ip_linked : Forall (linked m s0) (s_frontier s);
  ip_rev : s_explored_states s = rev (s_explored s);
  ip_first :
    (s_explored s = [] /\ map state (s_frontier s) = [s0]) \/
    exists l, s_explored s = s0 :: l;
  ip_anc :
    forall n q p, In n (s_frontier s) -> ancestor n q -> parent q = Some p ->
                  In (state p) (s_explored_states s) /\ state q <> s0
}.

(** What breadth-first search maintains besides: the frontier holds the
    nodes of depth [D], then those of depth [D + 1]; every cell within [D]
    moves of the start is explored or on the frontier; and no walk to the
    cell of a frontier node is shorter than the depth of the node. *)
Record Inv_bfs {N} `{NodeLike N} (m : Maze) (s0 : coord)
    (s : search_state (N := N)) : Prop := {
  ib_inv : Inv m s0 s;
  ib_min :
    forall n j, In n (s_frontier s) -> walk_len m s0 (state n) j ->
                (depth n <= j)%nat;
  ib_layers :
    exists D A B,
      s_frontier s = A ++ B /\
      Forall (fun n => depth n = D) A /\
      Forall (fun n => depth n = S D) B /\
      (A = [] -> B = []) /\
      forall x j, walk_len m s0 x j -> (j <= D)%nat ->
                  In x (s_explored_states s) \/
                  In x (map state (s_frontier s))
}.

(** A maze with two ways round: S at (1,0), G at (0,4). *)
Definition two_ways : Maze :=
  {| rows := 3; cols := 5; start := (1, 0); goal := (0, 4);
     maze := map row_of ["   #G"; "S# # "; "     "]%string |}.

(** ** Moves there and back *)

(** The action that undoes an action. *)
Definition opposite (a : string) : string :=
  if String.eqb a "left" then "right"
  else if String.eqb a "right" then "left"
  else if String.eqb a "up" then "down"
  else "up".

(** ** The layout of a generated maze *)

(** What the loop of [find_farthest_point] maintains on a grid whose open
    cells form a tree with depths [d] from [s]: a cell waits in the queue
    with its depth, unless it has been visited since; the visited cells are
    closed under going up the tree; [max_dist] is the greatest depth of a
    visited cell and [farthest] a visited cell of that depth. *)
Record far_inv (g : grid) (s : coord) (d : coord -> nat)
    (visited : list coord) (queue : list (Z * Z * Z)) (farthest : coord)
    (max_dist : Z) : Prop := {
  fi_queue :
    forall x dist, In (x, dist) queue ->
      is_open g x = true /\
      ((x = s /\ dist = 0) \/
       exists v, In v visited /\ nbr v x /\ dist = Z.of_nat (d v) + 1);
  fi_parent :
    forall v u, In v visited -> is_open g u = true -> nbr v u ->
                d v = S (d u) -> In u visited;
  fi_visited :
    forall v, In v visited ->
              is_open g v = true /\ Z.of_nat (d v) <= max_dist;
  fi_far :
    (visited = [] /\ max_dist = -1) \/
    (In farthest visited /\ Z.of_nat (d farthest) = max_dist);
  fi_closed :
    forall v u, In v visited -> is_open g u = true -> nbr v u ->
                In u visited \/ In u (map fst queue);
  fi_start : In s visited \/ In s (map fst queue)
}.

(** The layout of the maze object [generate_solvable_maze] leaves, with the
    depths [d] of its open cells in the tree rooted at the start. *)
Record generated_layout (m : Maze) (d : coord -> nat) : Prop := {
  gl_tree : tree_labelled (maze m) (start m) d;
  gl_parity :
    forall q, nonwall (maze m) q = true ->
              fst q mod 2 = 1 \/ snd q mod 2 = 1;
  gl_conn_r :
    forall q, nonwall (maze m) q = true -> fst q mod 2 = 0 ->
              nonwall (maze m) (fst q - 1, snd q) = true /\
              nonwall (maze m) (fst q + 1, snd q) = true;
  gl_conn_c :
    forall q, nonwall (maze m) q = true -> snd q mod 2 = 0 ->
              nonwall (maze m) (fst q, snd q - 1) = true /\
              nonwall (maze m) (fst q, snd q + 1) = true;
  gl_lattice :
    forall p, lattice p -> in_bounds (rows m) (cols m) p ->
              nonwall (maze m) p = true;
  gl_far :
    forall q, nonwall (maze m) q = true -> (d q <= d (goal m))%nat
}.

(** ** [Maze.generate_maze] ([maze.py]) *)

(** [random.randint(a, b)]: [randrange(a, b + 1)]. *)
Definition randint (a b : Z) (g : rng) : result (Z * rng) :=
  randrange a (b + 1) 1 g.

(** [random.choice(seq)]: [IndexError] on an empty sequence. *)
Definition choice {A} (seq : list A) (g : rng) : result (A * rng) :=
  match seq with
  | [] => Err IndexError
  | _ :: _ =>
    let '(x, g') := rng_next g in
    (v <- py_index seq (x mod Z.of_nat (length seq)) ;; Ok (v, g'))%res
  end.

Fixpoint remove_nth {A} (l : list A) (k : nat) : list A :=
  match l, k with
  | [], _ => []
  | _ :: l', O => l'
  | x :: l', S k' => x :: remove_nth l' k'
  end.

(** [l.pop(i)]: the element at [i] and the list without it. *)
Definition py_pop {A} (l : list A) (i : Z) : result (A * list A) :=
  let n := Z.of_nat (length l) in
  let j := if i <? 0 then i + n else i in
  (x <- py_index l i ;; Ok (x, remove_nth l (Z.to_nat j)))%res.

(** [self.start = p] and [self.goal = p]. *)
Definition set_start (p : coord) : M unit :=
  fun m => (Return tt, {| rows := rows m; cols := cols m; start := p;
                          goal := goal m; maze := maze m |}).

Definition set_goal (p : coord) : M unit :=
  fun m => (Return tt, {| rows := rows m; cols := cols m; start := start m;
                          goal := p; maze := maze m |}).

(** A computation that does not touch the maze object. *)
Definition pure_out {A} (o : outcome A) : M A := fun m => (o, m).

(** [1 <= nr < self.rows - 1 and 1 <= nc < self.cols - 1] *)
Definition inner (rows cols nr nc : Z) : bool :=
  (1 <=? nr) && (nr <? rows - 1) && (1 <=? nc) && (nc <? cols - 1).

Definition steps2 : list (Z * Z) := [(-2, 0); (2, 0); (0, -2); (0, 2)].

(** An entry of the wall list: [(wr, wc, dr, dc)]. *)
Definition wall_entry : Type := Z * Z * Z * Z.

(** The first [for] loop: the walls two steps from the start. *)
Definition first_walls (rows cols r c : Z) : list wall_entry :=
  fold_left
    (fun walls '(dr, dc) =>
       let nr := r + dr in
       let nc := c + dc in
       if inner rows cols nr nc then walls ++ [(r + dr, c + dc, dr, dc)]
       else walls)
    steps2 [].

(** One turn of the [for] loop that follows a carving. *)
Definition more_walls_body (rows cols wr wc : Z) (maze : grid)
    (walls : list wall_entry) (d : Z * Z) : result (list wall_entry) :=
  let '(ddr, ddc) := d in
  let nr := wr + ddr in
  let nc := wc + ddc in
  if inner rows cols nr nc then
    (cell <- grid_get maze nr nc ;;
     if Ascii.eqb cell WALL then Ok (walls ++ [(wr + ddr, wc + ddc, ddr, ddc)])
     else Ok walls)%res
  else Ok walls.

(** [while walls:] *)
Fixpoint prim_loop (fuel : nat) (rows cols : Z) (maze : grid)
    (walls : list wall_entry) (g : rng) : outcome (grid * rng) :=
  match fuel with
  | O => OutOfFuel
  | S fuel' =>
    match walls with
    | [] => Return (maze, g)
    | _ :: _ =>
      (' (i, g) <- of_result (randint 0 (Z.of_nat (length walls) - 1) g) ;;
       ' ((wr, wc, dr, dc), walls) <- of_result (py_pop walls i) ;;
       let r := wr - dr in
       let c := wc - dc in
       cell <- of_result (grid_get maze wr wc) ;;
       skip <-
         (if Ascii.eqb cell WALL then
            from <- of_result (grid_get maze r c) ;;
            Return (Ascii.eqb from OPEN)
          else Return false) ;;
       if (skip : bool) then prim_loop fuel' rows cols maze walls g
       else
         cell <- of_result (grid_get maze wr wc) ;;
         if Ascii.eqb cell WALL then
           maze <- of_result (grid_set maze (wr - dr / 2) (wc - dc / 2) OPEN) ;;
           maze <- of_result (grid_set maze wr wc OPEN) ;;
           walls <-
             of_result (for_each (more_walls_body rows cols wr wc maze)
                          steps2 walls) ;;
           prim_loop fuel' rows cols maze walls g
         else prim_loop fuel' rows cols maze walls g)%out
    end
  end.

(** One turn of the comprehension that collects the open cells. *)
Definition empty_spaces_body (maze : grid) (acc : list coord) (p : coord)
  : result (list coord) :=
  (cell <- grid_get maze (fst p) (snd p) ;;
   if Ascii.eqb cell OPEN then Ok (acc ++ [p]) else Ok acc)%res.

(** [generate_maze]: a computation over the maze object, which gives the
    grid it has built and what is left of the random draws. *)
Definition generate_maze (fuel : nat) (g : rng) : M (grid * rng) :=
  (self <- (fun m => (Return m, m)) ;;
   ' (r, g) <- lift (randrange 1 (rows self) 2 g) ;;
   ' (c, g) <- lift (randrange 1 (cols self) 2 g) ;;
   let maze :=
     repeat (repeat WALL (Z.to_nat (cols self))) (Z.to_nat (rows self)) in
   maze <- lift (grid_set maze r c START) ;;
   _ <- set_start (r, c) ;;
   let walls := first_walls (rows self) (cols self) r c in
   ' (maze, g) <- pure_out (prim_loop fuel (rows self) (cols self) maze
                              walls g) ;;
   empty_spaces <-
     lift (for_each (empty_spaces_body maze)
             (all_cells (rows self) (cols self)) []) ;;
   ' ((goal_row, goal_col), g) <- lift (choice empty_spaces g) ;;
   maze <- lift (grid_set maze goal_row goal_col GOAL) ;;
   _ <- set_goal (goal_row, goal_col) ;;
   ret (maze, g))%maze.

(** [q] is one or two steps from [s] along its row or its column. *)
Definition arm (s q : coord) : Prop :=
  (fst q = fst s /\ 1 <= Z.abs (snd q - snd s) <= 2) \/
  (snd q = snd s /\ 1 <= Z.abs (fst q - fst s) <= 2).

(** The cell at [q] exists and is a wall. *)
Definition is_wall (g : grid) (q : coord) : bool :=
  match cell_at g q with
  | Some ch => Ascii.eqb ch WALL
  | None => false
  end.

(** The cell [q] moved by [d], and by half of [d]. *)
Definition shift (q d : coord) : coord := (fst q + fst d, snd q + snd d).
Definition half (d : coord) : coord := (fst d / 2, snd d / 2).

(** The number of cells two steps from [s], inside the border, that are
    still walls. *)
Definition uncarved (R C : Z) (g : grid) (s : coord) : nat :=
  length (filter (fun d => inner R C (fst s + fst d) (snd s + snd d)
                           && is_wall g (shift s d)) steps2).

(** What the [while] loop of [generate_maze] maintains, from the start cell
    [s]. *)
Record prim_inv (R C : Z) (s : coord) (g : grid) (walls : list wall_entry)
  : Prop := {
  pi_dims : grid_dims g R C;
  pi_start : cell_at g s = Some START;
  pi_cells :
    forall q ch, cell_at g q = Some ch ->
                 ch = WALL \/ q = s \/ (ch = OPEN /\ arm s q);
  pi_walls :
    forall wr wc dr dc, In (wr, wc, dr, dc) walls ->
      inner R C wr wc = true /\ In (dr, dc) steps2 /\
      ((wr - dr, wc - dc) = s \/
       cell_at g (wr - dr, wc - dc) = Some OPEN);
  pi_todo :
    forall d, In d steps2 ->
      inner R C (fst s + fst d) (snd s + snd d) = true ->
      cell_at g (shift s d) = Some OPEN \/
      In (fst s + fst d, snd s + snd d, fst d, snd d) walls;
  pi_arm :
    forall d, In d steps2 -> cell_at g (shift s d) = Some OPEN ->
              cell_at g (shift s (half d)) = Some OPEN
}.

(** ** Maze features ([features.py]) *)

(** [float(z)], for an integer of less than 2^53 in size. *)
Definition float_of_Z (z : Z) : PrimFloat.float :=
  if z <? 0 then PrimFloat.opp (PrimFloat.of_uint63 (Uint63.of_Z (- z)))
  else PrimFloat.of_uint63 (Uint63.of_Z z).

(** [a / b] on integers, for a divisor that is not zero: the float nearest
    the quotient. *)
Definition truediv (a b : Z) : PrimFloat.float :=
  PrimFloat.div (float_of_Z a) (float_of_Z b).

(** [a / b] on integers; [None] stands for [ZeroDivisionError]. *)
Definition py_truediv (a b : Z) : option PrimFloat.float :=
  if b =? 0 then None else Some (truediv a b).

(** [sum(iterable)] *)
Definition py_sum (l : list Z) : Z := fold_left Z.add l 0.

(** [range(n)] *)
Definition py_range (n : Z) : list Z := map Z.of_nat (seq 0 (Z.to_nat n)).

(** [sum(1 for cell in row if cell == '#')] *)
Definition row_walls (row : list ascii) : Z :=
  py_sum (map (fun _ => 1) (filter (fun cell => Ascii.eqb cell WALL) row)).

(** [calculate_maze_density(maze)]; it indexes nothing, so the division is
    all that can fail. *)
Definition calculate_maze_density (m : Maze) : option PrimFloat.float :=
  let walls := py_sum (map row_walls (maze m)) in
  py_truediv walls (rows m * cols m).

(** [cell in {' ', 'S', 'G'}] *)
Definition path_cell (cell : ascii) : bool :=
  Ascii.eqb cell OPEN || Ascii.eqb cell START || Ascii.eqb cell GOAL.

(** The offsets both counting loops look at, in their order. *)
Definition around : list (Z * Z) := [(-1, 0); (1, 0); (0, -1); (0, 1)].

(** One turn of [for di, dj in ...] at the cell [(i, j)]: the count goes up
    when the cell next to it is within the bounds and open. *)
Definition around_body (m : Maze) (i j : Z) (count : Z) (d : Z * Z)
  : result Z :=
  let '(di, dj) := d in
  let ni := i + di in
  let nj := j + dj in
  if (0 <=? ni) && (ni <? rows m) && (0 <=? nj) && (nj <? cols m) then
    (cell <- grid_get (maze m) ni nj ;;
     if path_cell cell then Ok (count + 1) else Ok count)%res
  else Ok count.

(** One turn of [for j in range(maze.cols)] in [count_dead_ends]. *)
Definition dead_ends_body (m : Maze) (i : Z) (dead_ends : Z) (j : Z)
  : result Z :=
  (cell <- grid_get (maze m) i j ;;
   if path_cell cell then
     neighbors <- for_each (around_body m i j) around 0 ;;
     if neighbors =? 1 then Ok (dead_ends + 1) else Ok dead_ends
   else Ok dead_ends)%res.

Definition count_dead_ends (m : Maze) : result Z :=
  for_each
    (fun dead_ends i =>
       for_each (dead_ends_body m i) (py_range (cols m)) dead_ends)
    (py_range (rows m)) 0.

(** What [compute_branching_factor] returns: the integer 0 or a float. *)
Inductive py_number : Type :=
| PyInt (z : Z)
| PyFloat (f : PrimFloat.float).

(** One turn of [for j in range(maze.cols)] in [compute_branching_factor];
    the state is [(total_choices, open_cells)]. *)
Definition branching_body (m : Maze) (i : Z) (st : Z * Z) (j : Z)
  : result (Z * Z) :=
  let '(total_choices, open_cells) := st in
  (cell <- grid_get (maze m) i j ;;
   if path_cell cell then
     choices <- for_each (around_body m i j) around 0 ;;
     Ok (total_choices + choices, open_cells + 1)
   else Ok (total_choices, open_cells))%res.

Definition compute_branching_factor (m : Maze) : result py_number :=
  (' (total_choices, open_cells) <-
     for_each
       (fun st i => for_each (branching_body m i) (py_range (cols m)) st)
       (py_range (rows m)) (0, 0) ;;
   if open_cells =? 0 then Ok (PyInt 0)
   else Ok (PyFloat (truediv total_choices open_cells)))%res.

(** The cell at [q] is within the bounds and one of [' '], ['S'], ['G']. *)
Definition path_at (m : Maze) (q : coord) : bool :=
  in_boundsb (rows m) (cols m) q &&
  match cell_at (maze m) q with
  | Some ch => path_cell ch
  | None => false
  end.

(** The number of open cells next to [p]. *)
Definition degree (m : Maze) (p : coord) : nat :=
  length (filter (fun d => path_at m (fst p + fst d, snd p + snd d)) around).

Definition latticeb (p : coord) : bool :=
  (fst p mod 2 =? 1) && (snd p mod 2 =? 1).

(** The open cell one level up from [v] in a tree with depths [d]. *)
Definition parent_cell (g : grid) (d : coord -> nat) (v : coord) : coord :=
  match find (fun u => nonwall g u && (d v =? S (d u))%nat)
             (map (fun dir => (fst v + fst dir, snd v + snd dir)) around)
  with
  | Some u => u
  | None => v
  end.

(** The lattice cells within the bounds, the open cells, and the open cells
    off the lattice, each in the order of the grid. *)
Definition lattice_cells (R C : Z) : list coord :=
  filter latticeb (all_cells R C).

Definition open_cells (g : grid) (R C : Z) : list coord :=
  filter (nonwall g) (all_cells R C).

Definition connector_cells (g : grid) (R C : Z) : list coord :=
  filter (fun q => nonwall g q && negb (latticeb q)) (all_cells R C).

(** [p] and [q] are one move apart. *)
Definition nbrb (p q : coord) : bool :=
  Z.abs (fst p - fst q) + Z.abs (snd p - snd q) =? 1.

(** ** Labelling a maze ([train.py]) *)

Section FloatLiteral.
Import PrimFloat.
Definition one_half : float := 0.5%float.
End FloatLiteral.

(** [0.5 * path_len + 0.5 * explored_len] *)
Definition weighted_score (explored_len path_len : Z) : PrimFloat.float :=
  PrimFloat.add (PrimFloat.mul one_half (float_of_Z path_len))
                (PrimFloat.mul one_half (float_of_Z explored_len)).

(** One turn of [min]: a later item replaces the best one so far when its
    value is below. *)
Definition min_step {K} (best item : K * PrimFloat.float)
  : K * PrimFloat.float :=
  if PrimFloat.ltb (snd item) (snd best) then item else best.

(** [min(d, key=d.get)] for a dict [d] of floats, given by its items in
    insertion order; [ValueError] on an empty dict. *)
Definition min_by_value {K} (d : list (K * PrimFloat.float)) : result K :=
  match d with
  | [] => Err ValueError
  | item :: rest => Ok (fst (fold_left min_step rest item))
  end.

(** [choose_best_algorithm(results)]; [results] is the dict by its items in
    insertion order, each value the tuple [(explored_len, path_len)]. *)
Definition choose_best_algorithm (results : list (string * (Z * Z)))
  : result string :=
  let weighted_scores :=
    map (fun '(algo, (explored_len, path_len)) =>
           (algo, weighted_score explored_len path_len)) results in
  min_by_value weighted_scores.

(** [len(l)] *)
Definition len {A} (l : list A) : Z := Z.of_nat (length l).

(** The label the loop of [generate_maze_dataset] gives the maze it has
    built: the four searches from its start, then the choice.  The names are
    those of the source, which calls the first component of a search's
    result [explored] and the second [path]. *)
Definition maze_label (fuel : nat) : M string :=
  (maze <- (fun m => (Return m, m)) ;;
   ' (bfs_explored, bfs_path) <- breadth_first_search fuel (start maze) ;;
   ' (dfs_explored, dfs_path) <- depth_first_search fuel (start maze) ;;
   ' (gfs_explored, gfs_path) <- greedy_first_search fuel (start maze) ;;
   ' (afs_explored, afs_path) <- astar_first_search fuel (start maze) ;;
   let results :=
     [("BFS"%string, (len bfs_explored + 1, len bfs_path));
      ("AFS"%string, (len afs_explored + 1, len afs_path));
      ("DFS"%string, (len dfs_explored + 1, len dfs_path));
      ("GFS"%string, (len gfs_explored + 1, len gfs_path))] in
   lift (choose_best_algorithm results))%maze.

(** The counts of every entry are at least 0 and below 256. *)
Definition small_counts (results : list (string * (Z * Z))) : Prop :=
  Forall (fun it => 0 <= fst (snd it) < 256 /\ 0 <= snd (snd it) < 256)
         results.

(** What the score of an entry weighs: the sum of its two counts. *)
Definition sum_key (it : string * (Z * Z)) : Z :=
  fst (snd it) + snd (snd it).

(** The entry with its score, as the comprehension pairs them. *)
Definition scored (it : string * (Z * Z)) : string * PrimFloat.float :=
  let '(algo, (explored_len, path_len)) := it in
  (algo, weighted_score explored_len path_len).

(** [min_step] on the sums themselves. *)
Definition sum_step (best it : string * (Z * Z)) : string * (Z * Z) :=
  if sum_key it <? sum_key best then it else best.

(** * Properties *)

(** ** Coordinates and Python lists *)

Lemma coord_eqb_spec (a b : coord) : reflect (a = b) (coord_eqb a b).
Proof.
  destruct a as [ar ac], b as [br bc]; unfold coord_eqb; simpl.
  destruct (Z.eqb_spec ar br), (Z.eqb_spec ac bc); simpl; constructor;
    congruence.
Qed.

Lemma coord_eqb_refl (a : coord) : coord_eqb a a = true.
Proof. destruct (coord_eqb_spec a a); congruence. Qed.

Lemma coord_eqb_eq (a b : coord) : coord_eqb a b = true <-> a = b.
Proof. destruct (coord_eqb_spec a b); split; congruence. Qed.

Lemma coord_eqb_neq (a b : coord) : coord_eqb a b = false <-> a <> b.
Proof. destruct (coord_eqb_spec a b); split; congruence. Qed.

Lemma coord_eq_dec (a b : coord) : {a = b} + {a <> b}.
Proof. destruct (coord_eqb_spec a b); [left | right]; assumption. Qed.

Lemma in_states_spec (st : coord) (l : list coord) :
  in_states st l = true <-> In st l.
Proof.
  unfold in_states. rewrite existsb_exists. split.
  - intros [x [Hin Heq]]. apply coord_eqb_eq in Heq. subst. assumption.
  - intros Hin. exists st. split; [assumption | apply coord_eqb_refl].
Qed.

Lemma in_states_false (st : coord) (l : list coord) :
  in_states st l = false <-> ~ In st l.
Proof.
  rewrite <- in_states_spec. destruct (in_states st l); split; congruence.
Qed.

Lemma py_index_nonneg {A} (l : list A) (i : Z) :
  0 <= i ->
  py_index l i =
  match nth_error l (Z.to_nat i) with
  | Some x => Ok x
  | None => Err IndexError
  end.
Proof.
  intros Hi. unfold py_index.
  destruct (Z.ltb_spec i 0); [lia |].
  destruct (Z.leb_spec 0 i); [| lia]. simpl.
  destruct (Z.ltb_spec i (Z.of_nat (length l))); [reflexivity |].
  assert (Hnone : nth_error l (Z.to_nat i) = None)
    by (apply nth_error_None; lia).
  rewrite Hnone. reflexivity.
Qed.

Lemma py_index_error {A} (l : list A) (i : Z) (e : exn) :
  py_index l i = Err e -> e = IndexError.
Proof.
  unfold py_index.
  destruct ((0 <=? _) && _); [| congruence].
  destruct (nth_error _ _); congruence.
Qed.

Lemma length_replace_nth {A} (l : list A) (k : nat) (v : A) :
  length (replace_nth l k v) = length l.
Proof.
  revert k; induction l as [| x l IH]; intros [| k]; simpl; auto.
Qed.

Lemma nth_error_replace_nth {A} (l : list A) (k j : nat) (v : A) :
  (k < length l)%nat ->
  nth_error (replace_nth l k v) j =
  if (j =? k)%nat then Some v else nth_error l j.
Proof.
  revert k j; induction l as [| x l IH]; intros k j Hk; simpl in Hk.
  - lia.
  - destruct k as [| k], j as [| j]; simpl; try reflexivity.
    apply IH. lia.
Qed.

(** ** The grid as a function of the coordinate *)

Lemma in_boundsb_spec R C p : reflect (in_bounds R C p) (in_boundsb R C p).
Proof.
  apply iff_reflect. unfold in_bounds, in_boundsb.
  rewrite !andb_true_iff, !Z.leb_le, !Z.ltb_lt. tauto.
Qed.

Lemma grid_get_cell_at (g : grid) (r c : Z) :
  0 <= r -> 0 <= c ->
  grid_get g r c =
  match cell_at g (r, c) with
  | Some ch => Ok ch
  | None => Err IndexError
  end.
Proof.
  intros Hr Hc. unfold grid_get, cell_at; simpl.
  destruct (Z.leb_spec 0 r); [| lia].
  destruct (Z.leb_spec 0 c); [| lia]. simpl.
  rewrite py_index_nonneg by assumption.
  destruct (nth_error g (Z.to_nat r)) as [row |]; simpl; [| reflexivity].
  apply py_index_nonneg. assumption.
Qed.

Lemma cell_at_in_bounds (g : grid) (R C : Z) (p : coord) :
  grid_dims g R C -> in_bounds R C p -> exists ch, cell_at g p = Some ch.
Proof.
  intros [Hlen Hrows] [Hr Hc]. unfold cell_at.
  destruct (Z.leb_spec 0 (fst p)); [| lia].
  destruct (Z.leb_spec 0 (snd p)); [| lia]. simpl.
  destruct (nth_error g (Z.to_nat (fst p))) as [row |] eqn:Hrow.
  - apply nth_error_In in Hrow.
    rewrite Forall_forall in Hrows. specialize (Hrows _ Hrow).
    destruct (nth_error row (Z.to_nat (snd p))) as [ch |] eqn:Hch.
    + eauto.
    + apply nth_error_None in Hch. lia.
  - apply nth_error_None in Hrow. lia.
Qed.

Lemma cell_at_some_in_bounds (g : grid) (R C : Z) (p : coord) (ch : ascii) :
  grid_dims g R C -> cell_at g p = Some ch -> in_bounds R C p.
Proof.
  intros [Hlen Hrows] H. unfold cell_at in H. unfold in_bounds.
  destruct (Z.leb_spec 0 (fst p)); simpl in H; [| discriminate].
  destruct (Z.leb_spec 0 (snd p)); simpl in H; [| discriminate].
  destruct (nth_error g (Z.to_nat (fst p))) as [row |] eqn:Hrow;
    [| discriminate].
  assert (Hlt : (Z.to_nat (fst p) < length g)%nat)
    by (apply nth_error_Some; congruence).
  assert (Hlt' : (Z.to_nat (snd p) < length row)%nat)
    by (apply nth_error_Some; congruence).
  apply nth_error_In in Hrow.
  rewrite Forall_forall in Hrows. specialize (Hrows _ Hrow). lia.
Qed.

Lemma grid_set_spec (g : grid) (R C : Z) (p : coord) (v : ascii) :
  grid_dims g R C -> in_bounds R C p ->
  exists g', grid_set g (fst p) (snd p) v = Ok g' /\
             grid_dims g' R C /\
             forall q, cell_at g' q =
                       if coord_eqb q p then Some v else cell_at g q.
Proof.
  intros Hd Hin. pose proof Hd as [Hlen Hrows]. pose proof Hin as [Hr Hc].
  unfold grid_set. rewrite py_index_nonneg by lia.
  destruct (nth_error g (Z.to_nat (fst p))) as [row |] eqn:Hrow.
  2:{ apply nth_error_None in Hrow. lia. }
  simpl. pose proof (nth_error_In _ _ Hrow) as Hrin.
  rewrite Forall_forall in Hrows. pose proof (Hrows _ Hrin) as Hrl.
  unfold py_set_index.
  destruct (Z.ltb_spec (snd p) 0); [lia |].
  destruct (Z.leb_spec 0 (snd p)); [| lia].
  destruct (Z.ltb_spec (snd p) (Z.of_nat (length row))); [| lia]. simpl.
  destruct (Z.ltb_spec (fst p) 0); [lia |].
  destruct (Z.leb_spec 0 (fst p)); [| lia].
  destruct (Z.ltb_spec (fst p) (Z.of_nat (length g))); [| lia]. simpl.
  eexists. split; [reflexivity |]. split.
  - split.
    + rewrite length_replace_nth. assumption.
    + apply Forall_forall. intros x Hx.
      apply In_nth_error in Hx. destruct Hx as [j Hj].
      rewrite nth_error_replace_nth in Hj by lia.
      destruct (j =? Z.to_nat (fst p))%nat.
      * inversion Hj; subst. rewrite length_replace_nth. assumption.
      * apply Hrows. eapply nth_error_In; eassumption.
  - intros q. unfold cell_at.
    destruct (coord_eqb_spec q p) as [-> | Hne].
    + destruct (Z.leb_spec 0 (fst p)); [| lia].
      destruct (Z.leb_spec 0 (snd p)); [| lia]. simpl.
      rewrite nth_error_replace_nth by lia. rewrite Nat.eqb_refl.
      rewrite nth_error_replace_nth by lia. rewrite Nat.eqb_refl.
      reflexivity.
    + destruct (Z.leb_spec 0 (fst q)); simpl; [| reflexivity].
      destruct (Z.leb_spec 0 (snd q)); simpl; [| reflexivity].
      rewrite nth_error_replace_nth by lia.
      destruct (Nat.eqb_spec (Z.to_nat (fst q)) (Z.to_nat (fst p)))
        as [Heq | Hneq]; [| reflexivity].
      rewrite Heq, Hrow.
      rewrite nth_error_replace_nth by lia.
      destruct (Nat.eqb_spec (Z.to_nat (snd q)) (Z.to_nat (snd p)))
        as [Heq' | Hneq']; [| reflexivity].
      exfalso. apply Hne. destruct q, p; simpl in *. f_equal; lia.
Qed.

(** ** Adjacency: what [get_next] computes *)

Lemma get_next_loop_spec (m : Maze) (st : coord) :
  maze_wf m ->
  forall (l : list (string * (Z * Z))) (acc : list (string * coord)),
    for_each (get_next_body m st) l acc =
    Ok (acc ++ map (fun mv => (fst mv, move_target st mv))
                   (filter (allowed m st) l)).
Proof.
  intros Hwf l. induction l as [| [act [dr dc]] l IH]; intros acc.
  - simpl. rewrite app_nil_r. reflexivity.
  - cbn [for_each filter map get_next_body].
    assert (Hal : allowed m st (act, (dr, dc)) =
                  in_boundsb (rows m) (cols m) (fst st + dr, snd st + dc)
                  && nonwall (maze m) (fst st + dr, snd st + dc))
      by reflexivity.
    rewrite Hal.
    change ((0 <=? fst st + dr) && (fst st + dr <? rows m)
            && (0 <=? snd st + dc) && (snd st + dc <? cols m))
      with (in_boundsb (rows m) (cols m) (fst st + dr, snd st + dc)).
    destruct (in_boundsb_spec (rows m) (cols m) (fst st + dr, snd st + dc))
      as [Hin | Hout]; cbn [andb].
    + destruct (cell_at_in_bounds Hwf Hin) as [ch Hch].
      destruct Hin as [Hr Hc]; simpl in Hr, Hc.
      rewrite grid_get_cell_at by lia.
      unfold nonwall. rewrite Hch. cbn [rbind].
      destruct (negb (Ascii.eqb ch WALL)); cbn [rbind map].
      * rewrite IH, <- app_assoc. reflexivity.
      * apply IH.
    + cbn [rbind]. apply IH.
Qed.

Lemma get_next_spec {N} `{NodeLike N} (m : Maze) (node : N) :
  maze_wf m -> get_next m node = Ok (neighbours m (state node)).
Proof.
  intros Hwf. unfold get_next, neighbours.
  rewrite get_next_loop_spec by assumption. reflexivity.
Qed.

Lemma get_next_error {N} `{NodeLike N} (m : Maze) (node : N) (e : exn) :
  get_next m node = Err e -> e = IndexError.
Proof.
  unfold get_next. generalize (@nil (string * coord)).
  induction moves as [| [act [dr dc]] l IH]; intros acc; simpl.
  - discriminate.
  - destruct ((0 <=? _) && _ && _ && _); simpl; [| apply IH].
    unfold grid_get.
    destruct (py_index (maze m) _) as [row | e1] eqn:E1; simpl.
    + destruct (py_index row _) as [ch | e2] eqn:E2; simpl.
      * destruct (negb _); apply IH.
      * intros Heq; inversion Heq; subst. eapply py_index_error; eassumption.
    + intros Heq; inversion Heq; subst. eapply py_index_error; eassumption.
Qed.

(** ** The dimensions *)

Lemma lor_1_odd (n : Z) : Z.odd n = true -> Z.lor n 1 = n.
Proof.
  intros Hodd. apply Z.bits_inj'. intros k Hk.
  rewrite Z.lor_spec.
  destruct (Z.eq_dec k 0) as [-> | Hne].
  - rewrite Z.bit0_odd, Hodd. reflexivity.
  - replace (Z.testbit 1 k) with false; [apply orb_false_r |].
    symmetry. apply Z.bits_above_log2; simpl; lia.
Qed.

Lemma odd_mod2 (n : Z) : Z.odd n = (n mod 2 =? 1).
Proof.
  rewrite <- Z.bit0_mod, Z.bit0_odd. destruct (Z.odd n); reflexivity.
Qed.

Lemma init_dim_spec (n : Z) : init_dim n = if Z.odd n then n else n + 1.
Proof. unfold init_dim. rewrite odd_mod2. reflexivity. Qed.

Lemma init_dim_odd (n : Z) : Z.odd (init_dim n) = true.
Proof.
  rewrite init_dim_spec. destruct (Z.odd n) eqn:Hodd; [assumption |].
  rewrite Z.odd_add, Hodd. reflexivity.
Qed.

Lemma stored_dim_spec (n : Z) :
  stored_dim n = if Z.odd n then n else n + 1.
Proof.
  unfold stored_dim, force_odd. rewrite lor_1_odd by apply init_dim_odd.
  apply init_dim_spec.
Qed.

Lemma stored_dim_odd (n : Z) : Z.odd (stored_dim n) = true.
Proof.
  unfold stored_dim, force_odd. rewrite lor_1_odd by apply init_dim_odd.
  apply init_dim_odd.
Qed.

Lemma stored_dim_ge (n : Z) : n <= stored_dim n.
Proof. rewrite stored_dim_spec. destruct (Z.odd n); lia. Qed.

(** ** The stable sort *)

Section SortFacts.
Variable A : Type.
Variable key : A -> Z.

Lemma insert_by_perm (x : A) (l : list A) :
  Permutation (insert_by key x l) (x :: l).
Proof.
  induction l as [| y l IH]; simpl.
  - apply Permutation_refl.
  - destruct (key x <=? key y).
    + apply Permutation_refl.
    + eapply Permutation_trans; [apply perm_skip, IH | apply perm_swap].
Qed.

Lemma py_sorted_perm (l : list A) : Permutation (py_sorted key l) l.
Proof.
  induction l as [| x l IH]; simpl.
  - apply Permutation_refl.
  - eapply Permutation_trans; [apply insert_by_perm |].
    apply perm_skip, IH.
Qed.

Lemma insert_by_ascending (x : A) (l : list A) :
  ascending key l -> ascending key (insert_by key x l).
Proof.
  unfold ascending. induction l as [| y l IH]; intros Hs; simpl.
  - constructor; constructor.
  - inversion Hs as [| ? ? Hs' Hall]; subst.
    destruct (Z.leb_spec (key x) (key y)).
    + constructor; [assumption |].
      constructor; [assumption |].
      eapply Forall_impl; [| exact Hall]. simpl. intros; lia.
    + constructor; [apply IH; assumption |].
      eapply Permutation_Forall;
        [apply Permutation_sym, insert_by_perm |].
      constructor; [lia | assumption].
Qed.

Lemma py_sorted_ascending (l : list A) : ascending key (py_sorted key l).
Proof.
  induction l as [| x l IH]; simpl.
  - constructor.
  - apply insert_by_ascending, IH.
Qed.

(** Stability: elements of equal key keep their order. *)
Lemma insert_by_stable (k : Z) (x : A) (l : list A) :
  filter (fun y => key y =? k) (insert_by key x l) =
  filter (fun y => key y =? k) (x :: l).
Proof.
  induction l as [| y l IH]; simpl; [reflexivity |].
  destruct (Z.leb_spec (key x) (key y)); simpl; [reflexivity |].
  rewrite IH. simpl.
  destruct (Z.eqb_spec (key x) k), (Z.eqb_spec (key y) k);
    try reflexivity; lia.
Qed.

Lemma py_sorted_stable (k : Z) (l : list A) :
  filter (fun y => key y =? k) (py_sorted key l) =
  filter (fun y => key y =? k) l.
Proof.
  induction l as [| x l IH]; simpl; [reflexivity |].
  rewrite insert_by_stable. simpl. rewrite IH. reflexivity.
Qed.

Lemma insert_by_least (x : A) (l : list A) :
  Forall (fun y => key x <= key y) l -> insert_by key x l = x :: l.
Proof.
  intros Hall. destruct l as [| y l]; simpl; [reflexivity |].
  inversion Hall; subst.
  destruct (Z.leb_spec (key x) (key y)); [reflexivity | lia].
Qed.

Lemma py_sorted_id (l : list A) :
  ascending key l -> py_sorted key l = l.
Proof.
  unfold ascending. induction l as [| x l IH]; intros Hs; simpl.
  - reflexivity.
  - inversion Hs; subst. rewrite IH by assumption.
    apply insert_by_least. assumption.
Qed.

(** Appending to an ascending list and sorting puts the new element after
    every element whose key is at most its own, and moves nothing else. *)
Lemma py_sorted_snoc (x : A) (l : list A) :
  ascending key l ->
  exists l1 l2,
    l = l1 ++ l2 /\
    py_sorted key (l ++ [x]) = l1 ++ x :: l2 /\
    Forall (fun y => key y <= key x) l1 /\
    Forall (fun y => key x < key y) l2.
Proof.
  unfold ascending. induction l as [| y l IH]; intros Hs.
  - exists [], []. simpl. auto.
  - inversion Hs as [| ? ? Hs' Hall]; subst.
    destruct (IH Hs') as (l1 & l2 & Hl & Hsort & H1 & H2).
    simpl. rewrite Hsort.
    destruct (Z.leb_spec (key y) (key x)) as [Hle | Hgt].
    + exists (y :: l1), l2. repeat split.
      * simpl. congruence.
      * simpl. apply insert_by_least.
        subst l. rewrite Forall_app in Hall. destruct Hall as [Ha1 Ha2].
        apply Forall_app. split; [assumption |].
        constructor; assumption.
      * constructor; assumption.
      * assumption.
    + assert (Hl1 : l1 = []).
      { destruct l1 as [| z l1]; [reflexivity |].
        subst l. inversion Hall; subst. inversion H1; subst. lia. }
      subst l1. simpl in *. subst l2.
      exists [], (y :: l). repeat split.
      * simpl.
        destruct (Z.leb_spec (key y) (key x)); [lia |].
        f_equal. apply insert_by_least. assumption.
      * constructor.
      * constructor; assumption.
Qed.
End SortFacts.

(** ** The four search functions are the skeleton, and leave the maze alone *)

Ltac unfold_m :=
  unfold bind, lift, ret, raise, out_of_fuel, call_get_goal, call_get_next,
    get_goal.

Lemma bfs_loop_skeleton (fuel : nat) (m : Maze) (fr : list Node)
    (es ex : list coord) :
  bfs_loop fuel fr es ex m =
  (search_loop QueueFrontier.add QueueFrontier.remove node_child
     node_back_path fuel m (mkState fr es ex), m).
Proof.
  revert fr es ex. induction fuel as [| fuel IH]; intros fr es ex.
  - reflexivity.
  - cbn [bfs_loop search_loop]. unfold search_step. cbn [s_frontier].
    change (QueueFrontier.empty fr) with (StackFrontier.empty fr).
    destruct (StackFrontier.empty fr); [reflexivity |].
    unfold_m. destruct (QueueFrontier.remove fr) as [[node fr'] | e];
      [| reflexivity].
    destruct (coord_eqb (state node) (goal m)); [reflexivity |].
    destruct (get_next m node) as [nexts | e]; [| reflexivity].
    cbn [s_explored_states s_explored]. unfold lift, ret. cbv beta iota.
    rewrite IH.
    reflexivity.
Qed.

Lemma dfs_loop_skeleton (fuel : nat) (m : Maze) (fr : list Node)
    (es ex : list coord) :
  dfs_loop fuel fr es ex m =
  (search_loop StackFrontier.add StackFrontier.remove node_child
     node_back_path fuel m (mkState fr es ex), m).
Proof.
  revert fr es ex. induction fuel as [| fuel IH]; intros fr es ex.
  - reflexivity.
  - cbn [dfs_loop search_loop]. unfold search_step. cbn [s_frontier].
    destruct (StackFrontier.empty fr); [reflexivity |].
    unfold_m. destruct (StackFrontier.remove fr) as [[node fr'] | e];
      [| reflexivity].
    destruct (coord_eqb (state node) (goal m)); [reflexivity |].
    destruct (get_next m node) as [nexts | e]; [| reflexivity].
    cbn [s_explored_states s_explored]. unfold lift, ret. cbv beta iota.
    rewrite IH.
    reflexivity.
Qed.

Lemma greedy_loop_skeleton (fuel : nat) (m : Maze) (fr : list Node)
    (es ex : list coord) :
  greedy_loop fuel (goal m) fr es ex m =
  (search_loop (PriorityQueueFrontier.add manhattan_distance (goal m))
     QueueFrontier.remove node_child node_back_path fuel m
     (mkState fr es ex), m).
Proof.
  revert fr es ex. induction fuel as [| fuel IH]; intros fr es ex.
  - reflexivity.
  - cbn [greedy_loop search_loop]. unfold search_step. cbn [s_frontier].
    change (PriorityQueueFrontier.empty fr) with (StackFrontier.empty fr).
    destruct (StackFrontier.empty fr); [reflexivity |].
    unfold_m.
    change (PriorityQueueFrontier.remove fr) with (QueueFrontier.remove fr).
    destruct (QueueFrontier.remove fr) as [[node fr'] | e];
      [| reflexivity].
    destruct (coord_eqb (state node) (goal m)); [reflexivity |].
    destruct (get_next m node) as [nexts | e]; [| reflexivity].
    cbn [s_explored_states s_explored]. unfold lift, ret. cbv beta iota.
    rewrite IH.
    reflexivity.
Qed.

Lemma astar_loop_skeleton (fuel : nat) (m : Maze) (fr : list CostNode)
    (es ex : list coord) :
  astar_loop fuel (goal m) fr es ex m =
  (search_loop (PriorityQueueFrontier.add cumulative_cost_function (goal m))
     QueueFrontier.remove cost_node_child cost_node_back_path fuel m
     (mkState fr es ex), m).
Proof.
  revert fr es ex. induction fuel as [| fuel IH]; intros fr es ex.
  - reflexivity.
  - cbn [astar_loop search_loop]. unfold search_step. cbn [s_frontier].
    change (PriorityQueueFrontier.empty fr) with (StackFrontier.empty fr).
    destruct (StackFrontier.empty fr); [reflexivity |].
    unfold_m.
    change (PriorityQueueFrontier.remove fr) with (QueueFrontier.remove fr).
    destruct (QueueFrontier.remove fr) as [[node fr'] | e];
      [| reflexivity].
    destruct (coord_eqb (state node) (goal m)); [reflexivity |].
    destruct (get_next m node) as [nexts | e]; [| reflexivity].
    cbn [s_explored_states s_explored]. unfold lift, ret. cbv beta iota.
    rewrite IH.
    reflexivity.
Qed.

Lemma breadth_first_search_skeleton fuel st m :
  breadth_first_search fuel st m =
  (search_loop QueueFrontier.add QueueFrontier.remove node_child
     node_back_path fuel m (bfs_init st), m).
Proof. apply bfs_loop_skeleton. Qed.

Lemma depth_first_search_skeleton fuel st m :
  depth_first_search fuel st m =
  (search_loop StackFrontier.add StackFrontier.remove node_child
     node_back_path fuel m (dfs_init st), m).
Proof. apply dfs_loop_skeleton. Qed.

Lemma greedy_first_search_skeleton fuel st m :
  greedy_first_search fuel st m =
  (search_loop (PriorityQueueFrontier.add manhattan_distance (goal m))
     QueueFrontier.remove node_child node_back_path fuel m
     (greedy_init m st), m).
Proof. apply greedy_loop_skeleton. Qed.

Lemma astar_first_search_skeleton fuel st m :
  astar_first_search fuel st m =
  (search_loop (PriorityQueueFrontier.add cumulative_cost_function (goal m))
     QueueFrontier.remove cost_node_child cost_node_back_path fuel m
     (astar_init m st), m).
Proof. apply astar_loop_skeleton. Qed.

(** ** Frontier disciplines *)

Lemma contains_state_spec {N} `{NodeLike N} (fr : list N) (st : coord) :
  StackFrontier.contains_state fr st = true <-> In st (map state fr).
Proof.
  unfold StackFrontier.contains_state. rewrite existsb_exists, in_map_iff.
  split; intros [x [H1 H2]]; exists x.
  - apply coord_eqb_eq in H2. auto.
  - split; [assumption | apply coord_eqb_eq; assumption].
Qed.

Lemma empty_spec {N} (fr : list N) :
  StackFrontier.empty fr = true <-> fr = [].
Proof.
  unfold StackFrontier.empty. destruct fr; simpl; split; congruence.
Qed.

Lemma stack_add_perm {N} (fr : list N) (n : N) :
  Permutation (StackFrontier.add fr n) (n :: fr).
Proof.
  unfold StackFrontier.add. apply Permutation_sym, Permutation_cons_append.
Qed.

Lemma pq_add_perm {N} (func : N -> coord -> Z) (g : coord) (fr : list N)
    (n : N) :
  Permutation (PriorityQueueFrontier.add func g fr n) (n :: fr).
Proof.
  unfold PriorityQueueFrontier.add.
  eapply Permutation_trans; [apply py_sorted_perm |].
  apply Permutation_sym, Permutation_cons_append.
Qed.

Lemma py_index_last {A} (l : list A) (d : A) :
  l <> [] -> py_index l (-1) = Ok (last l d).
Proof.
  intros Hne. destruct (exists_last Hne) as [l' [x ->]].
  rewrite last_last. unfold py_index. rewrite length_app. simpl length.
  destruct (Z.ltb_spec (-1) 0); [| lia].
  destruct (Z.leb_spec 0 (-1 + Z.of_nat (length l' + 1))); [| lia].
  destruct (Z.ltb_spec (-1 + Z.of_nat (length l' + 1))
              (Z.of_nat (length l' + 1))); [| lia].
  simpl andb. cbv iota.
  replace (Z.to_nat (-1 + Z.of_nat (length l' + 1))) with (length l') by lia.
  rewrite nth_error_app2 by lia. rewrite Nat.sub_diag. reflexivity.
Qed.

Lemma stack_remove_ok {N} (fr : list N) :
  fr <> [] ->
  exists n fr', StackFrontier.remove fr = Ok (n, fr') /\
                fr = fr' ++ [n].
Proof.
  intros Hne. unfold StackFrontier.remove.
  destruct (StackFrontier.empty fr) eqn:He.
  - apply empty_spec in He. contradiction.
  - destruct (exists_last Hne) as [l' [x Heq]].
    rewrite (py_index_last x Hne). cbn [rbind].
    exists (last fr x), (removelast fr). split; [reflexivity |].
    apply app_removelast_last. assumption.
Qed.

Lemma queue_remove_ok {N} (fr : list N) :
  fr <> [] ->
  exists n fr', QueueFrontier.remove fr = Ok (n, fr') /\ fr = n :: fr'.
Proof.
  intros Hne. unfold QueueFrontier.remove, QueueFrontier.empty.
  destruct fr as [| x fr0]; [contradiction |].
  simpl. eexists _, _. split; reflexivity.
Qed.

Lemma stack_remove_perm {N} (fr : list N) :
  fr <> [] ->
  exists n fr', StackFrontier.remove fr = Ok (n, fr') /\
                Permutation fr (n :: fr').
Proof.
  intros Hne. destruct (stack_remove_ok Hne) as (n & fr' & Hr & Heq).
  exists n, fr'. split; [assumption |].
  rewrite Heq. apply Permutation_sym, Permutation_cons_append.
Qed.

Lemma queue_remove_perm {N} (fr : list N) :
  fr <> [] ->
  exists n fr', QueueFrontier.remove fr = Ok (n, fr') /\
                Permutation fr (n :: fr').
Proof.
  intros Hne. destruct (queue_remove_ok Hne) as (n & fr' & Hr & Heq).
  exists n, fr'. split; [assumption |]. rewrite Heq. apply Permutation_refl.
Qed.

(** ** The search loop: invariants *)

Lemma in_all_cells (R C : Z) (p : coord) :
  in_bounds R C p -> In p (all_cells R C).
Proof.
  intros [Hr Hc]. destruct p as [r c]; simpl in *. unfold all_cells.
  apply in_prod; apply in_map_iff.
  - exists (Z.to_nat r). split; [lia | apply in_seq; lia].
  - exists (Z.to_nat c). split; [lia | apply in_seq; lia].
Qed.

Lemma length_all_cells (R C : Z) :
  length (all_cells R C) = (Z.to_nat R * Z.to_nat C)%nat.
Proof.
  unfold all_cells, coord. rewrite length_prod, !length_map, !length_seq.
  reflexivity.
Qed.

Lemma adj_in_bounds (m : Maze) (x y : coord) :
  adj m x y -> in_bounds (rows m) (cols m) y /\ nonwall (maze m) y = true.
Proof.
  unfold adj, neighbours. intros Hin.
  apply in_map_iff in Hin. destruct Hin as [[a y'] [Heq Hin]].
  apply in_map_iff in Hin. destruct Hin as [mv [Heq' Hin]].
  inversion Heq'; subst a y'. cbn [snd] in Heq.
  apply filter_In in Hin. destruct Hin as [_ Hal].
  unfold allowed in Hal. apply andb_true_iff in Hal. destruct Hal as [Hb Hw].
  subst y. split; [| assumption].
  destruct (in_boundsb_spec (rows m) (cols m) (move_target x mv));
    [assumption | discriminate].
Qed.

Lemma reachable_in_bounds (m : Maze) (s x : coord) :
  reachable m s x -> x = s \/ in_bounds (rows m) (cols m) x.
Proof.
  intros [k Hw]. destruct Hw as [| x y k Hw Hadj].
  - left; reflexivity.
  - right. apply (@adj_in_bounds m x y Hadj).
Qed.

Section SkeletonFacts.
Context {N : Type} `{NodeLike N}.
Variable add : list N -> N -> list N.
Variable remove : list N -> result (N * list N).
Variable mk_child : N -> string -> coord -> N.
Variable back_path : N -> path.

Hypothesis add_perm : forall fr n, Permutation (add fr n) (n :: fr).
Hypothesis remove_perm :
  forall fr, fr <> [] ->
    exists n fr', remove fr = Ok (n, fr') /\ Permutation fr (n :: fr').
Hypothesis child_state : forall p a s, state (mk_child p a s) = s.
Hypothesis child_parent : forall p a s, parent (mk_child p a s) = Some p.
Hypothesis back_path_eq :
  forall n, back_path n =
            match parent n with
            | None => []
            | Some p => (action n, state n) :: back_path p
            end.

Variable m : Maze.
Variable s0 : coord.

Lemma back_path_length (n : N) : length (back_path n) = depth n.
Proof.
  remember (depth n) as k eqn:Hk. revert n Hk.
  induction k as [| k IH]; intros n Hk; rewrite back_path_eq;
    destruct (parent n) as [p |] eqn:Hp.
  - rewrite (depth_parent _ Hp) in Hk. discriminate.
  - reflexivity.
  - simpl. f_equal. apply IH.
    rewrite (depth_parent _ Hp) in Hk. congruence.
  - rewrite (depth_root _ Hp) in Hk. discriminate.
Qed.

Lemma good_walk (n : N) : good m s0 n -> walk_len m s0 (state n) (depth n).
Proof.
  induction 1 as [n Hp Hs | n p Hp Hg IH Hadj Hnb].
  - rewrite (depth_root _ Hp), Hs. constructor.
  - rewrite (depth_parent _ Hp). econstructor; eassumption.
Qed.

Lemma expand_spec (n : N) (es : list coord)
    (nexts : list (string * coord)) :
  forall fr,
    NoDup (map state fr) ->
    (forall x, In x fr -> ~ In (state x) es) ->
    let fr' := expand add mk_child n es nexts fr in
    NoDup (map state fr') /\
    (forall x, In x fr' -> ~ In (state x) es) /\
    (forall x, In x fr' ->
               In x fr \/
               exists a s, In (a, s) nexts /\ x = mk_child n a s) /\
    (forall x, In x fr -> In x fr') /\
    (forall a s, In (a, s) nexts -> In s es \/ In s (map state fr')).
Proof.
  induction nexts as [| [a s] nexts IH]; intros fr Hnd Hdis; simpl.
  - repeat split; auto. intros a s [].
  - unfold expand in *. simpl fold_left.
    destruct (negb (StackFrontier.contains_state fr s)
              && negb (in_states s es)) eqn:Hc.
    + apply andb_true_iff in Hc. destruct Hc as [Hc1 Hc2].
      apply negb_true_iff in Hc1, Hc2.
      assert (Hnf : ~ In s (map state fr)).
      { rewrite <- contains_state_spec. congruence. }
      apply in_states_false in Hc2.
      assert (Hpm : Permutation (map state (add fr (mk_child n a s)))
                                (s :: map state fr)).
      { rewrite <- (child_state n a s) at 2.
        apply (Permutation_map state (add_perm fr (mk_child n a s))). }
      assert (Hnd1 : NoDup (map state (add fr (mk_child n a s)))).
      { eapply Permutation_NoDup; [apply Permutation_sym, Hpm |].
        constructor; assumption. }
      assert (Hdis1 : forall x, In x (add fr (mk_child n a s)) ->
                                ~ In (state x) es).
      { intros x Hx.
        apply (Permutation_in _ (add_perm fr (mk_child n a s))) in Hx.
        destruct Hx as [<- | Hx]; [rewrite child_state; assumption |].
        apply Hdis; assumption. }
      destruct (IH _ Hnd1 Hdis1) as (I1 & I2 & I3 & I4 & I5).
      assert (Hnew : In (mk_child n a s) (add fr (mk_child n a s))).
      { apply (Permutation_in _ (Permutation_sym
                 (add_perm fr (mk_child n a s)))). left; reflexivity. }
      repeat split; auto.
      * intros x Hx. destruct (I3 x Hx) as [Hx1 | (a' & s' & Hin & Heq)].
        -- apply (Permutation_in _ (add_perm fr (mk_child n a s))) in Hx1.
           destruct Hx1 as [<- | Hx1]; [| left; assumption].
           right. exists a, s. split; [left; reflexivity | reflexivity].
        -- right. exists a', s'. split; [right; assumption | assumption].
      * intros x Hx. apply I4.
        apply (Permutation_in _ (Permutation_sym
                 (add_perm fr (mk_child n a s)))). right; assumption.
      * intros a' s' [Heq | Hin]; [| apply I5 with a'; assumption].
        inversion Heq; subst a' s'. right.
        apply in_map_iff. exists (mk_child n a s).
        split; [apply child_state | apply I4; assumption].
    + destruct (IH _ Hnd Hdis) as (I1 & I2 & I3 & I4 & I5).
      repeat split; auto.
      * intros x Hx. destruct (I3 x Hx) as [Hx1 | (a' & s' & Hin & Heq)];
          [left; assumption |].
        right. exists a', s'. split; [right; assumption | assumption].
      * intros a' s' [Heq | Hin]; [| apply I5 with a'; assumption].
        inversion Heq; subst a' s'.
        apply andb_false_iff in Hc. destruct Hc as [Hc | Hc];
          apply negb_false_iff in Hc.
        -- right. apply contains_state_spec in Hc.
           apply in_map_iff in Hc. destruct Hc as [x [Hx1 Hx2]].
           apply in_map_iff. exists x. split; [assumption | auto].
        -- left. apply in_states_spec. assumption.
Qed.

Hypothesis Hwf : maze_wf m.

Local Abbreviation step := (search_step add remove mk_child back_path m).
Local Abbreviation loop := (search_loop add remove mk_child back_path).

Lemma step_continue (s s' : search_state) :
  Inv m s0 s -> step s = inr s' ->
  Inv m s0 s' /\
  length (s_explored_states s') = S (length (s_explored_states s)).
Proof.
  intros [Hndf Hdis Hnde Hreach Hgood Hclosed Hstart Hgoal] Hstep.
  unfold search_step in Hstep.
  destruct (StackFrontier.empty (s_frontier s)) eqn:He; [discriminate |].
  assert (Hne : s_frontier s <> []).
  { intros Heq. apply empty_spec in Heq. congruence. }
  destruct (remove_perm Hne) as (n & fr1 & Hrem & Hperm).
  rewrite Hrem in Hstep.
  destruct (coord_eqb (state n) (goal m)) eqn:Hg; [discriminate |].
  rewrite (get_next_spec n Hwf) in Hstep.
  inversion Hstep; subst s'; clear Hstep. cbn [s_frontier s_explored_states].
  split; [| reflexivity].
  apply coord_eqb_neq in Hg.
  assert (Hn : In n (s_frontier s)).
  { apply (Permutation_in _ (Permutation_sym Hperm)). left; reflexivity. }
  assert (Hsub : forall x, In x fr1 -> In x (s_frontier s)).
  { intros x Hx. apply (Permutation_in _ (Permutation_sym Hperm)).
    right; assumption. }
  assert (Hnd1 : NoDup (state n :: map state fr1)).
  { eapply Permutation_NoDup; [| exact Hndf].
    apply (Permutation_map state Hperm). }
  inversion Hnd1 as [| ? ? Hnotin Hnd2]; subst.
  assert (Hdis1 : forall x, In x fr1 ->
                            ~ In (state x) (state n :: s_explored_states s)).
  { intros x Hx [Heq | Hin].
    - apply Hnotin. rewrite Heq. apply in_map. assumption.
    - apply (Hdis x (Hsub x Hx)). assumption. }
  destruct (expand_spec n (state n :: s_explored_states s)
              (neighbours m (state n)) fr1 Hnd2 Hdis1)
    as (I1 & I2 & I3 & I4 & I5).
  destruct (Hgood n Hn) as [Hgn Hpn].
  constructor; cbn [s_frontier s_explored_states].
  - assumption.
  - assumption.
  - constructor; [apply Hdis; assumption | assumption].
  - intros x [<- | Hx]; [| apply Hreach; assumption].
    exists (depth n). apply good_walk. assumption.
  - intros x Hx. destruct (I3 x Hx) as [Hx1 | (a & c & Hin & Heq)].
    + destruct (Hgood x (Hsub x Hx1)) as [Hgx Hpx].
      split; [assumption |]. intros p Hp. right. apply Hpx. assumption.
    + subst x. split.
      * apply good_child with n.
        -- apply child_parent.
        -- assumption.
        -- rewrite child_state. unfold adj. apply in_map_iff.
           exists (a, c). split; [reflexivity | assumption].
        -- intros q Hq Heq. rewrite child_state in Heq.
           apply (I2 _ Hx). rewrite child_state. right.
           rewrite <- Heq. apply Hpn. assumption.
      * intros p Hp. rewrite child_parent in Hp. inversion Hp; subst p.
        left; reflexivity.
  - intros x y [<- | Hx] Hadj.
    + unfold adj in Hadj. apply in_map_iff in Hadj.
      destruct Hadj as [[a y'] [Heq Hin]]. simpl in Heq. subst y'.
      apply (I5 a y Hin).
    + destruct (Hclosed x y Hx Hadj) as [Hy | Hy].
      * left. right. assumption.
      * apply in_map_iff in Hy. destruct Hy as [z [Hz1 Hz2]].
        apply (Permutation_in _ Hperm) in Hz2.
        destruct Hz2 as [<- | Hz2].
        -- left. left. assumption.
        -- right. apply in_map_iff. exists z. split; [assumption | auto].
  - destruct Hstart as [Hs | Hs].
    + left. right. assumption.
    + apply in_map_iff in Hs. destruct Hs as [z [Hz1 Hz2]].
      apply (Permutation_in _ Hperm) in Hz2.
      destruct Hz2 as [<- | Hz2].
      * left. left. assumption.
      * right. apply in_map_iff. exists z. split; [assumption | auto].
  - intros [Heq | Hin]; [apply Hg; assumption | apply Hgoal; assumption].
Qed.

Lemma closed_reachable (s : search_state) :
  Inv m s0 s -> s_frontier s = [] ->
  forall x, reachable m s0 x -> In x (s_explored_states s).
Proof.
  intros HI Hfr x [k Hw]. induction Hw as [| x y k Hw IH Hadj].
  - destruct (inv_start HI) as [Hs | Hs]; [assumption |].
    rewrite Hfr in Hs. contradiction.
  - destruct (inv_closed HI x y IH Hadj) as [Hy | Hy]; [assumption |].
    rewrite Hfr in Hy. contradiction.
Qed.

(** How a turn can end the call. *)
Lemma step_finish (s : search_state) (r : outcome (path * list coord)) :
  Inv m s0 s -> step s = inl r ->
  (r = Raise NoSolution /\ ~ reachable m s0 (goal m)) \/
  (exists n, r = Return (removelast (rev (back_path n)),
                         tl (s_explored s)) /\
             good m s0 n /\ state n = goal m).
Proof.
  intros HI Hstep. unfold search_step in Hstep.
  destruct (StackFrontier.empty (s_frontier s)) eqn:He.
  - left. inversion Hstep; subst r. split; [reflexivity |].
    apply empty_spec in He. intros Hr.
    apply (inv_goal HI). apply (closed_reachable HI He Hr).
  - assert (Hne : s_frontier s <> []).
    { intros Heq. apply empty_spec in Heq. congruence. }
    destruct (remove_perm Hne) as (n & fr1 & Hrem & Hperm).
    rewrite Hrem in Hstep.
    destruct (coord_eqb (state n) (goal m)) eqn:Hg.
    + right. exists n. inversion Hstep; subst r.
      split; [reflexivity |]. split.
      * apply (inv_good HI).
        apply (Permutation_in _ (Permutation_sym Hperm)). left; reflexivity.
      * apply coord_eqb_eq. assumption.
    + rewrite (get_next_spec n Hwf) in Hstep. discriminate.
Qed.

Lemma explored_bound (s : search_state) :
  Inv m s0 s ->
  (length (s_explored_states s)
   <= S (Z.to_nat (rows m) * Z.to_nat (cols m)))%nat.
Proof.
  intros HI. rewrite <- length_all_cells.
  change (S (length (all_cells (rows m) (cols m))))
    with (length (s0 :: all_cells (rows m) (cols m))).
  apply NoDup_incl_length; [apply (inv_nodup_es HI) |].
  intros x Hx. destruct (reachable_in_bounds (inv_reach HI x Hx)) as [-> | Hb].
  - left; reflexivity.
  - right. apply in_all_cells. assumption.
Qed.

(** The loop ends the call within [rows * cols + 2] turns. *)
Lemma loop_result (fuel : nat) (s : search_state) :
  Inv m s0 s ->
  (S (Z.to_nat (rows m) * Z.to_nat (cols m))
   < fuel + length (s_explored_states s))%nat ->
  (loop fuel m s = Raise NoSolution /\ ~ reachable m s0 (goal m)) \/
  (exists n ex, loop fuel m s = Return (removelast (rev (back_path n)), ex)
                /\ good m s0 n /\ state n = goal m).
Proof.
  revert s. induction fuel as [| fuel IH]; intros s HI Hfuel.
  - pose proof (explored_bound HI). simpl in Hfuel. lia.
  - cbn [search_loop]. destruct (step s) as [r | s'] eqn:Hstep.
    + destruct (step_finish HI Hstep) as [[-> Hnr] | (n & -> & Hg & Hs)].
      * left. split; [reflexivity | assumption].
      * right. exists n, (tl (s_explored s)). auto.
    + destruct (step_continue HI Hstep) as [HI' Hlen].
      apply IH; [assumption | lia].
Qed.

(** Whatever the fuel, the loop never lets an empty-frontier error out. *)
Lemma loop_no_empty_frontier (fuel : nat) (s : search_state) :
  loop fuel m s <> Raise EmptyFrontier.
Proof.
  revert s. induction fuel as [| fuel IH]; intros s; cbn [search_loop].
  - discriminate.
  - destruct (step s) as [r | s'] eqn:Hstep; [| apply IH].
    unfold search_step in Hstep.
    destruct (StackFrontier.empty (s_frontier s)) eqn:He.
    + inversion Hstep; subst r. discriminate.
    + assert (Hne : s_frontier s <> []).
      { intros Heq. apply empty_spec in Heq. congruence. }
      destruct (remove_perm Hne) as (n & fr1 & Hrem & Hperm).
      rewrite Hrem in Hstep.
      destruct (coord_eqb (state n) (goal m)).
      * inversion Hstep; subst r. discriminate.
      * destruct (get_next m n) as [nexts | e] eqn:Hn; [discriminate |].
        inversion Hstep; subst r.
        apply get_next_error in Hn. subst e. discriminate.
Qed.

(** The state the loop starts from. *)
Lemma init_inv (root : N) :
  parent root = None -> state root = s0 ->
  Inv m s0 (mkState (add [] root) [] []).
Proof.
  intros Hp Hs.
  assert (Hfr : add [] root = [root]).
  { apply Permutation_length_1_inv, Permutation_sym, add_perm. }
  rewrite Hfr.
  constructor; cbn [s_frontier s_explored_states map].
  - constructor; [intros [] | constructor].
  - intros n _ [].
  - constructor.
  - intros x [].
  - intros n [<- | []]. split; [apply good_root; assumption |].
    intros p Hp'. congruence.
  - intros x y [].
  - right. left. assumption.
  - intros [].
Qed.

(** With [rows * cols + 2] turns of fuel a search from [s0] ends: it raises
    "No solution" when the goal cannot be reached, and otherwise returns
    the back path of a good node on the goal. *)
Lemma search_result (fuel : nat) (root : N) :
  parent root = None -> state root = s0 ->
  (Z.to_nat (rows m) * Z.to_nat (cols m) + 2 <= fuel)%nat ->
  let r := loop fuel m (mkState (add [] root) [] []) in
  (r = Raise NoSolution /\ ~ reachable m s0 (goal m)) \/
  (exists n ex, r = Return (removelast (rev (back_path n)), ex)
                /\ good m s0 n /\ state n = goal m).
Proof.
  intros Hp Hs Hfuel. apply loop_result.
  - apply init_inv; assumption.
  - cbn [s_explored_states length]. lia.
Qed.
End SkeletonFacts.

(** ** The four instances *)

Lemma node_back_path_eq (n : Node) :
  node_back_path n =
  match parent n with
  | None => []
  | Some p => (action n, state n) :: node_back_path p
  end.
Proof. destruct n as [s [p |] a]; reflexivity. Qed.

Lemma cost_node_back_path_eq (n : CostNode) :
  cost_node_back_path n =
  match parent n with
  | None => []
  | Some p => (action n, state n) :: cost_node_back_path p
  end.
Proof. destruct n as [s [p |] a c]; reflexivity. Qed.

Lemma greedy_add_perm (g : coord) (fr : list Node) (n : Node) :
  Permutation (PriorityQueueFrontier.add manhattan_distance g fr n) (n :: fr).
Proof. apply pq_add_perm. Qed.

Lemma astar_add_perm (g : coord) (fr : list CostNode) (n : CostNode) :
  Permutation (PriorityQueueFrontier.add cumulative_cost_function g fr n)
              (n :: fr).
Proof. apply pq_add_perm. Qed.

Lemma bfs_result (m : Maze) (s0 : coord) (fuel : nat) :
  maze_wf m -> (search_fuel m <= fuel)%nat ->
  (fst (breadth_first_search fuel s0 m) = Raise NoSolution /\
   ~ reachable m s0 (goal m)) \/
  (exists (n : Node) ex,
      fst (breadth_first_search fuel s0 m) =
      Return (removelast (rev (node_back_path n)), ex) /\
      good m s0 n /\ state n = goal m).
Proof.
  intros Hwf Hfuel. rewrite breadth_first_search_skeleton. cbn [fst].
  apply search_result;
    auto using stack_add_perm, queue_remove_perm, stack_remove_perm,
      greedy_add_perm, astar_add_perm.
Qed.

Lemma dfs_result (m : Maze) (s0 : coord) (fuel : nat) :
  maze_wf m -> (search_fuel m <= fuel)%nat ->
  (fst (depth_first_search fuel s0 m) = Raise NoSolution /\
   ~ reachable m s0 (goal m)) \/
  (exists (n : Node) ex,
      fst (depth_first_search fuel s0 m) =
      Return (removelast (rev (node_back_path n)), ex) /\
      good m s0 n /\ state n = goal m).
Proof.
  intros Hwf Hfuel. rewrite depth_first_search_skeleton. cbn [fst].
  apply search_result;
    auto using stack_add_perm, queue_remove_perm, stack_remove_perm,
      greedy_add_perm, astar_add_perm.
Qed.

Lemma greedy_result (m : Maze) (s0 : coord) (fuel : nat) :
  maze_wf m -> (search_fuel m <= fuel)%nat ->
  (fst (greedy_first_search fuel s0 m) = Raise NoSolution /\
   ~ reachable m s0 (goal m)) \/
  (exists (n : Node) ex,
      fst (greedy_first_search fuel s0 m) =
      Return (removelast (rev (node_back_path n)), ex) /\
      good m s0 n /\ state n = goal m).
Proof.
  intros Hwf Hfuel. rewrite greedy_first_search_skeleton. cbn [fst].
  apply search_result;
    auto using stack_add_perm, queue_remove_perm, stack_remove_perm,
      greedy_add_perm, astar_add_perm.
Qed.

Lemma astar_result (m : Maze) (s0 : coord) (fuel : nat) :
  maze_wf m -> (search_fuel m <= fuel)%nat ->
  (fst (astar_first_search fuel s0 m) = Raise NoSolution /\
   ~ reachable m s0 (goal m)) \/
  (exists (n : CostNode) ex,
      fst (astar_first_search fuel s0 m) =
      Return (removelast (rev (cost_node_back_path n)), ex) /\
      good m s0 n /\ state n = goal m).
Proof.
  intros Hwf Hfuel. rewrite astar_first_search_skeleton. cbn [fst].
  apply search_result;
    auto using stack_add_perm, queue_remove_perm, stack_remove_perm,
      greedy_add_perm, astar_add_perm.
Qed.

(** ** Search on an unsolvable maze *)

Lemma bfs_no_empty_frontier fuel s0 m :
  fst (breadth_first_search fuel s0 m) <> Raise EmptyFrontier.
Proof.
  rewrite breadth_first_search_skeleton.
  apply loop_no_empty_frontier, queue_remove_perm.
Qed.

Lemma dfs_no_empty_frontier fuel s0 m :
  fst (depth_first_search fuel s0 m) <> Raise EmptyFrontier.
Proof.
  rewrite depth_first_search_skeleton.
  apply loop_no_empty_frontier, stack_remove_perm.
Qed.

Lemma greedy_no_empty_frontier fuel s0 m :
  fst (greedy_first_search fuel s0 m) <> Raise EmptyFrontier.
Proof.
  rewrite greedy_first_search_skeleton.
  apply loop_no_empty_frontier, queue_remove_perm.
Qed.

Lemma astar_no_empty_frontier fuel s0 m :
  fst (astar_first_search fuel s0 m) <> Raise EmptyFrontier.
Proof.
  rewrite astar_first_search_skeleton.
  apply loop_no_empty_frontier, queue_remove_perm.
Qed.

Lemma good_reachable {N} `{NodeLike N} (m : Maze) (s0 : coord) (n : N) :
  good m s0 n -> reachable m s0 (state n).
Proof. intros Hg. exists (depth n). apply good_walk. assumption. Qed.

(** C3: on a maze (a grid of [rows] by [cols] cells) whose goal cannot be
    reached from the start coordinate by moves onto cells that are not
    walls, each of the four searches ends, within [rows * cols + 2] turns of
    its loop, by raising "No solution"; and on no maze, with no fuel, does
    the "empty frontier" error of [remove] come out of a search. *)
Theorem unsolvable_maze_raises_no_solution (m : Maze) (s0 : coord)
    (fuel : nat) :
  (fst (breadth_first_search fuel s0 m) <> Raise EmptyFrontier /\
   fst (depth_first_search fuel s0 m) <> Raise EmptyFrontier /\
   fst (greedy_first_search fuel s0 m) <> Raise EmptyFrontier /\
   fst (astar_first_search fuel s0 m) <> Raise EmptyFrontier) /\
  (maze_wf m -> ~ reachable m s0 (goal m) ->
   (search_fuel m <= fuel)%nat ->
   fst (breadth_first_search fuel s0 m) = Raise NoSolution /\
   fst (depth_first_search fuel s0 m) = Raise NoSolution /\
   fst (greedy_first_search fuel s0 m) = Raise NoSolution /\
   fst (astar_first_search fuel s0 m) = Raise NoSolution).
Proof.
  split.
  - auto using bfs_no_empty_frontier, dfs_no_empty_frontier,
      greedy_no_empty_frontier, astar_no_empty_frontier.
  - intros Hwf Hnr Hfuel. repeat split.
    + destruct (bfs_result s0 Hwf Hfuel) as [[Hr _] | (n & ex & _ & Hg & Hs)];
        [assumption |].
      exfalso. apply Hnr. rewrite <- Hs. apply good_reachable. assumption.
    + destruct (dfs_result s0 Hwf Hfuel) as [[Hr _] | (n & ex & _ & Hg & Hs)];
        [assumption |].
      exfalso. apply Hnr. rewrite <- Hs. apply good_reachable. assumption.
    + destruct (greedy_result s0 Hwf Hfuel)
        as [[Hr _] | (n & ex & _ & Hg & Hs)]; [assumption |].
      exfalso. apply Hnr. rewrite <- Hs. apply good_reachable. assumption.
    + destruct (astar_result s0 Hwf Hfuel)
        as [[Hr _] | (n & ex & _ & Hg & Hs)]; [assumption |].
      exfalso. apply Hnr. rewrite <- Hs. apply good_reachable. assumption.
Qed.

Lemma walled_off_wf : maze_wf walled_off.
Proof.
  split; [reflexivity |]. repeat constructor.
Qed.

Lemma walled_off_stuck (x : coord) (k : nat) :
  walk_len walled_off (1, 1) x k -> x = (1, 1).
Proof.
  induction 1 as [| x y k Hw IH Hadj]; [reflexivity |].
  subst x. vm_compute in Hadj. contradiction.
Qed.

Lemma walled_off_unreachable : ~ reachable walled_off (1, 1) (goal walled_off).
Proof.
  intros [k Hw]. apply walled_off_stuck in Hw. discriminate.
Qed.

Lemma unsolvable_maze_raises_no_solution_witness :
  fst (breadth_first_search 27 (1, 1) walled_off) = Raise NoSolution /\
  fst (depth_first_search 27 (1, 1) walled_off) = Raise NoSolution /\
  fst (greedy_first_search 27 (1, 1) walled_off) = Raise NoSolution /\
  fst (astar_first_search 27 (1, 1) walled_off) = Raise NoSolution.
Proof.
  apply (unsolvable_maze_raises_no_solution walled_off (1, 1) 27).
  - exact walled_off_wf.
  - exact walled_off_unreachable.
  - vm_compute. lia.
Defined.

(** ** The searches leave the maze as it was *)

(** C9: whatever a search call does (return, raise, or run on), the maze
    object it was handed, grid, dimensions, start and goal, is the one it
    hands back. *)
Theorem search_leaves_maze_unchanged (m : Maze) (s0 : coord) (fuel : nat) :
  snd (breadth_first_search fuel s0 m) = m /\
  snd (depth_first_search fuel s0 m) = m /\
  snd (greedy_first_search fuel s0 m) = m /\
  snd (astar_first_search fuel s0 m) = m.
Proof.
  rewrite breadth_first_search_skeleton, depth_first_search_skeleton,
    greedy_first_search_skeleton, astar_first_search_skeleton.
  repeat split.
Qed.

(** ** The corridor scenario *)

(** C4 as stated fails: on the corridor, breadth-first search never returns
    the two-step path. *)
Lemma corridor_two_step_path_refuted :
  ~ exists fuel ex,
      fst (breadth_first_search fuel (1, 1) corridor)
      = Return (two_step_path, ex).
Proof.
  intros (fuel & ex & Hr).
  destruct fuel as [| [| [| fuel]]]; vm_compute in Hr; discriminate.
Qed.

(** C4, amended: on the corridor, with three turns of fuel or more, each of
    the four searches returns the path [[('right', (1, 2))]]: the step onto
    the goal is left out by [path[:-1]]. *)
Theorem corridor_search_paths (fuel : nat) :
  (3 <= fuel)%nat ->
  fst (breadth_first_search fuel (1, 1) corridor)
  = Return (one_step_path, [(1, 2)]) /\
  fst (depth_first_search fuel (1, 1) corridor)
  = Return (one_step_path, [(1, 2)]) /\
  fst (greedy_first_search fuel (1, 1) corridor)
  = Return (one_step_path, [(1, 2)]) /\
  fst (astar_first_search fuel (1, 1) corridor)
  = Return (one_step_path, [(1, 2)]).
Proof.
  intros Hfuel.
  destruct fuel as [| [| [| fuel]]]; try lia.
  repeat split; vm_compute; reflexivity.
Qed.

Lemma corridor_search_paths_witness :
  fst (breadth_first_search 3 (1, 1) corridor)
  = Return (one_step_path, [(1, 2)]) /\
  fst (depth_first_search 3 (1, 1) corridor)
  = Return (one_step_path, [(1, 2)]) /\
  fst (greedy_first_search 3 (1, 1) corridor)
  = Return (one_step_path, [(1, 2)]) /\
  fst (astar_first_search 3 (1, 1) corridor)
  = Return (one_step_path, [(1, 2)]).
Proof.
  apply (@corridor_search_paths 3). lia.
Defined.

(** ** [get_next] *)

(** C5: on a maze whose grid has [rows] rows of [cols] cells, [get_next]
    returns, for the directions left, right, up, down in that order, the
    pair of the action and the target coordinate of exactly those whose
    target is within the bounds and is not a wall. *)
Theorem get_next_exact {N} `{NodeLike N} (m : Maze) (node : N) :
  maze_wf m ->
  in_bounds (rows m) (cols m) (state node) ->
  get_next m node =
  Ok (map (fun mv => (fst mv, move_target (state node) mv))
        (filter
           (fun mv =>
              in_boundsb (rows m) (cols m) (move_target (state node) mv)
              && nonwall (maze m) (move_target (state node) mv))
           [("left"%string, (0, -1)); ("right"%string, (0, 1));
            ("up"%string, (-1, 0)); ("down"%string, (1, 0))])).
Proof.
  intros Hwf _. apply get_next_spec. assumption.
Qed.

Lemma corridor_wf : maze_wf corridor.
Proof.
  split; [reflexivity |]. repeat constructor.
Qed.

Lemma get_next_exact_witness :
  get_next corridor (mkNode (1, 2) None None) =
  Ok [("left"%string, (1, 1)); ("right"%string, (1, 3))].
Proof.
  assert (Hb : in_bounds (rows corridor) (cols corridor) (1, 2))
    by (unfold in_bounds; simpl; lia).
  exact (@get_next_exact Node _ corridor (mkNode (1, 2) None None)
           corridor_wf Hb).
Defined.

(** ** Frontier ordering *)

Lemma pq_reachable_ascending {N} (func : N -> coord -> Z) (g : coord)
    (fr : list N) :
  pq_reachable func g fr -> ascending (fun n => func n g) fr.
Proof.
  induction 1 as [| fr n Hr IH | fr n fr' Hr IH Hrem].
  - constructor.
  - apply py_sorted_ascending.
  - destruct fr as [| x fr0]; [discriminate |].
    vm_compute in Hrem. inversion Hrem; subst.
    inversion IH; assumption.
Qed.

Lemma pq_add_all_snoc {N} (func : N -> coord -> Z) (g : coord) (l : list N)
    (n : N) :
  pq_add_all func g (l ++ [n]) =
  PriorityQueueFrontier.add func g (pq_add_all func g l) n.
Proof. unfold pq_add_all. rewrite fold_left_app. reflexivity. Qed.

Lemma pq_add_all_reachable {N} (func : N -> coord -> Z) (g : coord)
    (l : list N) :
  pq_reachable func g (pq_add_all func g l).
Proof.
  induction l as [| n l IH] using rev_ind.
  - constructor.
  - rewrite pq_add_all_snoc. constructor. assumption.
Qed.

Lemma filter_snoc {A} (f : A -> bool) (l : list A) (x : A) :
  filter f (l ++ [x]) = filter f l ++ (if f x then [x] else []).
Proof. rewrite filter_app. reflexivity. Qed.

Lemma pq_add_all_stable {N} (func : N -> coord -> Z) (g : coord)
    (l : list N) (p : Z) :
  filter (fun n => func n g =? p) (pq_add_all func g l) =
  filter (fun n => func n g =? p) l.
Proof.
  induction l as [| n l IH] using rev_ind.
  - reflexivity.
  - rewrite pq_add_all_snoc. unfold PriorityQueueFrontier.add.
    rewrite (py_sorted_stable (fun n => func n g)).
    rewrite !filter_snoc, IH. reflexivity.
Qed.

(** C6: after adding N1, N2, N3 to an empty frontier, three [remove] calls
    give N3, N2, N1 on a stack and N1, N2, N3 on a queue.  A priority
    frontier, after any sequence of adds and removes, is in ascending order
    of priority; [remove] takes its first node, whose priority is the least;
    [add] puts the node after every node whose priority is at most its own
    and before the others, moving none of them; so after adding the nodes of
    a list, the nodes of each priority are in the order they were added. *)
Theorem frontier_ordering_laws :
  (forall N (n1 n2 n3 : N),
      let fr :=
        StackFrontier.add
          (StackFrontier.add (StackFrontier.add StackFrontier.new n1) n2) n3
      in
      exists f2 f1,
        StackFrontier.remove fr = Ok (n3, f2) /\
        StackFrontier.remove f2 = Ok (n2, f1) /\
        StackFrontier.remove f1 = Ok (n1, StackFrontier.new)) /\
  (forall N (n1 n2 n3 : N),
      let fr :=
        QueueFrontier.add
          (QueueFrontier.add (QueueFrontier.add QueueFrontier.new n1) n2) n3
      in
      exists f2 f1,
        QueueFrontier.remove fr = Ok (n1, f2) /\
        QueueFrontier.remove f2 = Ok (n2, f1) /\
        QueueFrontier.remove f1 = Ok (n3, QueueFrontier.new)) /\
  (forall N (func : N -> coord -> Z) (g : coord) (fr : list N),
      pq_reachable func g fr ->
      ascending (fun n => func n g) fr /\
      (fr <> [] ->
       exists n fr',
         PriorityQueueFrontier.remove fr = Ok (n, fr') /\
         fr = n :: fr' /\
         Forall (fun x => func n g <= func x g) fr) /\
      (forall n, exists l1 l2,
          fr = l1 ++ l2 /\
          PriorityQueueFrontier.add func g fr n = l1 ++ n :: l2 /\
          Forall (fun x => func x g <= func n g) l1 /\
          Forall (fun x => func n g < func x g) l2)) /\
  (forall N (func : N -> coord -> Z) (g : coord) (l : list N),
      ascending (fun n => func n g) (pq_add_all func g l) /\
      Permutation (pq_add_all func g l) l /\
      forall p, filter (fun n => func n g =? p) (pq_add_all func g l) =
                filter (fun n => func n g =? p) l).
Proof.
  split; [| split; [| split]].
  - intros N n1 n2 n3. exists [n1; n2], [n1]. repeat split.
  - intros N n1 n2 n3. exists [n2; n3], [n3]. repeat split.
  - intros N func g fr Hr.
    pose proof (pq_reachable_ascending Hr) as Hasc.
    split; [assumption |]. split.
    + intros Hne. destruct fr as [| x fr0]; [contradiction |].
      exists x, fr0. split; [reflexivity |]. split; [reflexivity |].
      inversion Hasc; subst. constructor; [lia | assumption].
    + intros n. apply (py_sorted_snoc (key := fun n => func n g)).
      assumption.
  - intros N func g l. split; [| split].
    + apply pq_reachable_ascending, pq_add_all_reachable.
    + induction l as [| n l IH] using rev_ind.
      * apply Permutation_refl.
      * rewrite pq_add_all_snoc.
        eapply Permutation_trans; [apply pq_add_perm |].
        eapply Permutation_trans; [apply perm_skip, IH |].
        apply Permutation_cons_append.
    + intros p. apply pq_add_all_stable.
Qed.

Lemma frontier_ordering_laws_witness :
  let fr :=
    PriorityQueueFrontier.add manhattan_distance (1, 3)
      (PriorityQueueFrontier.add manhattan_distance (1, 3)
         PriorityQueueFrontier.new (mkNode (1, 1) None None))
      (mkNode (1, 2) None None) in
  exists n fr',
    PriorityQueueFrontier.remove fr = Ok (n, fr') /\
    fr = n :: fr' /\
    Forall (fun x => manhattan_distance n (1, 3)
                     <= manhattan_distance x (1, 3)) fr.
Proof.
  pose proof (pq_added (mkNode (1, 2) None None)
                (pq_added (mkNode (1, 1) None None)
                   (pq_new manhattan_distance (1, 3)))) as Hr.
  destruct (proj1 (proj2 (proj2 frontier_ordering_laws)) Node
              manhattan_distance (1, 3) _ Hr) as (_ & Hrem & _).
  apply Hrem. discriminate.
Defined.

(** ** A-star: the cost of a node is its depth *)

Lemma expand_Forall {N} `{NodeLike N} (add : list N -> N -> list N)
    (mk_child : N -> string -> coord -> N) (P : N -> Prop) (n : N)
    (es : list coord) (nexts : list (string * coord)) :
  (forall fr x, Forall P fr -> P x -> Forall P (add fr x)) ->
  (forall a s, P (mk_child n a s)) ->
  forall fr, Forall P fr -> Forall P (expand add mk_child n es nexts fr).
Proof.
  intros Hadd Hchild. unfold expand.
  induction nexts as [| [a s] nexts IH]; intros fr Hfr; simpl.
  - assumption.
  - apply IH. destruct (negb _ && negb _); [| assumption].
    apply Hadd; [assumption | apply Hchild].
Qed.

Lemma cost_links_depth (n : CostNode) :
  cost_links n -> cost n = Z.of_nat (depth n).
Proof.
  remember (depth n) as k eqn:Hk. revert n Hk.
  induction k as [| k IH]; intros [s [p |] a c] Hk; simpl in *.
  - discriminate.
  - auto.
  - intros [Hc Hl]. rewrite Hc, (IH p) by (assumption || congruence). lia.
  - discriminate.
Qed.

Lemma astar_step_cost (m : Maze) (s s' : search_state) :
  Forall cost_links (s_frontier s) ->
  search_step (PriorityQueueFrontier.add cumulative_cost_function (goal m))
    QueueFrontier.remove cost_node_child cost_node_back_path m s = inr s' ->
  Forall cost_links (s_frontier s').
Proof.
  intros Hall Hstep. unfold search_step in Hstep.
  destruct (StackFrontier.empty (s_frontier s)) eqn:He; [discriminate |].
  assert (Hne : s_frontier s <> []).
  { intros Heq. apply empty_spec in Heq. congruence. }
  destruct (queue_remove_ok Hne) as (n & fr1 & Hrem & Hfr).
  rewrite Hrem in Hstep. rewrite Hfr in Hall. inversion Hall; subst.
  destruct (coord_eqb (state n) (goal m)); [discriminate |].
  destruct (get_next m n) as [nexts | e]; [| discriminate].
  inversion Hstep; subst s'. cbn [s_frontier].
  apply expand_Forall; [| | assumption].
  - intros fr x Hfr' Hx.
    eapply Permutation_Forall;
      [apply Permutation_sym, astar_add_perm |].
    constructor; assumption.
  - intros a c. simpl. split; [reflexivity | assumption].
Qed.

Lemma astar_iter_cost (m : Maze) (k : nat) :
  forall s s',
    Forall cost_links (s_frontier s) ->
    search_iter (PriorityQueueFrontier.add cumulative_cost_function (goal m))
      QueueFrontier.remove cost_node_child cost_node_back_path k m s
    = Some s' ->
    Forall cost_links (s_frontier s').
Proof.
  induction k as [| k IH]; intros s s' Hall Hit; cbn [search_iter] in Hit.
  - inversion Hit; subst. assumption.
  - destruct (search_step _ _ _ _ m s) as [r | s1] eqn:Hstep;
      [discriminate |].
    apply (IH s1 s'); [| assumption].
    eapply astar_step_cost; eassumption.
Qed.

(** C10: at the head of every turn of the loop of [astar_first_search],
    every node on the frontier has cost 0 if it is the root and one more than
    the cost of its parent otherwise, and so all the way up; hence its cost
    is the number of parent links from it to the root. *)
Theorem astar_cost_is_depth (m : Maze) (s0 : coord) (k : nat)
    (s : search_state) :
  search_iter (PriorityQueueFrontier.add cumulative_cost_function (goal m))
    QueueFrontier.remove cost_node_child cost_node_back_path k m
    (astar_init m s0) = Some s ->
  Forall (fun n => cost_links n /\ cost n = Z.of_nat (cost_node_depth n))
         (s_frontier s).
Proof.
  intros Hit.
  assert (Hall : Forall cost_links (s_frontier s)).
  { eapply astar_iter_cost; [| exact Hit].
    repeat constructor. }
  eapply Forall_impl; [| exact Hall].
  intros n Hn. split; [assumption | apply cost_links_depth; assumption].
Qed.

Lemma astar_cost_is_depth_witness :
  Forall (fun n => cost_links n /\ cost n = Z.of_nat (cost_node_depth n))
    [mkCostNode (1, 3) (Some (mkCostNode (1, 2)
        (Some (mkCostNode (1, 1) None None 0)) (Some "right"%string) 1))
        (Some "right"%string) 2].
Proof.
  apply (@astar_cost_is_depth corridor (1, 1) 2
           (mkState [mkCostNode (1, 3) (Some (mkCostNode (1, 2)
                       (Some (mkCostNode (1, 1) None None 0))
                       (Some "right"%string) 1)) (Some "right"%string) 2]
              [(1, 2); (1, 1)] [(1, 1); (1, 2)])).
  vm_compute. reflexivity.
Defined.

(** ** Moves and neighbours *)

Lemma nbr_sym (u v : coord) : nbr u v -> nbr v u.
Proof. unfold nbr. lia. Qed.

Lemma nbr_irrefl (u : coord) : ~ nbr u u.
Proof. unfold nbr. lia. Qed.

Lemma coord_eq_iff (a b : coord) :
  a = b <-> fst a = fst b /\ snd a = snd b.
Proof.
  destruct a, b; simpl. split.
  - intros Heq; inversion Heq; auto.
  - intros [-> ->]; reflexivity.
Qed.

Lemma adj_iff (m : Maze) (x y : coord) :
  adj m x y <->
  nbr x y /\ in_bounds (rows m) (cols m) y /\ nonwall (maze m) y = true.
Proof.
  split.
  - intros Hadj. destruct (adj_in_bounds m x y Hadj) as [Hb Hnw].
    split; [| split; assumption].
    unfold adj, neighbours in Hadj.
    apply in_map_iff in Hadj. destruct Hadj as [[a y'] [Heq Hin]].
    apply in_map_iff in Hin. destruct Hin as [mv [Heq' Hin]].
    inversion Heq'; subst a y'. cbn [snd] in Heq. subst y.
    apply filter_In in Hin. destruct Hin as [Hin _].
    unfold nbr, move_target.
    destruct Hin as [<- | [<- | [<- | [<- | []]]]]; simpl; lia.
  - intros (Hn & Hb & Hnw). unfold adj, neighbours.
    assert (Hmv : exists mv, In mv moves /\ move_target x mv = y).
    { unfold nbr in Hn. destruct x as [xr xc], y as [yr yc]; simpl in Hn.
      unfold move_target, moves; simpl.
      destruct (Z.eq_dec yr xr) as [-> | Hr].
      - destruct (Z.eq_dec yc (xc - 1)) as [-> | Hc].
        + exists ("left"%string, (0, -1)). split; [auto |].
          simpl. f_equal; lia.
        + exists ("right"%string, (0, 1)). split; [simpl; auto |].
          simpl. f_equal; lia.
      - destruct (Z.eq_dec yr (xr - 1)) as [-> | Hr'].
        + exists ("up"%string, (-1, 0)). split; [simpl; auto |].
          simpl. f_equal; lia.
        + exists ("down"%string, (1, 0)). split; [simpl; auto 6 |].
          simpl. f_equal; lia. }
    destruct Hmv as (mv & Hin & Heq).
    apply in_map_iff. exists (fst mv, y). split; [reflexivity |].
    apply in_map_iff. exists mv. split; [rewrite Heq; reflexivity |].
    apply filter_In. split; [assumption |].
    unfold allowed. rewrite Heq, Hnw.
    destruct (in_boundsb_spec (rows m) (cols m) y); [reflexivity |
                                                     contradiction].
Qed.

(** Walks only depend on the dimensions and on which cells are walls. *)
Lemma walk_len_mono (m m' : Maze) (s x : coord) (k : nat) :
  rows m' = rows m -> cols m' = cols m ->
  (forall q, nonwall (maze m) q = true -> nonwall (maze m') q = true) ->
  walk_len m s x k -> walk_len m' s x k.
Proof.
  intros Hr Hc Hnw Hw. induction Hw as [| x y k Hw IH Hadj].
  - constructor.
  - apply walk_move with x; [assumption |].
    apply adj_iff in Hadj. destruct Hadj as (Hn & Hb & Hy).
    apply adj_iff. rewrite Hr, Hc. auto.
Qed.

Lemma nonwall_in_bounds (g : grid) (R C : Z) (q : coord) :
  grid_dims g R C -> nonwall g q = true -> in_bounds R C q.
Proof.
  intros Hd Hnw. unfold nonwall in Hnw.
  destruct (cell_at g q) as [ch |] eqn:Hc; [| discriminate].
  eapply cell_at_some_in_bounds; eassumption.
Qed.

(** ** One carving step keeps the invariant *)

(** Linear arithmetic with parities. *)
Ltac mlia := Z.div_mod_to_equations; lia.

Section CarveStep.
Variables (R C : Z) (s : coord).
Variables (g : grid) (opened : list coord) (d : coord -> nat).
Hypothesis HI : carve_inv R C s g opened d.

(** Around a lattice cell that is still a wall, everything is a wall. *)
Lemma wall_lattice_nbrs (t v : coord) :
  lattice t -> nonwall g t = false -> nbr t v -> nonwall g v = false.
Proof.
  intros [Ht1 Ht2] Hw Hn. destruct (nonwall g v) eqn:Hv; [| reflexivity].
  exfalso. destruct t as [tr tc], v as [a b]. unfold nbr in Hn.
  cbn [fst snd] in *.
  destruct (Z.eq_dec (a mod 2) 0) as [Ha | Ha].
  - destruct (ci_conn_r HI _ Hv Ha) as [H1 H2]. cbn [fst snd] in H1, H2.
    assert (Hb : b = tc) by mlia. subst b.
    assert (Hcase : tr = a - 1 \/ tr = a + 1) by mlia.
    destruct Hcase; subst tr; congruence.
  - assert (Hb : b mod 2 = 0) by mlia.
    destruct (ci_conn_c HI _ Hv Hb) as [H1 H2]. cbn [fst snd] in H1, H2.
    assert (Ha' : a = tr) by mlia. subst a.
    assert (Hcase : tc = b - 1 \/ tc = b + 1) by mlia.
    destruct Hcase; subst tc; congruence.
Qed.

Variables (p dir : coord).
Hypothesis Hp_lat : lattice p.
Hypothesis Hp_nw : nonwall g p = true.
Hypothesis Hdir : In dir directions.

Let mid : coord := (fst p + fst dir, snd p + snd dir).
Let tgt : coord := (fst p + fst dir * 2, snd p + snd dir * 2).

Hypothesis Htgt_wall : nonwall g tgt = false.

Lemma tgt_lattice : lattice tgt.
Proof.
  destruct Hp_lat as [H1 H2]. unfold lattice, tgt. cbn [fst snd].
  unfold directions in Hdir.
  destruct Hdir as [<- | [<- | [<- | [<- | []]]]]; cbn [fst snd]; mlia.
Qed.

Lemma nbr_p_mid : nbr p mid.
Proof.
  unfold nbr, mid. cbn [fst snd]. unfold directions in Hdir.
  destruct Hdir as [<- | [<- | [<- | [<- | []]]]]; cbn [fst snd]; mlia.
Qed.

Lemma nbr_mid_tgt : nbr mid tgt.
Proof.
  unfold nbr, mid, tgt. cbn [fst snd]. unfold directions in Hdir.
  destruct Hdir as [<- | [<- | [<- | [<- | []]]]]; cbn [fst snd]; mlia.
Qed.

Lemma mid_wall : nonwall g mid = false.
Proof.
  apply wall_lattice_nbrs with tgt;
    [apply tgt_lattice | assumption | apply nbr_sym, nbr_mid_tgt].
Qed.

(** The only open cell next to the cell between is the one carved from. *)
Lemma mid_nbrs (v : coord) : nbr mid v -> nonwall g v = true -> v = p.
Proof.
  intros Hn Hv.
  assert (Hvt : v <> tgt) by (intros ->; congruence).
  pose proof (ci_parity HI _ Hv) as Hpar.
  destruct Hp_lat as [H1 H2].
  rewrite coord_eq_iff in Hvt. apply coord_eq_iff.
  unfold nbr, mid in Hn. unfold tgt in Hvt.
  destruct p as [r c], v as [a b]. cbn [fst snd] in *.
  unfold directions in Hdir.
  destruct Hdir as [<- | [<- | [<- | [<- | []]]]]; cbn [fst snd] in *; mlia.
Qed.

(** The grid after the two cells have been opened. *)
Variable g2 : grid.
Hypothesis Hdims2 : grid_dims g2 R C.
Hypothesis Hcell2 :
  forall q, cell_at g2 q =
            if coord_eqb q tgt then Some OPEN
            else if coord_eqb q mid then Some OPEN else cell_at g q.

Lemma nw2_spec (q : coord) :
  nonwall g2 q = coord_eqb q tgt || coord_eqb q mid || nonwall g q.
Proof.
  unfold nonwall. rewrite Hcell2.
  destruct (coord_eqb q tgt), (coord_eqb q mid); reflexivity.
Qed.

Lemma nw2_iff (q : coord) :
  nonwall g2 q = true <-> q = tgt \/ q = mid \/ nonwall g q = true.
Proof.
  rewrite nw2_spec, !orb_true_iff, !coord_eqb_eq. tauto.
Qed.

Lemma nw2_old (q : coord) : nonwall g q = true -> nonwall g2 q = true.
Proof. intros Hq. apply nw2_iff. auto. Qed.

Lemma old_ne (q : coord) : nonwall g q = true -> q <> mid /\ q <> tgt.
Proof.
  intros Hq. split; intros ->; [rewrite mid_wall in Hq | rewrite Htgt_wall in Hq];
    discriminate.
Qed.

Lemma tgt_ne_mid : tgt <> mid.
Proof.
  intros Heq. apply (@nbr_irrefl mid). rewrite <- Heq at 2. apply nbr_mid_tgt.
Qed.

Lemma ed_old (q : coord) :
  nonwall g q = true -> extend_depth d p mid tgt q = d q.
Proof.
  intros Hq. destruct (old_ne q Hq) as [H1 H2]. unfold extend_depth.
  apply coord_eqb_neq in H1, H2. rewrite H1, H2. reflexivity.
Qed.

Lemma ed_mid : extend_depth d p mid tgt mid = S (d p).
Proof. unfold extend_depth. rewrite coord_eqb_refl. reflexivity. Qed.

Lemma ed_tgt : extend_depth d p mid tgt tgt = S (S (d p)).
Proof.
  unfold extend_depth. pose proof tgt_ne_mid as Hne.
  apply coord_eqb_neq in Hne. rewrite Hne, coord_eqb_refl. reflexivity.
Qed.

Lemma extend_step (u v : coord) :
  nonwall g2 u = true -> nonwall g2 v = true -> nbr u v ->
  extend_depth d p mid tgt u = S (extend_depth d p mid tgt v) \/
  extend_depth d p mid tgt v = S (extend_depth d p mid tgt u).
Proof.
  intros Hu Hv Hn. apply nw2_iff in Hu, Hv.
  destruct Hu as [-> | [-> | Hu]], Hv as [-> | [-> | Hv]].
  - exfalso. apply (nbr_irrefl Hn).
  - rewrite ed_tgt, ed_mid. left; reflexivity.
  - rewrite (wall_lattice_nbrs tgt_lattice Htgt_wall Hn) in Hv. discriminate.
  - rewrite ed_tgt, ed_mid. right; reflexivity.
  - exfalso. apply (nbr_irrefl Hn).
  - rewrite (mid_nbrs Hn Hv), ed_mid, (ed_old p Hp_nw). left; reflexivity.
  - rewrite (wall_lattice_nbrs tgt_lattice Htgt_wall (nbr_sym Hn)) in Hu.
    discriminate.
  - rewrite (mid_nbrs (nbr_sym Hn) Hu), ed_mid, (ed_old p Hp_nw).
    right; reflexivity.
  - rewrite (ed_old u Hu), (ed_old v Hv). apply (tl_step (ci_tree HI)); assumption.
Qed.

Lemma parent_cases (v u : coord) :
  nonwall g2 v = true -> nonwall g2 u = true -> nbr v u ->
  extend_depth d p mid tgt v = S (extend_depth d p mid tgt u) ->
  (v = tgt /\ u = mid) \/ (v = mid /\ u = p) \/
  (nonwall g v = true /\ nonwall g u = true /\ d v = S (d u)).
Proof.
  intros Hv Hu Hn Hd. apply nw2_iff in Hu, Hv.
  destruct Hv as [-> | [-> | Hv]], Hu as [-> | [-> | Hu]].
  - exfalso. apply (nbr_irrefl Hn).
  - left. split; reflexivity.
  - rewrite (wall_lattice_nbrs tgt_lattice Htgt_wall Hn) in Hu. discriminate.
  - rewrite ed_mid, ed_tgt in Hd. lia.
  - exfalso. apply (nbr_irrefl Hn).
  - right; left. split; [reflexivity | apply (mid_nbrs Hn Hu)].
  - rewrite (wall_lattice_nbrs tgt_lattice Htgt_wall (nbr_sym Hn)) in Hv.
    discriminate.
  - pose proof (mid_nbrs (nbr_sym Hn) Hv) as Heq. subst v.
    rewrite ed_mid, (ed_old p Hp_nw) in Hd. lia.
  - right; right. rewrite (ed_old u Hu), (ed_old v Hv) in Hd. auto.
Qed.

Lemma extend_tree : tree_labelled g2 s (extend_depth d p mid tgt).
Proof.
  constructor.
  - rewrite (ed_old s (ci_start HI)). apply (tl_start (ci_tree HI)).
  - apply extend_step.
  - intros v u1 u2 Hv H1 H2 Hn1 Hn2 Hd1 Hd2.
    pose proof mid_wall as Hmw. pose proof tgt_ne_mid as Htm.
    destruct (parent_cases Hv H1 Hn1 Hd1)
      as [[Hv1 Hu1] | [[Hv1 Hu1] | (Hv1 & Hu1 & Hd1')]];
    destruct (parent_cases Hv H2 Hn2 Hd2)
      as [[Hv2 Hu2] | [[Hv2 Hu2] | (Hv2 & Hu2 & Hd2')]];
    try congruence.
    apply (@tl_parent _ _ _ (ci_tree HI) v); assumption.
Qed.

Lemma adj_g2 (x y : coord) :
  nbr x y -> nonwall g2 y = true -> adj (maze_of R C s g2) x y.
Proof.
  intros Hn Hy. apply adj_iff. split; [assumption |]. split; [| assumption].
  eapply nonwall_in_bounds; eassumption.
Qed.

Lemma extend_inv :
  carve_inv R C s g2 (tgt :: opened) (extend_depth d p mid tgt).
Proof.
  pose proof tgt_lattice as [Ht1 Ht2]. destruct Hp_lat as [Hp1 Hp2].
  constructor.
  - assumption.
  - apply nw2_old, (ci_start HI).
  - destruct (old_ne s (ci_start HI)) as [Hsm Hst].
    apply coord_eqb_neq in Hsm, Hst.
    rewrite Hcell2, Hst, Hsm. apply (ci_start_cell HI).
  - intros q ch. rewrite Hcell2.
    destruct (coord_eqb q tgt); [intros Heq; inversion Heq; auto |].
    destruct (coord_eqb q mid); [intros Heq; inversion Heq; auto |].
    apply (ci_chars HI).
  - constructor; [| apply (ci_opened_nodup HI)].
    intros Hin. apply (ci_opened HI) in Hin. congruence.
  - intros q [<- | Hq].
    + apply nw2_iff. auto.
    + apply nw2_old, (ci_opened HI). assumption.
  - intros q Hq. apply nw2_iff in Hq. destruct Hq as [-> | [-> | Hq]].
    + left. assumption.
    + unfold mid. cbn [fst snd]. unfold directions in Hdir.
      destruct Hdir as [<- | [<- | [<- | [<- | []]]]]; cbn [fst snd]; mlia.
    + apply (ci_parity HI). assumption.
  - intros q Hq Heven. apply nw2_iff in Hq. destruct Hq as [-> | [-> | Hq]].
    + mlia.
    + assert (Hcase : ((fst mid - 1, snd mid) = p /\
                       (fst mid + 1, snd mid) = tgt) \/
                      ((fst mid - 1, snd mid) = tgt /\
                       (fst mid + 1, snd mid) = p)).
      { rewrite !coord_eq_iff. unfold mid, tgt in *. cbn [fst snd] in *.
        unfold directions in Hdir.
        destruct Hdir as [<- | [<- | [<- | [<- | []]]]]; cbn [fst snd] in *;
          mlia. }
      destruct Hcase as [[-> ->] | [-> ->]]; split;
        apply nw2_iff; auto.
    + destruct (ci_conn_r HI q Hq Heven). split; apply nw2_old; assumption.
  - intros q Hq Heven. apply nw2_iff in Hq. destruct Hq as [-> | [-> | Hq]].
    + mlia.
    + assert (Hcase : ((fst mid, snd mid - 1) = p /\
                       (fst mid, snd mid + 1) = tgt) \/
                      ((fst mid, snd mid - 1) = tgt /\
                       (fst mid, snd mid + 1) = p)).
      { rewrite !coord_eq_iff. unfold mid, tgt in *. cbn [fst snd] in *.
        unfold directions in Hdir.
        destruct Hdir as [<- | [<- | [<- | [<- | []]]]]; cbn [fst snd] in *;
          mlia. }
      destruct Hcase as [[-> ->] | [-> ->]]; split;
        apply nw2_iff; auto.
    + destruct (ci_conn_c HI q Hq Heven). split; apply nw2_old; assumption.
  - apply extend_tree.
  - assert (Hold : forall q, reachable (maze_of R C s g) s q ->
                             reachable (maze_of R C s g2) s q).
    { intros q [k Hw]. exists k.
      apply (walk_len_mono (m := maze_of R C s g)); auto.
      simpl. apply nw2_old. }
    assert (Hrp : reachable (maze_of R C s g2) s p).
    { apply Hold, (ci_reach HI). assumption. }
    assert (Hrm : reachable (maze_of R C s g2) s mid).
    { destruct Hrp as [k Hw]. exists (S k).
      apply walk_move with p; [assumption |].
      apply adj_g2; [apply nbr_p_mid | apply nw2_iff; auto]. }
    intros q Hq. apply nw2_iff in Hq. destruct Hq as [-> | [-> | Hq]].
    + destruct Hrm as [k Hw]. exists (S k).
      apply walk_move with mid; [assumption |].
      apply adj_g2; [apply nbr_mid_tgt | apply nw2_iff; auto].
    + assumption.
    + apply Hold, (ci_reach HI). assumption.
Qed.
End CarveStep.

(** ** The carving loop *)

Lemma nonwall_set (g g' : grid) (t : coord) (v : ascii) :
  (forall q, cell_at g' q = if coord_eqb q t then Some v else cell_at g q) ->
  forall q, nonwall g' q =
            if coord_eqb q t then negb (Ascii.eqb v WALL) else nonwall g q.
Proof.
  intros Hc q. unfold nonwall. rewrite Hc.
  destruct (coord_eqb q t); reflexivity.
Qed.

Lemma carve_body_spec (R C : Z) (s : coord) (g : grid)
    (opened : list coord) (d : coord -> nat) (stack : list coord)
    (p dir : coord) :
  carve_inv R C s g opened d -> lattice p -> nonwall g p = true ->
  In dir directions ->
  exists g' stack' opened' d',
    carve_body R C (fst p) (snd p) (g, stack) dir = Ok (g', stack') /\
    carve_inv R C s g' opened' d' /\
    (forall q, nonwall g q = true -> nonwall g' q = true) /\
    ((stack' = stack /\ opened' = opened) \/
     (exists t, stack' = stack ++ [t] /\ opened' = t :: opened /\
                lattice t /\ nonwall g' t = true)) /\
    (in_bounds R C (lattice_target p dir) ->
     nonwall g' (lattice_target p dir) = true) /\
    (forall q, lattice q -> nonwall g' q = true ->
               nonwall g q = true \/ In q stack').
Proof.
  intros HI Hlat Hnw Hdir. destruct dir as [dr dc].
  set (mid := (fst p + dr, snd p + dc)).
  set (tgt := (fst p + dr * 2, snd p + dc * 2)).
  change (lattice_target p (dr, dc)) with tgt.
  assert (Hsame : (in_bounds R C tgt -> nonwall g tgt = true) ->
           exists g' stack' opened' d',
             Ok (g, stack) = Ok (g', stack') /\
             carve_inv R C s g' opened' d' /\
             (forall q, nonwall g q = true -> nonwall g' q = true) /\
             ((stack' = stack /\ opened' = opened) \/
              (exists t, stack' = stack ++ [t] /\ opened' = t :: opened /\
                         lattice t /\ nonwall g' t = true)) /\
             (in_bounds R C tgt -> nonwall g' tgt = true) /\
             (forall q, lattice q -> nonwall g' q = true ->
                        nonwall g q = true \/ In q stack')).
  { intros Htgt. exists g, stack, opened, d.
    split; [reflexivity |]. split; [assumption |]. split; [auto |].
    split; [left; split; reflexivity |]. split; [assumption | auto]. }
  unfold carve_body.
  change ((0 <=? fst p + dr * 2) && (fst p + dr * 2 <? R)
          && (0 <=? snd p + dc * 2) && (snd p + dc * 2 <? C))
    with (in_boundsb R C tgt).
  destruct (in_boundsb_spec R C tgt) as [Hb | Hb];
    [| apply Hsame; intros Hb'; contradiction].
  destruct (cell_at_in_bounds (ci_dims HI) Hb) as [ch Hch].
  pose proof Hb as [Hb1 Hb2]. unfold tgt in Hb1, Hb2. cbn [fst snd] in Hb1, Hb2.
  rewrite grid_get_cell_at by lia. fold tgt. rewrite Hch. cbn [rbind].
  destruct (Ascii.eqb ch WALL) eqn:Hwall.
  2:{ apply Hsame. intros _. unfold nonwall. rewrite Hch, Hwall.
      reflexivity. }
  clear Hsame.
  assert (Htw : nonwall g tgt = false).
  { unfold nonwall. rewrite Hch, Hwall. reflexivity. }
  assert (Hpb : in_bounds R C p)
    by (eapply nonwall_in_bounds; [apply (ci_dims HI) | assumption]).
  destruct Hpb as [Hp1 Hp2].
  assert (Hbm : in_bounds R C mid).
  { unfold in_bounds, mid. cbn [fst snd]. unfold directions in Hdir.
    destruct Hdir as [Hd | [Hd | [Hd | [Hd | []]]]]; inversion Hd; subst;
      lia. }
  destruct (grid_set_spec OPEN (ci_dims HI) Hbm) as (g1 & Hs1 & Hd1 & Hc1).
  destruct (grid_set_spec OPEN Hd1 Hb) as (g2 & Hs2 & Hd2 & Hc2).
  change (fst mid) with (fst p + dr) in Hs1.
  change (snd mid) with (snd p + dc) in Hs1.
  change (fst tgt) with (fst p + dr * 2) in Hs2.
  change (snd tgt) with (snd p + dc * 2) in Hs2.
  rewrite Hs1. cbn [rbind]. rewrite Hs2. cbn [rbind].
  assert (Hcell2 : forall q, cell_at g2 q =
                             if coord_eqb q tgt then Some OPEN
                             else if coord_eqb q mid then Some OPEN
                                  else cell_at g q).
  { intros q. rewrite Hc2, Hc1. reflexivity. }
  assert (Hnw2 : forall q, nonwall g2 q =
                           coord_eqb q tgt || coord_eqb q mid || nonwall g q).
  { intros q. unfold nonwall. rewrite Hcell2.
    destruct (coord_eqb q tgt), (coord_eqb q mid); reflexivity. }
  pose proof (@extend_inv R C s g opened d HI p (dr, dc) Hlat Hnw Hdir Htw
                g2 Hd2 Hcell2) as HI2.
  exists g2, (stack ++ [tgt]), (tgt :: opened),
    (extend_depth d p mid tgt).
  split; [reflexivity |]. split; [exact HI2 |]. split.
  { intros q Hq. rewrite Hnw2, Hq. apply orb_true_r. }
  split.
  { right. exists tgt. split; [reflexivity |]. split; [reflexivity |].
    split; [exact (@tgt_lattice g p (dr, dc) Hlat Hdir Htw) |].
    rewrite Hnw2, coord_eqb_refl. reflexivity. }
  split.
  { intros _. rewrite Hnw2, coord_eqb_refl. reflexivity. }
  intros q [Hq1 Hq2] Hq. rewrite Hnw2 in Hq.
  apply orb_true_iff in Hq. destruct Hq as [Hq | Hq]; [| left; assumption].
  apply orb_true_iff in Hq. destruct Hq as [Hq | Hq].
  - apply coord_eqb_eq in Hq. subst q. right. apply in_or_app. right.
    left; reflexivity.
  - exfalso. apply coord_eqb_eq in Hq. subst q. destruct Hlat as [Hl1 Hl2].
    unfold mid in Hq1, Hq2. cbn [fst snd] in Hq1, Hq2.
    unfold directions in Hdir.
    destruct Hdir as [Hd | [Hd | [Hd | [Hd | []]]]]; inversion Hd; subst;
      mlia.
Qed.

Lemma stack_ok_mono (g g' : grid) (stack : list coord) :
  (forall q, nonwall g q = true -> nonwall g' q = true) ->
  stack_ok g stack -> stack_ok g' stack.
Proof.
  intros Hm Hs. eapply Forall_impl; [| exact Hs].
  intros q [Hl Hq]. auto.
Qed.

Lemma carve_dirs_spec (R C : Z) (s p : coord) (dirs : list coord) :
  Forall (fun dir => In dir directions) dirs ->
  lattice p ->
  forall g stack opened d,
    carve_inv R C s g opened d -> nonwall g p = true -> stack_ok g stack ->
    exists g' stack' opened' d' j,
      for_each (carve_body R C (fst p) (snd p)) dirs (g, stack)
      = Ok (g', stack') /\
      carve_inv R C s g' opened' d' /\ stack_ok g' stack' /\
      length stack' = (length stack + j)%nat /\
      length opened' = (length opened + j)%nat /\
      (forall q, nonwall g q = true -> nonwall g' q = true) /\
      incl stack stack' /\
      (forall dir, In dir dirs -> in_bounds R C (lattice_target p dir) ->
                   nonwall g' (lattice_target p dir) = true) /\
      (forall q, lattice q -> nonwall g' q = true ->
                 nonwall g q = true \/ In q stack').
Proof.
  intros Hdirs Hlat. induction Hdirs as [| dir dirs Hdir _ IH];
    intros g stack opened d HI Hnw Hst.
  - exists g, stack, opened, d, O. cbn [for_each].
    split; [reflexivity |]. split; [assumption |]. split; [assumption |].
    split; [lia |]. split; [lia |]. split; [auto |].
    split; [apply incl_refl |]. split; [intros dir [] | auto].
  - cbn [for_each].
    destruct (carve_body_spec stack HI Hlat Hnw Hdir)
      as (g1 & stack1 & opened1 & d1 & Hbody & HI1 & Hmono & Hcase
          & Htgt1 & Hnew1).
    rewrite Hbody. cbn [rbind].
    assert (Hincl1 : incl stack stack1).
    { destruct Hcase as [[-> _] | (t & -> & _)];
        [apply incl_refl | apply incl_appl, incl_refl]. }
    assert (Hst1 : stack_ok g1 stack1).
    { destruct Hcase as [[-> ->] | (t & -> & -> & Hlt & Hnt)].
      - apply (@stack_ok_mono g g1 _ Hmono Hst).
      - apply Forall_app. split; [apply (@stack_ok_mono g g1 _ Hmono Hst) |].
        constructor; [split; assumption | constructor]. }
    destruct (IH g1 stack1 opened1 d1 HI1 (Hmono p Hnw) Hst1)
      as (g' & stack' & opened' & d' & j & Hfor & HI' & Hst' & Hl1 & Hl2
          & Hmono' & Hincl' & Htgt' & Hnew').
    assert (Hrest :
      (forall q, nonwall g q = true -> nonwall g' q = true) /\
      incl stack stack' /\
      (forall dir0, In dir0 (dir :: dirs) ->
                    in_bounds R C (lattice_target p dir0) ->
                    nonwall g' (lattice_target p dir0) = true) /\
      (forall q, lattice q -> nonwall g' q = true ->
                 nonwall g q = true \/ In q stack')).
    { split; [auto |]. split; [eapply incl_tran; eassumption |]. split.
      - intros dir0 [<- | Hin] Hb; [apply Hmono', Htgt1; assumption |].
        apply Htgt'; assumption.
      - intros q Hq Hq'. destruct (Hnew' q Hq Hq') as [Hq1 | Hq1];
          [| right; assumption].
        destruct (Hnew1 q Hq Hq1) as [Hq0 | Hq0]; [left; assumption |].
        right. apply Hincl'. assumption. }
    destruct Hcase as [[-> ->] | (t & -> & -> & Hlt & Hnt)].
    + exists g', stack', opened', d', j.
      split; [assumption |]. split; [assumption |]. split; [assumption |].
      split; [assumption |]. split; assumption.
    + exists g', stack', opened', d', (S j).
      split; [assumption |]. split; [assumption |]. split; [assumption |].
      split; [rewrite Hl1, length_app; simpl; lia |].
      split; [rewrite Hl2; simpl; lia | assumption].
Qed.

Lemma draw_keys_snd {A} (l : list A) (g : rng) :
  map snd (fst (draw_keys l g)) = l.
Proof.
  revert g. induction l as [| x l IH]; intros g; cbn [draw_keys].
  - reflexivity.
  - destruct (biased_key g) as [k g1].
    specialize (IH g1). destruct (draw_keys l g1) as [r g2].
    simpl in *. congruence.
Qed.

Lemma sorted_random_perm {A} (l : list A) (g : rng) :
  Permutation (fst (sorted_random l g)) l.
Proof.
  unfold sorted_random. pose proof (draw_keys_snd l g) as Hk.
  destruct (draw_keys l g) as [kl g']. cbn [fst] in *.
  rewrite <- Hk. apply Permutation_map, py_sorted_perm.
Qed.

Lemma opened_bound (R C : Z) (s : coord) (g : grid) (opened : list coord)
    (d : coord -> nat) :
  carve_inv R C s g opened d ->
  (length opened <= Z.to_nat R * Z.to_nat C)%nat.
Proof.
  intros HI. rewrite <- length_all_cells.
  apply NoDup_incl_length; [apply (ci_opened_nodup HI) |].
  intros q Hq. apply in_all_cells.
  eapply nonwall_in_bounds; [apply (ci_dims HI) |].
  apply (ci_opened HI). assumption.
Qed.

Lemma Forall_removelast {A} (P : A -> Prop) (l : list A) :
  Forall P l -> Forall P (removelast l).
Proof.
  intros Hall. destruct l as [| x l0]; [constructor |].
  assert (Hne : x :: l0 <> []) by discriminate.
  rewrite (app_removelast_last x Hne) in Hall.
  apply Forall_app in Hall. tauto.
Qed.

Lemma Forall_last {A} (P : A -> Prop) (l : list A) (x : A) :
  Forall P (x :: l) -> P (last (x :: l) x).
Proof.
  intros Hall.
  assert (Hne : x :: l <> []) by discriminate.
  rewrite (app_removelast_last x Hne) in Hall.
  apply Forall_app in Hall. destruct Hall as [_ Hl]. inversion Hl; assumption.
Qed.

Lemma length_removelast {A} (x : A) (l : list A) :
  length (x :: l) = S (length (removelast (x :: l))).
Proof.
  assert (Hne : x :: l <> []) by discriminate.
  rewrite (app_removelast_last x Hne) at 1.
  rewrite length_app. simpl. lia.
Qed.

(** The carving loop raises nothing, keeps the invariant, leaves every open
    lattice cell with its lattice neighbours open, and is done within as many
    turns as the stack is high plus the lattice cells left to open. *)
Lemma carve_loop_spec (R C : Z) (s : coord) (fuel : nat) :
  forall g stack opened d r,
    carve_inv R C s g opened d -> stack_ok g stack ->
    stack_covers R C g stack ->
    match carve_loop fuel R C g stack r with
    | Return g' =>
      exists opened' d',
        carve_inv R C s g' opened' d' /\ stack_covers R C g' []
    | Raise _ => False
    | OutOfFuel =>
      (fuel <= length stack + (Z.to_nat R * Z.to_nat C - length opened))%nat
    end.
Proof.
  induction fuel as [| fuel IH]; intros g stack opened d r HI Hst Hcov.
  - simpl. lia.
  - cbn [carve_loop]. destruct stack as [| top rest].
    + exists opened, d. split; assumption.
    + pose proof (Forall_last Hst) as [Hlat Hnw].
      pose proof (Forall_removelast Hst) as Hst1.
      pose proof (length_removelast top rest) as Hlen.
      assert (Hsplit : top :: rest
                       = removelast (top :: rest) ++ [last (top :: rest) top])
        by (apply app_removelast_last; discriminate).
      destruct (last (top :: rest) top) as [pr pc] eqn:Hp.
      pose proof (sorted_random_perm directions r) as Hperm.
      destruct (sorted_random directions r) as [dirs r'].
      cbn [fst] in Hperm.
      assert (Hdirs : Forall (fun dir => In dir directions) dirs).
      { apply Forall_forall. intros x Hx.
        apply (Permutation_in _ Hperm). assumption. }
      destruct (carve_dirs_spec (p := (pr, pc)) Hdirs Hlat HI Hnw Hst1)
        as (g' & stack' & opened' & d' & j & Hfor & HI' & Hst' & Hl1 & Hl2
            & Hmono & Hincl & Htgt & Hnew).
      cbn [fst snd] in Hfor. rewrite Hfor. cbn [of_result obind].
      assert (Hcov' : stack_covers R C g' stack').
      { intros q Hq Hq'. destruct (Hnew q Hq Hq') as [Hq0 | Hq0];
          [| left; assumption].
        destruct (Hcov q Hq Hq0) as [Hin | Hcl].
        - rewrite Hsplit in Hin. apply in_app_or in Hin.
          destruct Hin as [Hin | [<- | []]].
          + left. apply Hincl. assumption.
          + right. intros dir Hdir Hb. apply Htgt; [| assumption].
            apply (Permutation_in _ (Permutation_sym Hperm)). assumption.
        - right. intros dir Hdir Hb. apply Hmono, Hcl; assumption. }
      specialize (IH g' stack' opened' d' r' HI' Hst' Hcov').
      destruct (carve_loop fuel R C g' stack' r'); try assumption.
      pose proof (opened_bound HI'). lia.
Qed.

(** ** The start of the generation *)

Lemma force_odd_mod (n : Z) : force_odd n mod 2 = 1.
Proof.
  unfold force_odd.
  assert (Hodd : Z.odd (Z.lor n 1) = true).
  { rewrite <- Z.bit0_odd, Z.lor_spec, !Z.bit0_odd. apply orb_true_r. }
  rewrite odd_mod2 in Hodd. apply Z.eqb_eq. assumption.
Qed.

Lemma randrange_ok (R : Z) (r : rng) :
  R mod 2 = 1 -> 3 <= R ->
  exists x r', randrange 1 R 2 r = Ok (x, r') /\
               x mod 2 = 1 /\ 1 <= x <= R - 2.
Proof.
  intros Hodd Hge. unfold randrange.
  set (n := (R - 1 + 2 - 1) / 2).
  assert (Hn : 1 <= n /\ R = 2 * n + 1) by (unfold n; mlia).
  destruct Hn as [Hn1 Hn2].
  destruct (Z.leb_spec n 0); [lia |].
  cbn [rng_next]. eexists _, _. split; [reflexivity |].
  pose proof (Z.mod_pos_bound (r O) n ltac:(lia)) as Hb.
  generalize dependent (r O mod n). intros y Hy. mlia.
Qed.

Lemma randrange_inv (R x : Z) (r r' : rng) :
  randrange 1 R 2 r = Ok (x, r') -> R mod 2 = 1 ->
  3 <= R /\ x mod 2 = 1 /\ 1 <= x <= R - 2.
Proof.
  intros Hr Hodd.
  assert (Hge : 3 <= R).
  { unfold randrange in Hr.
    destruct (Z.leb_spec ((R - 1 + 2 - 1) / 2) 0); [discriminate |]. mlia. }
  destruct (randrange_ok r Hodd Hge) as (x' & r'' & Hr' & Hx).
  rewrite Hr in Hr'. inversion Hr'; subst. auto.
Qed.

Lemma randrange_error (R : Z) (r : rng) (e : exn) :
  randrange 1 R 2 r = Err e -> R mod 2 = 1 -> e = ValueError /\ R < 3.
Proof.
  intros Hr Hodd. destruct (Z.lt_ge_cases R 3) as [Hlt | Hge].
  - unfold randrange in Hr.
    destruct (Z.leb_spec ((R - 1 + 2 - 1) / 2) 0).
    + inversion Hr. auto.
    + cbn [rng_next] in Hr. discriminate.
  - destruct (randrange_ok r Hodd Hge) as (x' & r'' & Hr' & Hx). congruence.
Qed.

Lemma all_walls_dims (R C : Z) :
  grid_dims (repeat (repeat WALL (Z.to_nat C)) (Z.to_nat R)) R C.
Proof.
  split.
  - rewrite repeat_length. lia.
  - apply Forall_forall. intros row Hrow. apply repeat_spec in Hrow.
    subst row. rewrite repeat_length. lia.
Qed.

Lemma all_walls_nonwall (R C : Z) (q : coord) :
  nonwall (repeat (repeat WALL (Z.to_nat C)) (Z.to_nat R)) q = false.
Proof.
  unfold nonwall, cell_at.
  destruct ((0 <=? fst q) && (0 <=? snd q)); [| reflexivity].
  destruct (nth_error _ (Z.to_nat (fst q))) as [row |] eqn:Hrow;
    [| reflexivity].
  apply nth_error_In, repeat_spec in Hrow. subst row.
  destruct (nth_error _ (Z.to_nat (snd q))) as [ch |] eqn:Hch;
    [| reflexivity].
  apply nth_error_In, repeat_spec in Hch. subst ch. reflexivity.
Qed.

Lemma initial_inv (R C : Z) (s : coord) (g : grid) :
  grid_dims g R C -> lattice s ->
  cell_at g s = Some START ->
  (forall q ch, q <> s -> cell_at g q = Some ch -> ch = WALL) ->
  carve_inv R C s g [s] (fun _ => O).
Proof.
  intros Hd [Hs1 Hs2] Hcs Hco.
  assert (Hnws : nonwall g s = true) by (unfold nonwall; rewrite Hcs; reflexivity).
  assert (Hone : forall q, nonwall g q = true -> q = s).
  { intros q Hq. destruct (coord_eq_dec q s) as [Heq | Hne]; [assumption |].
    unfold nonwall in Hq.
    destruct (cell_at g q) as [ch |] eqn:Hc; [| discriminate].
    rewrite (Hco q ch Hne Hc) in Hq. discriminate. }
  constructor.
  - assumption.
  - assumption.
  - assumption.
  - intros q ch Hc. destruct (coord_eq_dec q s) as [Heq | Hne]; [auto |].
    left. apply (Hco q ch Hne Hc).
  - constructor; [intros [] | constructor].
  - intros q [<- | []]. assumption.
  - intros q Hq. rewrite (Hone q Hq). left; assumption.
  - intros q Hq Heven. rewrite (Hone q Hq) in Heven. lia.
  - intros q Hq Heven. rewrite (Hone q Hq) in Heven. lia.
  - constructor.
    + reflexivity.
    + intros u v Hu Hv Hn. rewrite (Hone u Hu), (Hone v Hv) in Hn.
      exfalso. apply (nbr_irrefl Hn).
    + intros v u1 u2 _ H1 H2 _ _ _ _. rewrite (Hone u1 H1), (Hone u2 H2).
      reflexivity.
  - intros q Hq. rewrite (Hone q Hq). exists O. constructor.
Qed.

Lemma tree_labelled_ext (g g' : grid) (s : coord) (d : coord -> nat) :
  (forall q, nonwall g' q = nonwall g q) ->
  tree_labelled g s d -> tree_labelled g' s d.
Proof.
  intros Hext [H1 H2 H3]. constructor.
  - assumption.
  - intros u v. rewrite !Hext. apply H2.
  - intros v u1 u2. rewrite !Hext. apply H3.
Qed.

(** ** The farthest cell *)

Lemma cell_at_out (g : grid) (R C : Z) (q : coord) :
  grid_dims g R C -> ~ in_bounds R C q -> cell_at g q = None.
Proof.
  intros Hd Hout. destruct (cell_at g q) as [ch |] eqn:Hc; [| reflexivity].
  exfalso. apply Hout. eapply cell_at_some_in_bounds; eassumption.
Qed.

Lemma is_open_spec (g : grid) (q : coord) :
  is_open g q = true <-> cell_at g q = Some OPEN.
Proof.
  unfold is_open. destruct (cell_at g q) as [ch |].
  - rewrite Ascii.eqb_eq. split; congruence.
  - split; discriminate.
Qed.

Lemma farthest_body_exact (g : grid) (R C r c dist : Z)
    (queue : list (Z * Z * Z)) (dir : Z * Z) :
  grid_dims g R C -> 0 < R ->
  farthest_body g r c dist queue dir =
  Ok (if is_open g (r + fst dir, c + snd dir)
      then queue ++ [(r + fst dir, c + snd dir, dist + 1)]
      else queue).
Proof.
  intros Hd HR. destruct dir as [dr dc]. cbn [fst snd].
  unfold farthest_body. pose proof Hd as [Hlen Hrows].
  destruct ((0 <=? r + dr) && (r + dr <? Z.of_nat (length g))) eqn:Hc1.
  2:{ unfold is_open. rewrite (@cell_at_out _ R C (r + dr, c + dc) Hd);
        [reflexivity |].
      intros [Hb1 Hb2]. cbn [fst snd] in Hb1, Hb2.
      apply andb_false_iff in Hc1.
      destruct Hc1 as [Hc1 | Hc1];
        [apply Z.leb_gt in Hc1 | apply Z.ltb_ge in Hc1]; lia. }
  destruct g as [| row0 g0]; [simpl in Hlen; lia |].
  rewrite py_index_nonneg by lia. cbn [Z.to_nat nth_error rbind].
  assert (Hrow0 : Z.of_nat (length row0) = Z.max 0 C).
  { inversion Hrows; assumption. }
  destruct ((0 <=? c + dc) && (c + dc <? Z.of_nat (length row0))) eqn:Hc2.
  2:{ unfold is_open. rewrite (@cell_at_out _ R C (r + dr, c + dc) Hd);
        [reflexivity |].
      intros [Hb1 Hb2]. cbn [fst snd] in Hb1, Hb2.
      apply andb_false_iff in Hc2.
      destruct Hc2 as [Hc2 | Hc2];
        [apply Z.leb_gt in Hc2 | apply Z.ltb_ge in Hc2]; lia. }
  apply andb_true_iff in Hc1. destruct Hc1 as [Hc1 Hc1'].
  apply Z.leb_le in Hc1. apply Z.ltb_lt in Hc1'.
  apply andb_true_iff in Hc2. destruct Hc2 as [Hc2 Hc2'].
  apply Z.leb_le in Hc2. apply Z.ltb_lt in Hc2'.
  assert (Hb : in_bounds R C (r + dr, c + dc)).
  { unfold in_bounds. cbn [fst snd]. lia. }
  destruct (cell_at_in_bounds Hd Hb) as [ch Hch].
  rewrite grid_get_cell_at by lia. unfold is_open. rewrite Hch. cbn [rbind].
  destruct (Ascii.eqb ch OPEN); reflexivity.
Qed.

Lemma farthest_dirs_exact (g : grid) (R C r c dist : Z)
    (dirs : list (Z * Z)) :
  grid_dims g R C -> 0 < R ->
  forall queue,
    for_each (farthest_body g r c dist) dirs queue
    = Ok (queue ++ open_neighbours g r c dist dirs).
Proof.
  intros Hd HR. unfold open_neighbours.
  induction dirs as [| dir dirs IH]; intros queue.
  - cbn [for_each filter map]. rewrite app_nil_r. reflexivity.
  - cbn [for_each filter]. rewrite (farthest_body_exact r c dist queue dir Hd HR).
    cbn [rbind]. rewrite IH.
    destruct (is_open g (r + fst dir, c + snd dir)).
    + cbn [map]. rewrite <- app_assoc. reflexivity.
    + reflexivity.
Qed.

Lemma open_neighbours_spec (g : grid) (r c dist : Z) (dirs : list (Z * Z)) :
  (length (open_neighbours g r c dist dirs) <= length dirs)%nat /\
  Forall (fun e => cell_at g (fst e) = Some OPEN /\ snd e = dist + 1)
         (open_neighbours g r c dist dirs).
Proof.
  unfold open_neighbours. split.
  - rewrite length_map. apply filter_length_le.
  - apply Forall_forall. intros e He. apply in_map_iff in He.
    destruct He as [dir [<- Hin]]. apply filter_In in Hin.
    destruct Hin as [_ Hopen]. cbn [fst snd].
    split; [apply is_open_spec; assumption | reflexivity].
Qed.

Lemma farthest_dirs_spec (g : grid) (R C r c dist : Z) (dirs : list (Z * Z)) :
  grid_dims g R C -> 0 < R ->
  forall queue,
    exists extra,
      for_each (farthest_body g r c dist) dirs queue = Ok (queue ++ extra) /\
      (length extra <= length dirs)%nat /\
      Forall (fun e => cell_at g (fst e) = Some OPEN) extra /\
      Forall (fun e => snd e = dist + 1) extra.
Proof.
  intros Hd HR queue. exists (open_neighbours g r c dist dirs).
  destruct (open_neighbours_spec g r c dist dirs) as [Hlen Hall].
  split; [apply (farthest_dirs_exact r c dist dirs Hd HR) |].
  split; [assumption |].
  split; eapply Forall_impl; try exact Hall; simpl; tauto.
Qed.

(** The search for the farthest cell raises nothing, ends on an open cell,
    and is done within the length of the queue plus five turns for each cell
    not yet visited. *)
Lemma farthest_loop_spec (g : grid) (R C : Z) (fuel : nat) :
  grid_dims g R C -> 0 < R ->
  forall visited queue farthest max_dist,
    NoDup visited -> Forall (in_bounds R C) visited ->
    Forall (fun e => cell_at g (fst e) = Some OPEN) queue ->
    cell_at g farthest = Some OPEN ->
    match farthest_loop fuel g visited queue farthest max_dist with
    | Return f => cell_at g f = Some OPEN
    | Raise _ => False
    | OutOfFuel =>
      (fuel <= length queue
               + 5 * (Z.to_nat R * Z.to_nat C - length visited))%nat
    end.
Proof.
  intros Hd HR.
  assert (HRC : (length (all_cells R C) <= Z.to_nat R * Z.to_nat C)%nat)
    by (rewrite length_all_cells; lia).
  set (RC := (Z.to_nat R * Z.to_nat C)%nat) in *. clearbody RC.
  induction fuel as [| fuel IH];
    intros visited queue farthest max_dist Hnd Hvb Hq Hf.
  - simpl. lia.
  - cbn [farthest_loop]. destruct queue as [| [[r c] dist] queue].
    + assumption.
    + inversion Hq as [| ? ? Hhd Hq']; subst. cbn [fst] in Hhd.
      destruct (in_states (r, c) visited) eqn:Hvis.
      * specialize (IH visited queue farthest max_dist Hnd Hvb Hq' Hf).
        destruct (farthest_loop fuel g visited queue farthest max_dist);
          try assumption.
        cbn [length]. lia.
      * apply in_states_false in Hvis.
        assert (Hnd' : NoDup ((r, c) :: visited))
          by (constructor; assumption).
        assert (Hvb' : Forall (in_bounds R C) ((r, c) :: visited)).
        { constructor; [| assumption].
          eapply cell_at_some_in_bounds; eassumption. }
        assert (Hbound : (length ((r, c) :: visited) <= RC)%nat).
        { eapply Nat.le_trans; [| exact HRC].
          apply NoDup_incl_length; [assumption |].
          intros q Hin. apply in_all_cells.
          rewrite Forall_forall in Hvb'. apply Hvb'. assumption. }
        destruct (farthest_dirs_spec r c dist
                    [(-1, 0); (1, 0); (0, -1); (0, 1)] Hd HR queue)
          as (extra & Hfor & Hlen & Hall & _).
        rewrite Hfor.
        assert (Hq2 : Forall (fun e => cell_at g (fst e) = Some OPEN)
                             (queue ++ extra))
          by (apply Forall_app; split; assumption).
        destruct (dist >? max_dist); cbn [of_result obind].
        -- specialize (IH _ _ (r, c) dist Hnd' Hvb' Hq2 Hhd).
           destruct (farthest_loop fuel g _ _ (r, c) dist); try assumption.
           rewrite length_app in IH. cbn [length] in *. unfold coord in *. lia.
        -- specialize (IH _ _ farthest max_dist Hnd' Hvb' Hq2 Hf).
           destruct (farthest_loop fuel g _ _ farthest max_dist);
             try assumption.
           rewrite length_app in IH. cbn [length] in *. unfold coord in *. lia.
Qed.

(** Once the start has been visited, a cell waiting in the queue makes the
    search end away from the start. *)
Lemma farthest_loop_far (g : grid) (R C : Z) (s : coord) (fuel : nat) :
  grid_dims g R C -> 0 < R ->
  forall visited queue farthest max_dist f,
    In s visited ->
    Forall (fun e : Z * Z * Z => 1 <= snd e) queue ->
    (farthest <> s \/
     (max_dist <= 0 /\ exists e, In e queue /\ ~ In (fst e) visited)) ->
    farthest_loop fuel g visited queue farthest max_dist = Return f ->
    f <> s.
Proof.
  intros Hd HR. induction fuel as [| fuel IH];
    intros visited queue farthest max_dist f Hs Hq Hcase Hret.
  - discriminate.
  - cbn [farthest_loop] in Hret. destruct queue as [| [[r c] dist] queue].
    + inversion Hret; subst f. destruct Hcase as [Hne | (_ & e & [] & _)].
      assumption.
    + inversion Hq as [| ? ? Hdist Hq']; subst. cbn [snd] in Hdist.
      destruct (in_states (r, c) visited) eqn:Hvis.
      * apply (IH visited queue farthest max_dist f Hs Hq'); [| assumption].
        destruct Hcase as [Hne | (Hmax & e & [<- | Hin] & Hnv)].
        -- left; assumption.
        -- exfalso. apply Hnv. apply in_states_spec. assumption.
        -- right. split; [assumption |]. exists e. split; assumption.
      * apply in_states_false in Hvis.
        assert (Hne : (r, c) <> s)
          by (intros Heq; apply Hvis; rewrite Heq; exact Hs).
        rewrite (farthest_dirs_exact r c dist _ Hd HR) in Hret.
        destruct (open_neighbours_spec g r c dist
                    [(-1, 0); (1, 0); (0, -1); (0, 1)]) as [_ Hall].
        assert (Hq2 : Forall (fun e : Z * Z * Z => 1 <= snd e)
                        (queue ++ open_neighbours g r c dist
                                    [(-1, 0); (1, 0); (0, -1); (0, 1)])).
        { apply Forall_app. split; [assumption |].
          eapply Forall_impl; [| exact Hall]. cbv beta. intros e [_ He].
          unfold coord in *. lia. }
        destruct (Z.gtb_spec dist max_dist) as [Hgt | Hle];
          cbn [of_result obind] in Hret.
        -- refine (IH _ _ _ _ f _ _ _ Hret);
             [right; exact Hs | exact Hq2 | left; exact Hne].
        -- refine (IH _ _ _ _ f _ _ _ Hret);
             [right; exact Hs | exact Hq2 |].
           destruct Hcase as [Hfs | (Hmax & _)]; [left; assumption | lia].
Qed.

Lemma find_farthest_not_start (g : grid) (R C : Z) (s f : coord)
    (fuel : nat) :
  grid_dims g R C -> 0 < R ->
  (exists dir, In dir [(-1, 0); (1, 0); (0, -1); (0, 1)] /\
               is_open g (fst s + fst dir, snd s + snd dir) = true) ->
  find_farthest_point fuel g s = Return f -> f <> s.
Proof.
  intros Hd HR (dir & Hdir & Hopen) Hret. destruct s as [sr sc].
  unfold find_farthest_point in Hret. cbn [fst snd] in *.
  destruct fuel as [| fuel]; [discriminate |].
  cbn [farthest_loop in_states existsb] in Hret.
  rewrite (farthest_dirs_exact sr sc 0 _ Hd HR) in Hret.
  change (0 >? -1) with true in Hret. cbn [of_result obind app] in Hret.
  destruct (open_neighbours_spec g sr sc 0
              [(-1, 0); (1, 0); (0, -1); (0, 1)]) as [_ Hall].
  refine (@farthest_loop_far g R C (sr, sc) fuel Hd HR _ _ _ _ f _ _ _ Hret).
  - left; reflexivity.
  - eapply Forall_impl; [| exact Hall]. cbv beta. intros e [_ He].
    unfold coord in *. lia.
  - right. split; [lia |].
    exists (sr + fst dir, sc + snd dir, 0 + 1). split.
    + unfold open_neighbours.
      apply (in_map (fun dir => (sr + fst dir, sc + snd dir, 0 + 1))).
      apply filter_In. split; assumption.
    + cbn [fst]. intros [Heq | []]. inversion Heq as [[H1 H2]].
      destruct Hdir as [<- | [<- | [<- | [<- | []]]]]; cbn [fst snd] in *;
        lia.
Qed.

(** ** Generation *)

Lemma gen_fuel_carve (R C : Z) (fuel : nat) :
  (fuel <= 1 + (Z.to_nat R * Z.to_nat C - 1))%nat ->
  (fuel < gen_fuel R C)%nat.
Proof. unfold gen_fuel. lia. Qed.

Lemma gen_fuel_farthest (R C : Z) (fuel : nat) :
  (fuel <= 1 + 5 * (Z.to_nat R * Z.to_nat C - 0))%nat ->
  (fuel < gen_fuel R C)%nat.
Proof. unfold gen_fuel. lia. Qed.

Lemma walk_first_step (m : Maze) (s x : coord) (k : nat) :
  walk_len m s x k -> x <> s -> exists y, adj m s y.
Proof.
  induction 1 as [| x y k Hw IH Hadj]; intros Hne; [contradiction |].
  destruct (coord_eq_dec x s) as [-> | Hxs]; [exists y; assumption |].
  apply IH. assumption.
Qed.

Lemma nbr_dirs (s y : coord) :
  nbr s y ->
  exists dir, In dir [(-1, 0); (1, 0); (0, -1); (0, 1)] /\
              y = (fst s + fst dir, snd s + snd dir).
Proof.
  unfold nbr. destruct s as [sr sc], y as [yr yc]. cbn [fst snd]. intros Hn.
  destruct (Z.eq_dec yr (sr - 1)) as [Hr | Hr].
  { exists (-1, 0). split; [simpl; auto |]. cbn [fst snd]. f_equal; lia. }
  destruct (Z.eq_dec yr (sr + 1)) as [Hr' | Hr'].
  { exists (1, 0). split; [simpl; auto |]. cbn [fst snd]. f_equal; lia. }
  destruct (Z.eq_dec yc (sc - 1)) as [Hc | Hc].
  { exists (0, -1). split; [simpl; auto |]. cbn [fst snd]. f_equal; lia. }
  exists (0, 1). split; [simpl; auto |]. cbn [fst snd]. f_equal; lia.
Qed.

(** On a grid with room for a second lattice cell, the carved start cell
    has an open cell next to it. *)
Lemma start_has_open_neighbour (R C : Z) (s : coord) (g : grid)
    (opened : list coord) (d : coord -> nat) :
  carve_inv R C s g opened d -> stack_covers R C g [] ->
  lattice s -> 1 <= fst s <= R - 2 -> 1 <= snd s <= C - 2 ->
  5 <= R \/ 5 <= C ->
  exists dir, In dir [(-1, 0); (1, 0); (0, -1); (0, 1)] /\
              cell_at g (fst s + fst dir, snd s + snd dir) = Some OPEN.
Proof.
  intros HI Hcov Hlat Hsr Hsc Hbig.
  assert (Hdir0 : exists dir0, In dir0 directions /\
                               in_bounds R C (lattice_target s dir0)).
  { destruct Hlat as [Hl1 Hl2]. unfold lattice_target, in_bounds, directions.
    destruct Hbig as [HR | HC].
    - destruct (Z_lt_le_dec (fst s) 3).
      + exists (1, 0). split; [simpl; auto |]. cbn [fst snd]. mlia.
      + exists (-1, 0). split; [simpl; auto |]. cbn [fst snd]. mlia.
    - destruct (Z_lt_le_dec (snd s) 3).
      + exists (0, 1). split; [simpl; auto |]. cbn [fst snd]. mlia.
      + exists (0, -1). split; [simpl; auto |]. cbn [fst snd]. mlia. }
  destruct Hdir0 as (dir0 & Hdir0 & Hb0).
  destruct (Hcov s Hlat (ci_start HI)) as [[] | Hclosed].
  pose proof (Hclosed dir0 Hdir0 Hb0) as Ht.
  assert (Hts : lattice_target s dir0 <> s).
  { unfold lattice_target. rewrite coord_eq_iff. cbn [fst snd].
    unfold directions in Hdir0.
    destruct Hdir0 as [<- | [<- | [<- | [<- | []]]]]; cbn [fst snd]; lia. }
  destruct (ci_reach HI _ Ht) as [k Hw].
  destruct (walk_first_step Hw Hts) as [y Hadj].
  apply adj_iff in Hadj. destruct Hadj as (Hn & _ & Hy).
  cbn [maze maze_of] in Hy.
  destruct (nbr_dirs Hn) as (dir & Hdir & ->).
  exists dir. split; [assumption |].
  unfold nonwall in Hy.
  destruct (cell_at g (fst s + fst dir, snd s + snd dir)) as [ch |] eqn:Hc;
    [| discriminate].
  destruct (ci_chars HI _ Hc) as [-> | [-> | Heq]].
  - discriminate.
  - reflexivity.
  - exfalso. rewrite Heq in Hn. apply (nbr_irrefl Hn).
Qed.

(** What [generate_solvable_maze] does: it returns a maze with the
    generator's guarantees, or raises [ValueError] because a dimension is
    below 3, or runs out of a fuel below [gen_fuel]. *)
Lemma generate_spec (fuel : nat) (self_rows self_cols : Z) (r : rng) :
  match generate_solvable_maze fuel self_rows self_cols r with
  | Return m =>
    generated m /\
    rows m = force_odd self_rows /\ cols m = force_odd self_cols
  | Raise e =>
    e = ValueError /\ (force_odd self_rows < 3 \/ force_odd self_cols < 3)
  | OutOfFuel =>
    (fuel < gen_fuel (force_odd self_rows) (force_odd self_cols))%nat
  end.
Proof.
  unfold generate_solvable_maze.
  pose proof (force_odd_mod self_rows) as HRodd.
  pose proof (force_odd_mod self_cols) as HCodd.
  set (R := force_odd self_rows) in *. set (C := force_odd self_cols) in *.
  destruct (randrange 1 R 2 r) as [[sr r1] | e] eqn:Hr1; cbn [of_result obind].
  2:{ destruct (randrange_error R r Hr1 HRodd). auto. }
  destruct (randrange_inv R r Hr1 HRodd) as (HR3 & Hsr_odd & Hsr).
  destruct (randrange 1 C 2 r1) as [[sc r2] | e] eqn:Hr2;
    cbn [of_result obind].
  2:{ destruct (randrange_error C r1 Hr2 HCodd). auto. }
  destruct (randrange_inv C r1 Hr2 HCodd) as (HC3 & Hsc_odd & Hsc).
  set (s := (sr, sc)).
  assert (Hsb : in_bounds R C s) by (unfold in_bounds, s; simpl; lia).
  assert (Hslat : lattice s) by (split; assumption).
  (* the start cell on the grid of walls *)
  destruct (grid_set_spec START (all_walls_dims R C) Hsb)
    as (g1 & Hs1 & Hd1 & Hc1).
  change (fst s) with sr in Hs1. change (snd s) with sc in Hs1.
  rewrite Hs1. cbn [of_result obind].
  assert (Hcs1 : cell_at g1 s = Some START).
  { rewrite Hc1, coord_eqb_refl. reflexivity. }
  assert (Hco1 : forall q ch, q <> s -> cell_at g1 q = Some ch -> ch = WALL).
  { intros q ch Hne Hc. rewrite Hc1 in Hc. apply coord_eqb_neq in Hne.
    rewrite Hne in Hc. pose proof (all_walls_nonwall R C q) as Hw.
    unfold nonwall in Hw. rewrite Hc in Hw.
    apply negb_false_iff, Ascii.eqb_eq in Hw. assumption. }
  pose proof (initial_inv Hd1 Hslat Hcs1 Hco1) as HI1.
  assert (Hst1 : stack_ok g1 [s]).
  { constructor; [| constructor].
    split; [assumption | apply (ci_start HI1)]. }
  assert (Hcov1 : stack_covers R C g1 [s]).
  { intros q _ Hq. left. left.
    destruct (coord_eq_dec q s) as [Heq | Hne]; [auto |].
    exfalso. unfold nonwall in Hq.
    destruct (cell_at g1 q) as [ch |] eqn:Hc; [| discriminate].
    rewrite (Hco1 q ch Hne Hc) in Hq. discriminate. }
  (* carving *)
  pose proof (carve_loop_spec fuel r2 HI1 Hst1 Hcov1) as Hcarve.
  destruct (carve_loop fuel R C g1 [s] r2) as [gc | e |];
    cbn [obind]; [| contradiction | apply gen_fuel_carve; exact Hcarve].
  destruct Hcarve as (opened & d & HIc & Hcovc).
  (* the goal *)
  destruct (grid_set_spec OPEN (ci_dims HIc) Hsb) as (g3 & Hs3 & Hd3 & Hc3).
  change (fst s) with sr in Hs3. change (snd s) with sc in Hs3.
  rewrite Hs3. cbn [of_result obind].
  assert (Hopen_s : cell_at g3 s = Some OPEN).
  { rewrite Hc3, coord_eqb_refl. reflexivity. }
  assert (HRpos : 0 < R) by lia.
  assert (Hq0 : Forall (fun e : coord * Z => cell_at g3 (fst e) = Some OPEN)
                       [(sr, sc, 0)])
    by (constructor; [exact Hopen_s | constructor]).
  pose proof (@farthest_loop_spec g3 R C fuel Hd3 HRpos [] [(sr, sc, 0)] s (-1)
                (NoDup_nil _) (Forall_nil _) Hq0 Hopen_s) as Hfar.
  pose proof (@find_farthest_not_start g3 R C s) as Hnot.
  unfold find_farthest_point in *.
  change (fst s) with sr in *. change (snd s) with sc in *.
  destruct (farthest_loop fuel g3 [] [(sr, sc, 0)] s (-1)) as [gl | e |]
    eqn:Hfl;
    cbn [obind]; [| contradiction | apply gen_fuel_farthest; exact Hfar].
  specialize (Hnot gl fuel Hd3 HRpos).
  destruct gl as [gr gcol]. set (gl := (gr, gcol)) in *.
  assert (Hglb : in_bounds R C gl)
    by (eapply cell_at_some_in_bounds; eassumption).
  destruct (grid_set_spec GOAL Hd3 Hglb) as (g4 & Hs4 & Hd4 & Hc4).
  change (fst gl) with gr in Hs4. change (snd gl) with gcol in Hs4.
  rewrite Hs4. cbn [of_result obind].
  destruct (grid_set_spec START Hd4 Hsb) as (g5 & Hs5 & Hd5 & Hc5).
  change (fst s) with sr in Hs5. change (snd s) with sc in Hs5.
  rewrite Hs5. cbn [of_result obind].
  (* the final grid has the open cells of the carved one *)
  assert (Hgl_c : nonwall gc gl = true).
  { destruct (coord_eqb_spec gl s) as [-> | Hne]; [apply (ci_start HIc) |].
    unfold nonwall. rewrite Hc3 in Hfar.
    apply coord_eqb_neq in Hne. rewrite Hne in Hfar. rewrite Hfar.
    reflexivity. }
  assert (Hnw5 : forall q, nonwall g5 q = nonwall gc q).
  { intros q.
    rewrite (@nonwall_set _ _ _ _ Hc5), (@nonwall_set _ _ _ _ Hc4),
      (@nonwall_set _ _ _ _ Hc3).
    destruct (coord_eqb_spec q s) as [-> | Hqs].
    - symmetry. apply (ci_start HIc).
    - destruct (coord_eqb_spec q gl) as [-> | Hqg]; [| reflexivity].
      symmetry. assumption. }
  split; [| split; reflexivity].
  constructor; cbn [rows cols start goal maze].
  - exact Hd5.
  - split; assumption.
  - split; assumption.
  - split; [assumption |]. rewrite Hnw5. apply (ci_start HIc).
  - rewrite Hnw5. assumption.
  - exists d. apply (tree_labelled_ext g5 Hnw5), (ci_tree HIc).
  - intros q Hq. rewrite Hnw5 in Hq.
    destruct (ci_reach HIc q Hq) as [k Hw]. exists k.
    eapply (@walk_len_mono (maze_of R C s gc));
      [reflexivity | reflexivity | | exact Hw].
    cbn [maze maze_of]. intros q' Hq'. rewrite Hnw5. assumption.
  - rewrite Hc5, coord_eqb_refl. reflexivity.
  - intros Hne. rewrite Hc5, Hc4.
    apply coord_eqb_neq in Hne. rewrite Hne, coord_eqb_refl. reflexivity.
  - intros q ch Hc Hqs Hqg. rewrite Hc5, Hc4, Hc3 in Hc.
    apply coord_eqb_neq in Hqs, Hqg. rewrite Hqs, Hqg in Hc.
    destruct (ci_chars HIc _ Hc) as [Hw | [Ho | Heq]]; auto.
    apply coord_eqb_neq in Hqs. contradiction.
  - intros Hbig. apply Hnot; [| exact Hfl].
    destruct (@start_has_open_neighbour R C s gc opened d HIc Hcovc Hslat Hsr
                Hsc Hbig) as (dir & Hdir & Hopen).
    exists dir. split; [assumption |].
    apply is_open_spec. rewrite Hc3.
    assert (Hneq : coord_eqb (sr + fst dir, sc + snd dir) s = false).
    { apply coord_eqb_neq. rewrite coord_eq_iff. unfold s. cbn [fst snd].
      destruct Hdir as [<- | [<- | [<- | [<- | []]]]]; cbn [fst snd]; lia. }
    rewrite Hneq. exact Hopen.
Qed.

Lemma Maze_init_spec (fuel : nat) (rows0 cols0 : Z) (r : rng) :
  match Maze_init fuel rows0 cols0 r with
  | Return m =>
    generated m /\ rows m = stored_dim rows0 /\ cols m = stored_dim cols0
  | Raise e =>
    e = ValueError /\ (stored_dim rows0 < 3 \/ stored_dim cols0 < 3)
  | OutOfFuel =>
    (fuel < gen_fuel (stored_dim rows0) (stored_dim cols0))%nat
  end.
Proof. apply generate_spec. Qed.

(** ** Paths in a generated maze *)

(** In a tree-labelled maze the depth of a good node is the depth of its
    cell in the tree. *)
Lemma good_depth_label {N} `{NodeLike N} (m : Maze) (d : coord -> nat)
    (n : N) :
  tree_labelled (maze m) (start m) d ->
  nonwall (maze m) (start m) = true ->
  good m (start m) n ->
  d (state n) = depth n /\
  nonwall (maze m) (state n) = true /\
  forall q, parent n = Some q ->
            d (state q) = depth q /\ nbr (state n) (state q) /\
            nonwall (maze m) (state q) = true.
Proof.
  intros Ht Hs Hg.
  induction Hg as [n Hp Hst | n p Hp Hg IH Hadj Hnb].
  - rewrite Hst, (depth_root _ Hp). split; [apply (tl_start Ht) |].
    split; [assumption |]. intros q Hq. congruence.
  - destruct IH as (IH1 & IH2 & IH3).
    apply adj_iff in Hadj. destruct Hadj as (Hn & _ & Hnw).
    rewrite (depth_parent _ Hp).
    split; [| split; [assumption |]].
    + destruct (tl_step Ht IH2 Hnw Hn) as [Hdown | Hup];
        [| rewrite Hup, IH1; reflexivity].
      exfalso. destruct (parent p) as [q |] eqn:Hq.
      * destruct (IH3 q eq_refl) as (Hq1 & Hq2 & Hq3).
        apply (Hnb q eq_refl).
        apply (@tl_parent _ _ _ Ht (state p)); try assumption.
        rewrite IH1, Hq1. apply depth_parent. assumption.
      * rewrite IH1, (depth_root _ Hq) in Hdown. discriminate.
    + intros q Hq. rewrite Hp in Hq. inversion Hq; subst q.
      split; [assumption |]. split; [apply nbr_sym; assumption | assumption].
Qed.

(** No walk from the root is shorter than the depth of its end. *)
Lemma walk_lower_bound (m : Maze) (d : coord -> nat) (x : coord) (k : nat) :
  tree_labelled (maze m) (start m) d ->
  nonwall (maze m) (start m) = true ->
  walk_len m (start m) x k ->
  nonwall (maze m) x = true /\ (d x <= k)%nat.
Proof.
  intros Ht Hs Hw. induction Hw as [| x y k Hw IH Hadj].
  - split; [assumption |]. rewrite (tl_start Ht). lia.
  - destruct IH as [Hx Hd].
    apply adj_iff in Hadj. destruct Hadj as (Hn & _ & Hy).
    split; [assumption |].
    destruct (tl_step Ht Hx Hy Hn); lia.
Qed.

Lemma good_goal_shortest {N} `{NodeLike N} (m : Maze) (n : N) :
  generated m -> good m (start m) n -> state n = goal m ->
  shortest_len m (start m) (goal m) (depth n).
Proof.
  intros Hgen Hg Hst. destruct (gen_tree Hgen) as [d Ht].
  destruct (gen_start Hgen) as [_ Hs].
  destruct (good_depth_label Ht Hs Hg) as (Hd & _ & _).
  split.
  - rewrite <- Hst. apply good_walk. assumption.
  - intros j Hw. destruct (walk_lower_bound Ht Hs Hw) as [_ Hle].
    rewrite <- Hst, Hd in Hle. assumption.
Qed.

Lemma shortest_len_unique (m : Maze) (s x : coord) (j k : nat) :
  shortest_len m s x j -> shortest_len m s x k -> j = k.
Proof.
  intros [Hj1 Hj2] [Hk1 Hk2].
  pose proof (Hj2 _ Hk1). pose proof (Hk2 _ Hj1). lia.
Qed.

Lemma length_removelast_pred {A} (l : list A) :
  length (removelast l) = Nat.pred (length l).
Proof.
  destruct l as [| x l]; [reflexivity |].
  rewrite (length_removelast x l). reflexivity.
Qed.

Lemma returned_path_length {N} `{NodeLike N} (back_path : N -> path) (n : N) :
  (forall n, back_path n =
             match parent n with
             | None => []
             | Some p => (action n, state n) :: back_path p
             end) ->
  length (removelast (rev (back_path n))) = Nat.pred (depth n).
Proof.
  intros Heq.
  rewrite length_removelast_pred, length_rev, (back_path_length _ Heq).
  reflexivity.
Qed.

(** On a generated maze breadth-first and A-star search both return, and
    their paths are one shorter than a shortest walk from start to goal. *)
Lemma generated_bfs_astar (m : Maze) (fuel : nat) :
  generated m -> (search_fuel m <= fuel)%nat ->
  exists k p1 e1 p2 e2,
    shortest_len m (start m) (goal m) k /\
    fst (breadth_first_search fuel (start m) m) = Return (p1, e1) /\
    fst (astar_first_search fuel (start m) m) = Return (p2, e2) /\
    length p1 = Nat.pred k /\ length p2 = Nat.pred k.
Proof.
  intros Hgen Hfuel.
  pose proof (gen_reach Hgen _ (gen_goal Hgen)) as Hreach.
  destruct (bfs_result (start m) (gen_wf Hgen) Hfuel)
    as [[_ Hnr] | (n1 & e1 & Hr1 & Hg1 & Hs1)]; [contradiction |].
  destruct (astar_result (start m) (gen_wf Hgen) Hfuel)
    as [[_ Hnr] | (n2 & e2 & Hr2 & Hg2 & Hs2)]; [contradiction |].
  pose proof (good_goal_shortest Hgen Hg1 Hs1) as Hk1.
  pose proof (good_goal_shortest Hgen Hg2 Hs2) as Hk2.
  exists (depth n1), (removelast (rev (node_back_path n1))), e1,
    (removelast (rev (cost_node_back_path n2))), e2.
  split; [assumption |]. split; [exact Hr1 |]. split; [exact Hr2 |].
  split.
  - apply returned_path_length, node_back_path_eq.
  - rewrite (shortest_len_unique Hk1 Hk2).
    apply returned_path_length, cost_node_back_path_eq.
Qed.

(** ** Shortest paths on generated mazes *)

Lemma maze_3_5_built : Maze_init 20 3 5 zero_rng = Return maze_3_5.
Proof. vm_compute. reflexivity. Qed.

Lemma maze_3_5_bfs :
  fst (breadth_first_search 17 (start maze_3_5) maze_3_5)
  = Return ([(Some "right"%string, (1, 2))], [(1, 2)]).
Proof. vm_compute. reflexivity. Qed.

Lemma maze_3_5_generated : generated maze_3_5.
Proof.
  pose proof (Maze_init_spec 20 3 5 zero_rng) as Hspec.
  rewrite maze_3_5_built in Hspec. tauto.
Qed.

Lemma maze_3_5_shortest :
  shortest_len maze_3_5 (start maze_3_5) (goal maze_3_5) 2.
Proof.
  destruct (@generated_bfs_astar maze_3_5 17 maze_3_5_generated)
    as (k & p1 & e1 & p2 & e2 & Hk & Hb & _ & Hl & _).
  - vm_compute. lia.
  - rewrite maze_3_5_bfs in Hb. inversion Hb; subst p1 e1.
    simpl in Hl. destruct k as [| [| [| k]]]; try discriminate.
    assumption.
Qed.

(** C1 as stated fails: on the maze [Maze(3, 5)] builds, a shortest walk
    from start to goal has 2 moves and breadth-first search returns a path
    of 1 element. *)
Lemma bfs_path_length_is_not_shortest_length :
  exists m p ex,
    Maze_init 20 3 5 zero_rng = Return m /\
    fst (breadth_first_search 17 (start m) m) = Return (p, ex) /\
    shortest_len m (start m) (goal m) 2 /\
    length p <> 2%nat.
Proof.
  exists maze_3_5, [(Some "right"%string, (1, 2))], [(1, 2)].
  split; [exact maze_3_5_built |]. split; [exact maze_3_5_bfs |].
  split; [exact maze_3_5_shortest |]. simpl. discriminate.
Qed.

(** C1, amended: on every maze that [Maze(rows, cols)] builds, with
    [rows * cols + 2] turns of fuel, breadth-first search and A-star search
    from the start both return a path, the two paths have the same length,
    and that length is one less than the number of moves of a shortest walk
    from start to goal (0 when start and goal are one cell): the step onto
    the goal is left out of the returned path. *)
Theorem bfs_astar_paths_shortest (fuel0 : nat) (rows0 cols0 : Z) (r : rng)
    (m : Maze) (fuel : nat) :
  Maze_init fuel0 rows0 cols0 r = Return m ->
  (search_fuel m <= fuel)%nat ->
  exists k p1 e1 p2 e2,
    shortest_len m (start m) (goal m) k /\
    fst (breadth_first_search fuel (start m) m) = Return (p1, e1) /\
    fst (astar_first_search fuel (start m) m) = Return (p2, e2) /\
    length p1 = Nat.pred k /\ length p2 = Nat.pred k.
Proof.
  intros Hm Hfuel.
  pose proof (Maze_init_spec fuel0 rows0 cols0 r) as Hspec.
  rewrite Hm in Hspec. destruct Hspec as [Hgen _].
  apply generated_bfs_astar; assumption.
Qed.

Lemma bfs_astar_paths_shortest_witness :
  exists k p1 e1 p2 e2,
    shortest_len maze_3_5 (start maze_3_5) (goal maze_3_5) k /\
    fst (breadth_first_search 17 (start maze_3_5) maze_3_5)
    = Return (p1, e1) /\
    fst (astar_first_search 17 (start maze_3_5) maze_3_5)
    = Return (p2, e2) /\
    length p1 = Nat.pred k /\ length p2 = Nat.pred k.
Proof.
  apply (@bfs_astar_paths_shortest 20 3 5 zero_rng maze_3_5 17).
  - vm_compute. reflexivity.
  - vm_compute. lia.
Defined.

(** ** Construction *)

Lemma stored_dim_3 (n : Z) : 2 <= n -> 3 <= stored_dim n.
Proof.
  intros Hn. pose proof (stored_dim_odd n) as Hodd.
  pose proof (stored_dim_ge n) as Hge.
  rewrite odd_mod2 in Hodd. apply Z.eqb_eq in Hodd. mlia.
Qed.

(** C7 as stated fails: [Maze(1, 1)] raises [ValueError], from
    [random.randrange(1, 1, 2)], whatever the random draws. *)
Lemma maze_1_1_raises :
  Maze_init 1 1 1 zero_rng = Raise ValueError /\
  ~ exists fuel r m, Maze_init fuel 1 1 r = Return m.
Proof.
  split; [reflexivity |].
  intros (fuel & r & m & Hm). vm_compute in Hm. discriminate.
Qed.

(** C7, amended: for every [rows >= 2] and [cols >= 2], whatever the random
    draws, [Maze(rows, cols)] raises nothing and returns a maze; its two
    loops end within [5 * R * C + 2] turns, [R] and [C] being the stored
    dimensions. *)
Theorem maze_construction_succeeds (rows0 cols0 : Z) (r : rng)
    (fuel : nat) :
  2 <= rows0 -> 2 <= cols0 ->
  (gen_fuel (stored_dim rows0) (stored_dim cols0) <= fuel)%nat ->
  exists m, Maze_init fuel rows0 cols0 r = Return m /\ generated m.
Proof.
  intros Hr Hc Hfuel.
  pose proof (Maze_init_spec fuel rows0 cols0 r) as Hspec.
  pose proof (stored_dim_3 Hr). pose proof (stored_dim_3 Hc).
  destruct (Maze_init fuel rows0 cols0 r) as [m | e |].
  - exists m. tauto.
  - lia.
  - lia.
Qed.

Lemma maze_construction_succeeds_witness :
  exists m, Maze_init 47 2 2 zero_rng = Return m /\ generated m.
Proof.
  apply (@maze_construction_succeeds 2 2 zero_rng 47).
  - lia.
  - lia.
  - vm_compute. lia.
Defined.

(** ** The stored dimensions *)

(** C8: for positive [rows] and [cols], the dimensions [Maze(rows, cols)]
    stores are the inputs when odd and the inputs plus one when even; the
    [|= 1] of the generator changes nothing more, and the grid is built with
    these dimensions. *)
Theorem stored_dimensions (rows0 cols0 : Z) :
  0 < rows0 -> 0 < cols0 ->
  stored_dim rows0 = (if Z.odd rows0 then rows0 else rows0 + 1) /\
  stored_dim cols0 = (if Z.odd cols0 then cols0 else cols0 + 1) /\
  stored_dim rows0 = init_dim rows0 /\
  stored_dim cols0 = init_dim cols0 /\
  forall fuel r m,
    Maze_init fuel rows0 cols0 r = Return m ->
    rows m = (if Z.odd rows0 then rows0 else rows0 + 1) /\
    cols m = (if Z.odd cols0 then cols0 else cols0 + 1) /\
    grid_dims (maze m) (rows m) (cols m).
Proof.
  intros _ _.
  split; [apply stored_dim_spec |]. split; [apply stored_dim_spec |].
  split; [rewrite stored_dim_spec, init_dim_spec; reflexivity |].
  split; [rewrite stored_dim_spec, init_dim_spec; reflexivity |].
  intros fuel r m Hm.
  pose proof (Maze_init_spec fuel rows0 cols0 r) as Hspec.
  rewrite Hm in Hspec. destruct Hspec as (Hgen & Hr & Hc).
  rewrite Hr, Hc, !stored_dim_spec.
  split; [reflexivity |]. split; [reflexivity |].
  rewrite <- !stored_dim_spec, <- Hr, <- Hc. apply (gen_wf Hgen).
Qed.

Lemma stored_dimensions_witness :
  stored_dim 4 = 5 /\ stored_dim 5 = 5 /\
  stored_dim 4 = init_dim 4 /\ stored_dim 5 = init_dim 5 /\
  forall fuel r m,
    Maze_init fuel 4 5 r = Return m ->
    rows m = 5 /\ cols m = 5 /\ grid_dims (maze m) (rows m) (cols m).
Proof.
  apply (@stored_dimensions 4 5); lia.
Defined.

(** ** The smallest maze *)

Lemma randrange_3 (r : rng) :
  randrange 1 3 2 r = Ok (1, fun k => r (S k)).
Proof.
  unfold randrange. change ((3 - 1 + 2 - 1) / 2) with 1.
  cbn [Z.leb Z.compare rng_next]. rewrite Z.mod_1_r. reflexivity.
Qed.

Lemma carve_nothing_3_3 (g : grid) (stack : list coord)
    (dirs : list (Z * Z)) :
  Forall (fun dir => In dir directions) dirs ->
  for_each (carve_body 3 3 1 1) dirs (g, stack) = Ok (g, stack).
Proof.
  induction 1 as [| dir dirs Hdir _ IH]; cbn [for_each]; [reflexivity |].
  unfold directions in Hdir.
  destruct Hdir as [<- | [<- | [<- | [<- | []]]]]; cbn; exact IH.
Qed.

(** Whatever the random draws, [Maze(3, 3)] builds the grid that has the
    start cell alone; the goal is the start cell, whose ['G'] is overwritten
    by ['S']. *)
Lemma maze_3_3_built (r : rng) (fuel : nat) :
  (2 <= fuel)%nat -> Maze_init fuel 3 3 r = Return maze_3_3.
Proof.
  intros Hfuel.
  destruct fuel as [| [| fuel]]; try lia.
  unfold Maze_init, generate_solvable_maze.
  change (force_odd (init_dim 3)) with 3.
  rewrite randrange_3. cbn [of_result obind]. rewrite randrange_3.
  cbn [of_result obind].
  match goal with
  | |- context [grid_set ?g 1 1 START] =>
    let v := eval vm_compute in (grid_set g 1 1 START) in
    change (grid_set g 1 1 START) with v
  end.
  cbn [of_result obind carve_loop last removelast].
  pose proof (sorted_random_perm directions
                (fun k => r (S (S k)))) as Hperm.
  destruct (sorted_random directions (fun k => r (S (S k)))) as [dirs r'].
  cbn [fst] in Hperm.
  rewrite carve_nothing_3_3.
  2:{ apply Forall_forall. intros x Hx.
      apply (Permutation_in _ Hperm). assumption. }
  cbn [of_result obind]. vm_compute. reflexivity.
Qed.

Lemma maze_3_3_no_goal (q : coord) : cell_at (maze maze_3_3) q <> Some GOAL.
Proof.
  destruct q as [r c]. unfold cell_at. cbn [fst snd].
  destruct ((0 <=? r) && (0 <=? c)); [| discriminate].
  assert (Hrow : forall row : list ascii,
             In row (maze maze_3_3) ->
             nth_error row (Z.to_nat c) <> Some GOAL).
  { intros row Hrow Hc. apply nth_error_In in Hc.
    unfold GOAL in Hc. cbn in Hrow.
    decompose [or] Hrow; try contradiction; subst row; cbn in Hc;
      decompose [or] Hc; try discriminate; contradiction. }
  destruct (nth_error (maze maze_3_3) (Z.to_nat r)) as [row |] eqn:Hr;
    [| discriminate].
  apply Hrow. eapply nth_error_In; eassumption.
Qed.

(** ** The cells of a generated maze *)

(** C2 as stated fails: the grid [Maze(3, 3)] builds has no ['G'] cell; its
    goal is the start cell, which holds ['S']. *)
Lemma smallest_maze_has_no_goal_cell :
  exists m,
    Maze_init 2 3 3 zero_rng = Return m /\
    goal m = start m /\
    count_cells GOAL (maze m) = O /\
    ~ exactly_one GOAL (maze m).
Proof.
  exists maze_3_3. split; [apply maze_3_3_built; lia |].
  split; [reflexivity |]. split; [reflexivity |].
  intros [p Hp]. apply (maze_3_3_no_goal p). apply Hp. reflexivity.
Qed.

Lemma generated_only_start (m : Maze) :
  generated m -> only_cell START (maze m) (start m).
Proof.
  intros Hgen q. split.
  - intros Hc. destruct (coord_eq_dec q (start m)) as [Heq | Hqs];
      [assumption |].
    exfalso. destruct (coord_eq_dec q (goal m)) as [Heq | Hqg].
    + subst q. rewrite (gen_goal_cell Hgen Hqs) in Hc. discriminate.
    + destruct (@gen_cells m Hgen q START Hc Hqs Hqg) as [Hch | Hch];
        discriminate.
  - intros ->. apply (gen_start_cell Hgen).
Qed.

Lemma generated_only_goal (m : Maze) :
  generated m -> goal m <> start m -> only_cell GOAL (maze m) (goal m).
Proof.
  intros Hgen Hne q. split.
  - intros Hc. destruct (coord_eq_dec q (goal m)) as [Heq | Hqg];
      [assumption |].
    exfalso. destruct (coord_eq_dec q (start m)) as [Heq | Hqs].
    + subst q. rewrite (gen_start_cell Hgen) in Hc. discriminate.
    + destruct (@gen_cells m Hgen q GOAL Hc Hqs Hqg) as [Hch | Hch];
        discriminate.
  - intros ->. apply (gen_goal_cell Hgen Hne).
Qed.

(** C2, amended: on every maze that [Maze(rows, cols)] builds, exactly one
    cell holds ['S'], the start cell; when a stored dimension is 5 or more,
    the goal is not the start cell and exactly one cell holds ['G'], the
    goal cell; and every cell that is not a wall can be reached from the
    start cell by moves onto cells that are not walls. *)
Theorem generated_maze_cells (fuel : nat) (rows0 cols0 : Z) (r : rng)
    (m : Maze) :
  Maze_init fuel rows0 cols0 r = Return m ->
  only_cell START (maze m) (start m) /\
  (5 <= rows m \/ 5 <= cols m ->
   goal m <> start m /\ only_cell GOAL (maze m) (goal m)) /\
  (forall q, nonwall (maze m) q = true -> reachable m (start m) q).
Proof.
  intros Hm.
  pose proof (Maze_init_spec fuel rows0 cols0 r) as Hspec.
  rewrite Hm in Hspec. destruct Hspec as [Hgen _].
  split; [apply generated_only_start; assumption |]. split.
  - intros Hbig. pose proof (gen_far Hgen Hbig) as Hne.
    split; [assumption | apply generated_only_goal; assumption].
  - apply (gen_reach Hgen).
Qed.

Lemma generated_maze_cells_witness :
  only_cell START (maze maze_3_5) (start maze_3_5) /\
  (5 <= rows maze_3_5 \/ 5 <= cols maze_3_5 ->
   goal maze_3_5 <> start maze_3_5 /\
   only_cell GOAL (maze maze_3_5) (goal maze_3_5)) /\
  (forall q, nonwall (maze maze_3_5) q = true ->
             reachable maze_3_5 (start maze_3_5) q).
Proof.
  apply (@generated_maze_cells 20 3 5 zero_rng maze_3_5).
  vm_compute. reflexivity.
Defined.

Lemma last_cons {A} (x d : A) (l : list A) : last (x :: l) d = last l x.
Proof.
  revert x d. induction l as [| y l IH]; intros x d; [reflexivity |].
  change (last (x :: y :: l) d) with (last (y :: l) d).
  rewrite !IH. reflexivity.
Qed.

Lemma path_from_snoc (m : Maze) (s : coord) (p : path) (a : option string)
    (x : coord) :
  path_from m s (p ++ [(a, x)]) <->
  path_from m s p /\
  exists act, a = Some act /\ In (act, x) (neighbours m (path_end s p)).
Proof.
  revert s. induction p as [| [b y] p IH]; intros s.
  - cbn. tauto.
  - cbn [app path_from]. rewrite IH.
    assert (Hend : path_end s ((b, y) :: p) = path_end y p).
    { unfold path_end. cbn [map snd]. apply last_cons. }
    rewrite Hend. tauto.
Qed.

Lemma path_end_snoc (s : coord) (p : path) (a : option string) (x : coord) :
  path_end s (p ++ [(a, x)]) = x.
Proof. unfold path_end. rewrite map_app. cbn [map snd]. apply last_last. Qed.

Section SkeletonPaths.
Context {N : Type} `{NodeLike N}.
Variable add : list N -> N -> list N.
Variable remove : list N -> result (N * list N).
Variable mk_child : N -> string -> coord -> N.
Variable back_path : N -> path.

Hypothesis add_perm : forall fr n, Permutation (add fr n) (n :: fr).
Hypothesis remove_perm :
  forall fr, fr <> [] ->
    exists n fr', remove fr = Ok (n, fr') /\ Permutation fr (n :: fr').
Hypothesis child_state : forall p a s, state (mk_child p a s) = s.
Hypothesis child_parent : forall p a s, parent (mk_child p a s) = Some p.
Hypothesis child_action : forall p a s, action (mk_child p a s) = Some a.
Hypothesis back_path_eq :
  forall n, back_path n =
            match parent n with
            | None => []
            | Some p => (action n, state n) :: back_path p
            end.

Variable m : Maze.
Variable s0 : coord.
Hypothesis Hwf : maze_wf m.

Local Abbreviation step := (search_step add remove mk_child back_path m).
Local Abbreviation loop := (search_loop add remove mk_child back_path).

(** The path of a linked node, read from the root, is a run of moves from
    the root's cell to the node's. *)
Lemma linked_path (n : N) :
  linked m s0 n ->
  path_from m s0 (rev (back_path n)) /\
  path_end s0 (rev (back_path n)) = state n.
Proof.
  induction 1 as [n Hp Hs | n p act Hp Ha Hin Hl IH].
  - rewrite back_path_eq, Hp. cbn. auto.
  - rewrite back_path_eq, Hp. cbn [rev]. destruct IH as [IH1 IH2].
    split; [| apply path_end_snoc].
    apply path_from_snoc. split; [assumption |].
    exists act. rewrite IH2. auto.
Qed.

(** Dropping the last move leaves a run of moves that ends one move from
    the node's cell. *)
Lemma linked_returned_path (n : N) :
  linked m s0 n ->
  let p := removelast (rev (back_path n)) in
  path_from m s0 p /\
  ((parent n = None /\ p = [] /\ state n = s0) \/
   exists act q, parent n = Some q /\ action n = Some act /\
                 In (act, state n) (neighbours m (path_end s0 p))).
Proof.
  intros Hl. inversion Hl as [n' Hp Hs | n' p act Hp Ha Hin Hlp]; subst n'.
  - rewrite back_path_eq, Hp. cbn. auto.
  - rewrite back_path_eq, Hp. cbn [rev]. rewrite removelast_last.
    destruct (linked_path Hlp) as [H1 H2].
    cbv zeta. split; [assumption |]. right. exists act, p. rewrite H2. auto.
Qed.

Lemma ancestor_cells (n : N) :
  forall x, In x (map snd (back_path n)) ->
            exists q p, ancestor n q /\ parent q = Some p /\ state q = x.
Proof.
  remember (depth n) as k eqn:Hk. revert n Hk.
  induction k as [| k IH]; intros n Hk x Hx; rewrite back_path_eq in Hx;
    destruct (parent n) as [p |] eqn:Hp; try contradiction.
  - rewrite (depth_parent _ Hp) in Hk. discriminate.
  - cbn [map snd] in Hx. destruct Hx as [<- | Hx].
    + exists n, p. split; [constructor | auto].
    + rewrite (depth_parent _ Hp) in Hk.
      destruct (IH p ltac:(congruence) x Hx) as (q & p' & Ha & Hq & Hs).
      exists q, p'. split; [econstructor; eassumption | auto].
Qed.

Lemma ancestor_parent (n q q1 : N) :
  parent n = Some q -> ancestor q q1 ->
  exists c, ancestor n c /\ parent c = Some q1.
Proof.
  intros Hp Ha. revert n Hp.
  induction Ha as [q | q p' q1 Hq Ha IH]; intros n Hp.
  - exists n. split; [constructor | assumption].
  - destruct (IH q Hq) as (c & Hc1 & Hc2).
    exists c. split; [econstructor; eassumption | assumption].
Qed.

Lemma expand_new (n : N) (es : list coord) (nexts : list (string * coord)) :
  forall fr x,
    In x (expand add mk_child n es nexts fr) ->
    In x fr \/
    exists a s, In (a, s) nexts /\ x = mk_child n a s /\
                ~ In s (map state fr) /\ ~ In s es.
Proof.
  unfold expand.
  induction nexts as [| [a s] nexts IH]; intros fr x Hx; cbn [fold_left] in Hx.
  - left; assumption.
  - destruct (negb (StackFrontier.contains_state fr s)
              && negb (in_states s es)) eqn:Hc.
    + apply andb_true_iff in Hc. destruct Hc as [Hc1 Hc2].
      apply negb_true_iff in Hc1, Hc2.
      assert (Hnf : ~ In s (map state fr)).
      { rewrite <- contains_state_spec. congruence. }
      apply in_states_false in Hc2.
      apply IH in Hx. destruct Hx as [Hx | (a' & s' & Hin & Hx & Hn1 & Hn2)].
      * apply (Permutation_in _ (add_perm fr (mk_child n a s))) in Hx.
        destruct Hx as [<- | Hx]; [| left; assumption].
        right. exists a, s. split; [left; reflexivity | auto].
      * right. exists a', s'. split; [right; assumption |].
        split; [assumption |]. split; [| assumption].
        intros Hin'. apply Hn1. apply in_map_iff in Hin'.
        destruct Hin' as [z [Hz1 Hz2]]. apply in_map_iff. exists z.
        split; [assumption |].
        apply (Permutation_in _ (Permutation_sym
                 (add_perm fr (mk_child n a s)))). right; assumption.
    + apply IH in Hx. destruct Hx as [Hx | (a' & s' & Hin & Hx & Hn1 & Hn2)];
        [left; assumption |].
      right. exists a', s'. split; [right; assumption | auto].
Qed.

Lemma step_continue_path (s s' : search_state) :
  Inv_path m s0 s -> step s = inr s' -> Inv_path m s0 s'.
Proof.
  intros [HI Hlk Hrev Hfirst Hanc] Hstep.
  destruct (@step_continue N _ add remove mk_child back_path add_perm
              remove_perm child_state child_parent m s0 Hwf s s' HI Hstep)
    as [HI' _].
  unfold search_step in Hstep.
  destruct (StackFrontier.empty (s_frontier s)) eqn:He; [discriminate |].
  assert (Hne : s_frontier s <> []).
  { intros Heq. apply empty_spec in Heq. congruence. }
  destruct (remove_perm Hne) as (n & fr1 & Hrem & Hperm).
  rewrite Hrem in Hstep.
  destruct (coord_eqb (state n) (goal m)) eqn:Hg; [discriminate |].
  rewrite (get_next_spec n Hwf) in Hstep.
  inversion Hstep; subst s'; clear Hstep.
  cbn [s_frontier s_explored_states s_explored] in *.
  assert (Hn : In n (s_frontier s)).
  { apply (Permutation_in _ (Permutation_sym Hperm)). left; reflexivity. }
  assert (Hsub : forall x, In x fr1 -> In x (s_frontier s)).
  { intros x Hx. apply (Permutation_in _ (Permutation_sym Hperm)).
    right; assumption. }
  rewrite Forall_forall in Hlk.
  assert (Hs0 : In s0 (state n :: s_explored_states s) \/
                In s0 (map state fr1)).
  { destruct (inv_start HI) as [Hs | Hs]; [left; right; assumption |].
    apply in_map_iff in Hs. destruct Hs as [z [Hz1 Hz2]].
    apply (Permutation_in _ Hperm) in Hz2. destruct Hz2 as [<- | Hz2].
    - left. left. assumption.
    - right. apply in_map_iff. exists z. auto. }
  constructor; cbn [s_frontier s_explored_states s_explored].
  - assumption.
  - apply Forall_forall. intros x Hx.
    destruct (expand_new _ _ _ _ _ Hx) as [Hx1 | (a & c & Hin & Heq & _)].
    + apply Hlk, Hsub. assumption.
    + subst x. apply linked_child with n a.
      * apply child_parent.
      * apply child_action.
      * rewrite child_state. assumption.
      * apply Hlk. assumption.
  - rewrite rev_app_distr. cbn [rev app]. rewrite Hrev. reflexivity.
  - right. destruct Hfirst as [[Hex Hfr] | [l Hl]].
    + exists []. rewrite Hex. cbn [app].
      assert (Hin : In (state n) (map state (s_frontier s)))
        by (apply in_map; assumption).
      rewrite Hfr in Hin. destruct Hin as [<- | []]. reflexivity.
    + exists (l ++ [state n]). rewrite Hl. reflexivity.
  - intros x q p Hx Haq Hq.
    destruct (expand_new _ _ _ _ _ Hx)
      as [Hx1 | (a & c & Hin & Heq & Hn1 & Hn2)].
    + destruct (Hanc x q p (Hsub x Hx1) Haq Hq) as [H1 H2].
      split; [right; assumption | assumption].
    + subst x. inversion Haq as [x' | x' p' q' Hp' Haq']; subst.
      * rewrite child_parent in Hq. inversion Hq; subst p.
        split; [left; reflexivity |].
        rewrite child_state. intros ->.
        destruct Hs0 as [Hs | Hs]; contradiction.
      * rewrite child_parent in Hp'. inversion Hp'; subst p'.
        destruct (Hanc n q p Hn Haq' Hq) as [H1 H2].
        split; [right; assumption | assumption].
Qed.

Lemma init_inv_path (root : N) :
  parent root = None -> state root = s0 ->
  Inv_path m s0 (mkState (add [] root) [] []).
Proof.
  intros Hp Hs.
  pose proof (@init_inv N _ add add_perm m s0 root Hp Hs) as HI.
  assert (Hfr : add [] root = [root]).
  { apply Permutation_length_1_inv, Permutation_sym, add_perm. }
  rewrite Hfr in *.
  constructor; cbn [s_frontier s_explored_states s_explored map].
  - assumption.
  - repeat constructor; assumption.
  - reflexivity.
  - left. rewrite Hs. auto.
  - intros n q p [<- | []] Haq Hq.
    inversion Haq; subst; congruence.
Qed.

(** The turn that ends a call that returns. *)
Lemma loop_returns (fuel : nat) :
  forall s r,
    Inv_path m s0 s -> loop fuel m s = Return r ->
    exists s1 n,
      Inv_path m s0 s1 /\ In n (s_frontier s1) /\ state n = goal m /\
      r = (removelast (rev (back_path n)), tl (s_explored s1)).
Proof.
  induction fuel as [| fuel IH]; intros s r HI Hr; cbn [search_loop] in Hr.
  - discriminate.
  - destruct (step s) as [r1 | s'] eqn:Hstep.
    + subst r1. exists s. unfold search_step in Hstep.
      destruct (StackFrontier.empty (s_frontier s)) eqn:He; [discriminate |].
      assert (Hne : s_frontier s <> []).
      { intros Heq. apply empty_spec in Heq. congruence. }
      destruct (remove_perm Hne) as (n & fr1 & Hrem & Hperm).
      rewrite Hrem in Hstep.
      destruct (coord_eqb (state n) (goal m)) eqn:Hg.
      * exists n. inversion Hstep; subst r.
        split; [assumption |]. split.
        -- apply (Permutation_in _ (Permutation_sym Hperm)). left; reflexivity.
        -- split; [apply coord_eqb_eq; assumption | reflexivity].
      * rewrite (get_next_spec n Hwf) in Hstep. discriminate.
    + apply (IH s'); [| assumption].
      eapply step_continue_path; eassumption.
Qed.

(** What a call that returns has returned. *)
Lemma search_returns (fuel : nat) (root : N) (p : path) (e : list coord) :
  parent root = None -> state root = s0 ->
  loop fuel m (mkState (add [] root) [] []) = Return (p, e) ->
  (path_from m s0 p /\
   ((s0 = goal m /\ p = [] /\ e = []) \/
    (s0 <> goal m /\
     exists act, In (act, goal m) (neighbours m (path_end s0 p))))) /\
  (NoDup e /\ ~ In s0 e /\ ~ In (goal m) e /\
   (forall x, In x e -> reachable m s0 x) /\
   (forall x, In x (map snd p) -> In x e)) /\
  (exists n, good m s0 n /\ linked m s0 n /\ state n = goal m /\
             p = removelast (rev (back_path n))).
Proof.
  intros Hp Hs Hr.
  destruct (loop_returns fuel (init_inv_path root Hp Hs) Hr)
    as (s1 & n & [HI Hlk Hrev Hfirst Hanc] & Hn & Hg & Heq).
  inversion Heq; subst p e; clear Heq.
  rewrite Forall_forall in Hlk.
  destruct (linked_returned_path (Hlk n Hn)) as [Hpath Hend].
  cbv zeta in Hend.
  assert (Hroot : parent n = None -> s_explored s1 = []).
  { intros Hpn. destruct Hfirst as [[Hex _] | [l Hl]]; [assumption |].
    exfalso. destruct (inv_good HI n Hn) as [Hgood _].
    inversion Hgood as [n' _ Hst | n' q Hq _ _ _]; [| congruence].
    apply (inv_disj HI n Hn). rewrite Hst, Hrev, Hl. apply in_rev.
    rewrite rev_involutive. left; reflexivity. }
  split; [split; [assumption |] | split].
  3:{ exists n. split; [apply (inv_good HI n Hn) |]. auto. }
  - destruct Hend as [(Hpn & Hnil & Hst) | (act & q & Hq & Ha & Hin)].
    + left. rewrite Hroot by assumption. split; [congruence | auto].
    + right. split.
      * intros Heq.
        destruct (Hanc n n q Hn (ancestor_self n) Hq) as [_ Hne].
        congruence.
      * exists act. rewrite <- Hg. assumption.
  - assert (Hes : forall x, In x (s_explored s1) <->
                            In x (s_explored_states s1)).
    { intros x. rewrite Hrev. apply in_rev. }
    assert (Hnd : NoDup (s_explored s1)).
    { pose proof (NoDup_rev (inv_nodup_es HI)) as Hnd. rewrite Hrev in Hnd.
      rewrite rev_involutive in Hnd. assumption. }
    assert (Htl : forall x, In x (tl (s_explored s1)) ->
                            In x (s_explored s1)).
    { intros x Hx. destruct (s_explored s1); [assumption | right; assumption]. }
    split; [| split; [| split; [| split]]].
    + destruct (s_explored s1); [constructor |].
      inversion Hnd; assumption.
    + destruct Hfirst as [[Hex _] | [l Hl]].
      * rewrite Hex. intros [].
      * rewrite Hl in *. cbn [tl]. inversion Hnd; assumption.
    + intros Hin. apply (inv_goal HI), Hes, Htl. assumption.
    + intros x Hx. apply (inv_reach HI), Hes, Htl. assumption.
    + intros x Hx.
      destruct (parent n) as [q |] eqn:Hq.
      2:{ rewrite back_path_eq, Hq in Hx. contradiction. }
      rewrite back_path_eq, Hq in Hx. cbn [rev] in Hx.
      rewrite removelast_last in Hx. rewrite map_rev in Hx.
      rewrite <- in_rev in Hx.
      destruct (ancestor_cells q x Hx) as (q1 & p1 & Ha1 & Hq1 & Hs1).
      assert (Ha : ancestor n q1) by (econstructor; eassumption).
      destruct (Hanc n q1 p1 Hn Ha Hq1) as [_ Hne].
      (* q1 is the parent of some ancestor, or the parent of n *)
      assert (Hin : In x (s_explored_states s1)).
      { destruct (@ancestor_parent n q q1 Hq Ha1) as (c & Hc1 & Hc2).
        rewrite <- Hs1. apply (Hanc n c q1 Hn Hc1 Hc2). }
      apply Hes in Hin.
      destruct Hfirst as [[Hex _] | [l Hl]];
        [rewrite Hex in Hin; contradiction |].
      rewrite Hl in *. cbn [tl]. destruct Hin as [Heq | Hin]; [| assumption].
      congruence.
Qed.

End SkeletonPaths.

(** ** What the four searches return *)

Lemma node_child_action (p : Node) (a : string) (s : coord) :
  action (node_child p a s) = Some a.
Proof. reflexivity. Qed.

Lemma search_functions_skeleton (m : Maze) (s0 : coord) (fuel : nat)
    (search : nat -> coord -> M (path * list coord))
    (P : outcome (path * list coord) -> Prop) :
  In search search_functions ->
  (forall N (HN : NodeLike N) add remove mk_child back_path root,
      (forall fr n, Permutation (add fr n) (n :: fr)) ->
      (forall fr, fr <> [] ->
         exists n fr', remove fr = Ok (n, fr') /\ Permutation fr (n :: fr')) ->
      (forall p a s, state (mk_child p a s) = s) ->
      (forall p a s, parent (mk_child p a s) = Some p) ->
      (forall p a s, action (mk_child p a s) = Some a) ->
      (forall n, back_path n =
                 match parent n with
                 | None => []
                 | Some p => (action n, state n) :: back_path p
                 end) ->
      parent root = None -> state root = s0 ->
      P (search_loop add remove mk_child back_path fuel m
           (mkState (add [] root) [] []))) ->
  P (fst (search fuel s0 m)).
Proof.
  intros Hin HP. destruct Hin as [<- | [<- | [<- | [<- | []]]]].
  - rewrite breadth_first_search_skeleton. cbn [fst].
    apply (HP Node _ QueueFrontier.add QueueFrontier.remove node_child
             node_back_path (mkNode s0 None None));
      auto using stack_add_perm, queue_remove_perm, node_back_path_eq.
  - rewrite depth_first_search_skeleton. cbn [fst].
    apply (HP Node _ StackFrontier.add StackFrontier.remove node_child
             node_back_path (mkNode s0 None None));
      auto using stack_add_perm, stack_remove_perm, node_back_path_eq.
  - rewrite greedy_first_search_skeleton. cbn [fst].
    apply (HP Node _ (PriorityQueueFrontier.add manhattan_distance (goal m))
             QueueFrontier.remove node_child
             node_back_path (mkNode s0 None None));
      auto using greedy_add_perm, queue_remove_perm, node_back_path_eq.
  - rewrite astar_first_search_skeleton. cbn [fst].
    apply (HP CostNode _
             (PriorityQueueFrontier.add cumulative_cost_function (goal m))
             QueueFrontier.remove cost_node_child
             cost_node_back_path (mkCostNode s0 None None 0));
      auto using astar_add_perm, queue_remove_perm, cost_node_back_path_eq.
Qed.

Lemma search_functions_return (search : nat -> coord -> M (path * list coord))
    (m : Maze) (s0 : coord) (fuel : nat) (p : path) (e : list coord) :
  maze_wf m -> In search search_functions ->
  fst (search fuel s0 m) = Return (p, e) ->
  (path_from m s0 p /\
   ((s0 = goal m /\ p = [] /\ e = []) \/
    (s0 <> goal m /\
     exists act, In (act, goal m) (neighbours m (path_end s0 p))))) /\
  (NoDup e /\ ~ In s0 e /\ ~ In (goal m) e /\
   (forall x, In x e -> reachable m s0 x) /\
   (forall x, In x (map snd p) -> In x e)) /\
  (exists k, walk_len m s0 (goal m) k /\ length p = Nat.pred k).
Proof.
  intros Hwf Hin. apply (@search_functions_skeleton m s0 fuel search
    (fun r => r = Return (p, e) -> _) Hin).
  intros N HN add remove mk_child back_path root Hadd Hrem Hcs Hcp Hca Hbp
    Hroot Hst Hr.
  destruct (@search_returns N HN add remove mk_child back_path Hadd Hrem Hcs
              Hcp Hca Hbp m s0 Hwf fuel root p e Hroot Hst Hr)
    as (H1 & H2 & (n & Hg & _ & Hn & Hp)).
  split; [assumption |]. split; [assumption |].
  exists (depth n). split.
  - rewrite <- Hn. apply good_walk. assumption.
  - rewrite Hp. apply returned_path_length. assumption.
Qed.

(** X1: the path a search returns is a run of moves from the start cell,
    each one a move [get_next] offers at the cell the one before it leads
    to; when the start is not the goal, one more move from the last cell of
    the path leads onto the goal; when the start is the goal, path and
    explored list are both empty. *)
Theorem returned_path_is_a_run_of_moves
    (search : nat -> coord -> M (path * list coord))
    (m : Maze) (s0 : coord) (fuel : nat) (p : path) (e : list coord) :
  maze_wf m -> In search search_functions ->
  fst (search fuel s0 m) = Return (p, e) ->
  path_from m s0 p /\
  ((s0 = goal m /\ p = [] /\ e = []) \/
   (s0 <> goal m /\
    exists act, In (act, goal m) (neighbours m (path_end s0 p)))).
Proof.
  intros Hwf Hin Hr.
  apply (@search_functions_return search m s0 fuel p e Hwf Hin Hr).
Qed.

Lemma returned_path_is_a_run_of_moves_witness :
  path_from corridor (1, 1) one_step_path /\
  (((1, 1) = goal corridor /\ one_step_path = [] /\ [(1, 2)] = []) \/
   ((1, 1) <> goal corridor /\
    exists act,
      In (act, goal corridor)
         (neighbours corridor (path_end (1, 1) one_step_path)))).
Proof.
  apply (@returned_path_is_a_run_of_moves depth_first_search corridor (1, 1) 3
           one_step_path [(1, 2)]).
  - exact corridor_wf.
  - right. left. reflexivity.
  - vm_compute. reflexivity.
Defined.

(** X2: the explored list a search returns has no cell twice, holds neither
    the start cell nor the goal cell, holds only cells that can be reached
    from the start, and holds every cell of the returned path. *)
Theorem explored_cells_of_a_search
    (search : nat -> coord -> M (path * list coord))
    (m : Maze) (s0 : coord) (fuel : nat) (p : path) (e : list coord) :
  maze_wf m -> In search search_functions ->
  fst (search fuel s0 m) = Return (p, e) ->
  NoDup e /\ ~ In s0 e /\ ~ In (goal m) e /\
  (forall x, In x e -> reachable m s0 x) /\
  (forall x, In x (map snd p) -> In x e).
Proof.
  intros Hwf Hin Hr.
  apply (@search_functions_return search m s0 fuel p e Hwf Hin Hr).
Qed.

Lemma explored_cells_of_a_search_witness :
  NoDup [(1, 2)] /\ ~ In (1, 1) [(1, 2)] /\ ~ In (goal corridor) [(1, 2)] /\
  (forall x, In x [(1, 2)] -> reachable corridor (1, 1) x) /\
  (forall x, In x (map snd one_step_path) -> In x [(1, 2)]).
Proof.
  apply (@explored_cells_of_a_search astar_first_search corridor (1, 1) 3
           one_step_path [(1, 2)]).
  - exact corridor_wf.
  - right. right. right. left. reflexivity.
  - vm_compute. reflexivity.
Defined.

Lemma search_functions_complete
    (search : nat -> coord -> M (path * list coord))
    (m : Maze) (s0 : coord) (fuel : nat) :
  maze_wf m -> In search search_functions -> (search_fuel m <= fuel)%nat ->
  reachable m s0 (goal m) ->
  exists p e, fst (search fuel s0 m) = Return (p, e).
Proof.
  intros Hwf Hin Hfuel.
  apply (@search_functions_skeleton m s0 fuel search
           (fun r => reachable m s0 (goal m) -> exists p e, r = Return (p, e))
           Hin).
  intros N HN add remove mk_child back_path root Hadd Hrem Hcs Hcp Hca Hbp
    Hroot Hst Hreach.
  destruct (@search_result N HN add remove mk_child back_path Hadd Hrem Hcs
              Hcp m s0 Hwf fuel root Hroot Hst Hfuel)
    as [[_ Hnr] | (n & ex & Hr & _)]; [contradiction |].
  eexists _, _. exact Hr.
Qed.

(** X3: with [rows * cols + 2] turns of fuel, each search returns a path
    exactly when the goal can be reached from the start coordinate. *)
Theorem search_returns_iff_goal_reachable
    (search : nat -> coord -> M (path * list coord))
    (m : Maze) (s0 : coord) (fuel : nat) :
  maze_wf m -> In search search_functions -> (search_fuel m <= fuel)%nat ->
  (reachable m s0 (goal m) <->
   exists p e, fst (search fuel s0 m) = Return (p, e)).
Proof.
  intros Hwf Hin Hfuel. split.
  - apply search_functions_complete; assumption.
  - intros (p & e & Hr).
    destruct (@search_functions_return search m s0 fuel p e Hwf Hin Hr)
      as (_ & _ & k & Hw & _).
    exists k. assumption.
Qed.

Lemma search_returns_iff_goal_reachable_witness :
  reachable corridor (1, 1) (goal corridor) <->
  exists p e, fst (greedy_first_search 27 (1, 1) corridor) = Return (p, e).
Proof.
  apply (@search_returns_iff_goal_reachable greedy_first_search corridor
           (1, 1) 27).
  - exact corridor_wf.
  - right. right. left. reflexivity.
  - vm_compute. lia.
Defined.

Section BfsLayers.
Context {N : Type} `{NodeLike N}.
Variable mk_child : N -> string -> coord -> N.
Variable back_path : N -> path.
Hypothesis child_state : forall p a s, state (mk_child p a s) = s.
Hypothesis child_parent : forall p a s, parent (mk_child p a s) = Some p.
Hypothesis back_path_eq :
  forall n, back_path n =
            match parent n with
            | None => []
            | Some p => (action n, state n) :: back_path p
            end.

Variable m : Maze.
Variable s0 : coord.
Hypothesis Hwf : maze_wf m.

Local Abbreviation step :=
  (search_step StackFrontier.add QueueFrontier.remove mk_child back_path m).
Local Abbreviation loop :=
  (search_loop StackFrontier.add QueueFrontier.remove mk_child back_path).

(** On a queue the children of a node go to the end, in order. *)
Lemma expand_append (n : N) (es : list coord)
    (nexts : list (string * coord)) :
  forall fr,
    exists cs,
      expand StackFrontier.add mk_child n es nexts fr = fr ++ cs /\
      Forall (fun c => exists a s, In (a, s) nexts /\ c = mk_child n a s /\
                                   ~ In s (map state fr) /\ ~ In s es) cs.
Proof.
  unfold expand.
  induction nexts as [| [a s] nexts IH]; intros fr; cbn [fold_left].
  - exists []. rewrite app_nil_r. split; [reflexivity | constructor].
  - destruct (negb (StackFrontier.contains_state fr s)
              && negb (in_states s es)) eqn:Hc.
    + apply andb_true_iff in Hc. destruct Hc as [Hc1 Hc2].
      apply negb_true_iff in Hc1, Hc2.
      assert (Hnf : ~ In s (map state fr)).
      { rewrite <- contains_state_spec. congruence. }
      apply in_states_false in Hc2.
      destruct (IH (StackFrontier.add fr (mk_child n a s)))
        as (cs & Heq & Hall).
      exists (mk_child n a s :: cs). split.
      * rewrite Heq. unfold StackFrontier.add. rewrite <- app_assoc.
        reflexivity.
      * constructor.
        -- exists a, s. split; [left; reflexivity | auto].
        -- eapply Forall_impl; [| exact Hall]. cbv beta.
           intros c (a' & s' & Hin & Hc & Hn1 & Hn2).
           exists a', s'. split; [right; assumption |].
           split; [assumption |]. split; [| assumption].
           intros Hin'. apply Hn1. unfold StackFrontier.add.
           rewrite map_app. apply in_or_app. left; assumption.
    + destruct (IH fr) as (cs & Heq & Hall).
      exists cs. split; [assumption |].
      eapply Forall_impl; [| exact Hall]. cbv beta.
      intros c (a' & s' & Hin & Hc' & Hn1 & Hn2).
      exists a', s'. split; [right; assumption | auto].
Qed.

Lemma step_continue_bfs (s s' : search_state) :
  Inv_bfs m s0 s -> step s = inr s' -> Inv_bfs m s0 s'.
Proof.
  intros [HI Hmin (D & A & B & Hfr & HA & HB & HAB & Hclose)] Hstep.
  destruct (@step_continue N _ StackFrontier.add QueueFrontier.remove mk_child
              back_path (@stack_add_perm N) (@queue_remove_perm N)
              child_state child_parent m s0 Hwf s s' HI Hstep) as [HI' _].
  unfold search_step in Hstep.
  destruct (StackFrontier.empty (s_frontier s)) eqn:He; [discriminate |].
  assert (Hne : s_frontier s <> []).
  { intros Heq. apply empty_spec in Heq. congruence. }
  destruct A as [| h A'].
  { rewrite (HAB eq_refl) in Hfr. contradiction. }
  rewrite Hfr in Hstep. cbn [app] in Hstep.
  change (QueueFrontier.remove (h :: A' ++ B)) with (Ok (h, A' ++ B)) in Hstep.
  cbv beta iota in Hstep.
  destruct (coord_eqb (state h) (goal m)) eqn:Hg; [discriminate |].
  rewrite (get_next_spec h Hwf) in Hstep.
  destruct (expand_append h (state h :: s_explored_states s)
              (neighbours m (state h)) (A' ++ B)) as (cs & Hexp & Hcs).
  rewrite Hexp in Hstep.
  inversion Hstep; subst s'; clear Hstep.
  cbn [s_frontier s_explored_states s_explored] in *.
  inversion HA as [| ? ? HhD HA']; subst.
  assert (Hcsd : Forall (fun n => depth n = S (depth h)) cs).
  { eapply Forall_impl; [| exact Hcs]. cbv beta.
    intros c (a & y & _ & -> & _). apply depth_parent, child_parent. }
  assert (Hold : forall x j, walk_len m s0 x j -> (j <= depth h)%nat ->
                   In x (state h :: s_explored_states s) \/
                   In x (map state ((A' ++ B) ++ cs))).
  { intros x j Hw Hj. destruct (Hclose x j Hw Hj) as [Hx | Hx].
    - left. right. assumption.
    - rewrite Hfr in Hx. cbn [app map] in Hx. destruct Hx as [<- | Hx].
      + left. left. reflexivity.
      + right. rewrite map_app. apply in_or_app. left. assumption. }
  constructor; cbn [s_frontier s_explored_states s_explored].
  - assumption.
  - intros n j Hn Hw. apply in_app_or in Hn. destruct Hn as [Hn | Hn].
    + apply Hmin; [| assumption]. rewrite Hfr. right. assumption.
    + rewrite Forall_forall in Hcs, Hcsd.
      rewrite (Hcsd n Hn).
      destruct (Hcs n Hn) as (a & y & _ & -> & Hn1 & Hn2).
      rewrite child_state in Hw.
      destruct (Nat.le_gt_cases j (depth h)) as [Hle | Hgt]; [| lia].
      exfalso. destruct (Hclose y j Hw Hle) as [Hx | Hx].
      * apply Hn2. right. assumption.
      * rewrite Hfr in Hx. cbn [app map] in Hx. destruct Hx as [Hx | Hx].
        -- apply Hn2. left. assumption.
        -- contradiction.
  - destruct A' as [| h' A''].
    + (* the layer of depth D is used up *)
      exists (S (depth h)), (B ++ cs), []. cbn [app] in *.
      rewrite app_nil_r.
      split; [reflexivity |]. split; [apply Forall_app; auto |].
      split; [constructor |]. split; [auto |].
      intros x j Hw Hj.
      destruct (Nat.le_gt_cases j (depth h)) as [Hle | Hgt];
        [apply Hold with j; assumption |].
      assert (Hj' : j = S (depth h)) by lia. subst j.
      inversion Hw as [| z x' k Hwz Hadj]; subst.
      destruct (Hclose z (depth h) Hwz (Nat.le_refl _)) as [Hz | Hz].
      * destruct (inv_closed HI z x Hz Hadj) as [Hx | Hx].
        -- left. right. assumption.
        -- rewrite Hfr in Hx. cbn [map] in Hx. destruct Hx as [<- | Hx].
           ++ left. left. reflexivity.
           ++ right. rewrite map_app. apply in_or_app. left. assumption.
      * rewrite Hfr in Hz. apply in_map_iff in Hz.
        destruct Hz as [nz [Hnz1 Hnz2]].
        assert (Hdz : (depth nz <= depth h)%nat).
        { apply Hmin; [rewrite Hfr; assumption |]. rewrite Hnz1. assumption. }
        destruct Hnz2 as [<- | Hnz2].
        -- rewrite <- Hnz1 in Hadj.
           apply (inv_closed HI' (state h) x); [left; reflexivity |].
           assumption.
        -- rewrite Forall_forall in HB. rewrite (HB nz Hnz2) in Hdz. lia.
    + exists (depth h), (h' :: A''), (B ++ cs).
      split; [rewrite <- app_assoc; reflexivity |].
      split; [assumption |]. split; [apply Forall_app; auto |].
      split; [discriminate |]. assumption.
Qed.

Lemma init_inv_bfs (root : N) :
  parent root = None -> state root = s0 ->
  Inv_bfs m s0 (mkState (StackFrontier.add [] root) [] []).
Proof.
  intros Hp Hs.
  pose proof (@init_inv N _ StackFrontier.add (@stack_add_perm N) m s0 root
                Hp Hs) as HI.
  constructor; cbn [s_frontier s_explored_states s_explored]; [assumption | |].
  - intros n j [<- | []] _. rewrite (depth_root _ Hp). lia.
  - exists O, [root], []. split; [reflexivity |].
    split; [constructor; [apply depth_root; assumption | constructor] |].
    split; [constructor |]. split; [discriminate |].
    intros x j Hw Hj. right. left.
    assert (j = O) by lia. subst j. inversion Hw. congruence.
Qed.

(** When the loop returns, the node it stopped at is as deep as a shortest
    walk to the goal is long. *)
Lemma loop_returns_bfs (fuel : nat) :
  forall s r,
    Inv_bfs m s0 s -> loop fuel m s = Return r ->
    exists n, shortest_len m s0 (goal m) (depth n) /\
              fst r = removelast (rev (back_path n)).
Proof.
  induction fuel as [| fuel IH]; intros s r HI Hr; cbn [search_loop] in Hr.
  - discriminate.
  - destruct (step s) as [r1 | s'] eqn:Hstep.
    + subst r1. unfold search_step in Hstep.
      destruct (StackFrontier.empty (s_frontier s)) eqn:He; [discriminate |].
      destruct (s_frontier s) as [| h fr] eqn:Hfr; [discriminate |].
      change (QueueFrontier.remove (h :: fr)) with (Ok (h, fr)) in Hstep.
      cbv beta iota in Hstep.
      destruct (coord_eqb (state h) (goal m)) eqn:Hg.
      * exists h. inversion Hstep; subst r. split; [| reflexivity].
        apply coord_eqb_eq in Hg.
        assert (Hh : In h (s_frontier s)) by (rewrite Hfr; left; reflexivity).
        split.
        -- rewrite <- Hg. apply good_walk.
           apply (inv_good (ib_inv HI) h Hh).
        -- intros j Hw. apply (ib_min HI h); [assumption |].
           rewrite Hg. assumption.
      * rewrite (get_next_spec h Hwf) in Hstep. discriminate.
    + apply (IH s'); [| assumption].
      eapply step_continue_bfs; eassumption.
Qed.
End BfsLayers.

Lemma bfs_shortest (m : Maze) (s0 : coord) (fuel : nat) (p : path)
    (e : list coord) :
  maze_wf m ->
  fst (breadth_first_search fuel s0 m) = Return (p, e) ->
  exists k, shortest_len m s0 (goal m) k /\ length p = Nat.pred k.
Proof.
  intros Hwf Hr. rewrite breadth_first_search_skeleton in Hr. cbn [fst] in Hr.
  destruct (@loop_returns_bfs Node Node_NodeLike node_child node_back_path
              (fun p a s => eq_refl) (fun p a s => eq_refl) m s0 Hwf fuel
              (bfs_init s0) (p, e)) as (n & Hk & Hp).
  - apply init_inv_bfs; reflexivity.
  - exact Hr.
  - exists (depth n). split; [assumption |]. cbn [fst] in Hp. rewrite Hp.
    apply returned_path_length, node_back_path_eq.
Qed.

(** X4: on any maze whose goal can be reached from the start coordinate,
    breadth-first search returns a path one shorter than a shortest walk
    from start to goal (the step onto the goal is left out), and no search
    of the four returns a shorter one. *)
Theorem bfs_path_is_shortest (m : Maze) (s0 : coord) (fuel : nat) :
  maze_wf m -> reachable m s0 (goal m) -> (search_fuel m <= fuel)%nat ->
  exists k p e,
    shortest_len m s0 (goal m) k /\
    fst (breadth_first_search fuel s0 m) = Return (p, e) /\
    length p = Nat.pred k /\
    forall search fuel' p' e',
      In search search_functions ->
      fst (search fuel' s0 m) = Return (p', e') ->
      (length p <= length p')%nat.
Proof.
  intros Hwf Hreach Hfuel.
  destruct (bfs_result s0 Hwf Hfuel) as [[_ Hnr] | (n & e & Hr & _)];
    [contradiction |].
  destruct (bfs_shortest s0 fuel Hwf Hr) as (k & Hk & Hlen).
  exists k, (removelast (rev (node_back_path n))), e.
  split; [assumption |]. split; [assumption |]. split; [assumption |].
  intros search fuel' p' e' Hin Hr'.
  destruct (@search_functions_return search m s0 fuel' p' e' Hwf Hin Hr')
    as (_ & _ & k' & Hw' & Hlen').
  rewrite Hlen, Hlen'. destruct Hk as [_ Hmin].
  pose proof (Hmin k' Hw'). lia.
Qed.

Lemma corridor_goal_reachable : reachable corridor (1, 1) (goal corridor).
Proof.
  exists 2%nat. apply walk_move with (1, 2).
  - apply walk_move with (1, 1); [constructor |]. vm_compute. auto.
  - vm_compute. auto.
Qed.

Lemma bfs_path_is_shortest_witness :
  exists k p e,
    shortest_len corridor (1, 1) (goal corridor) k /\
    fst (breadth_first_search 27 (1, 1) corridor) = Return (p, e) /\
    length p = Nat.pred k /\
    forall search fuel' p' e',
      In search search_functions ->
      fst (search fuel' (1, 1) corridor) = Return (p', e') ->
      (length p <= length p')%nat.
Proof.
  apply (@bfs_path_is_shortest corridor (1, 1) 27).
  - exact corridor_wf.
  - exact corridor_goal_reachable.
  - vm_compute. lia.
Defined.

(** A move of [get_next] is named by where it leads. *)
Lemma neighbours_action_unique (m : Maze) (y x : coord) (a b : string) :
  In (a, x) (neighbours m y) -> In (b, x) (neighbours m y) -> a = b.
Proof.
  unfold neighbours. intros Ha Hb.
  apply in_map_iff in Ha. destruct Ha as [mva [Ha1 Ha2]].
  apply in_map_iff in Hb. destruct Hb as [mvb [Hb1 Hb2]].
  apply filter_In in Ha2. destruct Ha2 as [Ha2 _].
  apply filter_In in Hb2. destruct Hb2 as [Hb2 _].
  inversion Ha1 as [[Ha3 Ha4]]. inversion Hb1 as [[Hb3 Hb4]].
  rewrite <- Hb4 in Ha4. unfold move_target in Ha4.
  apply coord_eq_iff in Ha4. cbn [fst snd] in Ha4. destruct Ha4 as [H1 H2].
  unfold moves in Ha2, Hb2.
  destruct Ha2 as [<- | [<- | [<- | [<- | []]]]];
    destruct Hb2 as [<- | [<- | [<- | [<- | []]]]];
    cbn [fst snd] in *; try reflexivity; lia.
Qed.

(** In a tree-labelled maze two nodes on one cell have the same path. *)
Lemma tree_paths_agree {N1} {H1 : NodeLike N1} {N2} {H2 : NodeLike N2}
    (m : Maze) (d : coord -> nat) (bp1 : N1 -> path) (bp2 : N2 -> path) :
  (forall n, bp1 n = match parent n with
                     | None => []
                     | Some p => (action n, state n) :: bp1 p
                     end) ->
  (forall n, bp2 n = match parent n with
                     | None => []
                     | Some p => (action n, state n) :: bp2 p
                     end) ->
  tree_labelled (maze m) (start m) d ->
  nonwall (maze m) (start m) = true ->
  forall k (n1 : N1) (n2 : N2),
    depth n1 = k ->
    good m (start m) n1 -> linked m (start m) n1 ->
    good m (start m) n2 -> linked m (start m) n2 ->
    state n1 = state n2 -> bp1 n1 = bp2 n2.
Proof.
  intros Hbp1 Hbp2 Ht Hs.
  induction k as [| k IH]; intros n1 n2 Hk Hg1 Hl1 Hg2 Hl2 Hst.
  - destruct (good_depth_label Ht Hs Hg1) as (Hd1 & _ & _).
    destruct (good_depth_label Ht Hs Hg2) as (Hd2 & _ & _).
    rewrite Hbp1, Hbp2.
    destruct (parent n1) as [p1 |] eqn:Hp1.
    { rewrite (depth_parent _ Hp1) in Hk. discriminate. }
    destruct (parent n2) as [p2 |] eqn:Hp2; [| reflexivity].
    rewrite (depth_parent _ Hp2), <- Hst, Hd1, Hk in Hd2. discriminate.
  - destruct (good_depth_label Ht Hs Hg1) as (Hd1 & Hnw1 & Hpar1).
    destruct (good_depth_label Ht Hs Hg2) as (Hd2 & Hnw2 & Hpar2).
    rewrite Hbp1, Hbp2.
    destruct (parent n1) as [p1 |] eqn:Hp1.
    2:{ rewrite (depth_root _ Hp1) in Hk. discriminate. }
    destruct (parent n2) as [p2 |] eqn:Hp2.
    2:{ rewrite (depth_root _ Hp2), <- Hst, Hd1, Hk in Hd2. discriminate. }
    destruct (Hpar1 p1 eq_refl) as (Hq1 & Hn1 & Hw1).
    destruct (Hpar2 p2 eq_refl) as (Hq2 & Hn2 & Hw2).
    assert (Hpst : state p1 = state p2).
    { apply (@tl_parent _ _ _ Ht (state n1)); try assumption.
      - rewrite Hst. assumption.
      - rewrite Hd1, Hq1. apply depth_parent. assumption.
      - rewrite Hst, Hd2, Hq2. apply depth_parent. assumption. }
    inversion Hg1 as [? Hr1 _ | ? q1 Hq1' Hgp1 _ _]; [congruence |].
    inversion Hg2 as [? Hr2 _ | ? q2 Hq2' Hgp2 _ _]; [congruence |].
    inversion Hl1 as [? Hr1 _ | ? r1 a1 Hr1 Ha1 Hin1 Hlp1]; [congruence |].
    inversion Hl2 as [? Hr2 _ | ? r2 a2 Hr2 Ha2 Hin2 Hlp2]; [congruence |].
    subst.
    assert (q1 = p1) by congruence. assert (q2 = p2) by congruence.
    assert (r1 = p1) by congruence. assert (r2 = p2) by congruence.
    subst q1 q2 r1 r2.
    rewrite Ha1, Ha2, Hst.
    rewrite Hst, Hpst in Hin1.
    rewrite (neighbours_action_unique _ _ _ _ _ Hin1 Hin2).
    f_equal. apply IH; try assumption.
    rewrite (depth_parent _ Hp1) in Hk. congruence.
Qed.

Lemma generated_search_path (search : nat -> coord -> M (path * list coord))
    (m : Maze) (fuel : nat) :
  generated m -> In search search_functions ->
  (search_fuel m <= fuel)%nat ->
  exists p e, fst (search fuel (start m) m) = Return (p, e).
Proof.
  intros Hgen Hin Hfuel.
  apply (@search_functions_complete search m (start m) fuel
           (gen_wf Hgen) Hin Hfuel).
  apply (gen_reach Hgen), (gen_goal Hgen).
Qed.

Lemma bfs_returned_node (m : Maze) (s0 : coord) (fuel : nat) (p : path)
    (e : list coord) :
  maze_wf m ->
  fst (breadth_first_search fuel s0 m) = Return (p, e) ->
  exists n : Node, good m s0 n /\ linked m s0 n /\ state n = goal m /\
                   p = removelast (rev (node_back_path n)).
Proof.
  intros Hwf Hr. rewrite breadth_first_search_skeleton in Hr. cbn [fst] in Hr.
  apply (@search_returns Node Node_NodeLike QueueFrontier.add
           QueueFrontier.remove node_child node_back_path
           (@stack_add_perm Node) (@queue_remove_perm Node)
           (fun p a s => eq_refl) (fun p a s => eq_refl)
           (fun p a s => eq_refl) node_back_path_eq m s0 Hwf fuel
           (mkNode s0 None None) p e eq_refl eq_refl Hr).
Qed.

(** On a generated maze the four searches return one and the same path. *)
Lemma generated_searches_agree (m : Maze) (fuel : nat) :
  generated m -> (search_fuel m <= fuel)%nat ->
  exists p k,
    shortest_len m (start m) (goal m) k /\ length p = Nat.pred k /\
    forall search, In search search_functions ->
                   exists e, fst (search fuel (start m) m) = Return (p, e).
Proof.
  intros Hgen Hfuel. pose proof (gen_wf Hgen) as Hwf.
  destruct (gen_tree Hgen) as [d Ht]. destruct (gen_start Hgen) as [_ Hs].
  destruct (@generated_search_path breadth_first_search m fuel Hgen
              ltac:(left; reflexivity) Hfuel) as (pb & eb & Hrb).
  destruct (bfs_returned_node (start m) fuel Hwf Hrb)
    as (nb & Hgb & Hlb & Hsb & Hpb).
  exists pb, (depth nb).
  split; [apply good_goal_shortest; assumption |].
  split; [rewrite Hpb; apply returned_path_length, node_back_path_eq |].
  intros search Hin.
  destruct (@generated_search_path search m fuel Hgen Hin Hfuel)
    as (p & e & Hr).
  exists e. rewrite Hr. do 2 f_equal. revert Hr.
  apply (@search_functions_skeleton m (start m) fuel search
           (fun r => r = Return (p, e) -> p = pb) Hin).
  intros N HN add remove mk_child back_path root Hadd Hrem Hcs Hcp Hca Hbp
    Hroot Hst Hr.
  destruct (@search_returns N HN add remove mk_child back_path Hadd Hrem Hcs
              Hcp Hca Hbp m (start m) Hwf fuel root p e Hroot Hst Hr)
    as (_ & _ & (n & Hg & Hl & Hn & Hp)).
  rewrite Hp, Hpb. do 2 f_equal.
  apply (@tree_paths_agree N HN Node Node_NodeLike m d back_path
           node_back_path Hbp node_back_path_eq Ht Hs (depth n) n nb
           eq_refl Hg Hl Hgb Hlb).
  congruence.
Qed.

(** X5: on every maze that [Maze(rows, cols)] builds, the four searches
    from the start return one and the same path, and it is one shorter than
    a shortest walk from start to goal. *)
Theorem generated_maze_searches_agree (fuel0 : nat) (rows0 cols0 : Z)
    (r : rng) (m : Maze) (fuel : nat) :
  Maze_init fuel0 rows0 cols0 r = Return m ->
  (search_fuel m <= fuel)%nat ->
  exists p k,
    shortest_len m (start m) (goal m) k /\ length p = Nat.pred k /\
    forall search, In search search_functions ->
                   exists e, fst (search fuel (start m) m) = Return (p, e).
Proof.
  intros Hm Hfuel.
  pose proof (Maze_init_spec fuel0 rows0 cols0 r) as Hspec.
  rewrite Hm in Hspec. destruct Hspec as [Hgen _].
  apply generated_searches_agree; assumption.
Qed.

Lemma generated_maze_searches_agree_witness :
  exists p k,
    shortest_len maze_3_5 (start maze_3_5) (goal maze_3_5) k /\
    length p = Nat.pred k /\
    forall search, In search search_functions ->
                   exists e,
                     fst (search 17%nat (start maze_3_5) maze_3_5)
                     = Return (p, e).
Proof.
  apply (@generated_maze_searches_agree 20 3 5 zero_rng maze_3_5 17).
  - vm_compute. reflexivity.
  - vm_compute. lia.
Defined.

(** ** A-star on a maze with two ways round *)

Lemma search_loop_more_fuel {N} `{NodeLike N} (add : list N -> N -> list N)
    (remove : list N -> result (N * list N))
    (mk_child : N -> string -> coord -> N) (back_path : N -> path)
    (m : Maze) (fuel : nat) :
  forall s r extra,
    search_loop add remove mk_child back_path fuel m s = Return r ->
    search_loop add remove mk_child back_path (fuel + extra) m s = Return r.
Proof.
  induction fuel as [| fuel IH]; intros s r extra Hr; [discriminate |].
  cbn [search_loop Nat.add] in *.
  destruct (search_step add remove mk_child back_path m s) as [r1 | s'];
    [assumption | apply IH; assumption].
Qed.

(** X6: A-star search, as written, does not always find a shortest path:
    on the maze [two_ways] it returns a path two moves longer than the one
    breadth-first search returns. *)
Theorem astar_path_can_be_longer :
  maze_wf two_ways /\
  forall fuel, (search_fuel two_ways <= fuel)%nat ->
    exists p1 e1 p2 e2,
      fst (breadth_first_search fuel (start two_ways) two_ways)
      = Return (p1, e1) /\
      fst (astar_first_search fuel (start two_ways) two_ways)
      = Return (p2, e2) /\
      length p1 = 6%nat /\ length p2 = 8%nat.
Proof.
  split; [split; [reflexivity | repeat constructor] |].
  intros fuel Hfuel.
  replace fuel with (search_fuel two_ways + (fuel - search_fuel two_ways))%nat
    by lia.
  rewrite breadth_first_search_skeleton, astar_first_search_skeleton.
  cbn [fst].
  assert (Hb : exists p1 e1,
             search_loop QueueFrontier.add QueueFrontier.remove node_child
               node_back_path (search_fuel two_ways) two_ways
               (bfs_init (start two_ways)) = Return (p1, e1) /\
             length p1 = 6%nat).
  { vm_compute. eexists _, _. split; reflexivity. }
  assert (Ha : exists p2 e2,
             search_loop
               (PriorityQueueFrontier.add cumulative_cost_function
                  (goal two_ways))
               QueueFrontier.remove cost_node_child cost_node_back_path
               (search_fuel two_ways) two_ways
               (astar_init two_ways (start two_ways)) = Return (p2, e2) /\
             length p2 = 8%nat).
  { vm_compute. eexists _, _. split; reflexivity. }
  destruct Hb as (p1 & e1 & Hb & Hl1). destruct Ha as (p2 & e2 & Ha & Hl2).
  exists p1, e1, p2, e2.
  split; [apply search_loop_more_fuel; assumption |].
  split; [apply search_loop_more_fuel; assumption | auto].
Qed.

(** ** Dimensions too small for a maze *)

Lemma stored_dim_small (n : Z) : n <= 1 -> stored_dim n <= 1.
Proof.
  intros Hn. rewrite stored_dim_spec.
  destruct (Z.odd n) eqn:Ho; [assumption |].
  assert (n <> 1) by (intros ->; discriminate). lia.
Qed.

Lemma randrange_small (R : Z) (r : rng) :
  R <= 1 -> randrange 1 R 2 r = Err ValueError.
Proof.
  intros HR. unfold randrange.
  destruct (Z.leb_spec ((R - 1 + 2 - 1) / 2) 0) as [_ | Hpos];
    [reflexivity |].
  exfalso. mlia.
Qed.

(** X7: for every [rows <= 1] or [cols <= 1], zero and negative numbers
    included, [Maze(rows, cols)] raises [ValueError], whatever the random
    draws: [random.randrange(1, n, 2)] has nothing to choose from. *)
Theorem maze_too_small_raises (rows0 cols0 : Z) (r : rng) (fuel : nat) :
  rows0 <= 1 \/ cols0 <= 1 ->
  Maze_init fuel rows0 cols0 r = Raise ValueError.
Proof.
  intros Hsmall. unfold Maze_init, generate_solvable_maze.
  change (force_odd (init_dim rows0)) with (stored_dim rows0).
  change (force_odd (init_dim cols0)) with (stored_dim cols0).
  destruct (randrange 1 (stored_dim rows0) 2 r) as [[sr r1] | e] eqn:Hr1;
    cbn [of_result obind].
  - destruct Hsmall as [Hs | Hs].
    + rewrite (randrange_small r (stored_dim_small Hs)) in Hr1. discriminate.
    + rewrite (randrange_small r1 (stored_dim_small Hs)). reflexivity.
  - destruct (randrange_error _ r Hr1 (force_odd_mod (init_dim rows0)))
      as [-> _].
    reflexivity.
Qed.

Lemma maze_too_small_raises_witness :
  Maze_init 40 4 (-3) zero_rng = Raise ValueError.
Proof.
  apply (@maze_too_small_raises 4 (-3) zero_rng 40). right. lia.
Defined.

(** ** The Manhattan distance as an estimate *)




(** ** Moves there and back *)

Lemma neighbours_iff (m : Maze) (x y : coord) (a : string) :
  In (a, y) (neighbours m x) <->
  (exists d, In (a, d) moves /\ y = (fst x + fst d, snd x + snd d)) /\
  in_bounds (rows m) (cols m) y /\ nonwall (maze m) y = true.
Proof.
  unfold neighbours. rewrite in_map_iff. split.
  - intros ([a' d] & Heq & Hin). apply filter_In in Hin.
    destruct Hin as [Hin Hal]. inversion Heq; subst a' y.
    unfold allowed in Hal. apply andb_true_iff in Hal.
    destruct Hal as [Hb Hnw].
    split; [exists d; split; [assumption | reflexivity] |].
    split; [| assumption].
    destruct (in_boundsb_spec (rows m) (cols m) (move_target x (a, d)));
      [assumption | discriminate].
  - intros ((d & Hin & ->) & Hb & Hnw). exists (a, d).
    split; [reflexivity |]. apply filter_In. split; [assumption |].
    unfold allowed.
    change (move_target x (a, d)) with (fst x + fst d, snd x + snd d).
    rewrite Hnw.
    destruct (in_boundsb_spec (rows m) (cols m)
                (fst x + fst d, snd x + snd d)); [reflexivity | contradiction].
Qed.

(** X9: a move can be undone: when [get_next] at a cell that is not a wall
    offers an action onto a cell, [get_next] at that cell offers the
    opposite action back onto the first. *)
Theorem get_next_moves_can_be_undone {N} `{NodeLike N} (m : Maze)
    (n1 n2 : N) (a : string) (l1 : list (string * coord)) :
  maze_wf m ->
  nonwall (maze m) (state n1) = true ->
  get_next m n1 = Ok l1 -> In (a, state n2) l1 ->
  exists l2, get_next m n2 = Ok l2 /\ In (opposite a, state n1) l2.
Proof.
  intros Hwf Hnw Hg1 Hin. rewrite (get_next_spec n1 Hwf) in Hg1.
  inversion Hg1; subst l1; clear Hg1.
  exists (neighbours m (state n2)). split; [apply get_next_spec; assumption |].
  apply neighbours_iff in Hin. destruct Hin as ((d & Hd & Heq) & _ & _).
  apply neighbours_iff. split; [| split].
  - rewrite Heq. unfold moves in *.
    destruct Hd as [Hd | [Hd | [Hd | [Hd | []]]]]; inversion Hd; subst a d;
      cbn [opposite String.eqb Ascii.eqb Bool.eqb fst snd].
    + exists (0, 1). split; [simpl; auto |]. cbn [fst snd].
      destruct (state n1); cbn [fst snd]. f_equal; lia.
    + exists (0, -1). split; [simpl; auto |]. cbn [fst snd].
      destruct (state n1); cbn [fst snd]. f_equal; lia.
    + exists (1, 0). split; [simpl; auto 6 |]. cbn [fst snd].
      destruct (state n1); cbn [fst snd]. f_equal; lia.
    + exists (-1, 0). split; [simpl; auto |]. cbn [fst snd].
      destruct (state n1); cbn [fst snd]. f_equal; lia.
  - apply (@nonwall_in_bounds (maze m) (rows m) (cols m) _ Hwf Hnw).
  - assumption.
Qed.

Lemma get_next_moves_can_be_undone_witness :
  exists l2, get_next corridor (mkNode (1, 2) None None) = Ok l2 /\
             In (opposite "right", state (mkNode (1, 1) None None)) l2.
Proof.
  apply (@get_next_moves_can_be_undone Node _ corridor
           (mkNode (1, 1) None None) (mkNode (1, 2) None None) "right"
           [("right"%string, (1, 2))]).
  - exact corridor_wf.
  - reflexivity.
  - reflexivity.
  - left. reflexivity.
Defined.

(** ** Adding to a frontier and removing from it *)

Lemma stack_remove_add {N} (fr : list N) (n : N) :
  StackFrontier.remove (StackFrontier.add fr n) = Ok (n, fr).
Proof.
  unfold StackFrontier.add.
  assert (Hne : fr ++ [n] <> []) by (destruct fr; discriminate).
  destruct (stack_remove_ok Hne) as (x & fr' & Hr & Heq).
  rewrite Hr. apply app_inj_tail in Heq. destruct Heq as [-> ->].
  reflexivity.
Qed.

(** X10: frontier laws.  [remove] raises "empty frontier" on an empty
    frontier of any of the three classes, and never on another.  On a stack,
    [remove] after [add] gives back the node added and the frontier as it
    was.  On a queue that is not empty, [add] and [remove] can be swapped.
    After [add], [contains_state] finds the state of the node added and what
    it found before, nothing else. *)
Theorem frontier_add_remove_laws {N} `{NodeLike N} :
  (StackFrontier.remove (@StackFrontier.new N) = Err EmptyFrontier /\
   QueueFrontier.remove (@QueueFrontier.new N) = Err EmptyFrontier /\
   PriorityQueueFrontier.remove (@PriorityQueueFrontier.new N)
   = Err EmptyFrontier) /\
  (forall fr : list N, StackFrontier.empty fr = false ->
     (exists n fr', StackFrontier.remove fr = Ok (n, fr')) /\
     (exists n fr', QueueFrontier.remove fr = Ok (n, fr'))) /\
  (forall (fr : list N) n,
     StackFrontier.remove (StackFrontier.add fr n) = Ok (n, fr)) /\
  (forall (fr : list N) n x fr',
     QueueFrontier.remove fr = Ok (x, fr') ->
     QueueFrontier.remove (QueueFrontier.add fr n)
     = Ok (x, QueueFrontier.add fr' n)) /\
  (forall (fr : list N) n st,
     StackFrontier.contains_state (StackFrontier.add fr n) st
     = StackFrontier.contains_state fr st || coord_eqb (state n) st) /\
  (forall func g (fr : list N) n st,
     PriorityQueueFrontier.contains_state
       (PriorityQueueFrontier.add func g fr n) st
     = PriorityQueueFrontier.contains_state fr st || coord_eqb (state n) st).
Proof.
  split; [repeat split |]. split; [| split; [| split; [| split]]].
  - intros fr He.
    assert (Hne : fr <> []).
    { intros ->. discriminate. }
    destruct (stack_remove_ok Hne) as (n & fr' & Hr & _).
    destruct (queue_remove_ok Hne) as (n2 & fr2 & Hr2 & _).
    split; eexists _, _; eassumption.
  - apply stack_remove_add.
  - intros fr n x fr' Hr. destruct fr as [| y fr0]; [discriminate |].
    inversion Hr; subst. reflexivity.
  - intros fr n st. unfold StackFrontier.contains_state, StackFrontier.add.
    rewrite existsb_app. cbn [existsb]. rewrite orb_false_r. reflexivity.
  - intros func g fr n st.
    apply eq_true_iff_eq. rewrite orb_true_iff.
    unfold PriorityQueueFrontier.contains_state, QueueFrontier.contains_state.
    rewrite !contains_state_spec.
    assert (Hperm := Permutation_map state (pq_add_perm func g fr n)).
    cbn [map] in Hperm. split.
    + intros Hin. apply (Permutation_in _ Hperm) in Hin.
      destruct Hin as [Heq | Hin]; [right | left; assumption].
      apply coord_eqb_eq. assumption.
    + intros Hin. apply (Permutation_in _ (Permutation_sym Hperm)).
      destruct Hin as [Hin | Heq]; [right; assumption | left].
      apply coord_eqb_eq. assumption.
Qed.

(** ** The farthest cell *)

Lemma open_neighbours_in (g : grid) (r c dist : Z) (u : coord) :
  nbr (r, c) u -> is_open g u = true ->
  In u (map fst (open_neighbours g r c dist
                   [(-1, 0); (1, 0); (0, -1); (0, 1)])).
Proof.
  intros Hn Ho. destruct (nbr_dirs Hn) as (dir & Hdir & Hu).
  cbn [fst snd] in Hu. apply in_map_iff.
  exists (r + fst dir, c + snd dir, dist + 1). split; [symmetry; exact Hu |].
  unfold open_neighbours.
  apply (in_map (fun dir => (r + fst dir, c + snd dir, dist + 1))).
  apply filter_In. split; [assumption |]. rewrite <- Hu. assumption.
Qed.

Lemma open_neighbours_nbr (g : grid) (r c dist : Z) (x : coord) (k : Z) :
  In (x, k) (open_neighbours g r c dist [(-1, 0); (1, 0); (0, -1); (0, 1)]) ->
  is_open g x = true /\ nbr (r, c) x /\ k = dist + 1.
Proof.
  unfold open_neighbours. intros Hin. apply in_map_iff in Hin.
  destruct Hin as (dir & Heq & Hin). apply filter_In in Hin.
  destruct Hin as [Hdir Ho]. inversion Heq; subst x k.
  split; [assumption |]. split; [| reflexivity].
  unfold nbr. cbn [fst snd].
  destruct Hdir as [<- | [<- | [<- | [<- | []]]]]; cbn [fst snd]; lia.
Qed.

(** The search for the farthest cell ends on a cell of greatest depth. *)
Lemma farthest_loop_max (g : grid) (R C : Z) (s : coord) (d : coord -> nat)
    (fuel : nat) :
  grid_dims g R C -> 0 < R ->
  tree_labelled g s d ->
  (forall q, is_open g q = nonwall g q) ->
  forall visited queue farthest max_dist f,
    far_inv g s d visited queue farthest max_dist ->
    farthest_loop fuel g visited queue farthest max_dist = Return f ->
    forall q, reachable (maze_of R C s g) s q -> (d q <= d f)%nat.
Proof.
  intros Hd HR Ht Hopen. induction fuel as [| fuel IH];
    intros visited queue farthest max_dist f HI Hret; [discriminate |].
  cbn [farthest_loop] in Hret. destruct queue as [| [[r c] dist] queue].
  - inversion Hret; subst f. intros q [k Hw].
    destruct HI as [H1 H2 H3 H4 H5 H6].
    assert (Hq : In q visited).
    { induction Hw as [| x y k Hw IHw Hadj].
      - destruct H6 as [Hs | []]. assumption.
      - apply adj_iff in Hadj. destruct Hadj as (Hn & _ & Hy).
        cbn [maze maze_of] in Hy. rewrite <- Hopen in Hy.
        destruct (H5 x y IHw Hy Hn) as [Hv | []]. assumption. }
    destruct (H3 q Hq) as [_ Hle].
    destruct H4 as [[Hnil _] | [_ Hfar]].
    + rewrite Hnil in Hq. contradiction.
    + lia.
  - destruct (in_states (r, c) visited) eqn:Hvis.
    + apply in_states_spec in Hvis.
      apply (IH visited queue farthest max_dist f); [| assumption].
      destruct HI as [H1 H2 H3 H4 H5 H6]. constructor; try assumption.
      * intros x k Hin. apply H1. right. assumption.
      * intros v u Hv Hu Hn. destruct (H5 v u Hv Hu Hn) as [Hin | Hin];
          [left; assumption |].
        cbn [map fst] in Hin. destruct Hin as [<- | Hin];
          [left; assumption | right; assumption].
      * destruct H6 as [Hin | Hin]; [left; assumption |].
        cbn [map fst] in Hin. destruct Hin as [<- | Hin];
          [left; assumption | right; assumption].
    + apply in_states_false in Hvis.
      rewrite (farthest_dirs_exact r c dist _ Hd HR) in Hret.
      set (x := (r, c)) in *.
      destruct HI as [H1 H2 H3 H4 H5 H6].
      destruct (H1 x dist (or_introl eq_refl)) as [Hox Hfrom].
      assert (Hnwx : nonwall g x = true) by (rewrite <- Hopen; assumption).
      assert (Hvnw : forall v, In v visited -> nonwall g v = true).
      { intros v Hv. rewrite <- Hopen. apply (H3 v Hv). }
      assert (Hdist : dist = Z.of_nat (d x)).
      { destruct Hfrom as [[-> ->] | (v & Hv & Hn & ->)].
        - rewrite (tl_start Ht). reflexivity.
        - destruct (tl_step Ht (Hvnw v Hv) Hnwx Hn) as [Hup | Hdown]; [| lia].
          exfalso. apply Hvis. apply (H2 v x Hv Hox Hn Hup). }
      set (queue' := queue ++ open_neighbours g r c dist
                                [(-1, 0); (1, 0); (0, -1); (0, 1)]) in *.
      assert (HI' : forall far' max',
                 (In far' (x :: visited) /\ Z.of_nat (d far') = max') ->
                 max_dist <= max' -> dist <= max' ->
                 far_inv g s d (x :: visited) queue' far' max').
      { intros far' max' Hfar Hm1 Hm2. constructor.
        - intros y k Hin. unfold queue' in Hin. apply in_app_or in Hin.
          destruct Hin as [Hin | Hin].
          + destruct (H1 y k (or_intror Hin)) as [Hoy Hy].
            split; [assumption |].
            destruct Hy as [Hy | (v & Hv & Hn & Hk)]; [left; assumption |].
            right. exists v. split; [right; assumption | auto].
          + destruct (open_neighbours_nbr _ _ _ _ _ _ Hin) as (Hoy & Hn & Hk).
            split; [assumption |]. right. exists x.
            split; [left; reflexivity |]. split; [assumption | lia].
        - intros v u [<- | Hv] Hu Hn Hdv.
          + right. destruct Hfrom as [[Hxs _] | (v0 & Hv0 & Hn0 & Hk)].
            * rewrite Hxs, (tl_start Ht) in Hdv. discriminate.
            * assert (Hu2 : nonwall g u = true)
                by (rewrite <- Hopen; assumption).
              assert (Heq : u = v0).
              { apply (@tl_parent _ _ _ Ht x); try assumption.
                - apply Hvnw; assumption.
                - apply nbr_sym; assumption.
                - lia. }
              rewrite Heq. assumption.
          + right. apply (H2 v u Hv Hu Hn Hdv).
        - intros v [<- | Hv].
          + split; [assumption | lia].
          + destruct (H3 v Hv) as [Hov Hle]. split; [assumption | lia].
        - right. assumption.
        - intros v u [<- | Hv] Hu Hn.
          + right. unfold queue'. rewrite map_app. apply in_or_app. right.
            apply open_neighbours_in; assumption.
          + destruct (H5 v u Hv Hu Hn) as [Hin | Hin];
              [left; right; assumption |].
            cbn [map fst] in Hin. destruct Hin as [<- | Hin].
            * left. left. reflexivity.
            * right. unfold queue'. rewrite map_app. apply in_or_app.
              left. assumption.
        - destruct H6 as [Hin | Hin]; [left; right; assumption |].
          cbn [map fst] in Hin. destruct Hin as [<- | Hin].
          + left. left. reflexivity.
          + right. unfold queue'. rewrite map_app. apply in_or_app.
            left. assumption. }
      destruct (Z.gtb_spec dist max_dist) as [Hgt | Hle];
        cbn [of_result obind] in Hret.
      * apply (IH _ _ _ _ f (HI' x dist ltac:(split; [left; reflexivity | lia])
                               ltac:(lia) ltac:(lia)) Hret).
      * destruct H4 as [[_ Hm] | [Hfv Hfd]]; [lia |].
        apply (IH _ _ _ _ f
                 (HI' farthest max_dist
                    ltac:(split; [right; assumption | assumption])
                    ltac:(lia) ltac:(lia)) Hret).
Qed.

(** ** The stages of generation *)

Lemma generate_stages (fuel : nat) (R0 C0 : Z) (r : rng) (m : Maze) :
  generate_solvable_maze fuel R0 C0 r = Return m ->
  exists sr sc r1 r2 g1 gc g3 gl g4,
    randrange 1 (force_odd R0) 2 r = Ok (sr, r1) /\
    randrange 1 (force_odd C0) 2 r1 = Ok (sc, r2) /\
    grid_set (repeat (repeat WALL (Z.to_nat (force_odd C0)))
                (Z.to_nat (force_odd R0))) sr sc START = Ok g1 /\
    carve_loop fuel (force_odd R0) (force_odd C0) g1 [(sr, sc)] r2
    = Return gc /\
    grid_set gc sr sc OPEN = Ok g3 /\
    find_farthest_point fuel g3 (sr, sc) = Return gl /\
    grid_set g3 (fst gl) (snd gl) GOAL = Ok g4 /\
    grid_set g4 sr sc START = Ok (maze m) /\
    rows m = force_odd R0 /\ cols m = force_odd C0 /\
    start m = (sr, sc) /\ goal m = gl.
Proof.
  unfold generate_solvable_maze. intros Hm.
  destruct (randrange 1 (force_odd R0) 2 r) as [[sr r1] | e] eqn:E1;
    cbn [of_result obind] in Hm; [| discriminate].
  destruct (randrange 1 (force_odd C0) 2 r1) as [[sc r2] | e] eqn:E2;
    cbn [of_result obind] in Hm; [| discriminate].
  destruct (grid_set _ sr sc START) as [g1 | e] eqn:E3;
    cbn [of_result obind] in Hm; [| discriminate].
  destruct (carve_loop fuel _ _ g1 _ r2) as [gc | e |] eqn:E4;
    cbn [obind] in Hm; try discriminate.
  destruct (grid_set gc sr sc OPEN) as [g3 | e] eqn:E5;
    cbn [of_result obind] in Hm; [| discriminate].
  destruct (find_farthest_point fuel g3 (sr, sc)) as [[gr gcol] | e |] eqn:E6;
    cbn [obind] in Hm; try discriminate.
  destruct (grid_set g3 gr gcol GOAL) as [g4 | e] eqn:E7;
    cbn [of_result obind] in Hm; [| discriminate].
  destruct (grid_set g4 sr sc START) as [g5 | e] eqn:E8;
    cbn [of_result obind] in Hm; [| discriminate].
  inversion Hm; subst m; clear Hm. cbn [rows cols start goal maze].
  exists sr, sc, r1, r2, g1, gc, g3, (gr, gcol), g4. cbn [fst snd].
  repeat (split; [assumption || reflexivity |]). reflexivity.
Qed.

(** Carving stops only when every lattice cell within the bounds is open. *)
Lemma lattice_all_open (R C : Z) (s : coord) (g : grid)
    (opened : list coord) (d : coord -> nat) :
  carve_inv R C s g opened d -> stack_covers R C g [] ->
  lattice s -> in_bounds R C s ->
  forall p, lattice p -> in_bounds R C p -> nonwall g p = true.
Proof.
  intros HI Hcov Hls Hbs.
  assert (Hn : forall n p,
             Z.abs (fst p - fst s) + Z.abs (snd p - snd s) <= Z.of_nat n ->
             lattice p -> in_bounds R C p -> nonwall g p = true).
  { induction n as [| n IH]; intros p Hm Hlp Hbp.
    - assert (p = s) by (apply coord_eq_iff; lia). subst p.
      apply (ci_start HI).
    - destruct (coord_eq_dec p s) as [-> | Hne]; [apply (ci_start HI) |].
      destruct Hlp as [Hl1 Hl2]. destruct Hls as [Hs1 Hs2].
      destruct Hbp as [Hb1 Hb2]. destruct Hbs as [Hbs1 Hbs2].
      assert (Hstep : exists p' dir,
                 In dir directions /\ lattice_target p' dir = p /\
                 lattice p' /\ in_bounds R C p' /\
                 Z.abs (fst p' - fst s) + Z.abs (snd p' - snd s)
                 <= Z.of_nat n).
      { rewrite coord_eq_iff in Hne. unfold lattice_target, lattice, in_bounds,
          directions.
        destruct p as [pr pc]. cbn [fst snd] in *.
        destruct (Z.lt_trichotomy pr (fst s)) as [Hlt | [Heq | Hgt]].
        - exists (pr + 2, pc), (-1, 0). cbn [fst snd In].
          split; [auto |]. split; [f_equal; lia |].
          split; [split; mlia |]. split; [mlia | mlia].
        - destruct (Z.lt_trichotomy pc (snd s)) as [Hlt | [Heq' | Hgt]].
          + exists (pr, pc + 2), (0, -1). cbn [fst snd In].
            split; [auto |]. split; [f_equal; lia |].
            split; [split; mlia |]. split; [mlia | mlia].
          + exfalso. apply Hne. auto.
          + exists (pr, pc - 2), (0, 1). cbn [fst snd In].
            split; [auto |]. split; [f_equal; lia |].
            split; [split; mlia |]. split; [mlia | mlia].
        - exists (pr - 2, pc), (1, 0). cbn [fst snd In].
          split; [auto |]. split; [f_equal; lia |].
          split; [split; mlia |]. split; [mlia | mlia]. }
      destruct Hstep as (p' & dir & Hdir & Htgt & Hlp' & Hbp' & Hm').
      pose proof (IH p' Hm' Hlp' Hbp') as Hnw'.
      destruct (Hcov p' Hlp' Hnw') as [[] | Hclosed].
      rewrite <- Htgt. apply Hclosed; [assumption |]. rewrite Htgt.
      split; assumption. }
  intros p. apply (Hn (Z.to_nat (Z.abs (fst p - fst s)
                                 + Z.abs (snd p - snd s)))). lia.
Qed.

(** ** The layout of a generated maze *)

Lemma generate_layout (fuel : nat) (R0 C0 : Z) (r : rng) (m : Maze) :
  generate_solvable_maze fuel R0 C0 r = Return m ->
  exists d, generated_layout m d.
Proof.
  intros Hm.
  destruct (generate_stages _ _ _ _ Hm)
    as (sr & sc & r1 & r2 & g1 & gc & g3 & gl & g4 & E1 & E2 & E3 & E4 & E5
        & E6 & E7 & E8 & Hrows & Hcols & Hstart & Hgoal).
  pose proof (force_odd_mod R0) as HRodd.
  pose proof (force_odd_mod C0) as HCodd.
  set (R := force_odd R0) in *. set (C := force_odd C0) in *.
  destruct (randrange_inv R r E1 HRodd) as (HR3 & Hsr_odd & Hsr).
  destruct (randrange_inv C r1 E2 HCodd) as (HC3 & Hsc_odd & Hsc).
  set (s := (sr, sc)) in *.
  assert (Hsb : in_bounds R C s) by (unfold in_bounds, s; simpl; lia).
  assert (Hslat : lattice s) by (split; assumption).
  destruct (grid_set_spec START (all_walls_dims R C) Hsb)
    as (g1' & Hs1 & Hd1 & Hc1).
  change (fst s) with sr in Hs1. change (snd s) with sc in Hs1.
  rewrite E3 in Hs1. inversion Hs1; subst g1'; clear Hs1.
  assert (Hcs1 : cell_at g1 s = Some START).
  { rewrite Hc1, coord_eqb_refl. reflexivity. }
  assert (Hco1 : forall q ch, q <> s -> cell_at g1 q = Some ch -> ch = WALL).
  { intros q ch Hne Hc. rewrite Hc1 in Hc. apply coord_eqb_neq in Hne.
    rewrite Hne in Hc. pose proof (all_walls_nonwall R C q) as Hw.
    unfold nonwall in Hw. rewrite Hc in Hw.
    apply negb_false_iff, Ascii.eqb_eq in Hw. assumption. }
  pose proof (initial_inv Hd1 Hslat Hcs1 Hco1) as HI1.
  assert (Hst1 : stack_ok g1 [s]).
  { constructor; [| constructor].
    split; [assumption | apply (ci_start HI1)]. }
  assert (Hcov1 : stack_covers R C g1 [s]).
  { intros q _ Hq. left. left.
    destruct (coord_eq_dec q s) as [Heq | Hne]; [auto |].
    exfalso. unfold nonwall in Hq.
    destruct (cell_at g1 q) as [ch |] eqn:Hc; [| discriminate].
    rewrite (Hco1 q ch Hne Hc) in Hq. discriminate. }
  pose proof (carve_loop_spec fuel r2 HI1 Hst1 Hcov1) as Hcarve.
  rewrite E4 in Hcarve. destruct Hcarve as (opened & d & HIc & Hcovc).
  destruct (grid_set_spec OPEN (ci_dims HIc) Hsb) as (g3' & Hs3 & Hd3 & Hc3).
  change (fst s) with sr in Hs3. change (snd s) with sc in Hs3.
  rewrite E5 in Hs3. inversion Hs3; subst g3'; clear Hs3.
  assert (Hopen_s : cell_at g3 s = Some OPEN).
  { rewrite Hc3, coord_eqb_refl. reflexivity. }
  assert (HRpos : 0 < R) by lia.
  assert (Hnw3 : forall q, nonwall g3 q = nonwall gc q).
  { intros q. rewrite (@nonwall_set _ _ _ _ Hc3).
    destruct (coord_eqb_spec q s) as [-> | Hqs]; [| reflexivity].
    symmetry. apply (ci_start HIc). }
  assert (Hopen3 : forall q, is_open g3 q = nonwall g3 q).
  { intros q. unfold is_open, nonwall. rewrite Hc3.
    destruct (coord_eqb_spec q s) as [-> | Hqs]; [reflexivity |].
    destruct (cell_at gc q) as [ch |] eqn:Hc; [| reflexivity].
    destruct (ci_chars HIc _ Hc) as [-> | [-> | Heq]];
      [reflexivity | reflexivity | contradiction]. }
  assert (Ht3 : tree_labelled g3 s d)
    by (apply (tree_labelled_ext g3 Hnw3), (ci_tree HIc)).
  assert (Hgl_open : cell_at g3 gl = Some OPEN).
  { assert (Hq0 : Forall (fun e : coord * Z => cell_at g3 (fst e) = Some OPEN)
                         [(sr, sc, 0)])
      by (constructor; [exact Hopen_s | constructor]).
    pose proof (@farthest_loop_spec g3 R C fuel Hd3 HRpos [] [(sr, sc, 0)] s
                  (-1) (NoDup_nil _) (Forall_nil _) Hq0 Hopen_s) as Hfar.
    unfold find_farthest_point in E6.
    change (fst s) with sr in E6. change (snd s) with sc in E6.
    rewrite E6 in Hfar. assumption. }
  assert (Hfar : forall q, nonwall gc q = true -> (d q <= d gl)%nat).
  { intros q Hq.
    unfold find_farthest_point in E6.
    change (fst s) with sr in E6. change (snd s) with sc in E6.
    apply (@farthest_loop_max g3 R C s d fuel Hd3 HRpos Ht3 Hopen3
             [] [(sr, sc, 0)] s (-1) gl); [| exact E6 |].
    - constructor.
      + intros x dist [Heq | []]. inversion Heq; subst.
        split; [apply is_open_spec; assumption | left; auto].
      + intros v u [].
      + intros v [].
      + left. auto.
      + intros v u [].
      + right. left. reflexivity.
    - destruct (ci_reach HIc q Hq) as [k Hw]. exists k.
      eapply (@walk_len_mono (maze_of R C s gc));
        [reflexivity | reflexivity | | exact Hw].
      cbn [maze maze_of]. intros q' Hq'. rewrite Hnw3. assumption. }
  assert (Hglb : in_bounds R C gl)
    by (eapply cell_at_some_in_bounds; eassumption).
  destruct (grid_set_spec GOAL Hd3 Hglb) as (g4' & Hs4 & Hd4 & Hc4).
  rewrite E7 in Hs4. inversion Hs4; subst g4'; clear Hs4.
  destruct (grid_set_spec START Hd4 Hsb) as (g5 & Hs5 & Hd5 & Hc5).
  change (fst s) with sr in Hs5. change (snd s) with sc in Hs5.
  rewrite E8 in Hs5. inversion Hs5 as [Hg5]; clear Hs5.
  assert (Hgl_c : nonwall gc gl = true).
  { rewrite <- Hnw3. unfold nonwall. rewrite Hgl_open. reflexivity. }
  assert (Hnw5 : forall q, nonwall (maze m) q = nonwall gc q).
  { intros q. rewrite Hg5.
    rewrite (@nonwall_set _ _ _ _ Hc5), (@nonwall_set _ _ _ _ Hc4),
      (@nonwall_set _ _ _ _ Hc3).
    destruct (coord_eqb_spec q s) as [-> | Hqs].
    - symmetry. apply (ci_start HIc).
    - destruct (coord_eqb_spec q gl) as [-> | Hqg]; [| reflexivity].
      symmetry. assumption. }
  exists d. constructor.
  - rewrite Hstart. apply (tree_labelled_ext _ Hnw5), (ci_tree HIc).
  - intros q. rewrite Hnw5. apply (ci_parity HIc).
  - intros q. rewrite !Hnw5. apply (ci_conn_r HIc).
  - intros q. rewrite !Hnw5. apply (ci_conn_c HIc).
  - intros p Hlp Hbp. rewrite Hnw5. rewrite Hrows, Hcols in Hbp.
    apply (lattice_all_open HIc Hcovc Hslat Hsb Hlp Hbp).
  - intros q. rewrite Hnw5, Hgoal. apply Hfar.
Qed.

Lemma Maze_init_layout (fuel : nat) (rows0 cols0 : Z) (r : rng) (m : Maze) :
  Maze_init fuel rows0 cols0 r = Return m ->
  generated m /\ exists d, generated_layout m d.
Proof.
  intros Hm. split.
  - pose proof (Maze_init_spec fuel rows0 cols0 r) as Hspec.
    rewrite Hm in Hspec. tauto.
  - eapply generate_layout. exact Hm.
Qed.

Lemma not_nonwall_wall (g : grid) (R C : Z) (q : coord) :
  grid_dims g R C -> in_bounds R C q -> nonwall g q = false ->
  cell_at g q = Some WALL.
Proof.
  intros Hd Hb Hnw. destruct (cell_at_in_bounds Hd Hb) as [ch Hch].
  unfold nonwall in Hnw. rewrite Hch in Hnw.
  apply negb_false_iff, Ascii.eqb_eq in Hnw. congruence.
Qed.

(** No open cell hangs below the goal: the open cells next to the goal are
    one level up, so there is at most one. *)
Lemma goal_neighbours_up (m : Maze) (d : coord -> nat) (u : coord) :
  generated m -> generated_layout m d ->
  nbr (goal m) u -> nonwall (maze m) u = true -> d (goal m) = S (d u).
Proof.
  intros Hgen Hlay Hn Hu.
  destruct (tl_step (gl_tree Hlay) (gen_goal Hgen) Hu Hn) as [Hup | Hdown];
    [assumption |].
  pose proof (gl_far Hlay u Hu). lia.
Qed.

Lemma goal_neighbour_unique (m : Maze) (d : coord -> nat) (u1 u2 : coord) :
  generated m -> generated_layout m d ->
  nbr (goal m) u1 -> nonwall (maze m) u1 = true ->
  nbr (goal m) u2 -> nonwall (maze m) u2 = true -> u1 = u2.
Proof.
  intros Hgen Hlay Hn1 Hu1 Hn2 Hu2.
  apply (@tl_parent _ _ _ (gl_tree Hlay) (goal m)); try assumption.
  - apply (gen_goal Hgen).
  - apply (goal_neighbours_up Hgen Hlay Hn1 Hu1).
  - apply (goal_neighbours_up Hgen Hlay Hn2 Hu2).
Qed.

Lemma goal_is_lattice (m : Maze) (d : coord -> nat) :
  generated m -> generated_layout m d -> lattice (goal m).
Proof.
  intros Hgen Hlay. pose proof (gen_goal Hgen) as Hg.
  assert (Hodd : forall z, z mod 2 = 0 \/ z mod 2 = 1) by (intros; mlia).
  split.
  - destruct (Hodd (fst (goal m))) as [He | Ho]; [| assumption].
    exfalso. destruct (gl_conn_r Hlay _ Hg He) as [H1 H2].
    assert (Heq : (fst (goal m) - 1, snd (goal m))
                  = (fst (goal m) + 1, snd (goal m))).
    { apply (goal_neighbour_unique Hgen Hlay); try assumption;
        unfold nbr; cbn [fst snd]; lia. }
    inversion Heq. lia.
  - destruct (Hodd (snd (goal m))) as [He | Ho]; [| assumption].
    exfalso. destruct (gl_conn_c Hlay _ Hg He) as [H1 H2].
    assert (Heq : (fst (goal m), snd (goal m) - 1)
                  = (fst (goal m), snd (goal m) + 1)).
    { apply (goal_neighbour_unique Hgen Hlay); try assumption;
        unfold nbr; cbn [fst snd]; lia. }
    inversion Heq. lia.
Qed.

(** X11: the layout of every maze [Maze(rows, cols)] builds: the cells of
    the outer border are walls; so is every cell with an even row and an
    even column; every cell with an odd row and an odd column is open;
    start and goal are both on cells with an odd row and an odd column. *)
Theorem generated_maze_layout (fuel : nat) (rows0 cols0 : Z) (r : rng)
    (m : Maze) :
  Maze_init fuel rows0 cols0 r = Return m ->
  (forall q, in_bounds (rows m) (cols m) q ->
     fst q = 0 \/ fst q = rows m - 1 \/ snd q = 0 \/ snd q = cols m - 1 ->
     cell_at (maze m) q = Some WALL) /\
  (forall q, in_bounds (rows m) (cols m) q ->
     fst q mod 2 = 0 -> snd q mod 2 = 0 -> cell_at (maze m) q = Some WALL) /\
  (forall q, in_bounds (rows m) (cols m) q ->
     fst q mod 2 = 1 -> snd q mod 2 = 1 -> nonwall (maze m) q = true) /\
  lattice (start m) /\ lattice (goal m).
Proof.
  intros Hm. destruct (Maze_init_layout _ _ _ _ Hm) as [Hgen [d Hlay]].
  pose proof (gen_wf Hgen) as Hwf.
  destruct (gen_rows Hgen) as [_ HRodd]. destruct (gen_cols Hgen) as [_ HCodd].
  assert (Hevev : forall q, in_bounds (rows m) (cols m) q ->
                    fst q mod 2 = 0 -> snd q mod 2 = 0 ->
                    cell_at (maze m) q = Some WALL).
  { intros q Hb H1 H2. apply (not_nonwall_wall Hwf Hb).
    destruct (nonwall (maze m) q) eqn:Hnw; [| reflexivity].
    destruct (gl_parity Hlay _ Hnw); lia. }
  split; [| split; [assumption | split; [| split]]].
  - intros q Hb Hedge. apply (not_nonwall_wall Hwf Hb).
    destruct (nonwall (maze m) q) eqn:Hnw; [| reflexivity]. exfalso.
    destruct Hb as [Hb1 Hb2].
    assert (Hr : fst q = 0 \/ fst q = rows m - 1 -> False).
    { intros Hq. assert (He : fst q mod 2 = 0) by (destruct Hq; mlia).
      destruct (gl_conn_r Hlay _ Hnw He) as [H1 H2].
      apply (@nonwall_in_bounds _ _ _ _ Hwf) in H1, H2.
      destruct H1 as [H1 _], H2 as [H2 _]. cbn [fst] in *. lia. }
    assert (Hc : snd q = 0 \/ snd q = cols m - 1 -> False).
    { intros Hq. assert (He : snd q mod 2 = 0) by (destruct Hq; mlia).
      destruct (gl_conn_c Hlay _ Hnw He) as [H1 H2].
      apply (@nonwall_in_bounds _ _ _ _ Hwf) in H1, H2.
      destruct H1 as [_ H1], H2 as [_ H2]. cbn [snd] in *. lia. }
    tauto.
  - intros q Hb H1 H2. apply (gl_lattice Hlay); [split |]; assumption.
  - apply (gen_start Hgen).
  - apply (goal_is_lattice Hgen Hlay).
Qed.

Lemma generated_maze_layout_witness :
  (forall q, in_bounds (rows maze_3_5) (cols maze_3_5) q ->
     fst q = 0 \/ fst q = rows maze_3_5 - 1 \/
     snd q = 0 \/ snd q = cols maze_3_5 - 1 ->
     cell_at (maze maze_3_5) q = Some WALL) /\
  (forall q, in_bounds (rows maze_3_5) (cols maze_3_5) q ->
     fst q mod 2 = 0 -> snd q mod 2 = 0 ->
     cell_at (maze maze_3_5) q = Some WALL) /\
  (forall q, in_bounds (rows maze_3_5) (cols maze_3_5) q ->
     fst q mod 2 = 1 -> snd q mod 2 = 1 ->
     nonwall (maze maze_3_5) q = true) /\
  lattice (start maze_3_5) /\ lattice (goal maze_3_5).
Proof.
  apply (@generated_maze_layout 20 3 5 zero_rng maze_3_5).
  vm_compute. reflexivity.
Defined.

(** ** The goal is as far from the start as a cell can be *)

(** The depth of an open cell is the length of a shortest walk to it. *)
Lemma depth_is_shortest (m : Maze) (d : coord -> nat) (q : coord) :
  generated m -> generated_layout m d -> nonwall (maze m) q = true ->
  shortest_len m (start m) q (d q).
Proof.
  intros Hgen Hlay Hq. pose proof (gl_tree Hlay) as Ht.
  destruct (gen_start Hgen) as [_ Hs].
  split; [| intros j Hw; apply (walk_lower_bound Ht Hs Hw)].
  set (mq := {| rows := rows m; cols := cols m; start := start m;
                goal := q; maze := maze m |}).
  assert (Hwf : maze_wf mq) by apply (gen_wf Hgen).
  assert (Hreach : reachable mq (start m) (goal mq)).
  { destruct (gen_reach Hgen q Hq) as [k Hw]. exists k.
    apply (@walk_len_mono m mq); auto. }
  destruct (bfs_result (start m) Hwf (Nat.le_refl _))
    as [[_ Hnr] | (n & e & _ & Hg & Hst)]; [contradiction |].
  destruct (@good_depth_label Node _ mq d n Ht Hs Hg) as (Hd & _ & _).
  cbn [goal mq] in Hst. rewrite <- Hst, Hd.
  apply (@walk_len_mono mq m); auto. apply good_walk. assumption.
Qed.



(** ** The goal is a dead end *)

Lemma neighbours_actions_nodup (m : Maze) (x : coord) :
  NoDup (map fst (neighbours m x)).
Proof.
  unfold neighbours. rewrite map_map. cbn [fst].
  unfold moves. cbn [filter].
  destruct (allowed m x ("left"%string, (0, -1)));
    destruct (allowed m x ("right"%string, (0, 1)));
    destruct (allowed m x ("up"%string, (-1, 0)));
    destruct (allowed m x ("down"%string, (1, 0)));
    cbn [map fst]; repeat constructor; cbn [In];
    intuition discriminate.
Qed.

Lemma goal_has_one_neighbour (m : Maze) (d : coord -> nat) :
  generated m -> generated_layout m d -> goal m <> start m ->
  exists a u, neighbours m (goal m) = [(a, u)].
Proof.
  intros Hgen Hlay Hne. pose proof (gen_wf Hgen) as Hwf.
  destruct (gen_start Hgen) as [_ Hs].
  assert (Hsame : forall a1 u1 a2 u2,
             In (a1, u1) (neighbours m (goal m)) ->
             In (a2, u2) (neighbours m (goal m)) -> a1 = a2).
  { intros a1 u1 a2 u2 H1 H2.
    assert (Hu : u1 = u2).
    { apply (in_map snd) in H1, H2. cbn [snd] in H1, H2.
      apply adj_iff in H1, H2.
      destruct H1 as (Hn1 & _ & Hw1), H2 as (Hn2 & _ & Hw2).
      apply (goal_neighbour_unique Hgen Hlay); assumption. }
    subst u2. apply (neighbours_action_unique _ _ _ _ _ H1 H2). }
  pose proof (neighbours_actions_nodup m (goal m)) as Hnd.
  destruct (neighbours m (goal m)) as [| [a u] [| [a2 u2] l]] eqn:Hl.
  - exfalso. destruct (gen_reach Hgen _ (gen_goal Hgen)) as [k Hw].
    inversion Hw as [Heq | x y k' Hwx Hadj]; [congruence |]. subst.
    destruct (walk_lower_bound (gl_tree Hlay) Hs Hwx) as [Hx _].
    apply adj_iff in Hadj. destruct Hadj as (Hn & _ & _).
    assert (Hback : adj m (goal m) x).
    { apply adj_iff. split; [apply nbr_sym; assumption |].
      split; [apply (@nonwall_in_bounds _ _ _ _ Hwf Hx) | assumption]. }
    unfold adj in Hback. rewrite Hl in Hback. contradiction.
  - exists a, u. reflexivity.
  - exfalso. cbn [map fst] in Hnd.
    assert (a = a2).
    { apply (Hsame a u a2 u2); [left; reflexivity | right; left; reflexivity]. }
    subst a2. inversion Hnd as [| ? ? Hnotin _]. apply Hnotin. left.
    reflexivity.
Qed.

(** X13: in every maze [Maze(rows, cols)] builds with 5 rows or more, or 5
    columns or more, the goal is a dead end: [get_next] at the goal offers
    exactly one move. *)
Theorem generated_goal_is_dead_end {N} `{NodeLike N} (fuel : nat)
    (rows0 cols0 : Z) (r : rng) (m : Maze) (node : N) :
  Maze_init fuel rows0 cols0 r = Return m ->
  5 <= rows m \/ 5 <= cols m ->
  state node = goal m ->
  exists a u, get_next m node = Ok [(a, u)].
Proof.
  intros Hm Hbig Hst.
  destruct (Maze_init_layout _ _ _ _ Hm) as [Hgen [d Hlay]].
  rewrite (get_next_spec node (gen_wf Hgen)), Hst.
  destruct (goal_has_one_neighbour Hgen Hlay (gen_far Hgen Hbig))
    as (a & u & Heq).
  exists a, u. rewrite Heq. reflexivity.
Qed.

Lemma generated_goal_is_dead_end_witness :
  exists a u, get_next maze_3_5 (mkNode (1, 3) None None) = Ok [(a, u)].
Proof.
  apply (@generated_goal_is_dead_end Node _ 20 3 5 zero_rng maze_3_5
           (mkNode (1, 3) None None)).
  - vm_compute. reflexivity.
  - right. vm_compute. discriminate.
  - reflexivity.
Defined.

(** ** Python's [randint], [choice] and [pop] *)

Lemma randint_ok (a b : Z) (g : rng) :
  a <= b ->
  exists x g', randint a b g = Ok (x, g') /\ a <= x <= b.
Proof.
  intros Hab. unfold randint, randrange.
  replace ((b + 1 - a + 1 - 1) / 1) with (b + 1 - a)
    by (rewrite Z.div_1_r; lia).
  destruct (Z.leb_spec (b + 1 - a) 0) as [Hle | Hgt]; [lia |].
  cbn [rng_next]. eexists _, _. split; [reflexivity |].
  pose proof (Z.mod_pos_bound (g O) (b + 1 - a) Hgt). lia.
Qed.

Lemma remove_nth_spec {A} (l : list A) (k : nat) (x : A) :
  nth_error l k = Some x ->
  (forall y, In y (remove_nth l k) -> In y l) /\
  (forall y, In y l -> y = x \/ In y (remove_nth l k)) /\
  length l = S (length (remove_nth l k)).
Proof.
  revert k. induction l as [| z l IH]; intros k Hk.
  - destruct k; discriminate.
  - destruct k as [| k]; cbn [nth_error remove_nth] in *.
    + inversion Hk; subst z. split; [intros y Hy; right; assumption |].
      split; [| reflexivity]. intros y [<- | Hy]; auto.
    + destruct (IH k Hk) as (I1 & I2 & I3). split; [| split].
      * intros y [<- | Hy]; [left; reflexivity | right; auto].
      * intros y [<- | Hy]; [right; left; reflexivity |].
        destruct (I2 y Hy); [left; assumption | right; right; assumption].
      * cbn [length]. rewrite I3. reflexivity.
Qed.

Lemma py_pop_ok {A} (l : list A) (i : Z) :
  0 <= i < Z.of_nat (length l) ->
  exists x rest,
    py_pop l i = Ok (x, rest) /\ In x l /\
    (forall y, In y rest -> In y l) /\
    (forall y, In y l -> y = x \/ In y rest) /\
    length l = S (length rest).
Proof.
  intros Hi. unfold py_pop. rewrite py_index_nonneg by lia.
  destruct (nth_error l (Z.to_nat i)) as [x |] eqn:Hx.
  2:{ apply nth_error_None in Hx. lia. }
  cbn [rbind]. destruct (Z.ltb_spec i 0) as [Hneg | _]; [lia |].
  exists x, (remove_nth l (Z.to_nat i)). split; [reflexivity |].
  split; [apply (nth_error_In _ _ Hx) |]. apply (remove_nth_spec _ _ Hx).
Qed.

Lemma choice_ok {A} (seq : list A) (g : rng) :
  seq <> [] -> exists v g', choice seq g = Ok (v, g') /\ In v seq.
Proof.
  intros Hne. destruct seq as [| y seq]; [contradiction |].
  unfold choice. cbn [rng_next].
  set (l := y :: seq).
  assert (Hlen : 0 < Z.of_nat (length l)) by (unfold l; cbn [length]; lia).
  pose proof (Z.mod_pos_bound (g O) _ Hlen) as Hb.
  rewrite py_index_nonneg by lia.
  destruct (nth_error l (Z.to_nat (g O mod Z.of_nat (length l)))) as [v |]
    eqn:Hv.
  2:{ apply nth_error_None in Hv. lia. }
  cbn [rbind]. exists v, (fun k => g (S k)). split; [reflexivity |].
  apply (nth_error_In _ _ Hv).
Qed.

(** ** The loop of [generate_maze] *)

Lemma inner_in_bounds (R C r c : Z) :
  inner R C r c = true -> in_bounds R C (r, c).
Proof.
  unfold inner, in_bounds. rewrite !andb_true_iff, !Z.leb_le, !Z.ltb_lt.
  cbn [fst snd]. lia.
Qed.

Lemma grid_get_in_bounds (g : grid) (R C : Z) (q : coord) :
  grid_dims g R C -> in_bounds R C q ->
  exists ch, grid_get g (fst q) (snd q) = Ok ch /\ cell_at g q = Some ch.
Proof.
  intros Hd Hb. destruct (cell_at_in_bounds Hd Hb) as [ch Hch].
  exists ch. split; [| assumption]. destruct Hb as [Hb1 Hb2].
  rewrite grid_get_cell_at by lia.
  replace (fst q, snd q) with q by (destruct q; reflexivity).
  rewrite Hch. reflexivity.
Qed.

Lemma more_walls_spec (R C wr wc : Z) (g : grid) (dirs : list (Z * Z)) :
  grid_dims g R C ->
  forall walls,
    exists extra,
      for_each (more_walls_body R C wr wc g) dirs walls = Ok (walls ++ extra)
      /\ (length extra <= length dirs)%nat /\
      forall e, In e extra ->
        exists d, In d dirs /\ e = (wr + fst d, wc + snd d, fst d, snd d) /\
                  inner R C (wr + fst d) (wc + snd d) = true.
Proof.
  intros Hd. induction dirs as [| [ddr ddc] dirs IH]; intros walls.
  - exists []. cbn [for_each]. rewrite app_nil_r.
    split; [reflexivity |]. split; [apply Nat.le_refl | intros e []].
  - cbn [for_each]. unfold more_walls_body at 1.
    destruct (inner R C (wr + ddr) (wc + ddc)) eqn:Hin.
    + destruct (grid_get_in_bounds Hd (inner_in_bounds _ _ _ _ Hin))
        as (ch & Hget & _).
      cbn [fst snd] in Hget. rewrite Hget. cbn [rbind].
      destruct (Ascii.eqb ch WALL); cbn [rbind].
      * destruct (IH (walls ++ [(wr + ddr, wc + ddc, ddr, ddc)]))
          as (extra & Heq & Hlen & Hall).
        exists ((wr + ddr, wc + ddc, ddr, ddc) :: extra).
        rewrite Heq, <- app_assoc. split; [reflexivity |].
        split; [cbn [length]; lia |].
        intros e [<- | He].
        -- exists (ddr, ddc). split; [left; reflexivity | auto].
        -- destruct (Hall e He) as (d & Hd1 & Hd2). exists d.
           split; [right; assumption | assumption].
      * destruct (IH walls) as (extra & Heq & Hlen & Hall).
        exists extra. split; [assumption |]. split; [cbn [length]; lia |].
        intros e He. destruct (Hall e He) as (d & Hd1 & Hd2). exists d.
        split; [right; assumption | assumption].
    + cbn [rbind]. destruct (IH walls) as (extra & Heq & Hlen & Hall).
      exists extra. split; [assumption |]. split; [cbn [length]; lia |].
      intros e He. destruct (Hall e He) as (d & Hd1 & Hd2). exists d.
      split; [right; assumption | assumption].
Qed.

Lemma steps2_cases (d : Z * Z) :
  In d steps2 -> d = (-2, 0) \/ d = (2, 0) \/ d = (0, -2) \/ d = (0, 2).
Proof. unfold steps2. cbn [In]. intuition auto. Qed.

Lemma is_wall_set2 (g g2 : grid) (tgt mid : coord) :
  (forall q, cell_at g2 q =
             if coord_eqb q tgt then Some OPEN
             else if coord_eqb q mid then Some OPEN else cell_at g q) ->
  forall q, is_wall g2 q =
            if coord_eqb q tgt then false
            else if coord_eqb q mid then false else is_wall g q.
Proof.
  intros Hc q. unfold is_wall. rewrite Hc.
  destruct (coord_eqb q tgt); [reflexivity |].
  destruct (coord_eqb q mid); reflexivity.
Qed.

Ltac decide_cells :=
  repeat match goal with
         | |- context [coord_eqb ?a ?b] =>
           let He := fresh "He" in
           destruct (coord_eqb_spec a b) as [He | He];
           [apply coord_eq_iff in He; unfold shift, half in He;
            cbn [fst snd] in He; try (exfalso; mlia) |
            try (exfalso; apply He; reflexivity)]
         end.

(** Carving an arm leaves one cell less to carve. *)
Lemma uncarved_carve (R C : Z) (g g2 : grid) (s d : coord) :
  In d steps2 ->
  inner R C (fst s + fst d) (snd s + snd d) = true ->
  is_wall g (shift s d) = true ->
  (forall q, is_wall g2 q =
             if coord_eqb q (shift s d) then false
             else if coord_eqb q (shift s (half d)) then false
                  else is_wall g q) ->
  S (uncarved R C g2 s) = uncarved R C g s.
Proof.
  intros Hd Hin Hw Hw2. unfold uncarved, steps2. cbn [filter].
  rewrite !Hw2.
  destruct (steps2_cases Hd) as [-> | [-> | [-> | ->]]];
    cbn [fst snd] in Hin; decide_cells;
    unfold shift in Hw; cbn [fst snd] in *; unfold shift; cbn [fst snd];
    rewrite ?Hin, ?Hw, ?andb_false_r; cbn [andb];
    repeat match goal with
           | |- context [if ?b then _ else _] => destruct b
           end; reflexivity.
Qed.

Lemma prim_inv_pop (R C : Z) (s : coord) (g : grid)
    (walls rest : list wall_entry) (e : wall_entry) :
  prim_inv R C s g walls ->
  (forall y, In y rest -> In y walls) ->
  (forall y, In y walls -> y = e \/ In y rest) ->
  (forall d, In d steps2 ->
             e = (fst s + fst d, snd s + snd d, fst d, snd d) ->
             cell_at g (shift s d) = Some OPEN) ->
  prim_inv R C s g rest.
Proof.
  intros [H1 H2 H3 H4 H5 H6] Hsub Hsplit He. constructor; try assumption.
  - intros wr wc dr dc Hin. apply H4, Hsub. assumption.
  - intros d Hd Hin. destruct (H5 d Hd Hin) as [Ho | Hw]; [left; assumption |].
    destruct (Hsplit _ Hw) as [Heq | Hr]; [| right; assumption].
    left. apply He; [assumption | symmetry; assumption].
Qed.

(** The loop raises nothing, keeps its invariant, and is done within the
    length of the wall list plus four turns for each arm still to carve. *)
Lemma prim_loop_spec (R C : Z) (s : coord) (fuel : nat) :
  forall g walls r,
    prim_inv R C s g walls ->
    match prim_loop fuel R C g walls r with
    | Return (g', r') => prim_inv R C s g' []
    | Raise _ => False
    | OutOfFuel => (fuel <= length walls + 4 * uncarved R C g s)%nat
    end.
Proof.
  induction fuel as [| fuel IH]; intros g walls r HI; [cbn; lia |].
  cbn [prim_loop]. destruct walls as [| e0 walls0]; [exact HI |].
  remember (e0 :: walls0) as walls eqn:Hwalls.
  assert (Hlen0 : 0 <= Z.of_nat (length walls) - 1)
    by (rewrite Hwalls; cbn [length]; lia).
  destruct (randint_ok r Hlen0) as (i & r1 & Hri & Hi).
  rewrite Hri. cbn [of_result obind].
  destruct (@py_pop_ok _ walls i ltac:(lia))
    as (e & rest & Hpop & Hin & Hsub & Hsplit & Hlen).
  rewrite Hpop. cbn [of_result obind]. destruct e as [[[wr wc] dr] dc].
  pose proof HI as [Hd Hst Hcells Hwl Htodo Harm].
  destruct (Hwl _ _ _ _ Hin) as (Hinner & Hdir & Horigin).
  pose proof (inner_in_bounds _ _ _ _ Hinner) as Htb.
  destruct (grid_get_in_bounds Hd Htb) as (cw & Hget & Hcw).
  cbn [fst snd] in Hget. rewrite Hget. cbn [of_result obind].
  pose proof (@cell_at_some_in_bounds g R C s _ Hd Hst) as Hsb.
  assert (Hfuel_same :
            forall g' : grid,
              (fuel <= length rest + 4 * uncarved R C g' s)%nat ->
              (S fuel <= length walls + 4 * uncarved R C g' s)%nat)
    by (intros; lia).
  assert (Htgt_ne : forall d, In d steps2 -> shift s d <> s).
  { intros d Hd' Heq. apply coord_eq_iff in Heq. unfold shift in Heq.
    cbn [fst snd] in Heq.
    destruct (steps2_cases Hd') as [-> | [-> | [-> | ->]]];
      cbn [fst snd] in Heq; lia. }
  destruct (Ascii.eqb cw WALL) eqn:Hwall.
  - apply Ascii.eqb_eq in Hwall. subst cw.
    destruct Horigin as [Hos | Hoo].
    + (* the wall was listed from the start cell: it is carved *)
      assert (Hget_s : grid_get g (wr - dr) (wc - dc) = Ok START).
      { destruct (grid_get_in_bounds Hd Hsb) as (ch & Hg & Hc).
        rewrite <- Hos in Hg at 1 2. cbn [fst snd] in Hg.
        rewrite Hg. congruence. }
      rewrite Hget_s. cbn [of_result obind].
      change (Ascii.eqb START OPEN) with false. cbv iota.
      cbn [of_result obind].
      change (Ascii.eqb WALL WALL) with true. cbv iota.
      set (d := (dr, dc)).
      assert (Htgt : (wr, wc) = shift s d).
      { apply coord_eq_iff in Hos. cbn [fst snd] in Hos.
        unfold shift, d. cbn [fst snd]. f_equal; lia. }
      assert (Hmid : (wr - dr / 2, wc - dc / 2) = shift s (half d)).
      { apply coord_eq_iff in Hos. cbn [fst snd] in Hos.
        unfold shift, half, d. cbn [fst snd].
        destruct (steps2_cases Hdir) as [Hc | [Hc | [Hc | Hc]]];
          inversion Hc; subst dr dc; f_equal; mlia. }
      assert (Hmb : in_bounds R C (shift s (half d))).
      { destruct Hsb as [Hs1 Hs2]. destruct Htb as [Ht1 Ht2].
        apply coord_eq_iff in Hos. cbn [fst snd] in *.
        unfold in_bounds, shift, half, d. cbn [fst snd].
        destruct (steps2_cases Hdir) as [Hc | [Hc | [Hc | Hc]]];
          inversion Hc; subst dr dc; mlia. }
      destruct (grid_set_spec OPEN Hd Hmb) as (g1 & Hs1 & Hd1 & Hc1).
      rewrite <- Hmid in Hs1 at 1 2. cbn [fst snd] in Hs1.
      rewrite Hs1. cbn [of_result obind].
      destruct (grid_set_spec OPEN Hd1 Htb) as (g2 & Hs2 & Hd2 & Hc2).
      cbn [fst snd] in Hs2. rewrite Hs2. cbn [of_result obind].
      assert (Hcell2 : forall q, cell_at g2 q =
                         if coord_eqb q (shift s d) then Some OPEN
                         else if coord_eqb q (shift s (half d))
                              then Some OPEN else cell_at g q).
      { intros q. rewrite Hc2, Hc1, Htgt. reflexivity. }
      assert (Hmono : forall q, cell_at g q = Some OPEN ->
                                cell_at g2 q = Some OPEN).
      { intros q Hq. rewrite Hcell2.
        destruct (coord_eqb q (shift s d)); [reflexivity |].
        destruct (coord_eqb q (shift s (half d))); [reflexivity | assumption]. }
      destruct (@more_walls_spec R C wr wc g2 steps2 Hd2 rest)
        as (extra & Hfor & Hxlen & Hextra).
      rewrite Hfor. cbn [of_result obind].
      assert (Harm_d : forall x, x = shift s d \/ x = shift s (half d) ->
                                 x <> s /\ arm s x).
      { intros x Hx. unfold arm, shift, half, d in *.
        destruct (steps2_cases Hdir) as [Hc | [Hc | [Hc | Hc]]];
          inversion Hc; subst dr dc; cbn [fst snd] in *;
          destruct Hx as [-> | ->]; cbn [fst snd];
          (split; [rewrite coord_eq_iff; cbn [fst snd]; mlia | mlia]). }
      assert (HI2 : prim_inv R C s g2 (rest ++ extra)).
      { constructor.
        - assumption.
        - rewrite Hcell2.
          destruct (coord_eqb_spec s (shift s d)) as [Heq | _].
          { exfalso. apply (Htgt_ne d Hdir). congruence. }
          destruct (coord_eqb_spec s (shift s (half d))) as [Heq | _];
            [| assumption].
          exfalso. destruct (Harm_d s (or_intror Heq)). congruence.
        - intros q ch Hq. rewrite Hcell2 in Hq.
          destruct (coord_eqb_spec q (shift s d)) as [Heq | _].
          { inversion Hq; subst ch. right. right. split; [reflexivity |].
            apply Harm_d. auto. }
          destruct (coord_eqb_spec q (shift s (half d))) as [Heq | _].
          { inversion Hq; subst ch. right. right. split; [reflexivity |].
            apply Harm_d. auto. }
          apply Hcells. assumption.
        - intros wr' wc' dr' dc' Hin'. apply in_app_or in Hin'.
          destruct Hin' as [Hin' | Hin'].
          + destruct (Hwl _ _ _ _ (Hsub _ Hin')) as (A1 & A2 & A3).
            split; [assumption |]. split; [assumption |].
            destruct A3 as [A3 | A3]; [left; assumption | right; auto].
          + destruct (Hextra _ Hin') as (d' & Hd' & He' & Hin2).
            inversion He'; subst wr' wc' dr' dc'.
            split; [assumption |].
            split; [destruct d'; assumption |]. right.
            replace (wr + fst d' - fst d', wc + snd d' - snd d')
              with (wr, wc) by (f_equal; lia).
            rewrite Htgt, Hcell2, coord_eqb_refl. reflexivity.
        - intros d' Hd' Hin'.
          destruct (Htodo d' Hd' Hin') as [Ho | Hw];
            [left; apply Hmono; assumption |].
          destruct (Hsplit _ Hw) as [Heq | Hr].
          + left. inversion Heq as [[E1 E2 E3 E4]].
            assert (d' = d) by (destruct d'; unfold d; cbn in *; congruence).
            subst d'. rewrite Hcell2, coord_eqb_refl. reflexivity.
          + right. apply in_or_app. left. assumption.
        - intros d' Hd' Ho. rewrite Hcell2 in Ho.
          destruct (coord_eqb_spec (shift s d') (shift s d)) as [Heq | Hne].
          + assert (d' = d).
            { apply coord_eq_iff in Heq. unfold shift in Heq.
              cbn [fst snd] in Heq. destruct d', d. cbn [fst snd] in *.
              f_equal; lia. }
            subst d'. rewrite Hcell2, coord_eqb_refl.
            destruct (coord_eqb _ _); reflexivity.
          + destruct (coord_eqb_spec (shift s d') (shift s (half d)))
              as [Heq | _].
            * exfalso. apply coord_eq_iff in Heq. unfold shift, half in Heq.
              cbn [fst snd] in Heq.
              destruct (steps2_cases Hd') as [-> | [-> | [-> | ->]]];
                destruct (steps2_cases Hdir) as [Hc | [Hc | [Hc | Hc]]];
                unfold d in Heq; inversion Hc; subst dr dc;
                cbn [fst snd] in Heq; mlia.
            * apply Hmono, Harm; assumption. }
      specialize (IH g2 (rest ++ extra) r1 HI2).
      destruct (prim_loop fuel R C g2 (rest ++ extra) r1) as [[g' r'] | e' |];
        try assumption.
      assert (Hunc : S (uncarved R C g2 s) = uncarved R C g s).
      { apply (@uncarved_carve R C g g2 s d Hdir).
        - apply coord_eq_iff in Htgt. cbn [fst snd] in Htgt.
          unfold shift in Htgt. cbn [fst snd] in Htgt.
          destruct Htgt as [<- <-]. assumption.
        - unfold is_wall. rewrite <- Htgt, Hcw. reflexivity.
        - apply is_wall_set2. assumption. }
      rewrite length_app in IH. cbn [length steps2] in Hxlen. lia.
    + (* the wall was listed from a carved cell: it is skipped *)
      destruct (grid_get_in_bounds Hd
                  (@cell_at_some_in_bounds g R C _ _ Hd Hoo))
        as (ch & Hg & Hc).
      cbn [fst snd] in Hg. rewrite Hg. cbn [of_result obind].
      assert (ch = OPEN) by congruence. subst ch.
      change (Ascii.eqb OPEN OPEN) with true. cbv iota.
      assert (HI2 : prim_inv R C s g rest).
      { apply (@prim_inv_pop R C s g walls rest _ HI Hsub Hsplit).
        intros d Hd' Heq. exfalso. inversion Heq; subst wr wc dr dc.
        replace (fst s + fst d - fst d, snd s + snd d - snd d) with s in Hoo
          by (destruct s; cbn [fst snd]; f_equal; lia).
        rewrite Hst in Hoo. vm_compute in Hoo. discriminate. }
      specialize (IH g rest r1 HI2).
      destruct (prim_loop fuel R C g rest r1) as [[g' r'] | e' |];
        try assumption.
      apply Hfuel_same. assumption.
  - (* the cell has been carved since it was listed *)
    cbn [obind]. cbv iota. cbn [of_result obind].
    assert (HI2 : prim_inv R C s g rest).
    { apply (@prim_inv_pop R C s g walls rest _ HI Hsub Hsplit).
      intros d Hd' Heq.
      inversion Heq; subst wr wc dr dc.
      change (fst s + fst d, snd s + snd d) with (shift s d) in Hcw.
      destruct (Hcells _ _ Hcw) as [Hw | [Hs | [Ho _]]].
      - subst cw. discriminate.
      - exfalso. apply (Htgt_ne d Hd'). assumption.
      - congruence. }
    specialize (IH g rest r1 HI2).
    destruct (prim_loop fuel R C g rest r1) as [[g' r'] | e' |];
      try assumption.
    apply Hfuel_same. assumption.
Qed.

(** ** [generate_maze] as a whole *)

Lemma all_cells_in_bounds (R C : Z) (p : coord) :
  In p (all_cells R C) -> in_bounds R C p.
Proof.
  unfold all_cells. destruct p as [r c]. intros Hin.
  apply in_prod_iff in Hin. destruct Hin as [Hr Hc].
  apply in_map_iff in Hr. destruct Hr as (i & <- & Hi).
  apply in_map_iff in Hc. destruct Hc as (j & <- & Hj).
  apply in_seq in Hi, Hj. unfold in_bounds. cbn [fst snd]. lia.
Qed.

Lemma empty_spaces_spec (g : grid) (R C : Z) (l : list coord) :
  grid_dims g R C -> Forall (in_bounds R C) l ->
  forall acc,
    for_each (empty_spaces_body g) l acc = Ok (acc ++ filter (is_open g) l).
Proof.
  intros Hd. induction l as [| p l IH]; intros Hall acc.
  - cbn. rewrite app_nil_r. reflexivity.
  - inversion Hall as [| ? ? Hp Hl]; subst. cbn [for_each filter].
    unfold empty_spaces_body at 1.
    destruct (grid_get_in_bounds Hd Hp) as (ch & Hget & Hch).
    rewrite Hget. cbn [rbind]. unfold is_open at 1. rewrite Hch.
    destruct (Ascii.eqb ch OPEN); cbn [rbind]; rewrite (IH Hl).
    + rewrite <- app_assoc. reflexivity.
    + reflexivity.
Qed.

Lemma first_walls_spec (R C r c : Z) :
  first_walls R C r c =
  map (fun d => (r + fst d, c + snd d, fst d, snd d))
      (filter (fun d => inner R C (r + fst d) (c + snd d)) steps2).
Proof.
  unfold first_walls, steps2. cbn [fold_left filter fst snd].
  destruct (inner R C (r + -2) (c + 0)), (inner R C (r + 2) (c + 0)),
    (inner R C (r + 0) (c + -2)), (inner R C (r + 0) (c + 2)); reflexivity.
Qed.

Lemma uncarved_le (R C : Z) (g : grid) (s : coord) :
  (uncarved R C g s <= 4)%nat.
Proof. unfold uncarved. apply (filter_length_le _ steps2). Qed.

(** The grid of walls with the start cell marked, and the first walls. *)
Lemma prim_initial (R C : Z) (s : coord) (g : grid) :
  grid_dims g R C -> cell_at g s = Some START ->
  (forall q ch, q <> s -> cell_at g q = Some ch -> ch = WALL) ->
  prim_inv R C s g (first_walls R C (fst s) (snd s)).
Proof.
  intros Hd Hs Hw. rewrite first_walls_spec. constructor.
  - assumption.
  - assumption.
  - intros q ch Hq. destruct (coord_eq_dec q s) as [-> | Hne]; [auto |].
    left. apply (Hw q ch Hne Hq).
  - intros wr wc dr dc Hin. apply in_map_iff in Hin.
    destruct Hin as (d & Heq & Hin). apply filter_In in Hin.
    destruct Hin as [Hd' Hin]. inversion Heq; subst wr wc dr dc.
    split; [assumption |]. split; [destruct d; assumption |]. left.
    destruct s; cbn [fst snd]. f_equal; lia.
  - intros d Hd' Hin. right.
    apply (in_map (fun d => (fst s + fst d, snd s + snd d, fst d, snd d))).
    apply filter_In. split; assumption.
  - intros d Hd' Ho. exfalso.
    destruct (coord_eq_dec (shift s d) s) as [Heq | Hne].
    + rewrite Heq, Hs in Ho. vm_compute in Ho. discriminate.
    + pose proof (Hw _ _ Hne Ho) as E. vm_compute in E. discriminate.
Qed.

(** What [generate_maze] does on an object whose dimensions are odd, at
    least 3, and one of them at least 5. *)
Lemma generate_maze_spec (self : Maze) (g : rng) (fuel : nat) :
  3 <= rows self -> rows self mod 2 = 1 ->
  3 <= cols self -> cols self mod 2 = 1 ->
  5 <= rows self \/ 5 <= cols self -> (21 <= fuel)%nat ->
  exists grid' g' s gl,
    generate_maze fuel g self =
      (Return (grid', g'),
       {| rows := rows self; cols := cols self; start := s; goal := gl;
          maze := maze self |}) /\
    grid_dims grid' (rows self) (cols self) /\
    cell_at grid' s = Some START /\ cell_at grid' gl = Some GOAL /\
    arm s gl /\
    (forall q ch, cell_at grid' q = Some ch ->
                  ch = WALL \/ q = s \/ arm s q) /\
    (forall d, In d steps2 ->
               inner (rows self) (cols self)
                 (fst s + fst d) (snd s + snd d) = true ->
               nonwall grid' (shift s d) = true /\
               nonwall grid' (shift s (half d)) = true).
Proof.
  intros HR HRo HC HCo Hbig Hfuel.
  set (R := rows self) in *. set (C := cols self) in *.
  destruct (randrange_ok g HRo HR) as (r & g1 & Er & Hr1 & Hr2).
  destruct (randrange_ok g1 HCo HC) as (c & g2 & Ec & Hc1 & Hc2).
  assert (Hs : in_bounds R C (r, c)) by (unfold in_bounds; cbn; lia).
  destruct (@grid_set_spec _ R C (r, c) START (all_walls_dims R C) Hs)
    as (m1 & Em1 & Hd1 & Hcell1).
  cbn [fst snd] in Em1.
  assert (Hinv1 : prim_inv R C (r, c) m1 (first_walls R C r c)).
  { apply (@prim_initial R C (r, c) m1 Hd1).
    - rewrite Hcell1, coord_eqb_refl. reflexivity.
    - intros q ch Hne Hq. rewrite Hcell1 in Hq.
      destruct (coord_eqb_spec q (r, c)) as [Heq | _]; [contradiction |].
      pose proof (all_walls_nonwall R C q) as Hw. unfold nonwall in Hw.
      rewrite Hq in Hw. apply negb_false_iff, Ascii.eqb_eq in Hw.
      assumption. }
  pose proof (@prim_loop_spec R C (r, c) fuel m1 _ g2 Hinv1) as Hloop.
  destruct (prim_loop fuel R C m1 (first_walls R C r c) g2)
    as [[m2 g3] | e |] eqn:Eloop; [| contradiction |].
  2:{ exfalso. pose proof (uncarved_le R C m1 (r, c)) as Hu.
      assert (Hl : (length (first_walls R C r c) <= 4)%nat).
      { rewrite first_walls_spec, length_map.
        apply (filter_length_le _ steps2). }
      lia. }
  destruct Hloop as [Hd2 Hst2 Hcells2 _ Htodo2 Harm2].
  assert (Hes : for_each (empty_spaces_body m2) (all_cells R C) [] =
                Ok (filter (is_open m2) (all_cells R C))).
  { apply (@empty_spaces_spec m2 R C (all_cells R C) Hd2).
    apply Forall_forall. intros p. apply all_cells_in_bounds. }
  assert (Hopen : forall d, In d steps2 ->
            inner R C (r + fst d) (c + snd d) = true ->
            cell_at m2 (shift (r, c) d) = Some OPEN).
  { intros d Hd Hin. destruct (Htodo2 d Hd Hin) as [H | []]. exact H. }
  assert (Hne : filter (is_open m2) (all_cells R C) <> []).
  { assert (Hex : exists d, In d steps2 /\
                    inner R C (r + fst d) (c + snd d) = true).
    { unfold inner, steps2.
      destruct Hbig as [Hb | Hb].
      - destruct (Z_le_gt_dec 3 r).
        + exists (-2, 0). split; [cbn; auto |]. cbn [fst snd].
          rewrite !andb_true_iff, !Z.leb_le, !Z.ltb_lt. lia.
        + exists (2, 0). split; [cbn; auto |]. cbn [fst snd].
          rewrite !andb_true_iff, !Z.leb_le, !Z.ltb_lt. mlia.
      - destruct (Z_le_gt_dec 3 c).
        + exists (0, -2). split; [cbn; auto |]. cbn [fst snd].
          rewrite !andb_true_iff, !Z.leb_le, !Z.ltb_lt. lia.
        + exists (0, 2). split; [cbn; auto 6 |]. cbn [fst snd].
          rewrite !andb_true_iff, !Z.leb_le, !Z.ltb_lt. mlia. }
    destruct Hex as (d & Hd & Hin). intros Hnil.
    assert (Hmem : In (shift (r, c) d) (filter (is_open m2) (all_cells R C))).
    { apply filter_In. split.
      - apply in_all_cells. apply (@inner_in_bounds R C _ _ Hin).
      - unfold is_open. rewrite (Hopen d Hd Hin). reflexivity. }
    rewrite Hnil in Hmem. contradiction. }
  destruct (choice_ok g3 Hne) as (gl & g4 & Ech & Hgl).
  apply filter_In in Hgl. destruct Hgl as [Hglc Hglo].
  pose proof (@all_cells_in_bounds R C gl Hglc) as Hglb.
  unfold is_open in Hglo.
  destruct (cell_at m2 gl) as [chg |] eqn:Eg; [| discriminate].
  apply Ascii.eqb_eq in Hglo. subst chg.
  assert (Harmgl : arm (r, c) gl).
  { destruct (Hcells2 gl OPEN Eg) as [Hw | [Heq | [_ Ha]]].
    - vm_compute in Hw. discriminate.
    - subst gl. rewrite Hst2 in Eg. vm_compute in Eg. discriminate.
    - assumption. }
  destruct (@grid_set_spec _ R C gl GOAL Hd2 Hglb)
    as (m3 & Em3 & Hd3 & Hcell3).
  exists m3, g4, (r, c), gl. split.
  { unfold generate_maze, bind, lift, pure_out, set_start, set_goal, ret.
    fold R. fold C. rewrite Er. cbn beta iota. rewrite Ec. cbn beta iota.
    rewrite Em1. cbn beta iota. cbn [rows cols start goal maze].
    rewrite Eloop. cbn beta iota. rewrite Hes. cbn beta iota.
    rewrite Ech. destruct gl as [glr glc]. cbn beta iota.
    cbn [fst snd] in Em3. rewrite Em3. reflexivity. }
  split; [assumption |].
  assert (Hsgl : coord_eqb (r, c) gl = false).
  { destruct (coord_eqb_spec (r, c) gl) as [Heq | _]; [| reflexivity].
    subst gl. rewrite Hst2 in Eg. vm_compute in Eg. discriminate. }
  split; [rewrite Hcell3, Hsgl; assumption |].
  split; [rewrite Hcell3, coord_eqb_refl; reflexivity |].
  split; [assumption |].
  split.
  - intros q ch Hq. rewrite Hcell3 in Hq.
    destruct (coord_eqb_spec q gl) as [-> | _]; [auto |].
    destruct (Hcells2 q ch Hq) as [Hw | [Heq | [_ Ha]]]; auto.
  - intros d Hd Hin. cbn [fst snd] in Hin.
    pose proof (Hopen d Hd Hin) as Ho.
    pose proof (Harm2 d Hd Ho) as Ho'.
    rewrite !(@nonwall_set m2 m3 gl GOAL Hcell3). unfold nonwall.
    rewrite Ho, Ho'.
    split.
    + destruct (coord_eqb (shift (r, c) d) gl); reflexivity.
    + destruct (coord_eqb (shift (r, c) (half d)) gl); reflexivity.
Qed.

(** X14: on a maze object whose dimensions are odd, at least 3, and one of
    them at least 5, [generate_maze] returns a grid of the object's size
    with 'S' on a cell [s] and 'G' on a cell [gl] one or two steps from
    [s]; whatever the size, the only cells of that grid that are not walls
    are [s] and cells one or two steps from it along its row or its column,
    and the two cells of every such arm that ends inside the border are
    open.  It stores [s] and [gl] as the object's start and goal and leaves
    the object's own grid as it was. *)
Theorem generate_maze_carves_only_the_arms (self : Maze) (g : rng)
    (fuel : nat) :
  3 <= rows self -> rows self mod 2 = 1 ->
  3 <= cols self -> cols self mod 2 = 1 ->
  5 <= rows self \/ 5 <= cols self -> (21 <= fuel)%nat ->
  exists grid' g' s gl,
    generate_maze fuel g self =
      (Return (grid', g'),
       {| rows := rows self; cols := cols self; start := s; goal := gl;
          maze := maze self |}) /\
    grid_dims grid' (rows self) (cols self) /\
    cell_at grid' s = Some START /\ cell_at grid' gl = Some GOAL /\
    arm s gl /\
    (forall q, nonwall grid' q = true -> q = s \/ arm s q) /\
    (forall d, In d steps2 ->
               inner (rows self) (cols self)
                 (fst s + fst d) (snd s + snd d) = true ->
               nonwall grid' (shift s d) = true /\
               nonwall grid' (shift s (half d)) = true).
Proof.
  intros HR HRo HC HCo Hbig Hfuel.
  destruct (generate_maze_spec self g HR HRo HC HCo Hbig Hfuel)
    as (grid' & g' & s & gl & Hrun & Hd & Hs & Hg & Ha & Hcells & Harms).
  exists grid', g', s, gl. repeat (split; [assumption |]).
  split; [| assumption].
  intros q Hq. unfold nonwall in Hq.
  destruct (cell_at grid' q) as [ch |] eqn:Ech; [| discriminate].
  destruct (Hcells q ch Ech) as [-> | H]; [discriminate | assumption].
Qed.

Lemma generate_maze_carves_only_the_arms_witness :
  exists grid' g' s gl,
    generate_maze 30 zero_rng maze_3_5 =
      (Return (grid', g'),
       {| rows := rows maze_3_5; cols := cols maze_3_5; start := s;
          goal := gl; maze := maze maze_3_5 |}) /\
    grid_dims grid' (rows maze_3_5) (cols maze_3_5) /\
    cell_at grid' s = Some START /\ cell_at grid' gl = Some GOAL /\
    arm s gl /\
    (forall q, nonwall grid' q = true -> q = s \/ arm s q) /\
    (forall d, In d steps2 ->
               inner (rows maze_3_5) (cols maze_3_5)
                 (fst s + fst d) (snd s + snd d) = true ->
               nonwall grid' (shift s d) = true /\
               nonwall grid' (shift s (half d)) = true).
Proof.
  apply (generate_maze_carves_only_the_arms maze_3_5 zero_rng (fuel := 30)).
  - vm_compute. discriminate.
  - reflexivity.
  - vm_compute. discriminate.
  - reflexivity.
  - right. vm_compute. discriminate.
  - lia.
Defined.

(** X15: on a 3 by 3 maze object [generate_maze] raises [IndexError],
    whatever the random draws: nothing can be carved around the only inner
    cell, so [random.choice] is given an empty list.  By then the object's
    start has been set to (1, 1); its goal and its grid are as before. *)
Theorem generate_maze_3_by_3_raises (self : Maze) (g : rng) (fuel : nat) :
  rows self = 3 -> cols self = 3 -> (1 <= fuel)%nat ->
  generate_maze fuel g self =
    (Raise IndexError,
     {| rows := 3; cols := 3; start := (1, 1); goal := goal self;
        maze := maze self |}).
Proof.
  intros HR HC Hfuel. destruct self as [R C st gl mz]. cbn in HR, HC.
  subst R C. destruct fuel as [| fuel]; [lia |].
  unfold generate_maze, bind, lift, pure_out, set_start, set_goal, ret.
  cbn [rows cols start goal maze]. rewrite !randrange_3. reflexivity.
Qed.

Lemma generate_maze_3_by_3_raises_witness :
  generate_maze 1 zero_rng maze_3_3 =
    (Raise IndexError,
     {| rows := 3; cols := 3; start := (1, 1); goal := goal maze_3_3;
        maze := maze maze_3_3 |}).
Proof.
  apply (generate_maze_3_by_3_raises maze_3_3 zero_rng (fuel := 1));
    [reflexivity | reflexivity | lia].
Defined.

(** * The features of a maze *)

(** ** Counting in lists *)

Lemma fold_add_acc (l : list Z) (a : Z) :
  fold_left Z.add l a = a + fold_left Z.add l 0.
Proof.
  revert a. induction l as [| x l IH]; intros a; cbn [fold_left].
  - lia.
  - rewrite (IH (a + x)), (IH (0 + x)). lia.
Qed.

Lemma py_sum_cons (x : Z) (l : list Z) : py_sum (x :: l) = x + py_sum l.
Proof. unfold py_sum. cbn [fold_left]. rewrite fold_add_acc. lia. Qed.

Lemma py_sum_ones {A} (l : list A) :
  py_sum (map (fun _ => 1) l) = Z.of_nat (length l).
Proof.
  induction l as [| x l IH]; [reflexivity |].
  cbn [map length]. rewrite py_sum_cons, IH. lia.
Qed.

Lemma py_sum_row_walls (g : grid) :
  py_sum (map row_walls g) =
  Z.of_nat (length (filter (fun cell => Ascii.eqb cell WALL) (concat g))).
Proof.
  induction g as [| row g IH]; [reflexivity |].
  cbn [map concat]. rewrite py_sum_cons, IH, filter_app, length_app.
  unfold row_walls. rewrite py_sum_ones. lia.
Qed.

Lemma filter_length_split {A} (p q : A -> bool) (l : list A) :
  length (filter p l) =
  (length (filter (fun x => p x && q x) l) +
   length (filter (fun x => p x && negb (q x)) l))%nat.
Proof.
  induction l as [| x l IH]; [reflexivity |]. cbn [filter].
  destruct (p x), (q x); cbn [andb negb length]; lia.
Qed.

Lemma filter_length_negb {A} (p : A -> bool) (l : list A) :
  (length (filter p l) + length (filter (fun x => negb (p x)) l))%nat =
  length l.
Proof.
  induction l as [| x l IH]; [reflexivity |]. cbn [filter].
  destruct (p x); cbn [negb length]; lia.
Qed.

Lemma filter_map_length {A B} (f : A -> B) (p : B -> bool) (l : list A) :
  length (filter p (map f l)) = length (filter (fun x => p (f x)) l).
Proof.
  induction l as [| x l IH]; [reflexivity |]. cbn [map filter].
  destruct (p (f x)); cbn [length]; rewrite IH; reflexivity.
Qed.

Lemma filter_list_prod {A B} (f : A -> bool) (h : B -> bool)
    (l1 : list A) (l2 : list B) :
  filter (fun p => f (fst p) && h (snd p)) (list_prod l1 l2) =
  list_prod (filter f l1) (filter h l2).
Proof.
  induction l1 as [| x l1 IH]; [reflexivity |].
  cbn [list_prod filter]. rewrite filter_app, IH.
  assert (Hx : filter (fun p => f (fst p) && h (snd p))
                 (map (fun y => (x, y)) l2) =
               if f x then map (fun y => (x, y)) (filter h l2) else []).
  { clear IH. induction l2 as [| y l2 IH2].
    - destruct (f x); reflexivity.
    - cbn [map filter fst snd]. rewrite IH2.
      destruct (f x), (h y); reflexivity. }
  rewrite Hx. destruct (f x); reflexivity.
Qed.

Lemma odd_range_length (n : nat) :
  length (filter (fun z => z mod 2 =? 1)
            (map Z.of_nat (seq 0 (2 * n + 1)))) = n.
Proof.
  induction n as [| n IH]; [reflexivity |].
  replace (2 * S n + 1)%nat with ((2 * n + 1) + 2)%nat by lia.
  rewrite seq_app, map_app, filter_app, length_app, IH.
  cbn [seq map filter].
  destruct (Z.eqb_spec (Z.of_nat (0 + (2 * n + 1)) mod 2) 1) as [_ | Hn];
    [| exfalso; apply Hn; mlia].
  destruct (Z.eqb_spec (Z.of_nat (S (0 + (2 * n + 1))) mod 2) 1) as [Hn | _];
    [exfalso; mlia |].
  cbn [length]. lia.
Qed.

Lemma NoDup_prod {A B} (l1 : list A) (l2 : list B) :
  NoDup l1 -> NoDup l2 -> NoDup (list_prod l1 l2).
Proof.
  intros H1 H2. induction H1 as [| x l1 Hx H1 IH]; [constructor |].
  cbn [list_prod]. apply NoDup_app.
  - apply Finite.Injective_map_NoDup; [| assumption].
    intros a b Hab. inversion Hab. reflexivity.
  - assumption.
  - intros [a b] Hin Hin'. apply in_map_iff in Hin.
    destruct Hin as (y & Heq & _). inversion Heq; subst.
    apply in_prod_iff in Hin'. destruct Hin' as [Hin' _]. contradiction.
Qed.

Lemma NoDup_all_cells (R C : Z) : NoDup (all_cells R C).
Proof.
  unfold all_cells.
  assert (Hr : forall n, NoDup (map Z.of_nat (seq 0 n))).
  { intros n. apply Finite.Injective_map_NoDup; [| apply seq_NoDup].
    intros a b. lia. }
  apply NoDup_prod; apply Hr.
Qed.

Lemma lattice_count (R C : Z) :
  R mod 2 = 1 -> C mod 2 = 1 -> 0 <= R -> 0 <= C ->
  Z.of_nat (length (filter latticeb (all_cells R C))) =
  ((R - 1) / 2) * ((C - 1) / 2).
Proof.
  intros HR HC HR0 HC0. unfold all_cells.
  change latticeb
    with (fun p : Z * Z => (fun z => z mod 2 =? 1) (fst p)
                           && (fun z => z mod 2 =? 1) (snd p)).
  rewrite (filter_list_prod (fun z => z mod 2 =? 1) (fun z => z mod 2 =? 1)).
  unfold coord. rewrite length_prod.
  replace (Z.to_nat R) with (2 * Z.to_nat ((R - 1) / 2) + 1)%nat by mlia.
  replace (Z.to_nat C) with (2 * Z.to_nat ((C - 1) / 2) + 1)%nat by mlia.
  rewrite !odd_range_length, Nat2Z.inj_mul, !Z2Nat.id by mlia.
  reflexivity.
Qed.

(** ** The cells of a grid, row after row *)

Lemma map_nth_error_seq {A} (l : list A) :
  map (nth_error l) (seq 0 (length l)) = map Some l.
Proof.
  induction l as [| x l IH]; [reflexivity |].
  cbn [length seq map nth_error]. f_equal.
  rewrite <- seq_shift, map_map. exact IH.
Qed.

Lemma cells_of_rows (c : nat) (g pre : grid) :
  Forall (fun row => length row = c) g ->
  map (cell_at (pre ++ g))
      (list_prod (map Z.of_nat (seq (length pre) (length g)))
                 (map Z.of_nat (seq 0 c))) =
  map Some (concat g).
Proof.
  revert pre. induction g as [| row g IH]; intros pre Hall.
  - reflexivity.
  - inversion Hall as [| ? ? Hrow Hg]; subst.
    cbn [length seq map list_prod concat]. rewrite !map_app. f_equal.
    + rewrite !map_map. rewrite <- map_nth_error_seq.
      apply map_ext. intros j. unfold cell_at. cbn [fst snd].
      destruct (Z.leb_spec 0 (Z.of_nat (length pre))); [| lia].
      destruct (Z.leb_spec 0 (Z.of_nat j)); [| lia]. cbn [andb].
      rewrite !Nat2Z.id, nth_error_app2, Nat.sub_diag by lia. reflexivity.
    + replace (pre ++ row :: g) with ((pre ++ [row]) ++ g)
        by (rewrite <- app_assoc; reflexivity).
      replace (S (length pre)) with (length (pre ++ [row]))
        by (rewrite length_app; cbn [length]; lia).
      apply IH. assumption.
Qed.

Lemma cells_of_grid (g : grid) (R C : Z) :
  grid_dims g R C ->
  map (cell_at g) (all_cells R C) = map Some (concat g).
Proof.
  intros [Hlen Hrows]. unfold all_cells.
  replace (Z.to_nat R) with (length g) by lia.
  apply (@cells_of_rows (Z.to_nat C) g []).
  eapply Forall_impl; [| exact Hrows]. cbn beta. intros row Hrow. lia.
Qed.

Lemma nonwall_count (g : grid) (R C : Z) :
  grid_dims g R C ->
  length (filter (nonwall g) (all_cells R C)) =
  length (filter (fun ch => negb (Ascii.eqb ch WALL)) (concat g)).
Proof.
  intros Hd.
  set (P := fun o : option ascii =>
              match o with
              | Some ch => negb (Ascii.eqb ch WALL)
              | None => false
              end).
  change (nonwall g) with (fun q => P (cell_at g q)).
  rewrite <- (filter_map_length (cell_at g) P), (cells_of_grid Hd).
  rewrite filter_map_length. reflexivity.
Qed.

(** The walls [calculate_maze_density] counts are the cells that are not
    open. *)
Lemma wall_count (g : grid) (R C : Z) :
  grid_dims g R C -> 0 <= R -> 0 <= C ->
  py_sum (map row_walls g) =
  R * C - Z.of_nat (length (filter (nonwall g) (all_cells R C))).
Proof.
  intros Hd HR HC. rewrite py_sum_row_walls, (nonwall_count Hd).
  pose proof (filter_length_negb (fun ch => Ascii.eqb ch WALL) (concat g))
    as Hsplit.
  assert (Hlen : length (concat g) = (Z.to_nat R * Z.to_nat C)%nat).
  { rewrite <- (length_all_cells R C).
    rewrite <- (length_map (cell_at g) (all_cells R C)), (cells_of_grid Hd).
    rewrite length_map. reflexivity. }
  rewrite Hlen in Hsplit. nia.
Qed.

(** ** The tree of a generated maze, counted *)

Lemma latticeb_spec (p : coord) : latticeb p = true <-> lattice p.
Proof.
  unfold latticeb, lattice. rewrite andb_true_iff, !Z.eqb_eq. reflexivity.
Qed.

Lemma latticeb_nbr (v u : coord) :
  latticeb v = true -> nbr v u -> latticeb u = false.
Proof.
  intros Hv Hn. apply latticeb_spec in Hv. destruct Hv as [Hv1 Hv2].
  destruct (latticeb u) eqn:Hu; [| reflexivity].
  apply latticeb_spec in Hu. destruct Hu as [Hu1 Hu2].
  unfold nbr in Hn. exfalso. mlia.
Qed.

Lemma around_nbr (v dir : coord) :
  In dir around -> nbr v (fst v + fst dir, snd v + snd dir).
Proof.
  unfold around, nbr. cbn [In fst snd].
  intros [<- | [<- | [<- | [<- | []]]]]; cbn [fst snd]; lia.
Qed.

Lemma filter_out_absent (l : list coord) (x : coord) :
  ~ In x l -> filter (fun y => negb (coord_eqb y x)) l = l.
Proof.
  induction l as [| y l IH]; intros Hx; [reflexivity |]. cbn [filter].
  destruct (coord_eqb_spec y x) as [-> | Hne].
  - exfalso. apply Hx. left. reflexivity.
  - cbn [negb]. f_equal. apply IH. intros Hin. apply Hx. right. exact Hin.
Qed.

Lemma filter_out_length (l : list coord) (x : coord) :
  NoDup l -> In x l ->
  length l = S (length (filter (fun y => negb (coord_eqb y x)) l)).
Proof.
  intros Hnd. induction Hnd as [| y l Hy Hnd IH]; intros Hin; [destruct Hin |].
  cbn [filter]. destruct (coord_eqb_spec y x) as [-> | Hne]; cbn [negb length].
  - rewrite (@filter_out_absent l x Hy). reflexivity.
  - destruct Hin as [Heq | Hin]; [contradiction |]. rewrite <- (IH Hin).
    reflexivity.
Qed.

Section TreeCount.

Variable m : Maze.
Variable d : coord -> nat.
Hypothesis Hgen : generated m.
Hypothesis Hlay : generated_layout m d.

Lemma parent_exists (q : coord) :
  nonwall (maze m) q = true -> q <> start m ->
  exists u, nonwall (maze m) u = true /\ nbr q u /\ d q = S (d u).
Proof.
  intros Hq Hne.
  destruct (@depth_is_shortest m d q Hgen Hlay Hq) as [Hw _].
  inversion Hw as [Hs Hk | x y k Hx Hadj Hy Hk].
  - exfalso. apply Hne. symmetry. assumption.
  - destruct (@walk_lower_bound m d x k (gl_tree Hlay)
                (proj2 (gen_start Hgen)) Hx) as [Hxo Hxd].
    apply adj_iff in Hadj. destruct Hadj as (Hn & _ & _).
    exists x. split; [assumption |]. split; [apply nbr_sym; assumption |].
    destruct (tl_step (gl_tree Hlay) Hq Hxo (nbr_sym Hn)) as [Hd | Hd];
      lia.
Qed.

Lemma connector_neighbours (c : coord) :
  nonwall (maze m) c = true -> latticeb c = false ->
  exists a b,
    a <> b /\ latticeb a = true /\ latticeb b = true /\
    nonwall (maze m) a = true /\ nonwall (maze m) b = true /\
    nbr c a /\ nbr c b /\
    forall u, nonwall (maze m) u = true -> nbr c u -> u = a \/ u = b.
Proof.
  intros Hc Hl. destruct c as [r k].
  pose proof (gl_parity Hlay _ Hc) as Hpar. cbn [fst snd] in Hpar.
  assert (Hcase : (r mod 2 = 0 /\ k mod 2 = 1) \/
                  (r mod 2 = 1 /\ k mod 2 = 0)).
  { unfold latticeb in Hl. cbn [fst snd] in Hl.
    apply andb_false_iff in Hl. rewrite !Z.eqb_neq in Hl. mlia. }
  destruct Hcase as [[Hr Hk] | [Hr Hk]].
  - destruct (gl_conn_r Hlay _ Hc Hr) as [Ha Hb]. cbn [fst snd] in Ha, Hb.
    exists (r - 1, k), (r + 1, k).
    split; [intros Heq; inversion Heq; lia |].
    split; [apply latticeb_spec; unfold lattice; cbn [fst snd]; mlia |].
    split; [apply latticeb_spec; unfold lattice; cbn [fst snd]; mlia |].
    split; [assumption |]. split; [assumption |].
    split; [unfold nbr; cbn [fst snd]; lia |].
    split; [unfold nbr; cbn [fst snd]; lia |].
    intros [ur uk] Hu Hn. pose proof (gl_parity Hlay _ Hu) as Hup.
    unfold nbr in Hn. cbn [fst snd] in Hn, Hup.
    assert (H : (ur = r - 1 /\ uk = k) \/ (ur = r + 1 /\ uk = k)) by mlia.
    destruct H as [[-> ->] | [-> ->]]; auto.
  - destruct (gl_conn_c Hlay _ Hc Hk) as [Ha Hb]. cbn [fst snd] in Ha, Hb.
    exists (r, k - 1), (r, k + 1).
    split; [intros Heq; inversion Heq; lia |].
    split; [apply latticeb_spec; unfold lattice; cbn [fst snd]; mlia |].
    split; [apply latticeb_spec; unfold lattice; cbn [fst snd]; mlia |].
    split; [assumption |]. split; [assumption |].
    split; [unfold nbr; cbn [fst snd]; lia |].
    split; [unfold nbr; cbn [fst snd]; lia |].
    intros [ur uk] Hu Hn. pose proof (gl_parity Hlay _ Hu) as Hup.
    unfold nbr in Hn. cbn [fst snd] in Hn, Hup.
    assert (H : (ur = r /\ uk = k - 1) \/ (ur = r /\ uk = k + 1)) by mlia.
    destruct H as [[-> ->] | [-> ->]]; auto.
Qed.

Lemma parent_cell_spec (v : coord) :
  nonwall (maze m) v = true -> v <> start m ->
  nonwall (maze m) (parent_cell (maze m) d v) = true /\
  nbr v (parent_cell (maze m) d v) /\
  d v = S (d (parent_cell (maze m) d v)).
Proof.
  intros Hv Hne. unfold parent_cell.
  destruct (find _ _) as [u |] eqn:Hf.
  - apply find_some in Hf. destruct Hf as [Hin Hp].
    apply andb_true_iff in Hp. destruct Hp as [Hu Hd].
    apply Nat.eqb_eq in Hd. apply in_map_iff in Hin.
    destruct Hin as (dir & <- & Hdir).
    split; [assumption |]. split; [apply around_nbr; assumption |].
    assumption.
  - exfalso. destruct (@parent_exists v Hv Hne) as (u & Hu & Hn & Hd).
    destruct (nbr_dirs Hn) as (dir & Hdir & ->).
    pose proof (find_none _ _ Hf (fst v + fst dir, snd v + snd dir)
                  (in_map _ _ _ Hdir)) as Hno.
    cbn beta in Hno. rewrite Hu, Hd, Nat.eqb_refl in Hno. discriminate.
Qed.

Lemma in_lattice_cells (p : coord) :
  In p (lattice_cells (rows m) (cols m)) <->
  in_bounds (rows m) (cols m) p /\ latticeb p = true.
Proof.
  unfold lattice_cells. rewrite filter_In. split.
  - intros [Hin Hl]. split; [apply all_cells_in_bounds |]; assumption.
  - intros [Hin Hl]. split; [apply in_all_cells |]; assumption.
Qed.

Lemma in_connector_cells (p : coord) :
  In p (connector_cells (maze m) (rows m) (cols m)) <->
  nonwall (maze m) p = true /\ latticeb p = false.
Proof.
  unfold connector_cells. rewrite filter_In, andb_true_iff, negb_true_iff.
  split.
  - intros [_ H]. exact H.
  - intros [Hp Hl]. split; [| auto]. apply in_all_cells.
    apply (@nonwall_in_bounds (maze m) _ _ p (gen_wf Hgen) Hp).
Qed.

Lemma start_latticeb : latticeb (start m) = true.
Proof. apply latticeb_spec. exact (proj1 (gen_start Hgen)). Qed.

(** Every connector is the parent of one lattice cell, and every lattice
    cell but the start has a connector for parent. *)
Lemma connectors_count :
  S (length (connector_cells (maze m) (rows m) (cols m))) =
  length (lattice_cells (rows m) (cols m)).
Proof.
  set (Lat := lattice_cells (rows m) (cols m)).
  set (Lat' := filter (fun y => negb (coord_eqb y (start m))) Lat).
  assert (HndL : NoDup Lat)
    by (apply NoDup_filter, NoDup_all_cells).
  assert (HsL : In (start m) Lat).
  { apply in_lattice_cells. split; [| apply start_latticeb].
    apply (@nonwall_in_bounds (maze m) _ _ _ (gen_wf Hgen)
             (proj2 (gen_start Hgen))). }
  rewrite (@filter_out_length Lat (start m) HndL HsL). f_equal. fold Lat'.
  assert (HL' : forall v, In v Lat' ->
            nonwall (maze m) v = true /\ latticeb v = true /\
            v <> start m).
  { intros v Hv. apply filter_In in Hv. destruct Hv as [Hv Hne].
    apply in_lattice_cells in Hv. destruct Hv as [Hb Hl].
    split; [apply (gl_lattice Hlay); [apply latticeb_spec |]; assumption |].
    split; [assumption |].
    destruct (coord_eqb_spec v (start m)); [discriminate | assumption]. }
  rewrite <- (length_map (parent_cell (maze m) d) Lat').
  apply Permutation_length. symmetry. apply NoDup_Permutation.
  - apply Finite.Injective_map_NoDup_in;
      [| apply NoDup_filter; assumption].
    intros v1 v2 H1 H2 Heq.
    destruct (HL' _ H1) as (Ho1 & Hl1 & Hn1).
    destruct (HL' _ H2) as (Ho2 & Hl2 & Hn2).
    destruct (@parent_cell_spec v1 Ho1 Hn1) as (Hc & Hnb1 & Hd1).
    destruct (@parent_cell_spec v2 Ho2 Hn2) as (_ & Hnb2 & Hd2).
    rewrite <- Heq in Hnb2, Hd2.
    set (c := parent_cell (maze m) d v1) in *.
    pose proof (@latticeb_nbr v1 c Hl1 Hnb1) as Hcl.
    assert (Hcs : c <> start m).
    { intros E. rewrite E, start_latticeb in Hcl. discriminate. }
    destruct (@parent_exists c Hc Hcs) as (u & Hu & Hnu & Hdu).
    destruct (@connector_neighbours c Hc Hcl)
      as (a & b & _ & _ & _ & _ & _ & _ & _ & Hall).
    destruct (Hall _ Hu Hnu), (Hall _ Ho1 (nbr_sym Hnb1)),
      (Hall _ Ho2 (nbr_sym Hnb2)); subst; try reflexivity; exfalso; lia.
  - apply NoDup_filter, NoDup_all_cells.
  - intros c. split.
    + intros Hin. apply in_map_iff in Hin. destruct Hin as (v & <- & Hv).
      destruct (HL' _ Hv) as (Ho & Hl & Hn).
      destruct (@parent_cell_spec v Ho Hn) as (Hc & Hnb & _).
      apply in_connector_cells. split; [assumption |].
      apply (@latticeb_nbr v _ Hl Hnb).
    + intros Hin. apply in_connector_cells in Hin. destruct Hin as [Hc Hcl].
      assert (Hcs : c <> start m).
      { intros E. rewrite E, start_latticeb in Hcl. discriminate. }
      destruct (@parent_exists c Hc Hcs) as (u & Hu & Hnu & Hdu).
      destruct (@connector_neighbours c Hc Hcl)
        as (a & b & Hab & Hla & Hlb & Hoa & Hob & Hna & Hnb & Hall).
      assert (Hw : exists w, w <> u /\ latticeb w = true /\
                             nonwall (maze m) w = true /\ nbr c w).
      { destruct (Hall _ Hu Hnu) as [-> | ->].
        - exists b. auto.
        - exists a. auto. }
      destruct Hw as (w & Hwu & Hlw & How & Hnw).
      assert (Hdw : d w = S (d c)).
      { destruct (tl_step (gl_tree Hlay) How Hc (nbr_sym Hnw))
          as [Hd | Hd]; [assumption |].
        exfalso. apply Hwu.
        apply (tl_parent (gl_tree Hlay) Hc How Hu Hnw Hnu Hd Hdu). }
      assert (Hws : w <> start m).
      { intros E. rewrite E, (tl_start (gl_tree Hlay)) in Hdw.
        discriminate. }
      destruct (@parent_cell_spec w How Hws) as (Hpo & Hpn & Hpd).
      apply in_map_iff. exists w. split.
      * apply (tl_parent (gl_tree Hlay) How Hpo Hc Hpn (nbr_sym Hnw)
                 Hpd Hdw).
      * apply filter_In. split.
        -- apply in_lattice_cells. split; [| assumption].
           apply (@nonwall_in_bounds (maze m) _ _ w (gen_wf Hgen) How).
        -- destruct (coord_eqb_spec w (start m)); [contradiction |].
           reflexivity.
Qed.

End TreeCount.

Lemma open_cells_count (m : Maze) (d : coord -> nat) :
  generated m -> generated_layout m d ->
  Z.of_nat (length (open_cells (maze m) (rows m) (cols m))) =
  2 * ((rows m - 1) / 2) * ((cols m - 1) / 2) - 1.
Proof.
  intros Hgen Hlay. unfold open_cells.
  rewrite (filter_length_split (nonwall (maze m)) latticeb).
  fold (connector_cells (maze m) (rows m) (cols m)).
  assert (Hlat : filter (fun x => nonwall (maze m) x && latticeb x)
                   (all_cells (rows m) (cols m)) =
                 lattice_cells (rows m) (cols m)).
  { apply filter_ext_in. intros p Hp. apply all_cells_in_bounds in Hp.
    destruct (latticeb p) eqn:Hl; [| apply andb_false_r].
    apply latticeb_spec in Hl. rewrite (gl_lattice Hlay Hl Hp).
    reflexivity. }
  rewrite Hlat. pose proof (connectors_count Hgen Hlay) as Hcount.
  destruct (gen_rows Hgen) as [HR HRo]. destruct (gen_cols Hgen) as [HC HCo].
  pose proof (@lattice_count (rows m) (cols m) HRo HCo ltac:(lia) ltac:(lia))
    as HL.
  fold (lattice_cells (rows m) (cols m)) in HL.
  generalize dependent ((rows m - 1) / 2). intros L.
  generalize dependent ((cols m - 1) / 2). intros M HL.
  unfold coord in *. lia.
Qed.

(** ** Wall density *)

Lemma generated_density (m : Maze) (d : coord -> nat) :
  generated m -> generated_layout m d ->
  calculate_maze_density m =
  Some (truediv
          (rows m * cols m -
           (2 * ((rows m - 1) / 2) * ((cols m - 1) / 2) - 1))
          (rows m * cols m)).
Proof.
  intros Hgen Hlay. unfold calculate_maze_density.
  destruct (gen_rows Hgen) as [HR _]. destruct (gen_cols Hgen) as [HC _].
  rewrite (@wall_count (maze m) (rows m) (cols m) (gen_wf Hgen))
    by lia.
  fold (open_cells (maze m) (rows m) (cols m)).
  rewrite (open_cells_count Hgen Hlay). unfold py_truediv.
  destruct (Z.eqb_spec (rows m * cols m) 0) as [H0 | _]; [nia |].
  reflexivity.
Qed.

(** X16: the wall density [calculate_maze_density] gives for a maze that
    [Maze(rows, cols)] has built depends on the stored dimensions alone:
    with R = 2L + 1 rows and C = 2M + 1 columns, all but 2LM - 1 of the R C
    cells are walls, whatever the random draws were. *)
Theorem generated_density_by_size (fuel : nat) (rows0 cols0 : Z) (r : rng)
    (m : Maze) :
  Maze_init fuel rows0 cols0 r = Return m ->
  let R := stored_dim rows0 in
  let C := stored_dim cols0 in
  calculate_maze_density m =
  Some (truediv (R * C - (2 * ((R - 1) / 2) * ((C - 1) / 2) - 1)) (R * C)).
Proof.
  intros Hm. pose proof (Maze_init_spec fuel rows0 cols0 r) as Hspec.
  rewrite Hm in Hspec. destruct Hspec as (_ & HR & HC).
  destruct (Maze_init_layout fuel rows0 cols0 r Hm) as (Hgen & d & Hlay).
  cbv zeta. rewrite <- HR, <- HC. apply (generated_density Hgen Hlay).
Qed.

Lemma generated_density_by_size_witness :
  calculate_maze_density maze_3_5 =
  Some (truediv
          (stored_dim 3 * stored_dim 5 -
           (2 * ((stored_dim 3 - 1) / 2) * ((stored_dim 5 - 1) / 2) - 1))
          (stored_dim 3 * stored_dim 5)).
Proof.
  apply (@generated_density_by_size 20 3 5 zero_rng maze_3_5).
  vm_compute. reflexivity.
Defined.

(** ** The counting loops *)

Lemma for_each_app {A S} (body : S -> A -> result S) (l l' : list A)
    (s : S) :
  for_each body (l ++ l') s =
  (s' <- for_each body l s ;; for_each body l' s')%res.
Proof.
  revert s. induction l as [| x l IH]; intros s; [reflexivity |].
  cbn [app for_each]. destruct (body s x) as [s' | e]; cbn [rbind].
  - apply IH.
  - reflexivity.
Qed.

Lemma for_each_map {A B S} (body : S -> B -> result S) (f : A -> B)
    (l : list A) (s : S) :
  for_each body (map f l) s = for_each (fun s x => body s (f x)) l s.
Proof.
  revert s. induction l as [| x l IH]; intros s; [reflexivity |].
  cbn [map for_each]. destruct (body s (f x)) as [s' | e]; cbn [rbind].
  - apply IH.
  - reflexivity.
Qed.

(** Two nested [for] loops run through the pairs, row after row. *)
Lemma for_each_nested {A B S} (body : A -> S -> B -> result S)
    (l1 : list A) (l2 : list B) (s : S) :
  for_each (fun s i => for_each (body i) l2 s) l1 s =
  for_each (fun s p => body (fst p) s (snd p)) (list_prod l1 l2) s.
Proof.
  revert s. induction l1 as [| i l1 IH]; intros s; [reflexivity |].
  cbn [for_each list_prod]. rewrite for_each_app, for_each_map.
  cbn [fst snd].
  replace (for_each (fun s0 x => body i s0 x) l2 s)
    with (for_each (body i) l2 s) by reflexivity.
  destruct (for_each (body i) l2 s) as [s' | e]; cbn [rbind].
  - apply IH.
  - reflexivity.
Qed.

(** A loop whose turns all succeed is a fold. *)
Lemma for_each_fold {A S} (body : S -> A -> result S) (step : S -> A -> S)
    (l : list A) :
  (forall x s, In x l -> body s x = Ok (step s x)) ->
  forall s, for_each body l s = Ok (fold_left step l s).
Proof.
  induction l as [| x l IH]; intros Hb s; [reflexivity |].
  cbn [for_each fold_left]. rewrite (Hb x s (or_introl eq_refl)).
  cbn [rbind]. apply IH. intros y s' Hy. apply Hb. right. exact Hy.
Qed.

Lemma around_count (m : Maze) (i j : Z) :
  maze_wf m ->
  forall (dirs : list (Z * Z)) (acc : Z),
    for_each (around_body m i j) dirs acc =
    Ok (acc + Z.of_nat
                (length (filter (fun d => path_at m (i + fst d, j + snd d))
                           dirs))).
Proof.
  intros Hwf dirs. induction dirs as [| [di dj] dirs IH]; intros acc.
  - cbn. f_equal. lia.
  - cbn [for_each filter around_body fst snd]. unfold path_at at 1.
    change ((0 <=? i + di) && (i + di <? rows m)
            && (0 <=? j + dj) && (j + dj <? cols m))
      with (in_boundsb (rows m) (cols m) (i + di, j + dj)).
    destruct (in_boundsb_spec (rows m) (cols m) (i + di, j + dj))
      as [Hin | Hout]; cbn [andb].
    + destruct (cell_at_in_bounds Hwf Hin) as [ch Hch].
      destruct Hin as [Hr Hc]; cbn [fst snd] in Hr, Hc.
      rewrite grid_get_cell_at by lia. rewrite Hch. cbn [rbind].
      destruct (path_cell ch); cbn [rbind length]; rewrite IH; f_equal; lia.
    + apply IH.
Qed.

Lemma degree_count (m : Maze) (i j : Z) :
  maze_wf m ->
  for_each (around_body m i j) around 0 = Ok (Z.of_nat (degree m (i, j))).
Proof.
  intros Hwf. rewrite (around_count i j Hwf). reflexivity.
Qed.

Lemma grid_get_path_at (m : Maze) (p : coord) :
  maze_wf m -> in_bounds (rows m) (cols m) p ->
  exists ch, grid_get (maze m) (fst p) (snd p) = Ok ch /\
             path_cell ch = path_at m p.
Proof.
  intros Hwf Hin. destruct (cell_at_in_bounds Hwf Hin) as [ch Hch].
  exists ch. unfold path_at. rewrite Hch.
  destruct (in_boundsb_spec (rows m) (cols m) p) as [_ | Hno];
    [| contradiction].
  destruct Hin as [Hr Hc]. rewrite grid_get_cell_at by lia.
  replace (fst p, snd p) with p by (destruct p; reflexivity).
  rewrite Hch. auto.
Qed.

Lemma fold_count {A} (f : A -> bool) (l : list A) (a : Z) :
  fold_left (fun acc x => if f x then acc + 1 else acc) l a =
  a + Z.of_nat (length (filter f l)).
Proof.
  revert a. induction l as [| x l IH]; intros a; cbn [fold_left filter].
  - cbn. lia.
  - rewrite IH. destruct (f x); cbn [length]; lia.
Qed.

Lemma fold_sum_count {A} (f : A -> bool) (w : A -> nat) (l : list A)
    (t o : Z) :
  fold_left (fun st x =>
               if f x then (fst st + Z.of_nat (w x), snd st + 1) else st)
    l (t, o) =
  (t + Z.of_nat (list_sum (map w (filter f l))),
   o + Z.of_nat (length (filter f l))).
Proof.
  revert t o. induction l as [| x l IH]; intros t o;
    cbn [fold_left filter].
  - cbn. f_equal; lia.
  - destruct (f x); cbn [fst snd map length]; rewrite IH;
      unfold list_sum; cbn [fold_right]; f_equal; lia.
Qed.

(** [count_dead_ends] on a grid of the stated size: the open cells with one
    open cell next to them. *)
Lemma count_dead_ends_spec (m : Maze) :
  maze_wf m ->
  count_dead_ends m =
  Ok (Z.of_nat
        (length (filter (fun p => path_at m p && (degree m p =? 1)%nat)
                   (all_cells (rows m) (cols m))))).
Proof.
  intros Hwf. unfold count_dead_ends, py_range.
  rewrite (for_each_nested (dead_ends_body m)).
  fold (all_cells (rows m) (cols m)).
  rewrite (@for_each_fold _ _ _
             (fun acc p =>
                if path_at m p && (degree m p =? 1)%nat then acc + 1
                else acc)).
  - rewrite fold_count. reflexivity.
  - intros p acc Hp. apply all_cells_in_bounds in Hp.
    destruct (grid_get_path_at Hwf Hp) as (ch & Hget & Hch).
    unfold dead_ends_body. rewrite Hget. cbn [rbind]. rewrite Hch.
    destruct (path_at m p); cbn [andb]; [| reflexivity].
    rewrite (degree_count (fst p) (snd p) Hwf). cbn [rbind].
    replace (fst p, snd p) with p by (destruct p; reflexivity).
    destruct (Nat.eqb_spec (degree m p) 1) as [E | E];
      destruct (Z.eqb_spec (Z.of_nat (degree m p)) 1); try reflexivity; lia.
Qed.

(** [compute_branching_factor] on a grid of the stated size. *)
Lemma compute_branching_factor_spec (m : Maze) :
  maze_wf m ->
  let cells := filter (path_at m) (all_cells (rows m) (cols m)) in
  compute_branching_factor m =
  Ok (if (length cells =? 0)%nat then PyInt 0
      else PyFloat (truediv (Z.of_nat (list_sum (map (degree m) cells)))
                      (Z.of_nat (length cells)))).
Proof.
  intros Hwf cells. unfold compute_branching_factor, py_range.
  rewrite (for_each_nested (branching_body m)).
  fold (all_cells (rows m) (cols m)).
  rewrite (@for_each_fold _ _ _
             (fun st p =>
                if path_at m p
                then (fst st + Z.of_nat (degree m p), snd st + 1)
                else st)).
  - rewrite (fold_sum_count (path_at m) (degree m)). fold cells.
    cbn [rbind]. rewrite !Z.add_0_l.
    destruct (Nat.eqb_spec (length cells) 0) as [E | E];
      destruct (Z.eqb_spec (Z.of_nat (length cells)) 0);
      try reflexivity; lia.
  - intros p [t o] Hp. apply all_cells_in_bounds in Hp.
    destruct (grid_get_path_at Hwf Hp) as (ch & Hget & Hch).
    unfold branching_body. rewrite Hget. cbn [rbind fst snd]. rewrite Hch.
    destruct (path_at m p); [| reflexivity].
    rewrite (degree_count (fst p) (snd p) Hwf). cbn [rbind].
    replace (fst p, snd p) with p by (destruct p; reflexivity).
    reflexivity.
Qed.

(** ** The features of a generated maze *)

Lemma path_at_nonwall (m : Maze) (p : coord) :
  generated m -> path_at m p = nonwall (maze m) p.
Proof.
  intros Hgen. unfold path_at, nonwall.
  destruct (cell_at (maze m) p) as [ch |] eqn:Hch; [| apply andb_false_r].
  pose proof (cell_at_some_in_bounds p (gen_wf Hgen) Hch) as Hin.
  destruct (in_boundsb_spec (rows m) (cols m) p) as [_ | Hno];
    [| contradiction].
  cbn [andb]. destruct (coord_eq_dec p (start m)) as [-> | Hs].
  - rewrite (gen_start_cell Hgen) in Hch. inversion Hch. reflexivity.
  - destruct (coord_eq_dec p (goal m)) as [-> | Hg].
    + rewrite (gen_goal_cell Hgen Hs) in Hch. inversion Hch. reflexivity.
    + destruct (gen_cells Hgen Hch Hs Hg) as [-> | ->]; reflexivity.
Qed.

Lemma degree_neighbours (m : Maze) (p : coord) :
  generated m -> degree m p = length (neighbours m p).
Proof.
  intros Hgen. unfold degree, neighbours. rewrite length_map.
  assert (Hal : forall mv,
            allowed m p mv = nonwall (maze m) (move_target p mv)).
  { intros mv. unfold allowed.
    destruct (nonwall (maze m) (move_target p mv)) eqn:Hn;
      [| apply andb_false_r].
    pose proof (nonwall_in_bounds _ (gen_wf Hgen) Hn) as Hin.
    destruct (in_boundsb_spec (rows m) (cols m) (move_target p mv));
      [reflexivity | contradiction]. }
  rewrite (filter_ext _ _ Hal).
  rewrite (filter_ext _ (fun d => nonwall (maze m)
                                  (fst p + fst d, snd p + snd d))
             (fun d => path_at_nonwall _ Hgen)).
  unfold around, moves, move_target. cbn [filter fst snd].
  destruct (nonwall (maze m) (fst p + -1, snd p + 0)),
    (nonwall (maze m) (fst p + 1, snd p + 0)),
    (nonwall (maze m) (fst p + 0, snd p + -1)),
    (nonwall (maze m) (fst p + 0, snd p + 1)); reflexivity.
Qed.

Lemma dead_ends_generated (m : Maze) (d : coord -> nat) :
  generated m -> generated_layout m d ->
  exists n,
    count_dead_ends m = Ok n /\
    n = Z.of_nat
          (length
             (filter (fun p => nonwall (maze m) p
                               && (length (neighbours m p) =? 1)%nat)
                (all_cells (rows m) (cols m)))) /\
    (5 <= rows m \/ 5 <= cols m -> 1 <= n).
Proof.
  intros Hgen Hlay. eexists. split; [| split; [reflexivity |]].
  - rewrite (count_dead_ends_spec (gen_wf Hgen)). do 2 f_equal.
    f_equal. apply filter_ext. intros p.
    rewrite (path_at_nonwall p Hgen), (degree_neighbours p Hgen).
    reflexivity.
  - intros Hbig. pose proof (gen_far Hgen Hbig) as Hne.
    destruct (goal_has_one_neighbour Hgen Hlay Hne) as (a & u & Hnb).
    assert (Hin : In (goal m)
              (filter (fun p => nonwall (maze m) p
                                && (length (neighbours m p) =? 1)%nat)
                 (all_cells (rows m) (cols m)))).
    { apply filter_In. split.
      - apply in_all_cells.
        apply (nonwall_in_bounds _ (gen_wf Hgen) (gen_goal Hgen)).
      - rewrite (gen_goal Hgen), Hnb. reflexivity. }
    destruct (filter _ _) as [| x l]; [destruct Hin |]. cbn [length]. lia.
Qed.

(** X17: on a maze that [Maze(rows, cols)] has built, [count_dead_ends]
    returns the number of open cells at which [get_next] offers exactly one
    move; there is at least one, the goal, when a stored dimension is 5 or
    more. *)
Theorem generated_dead_ends (fuel : nat) (rows0 cols0 : Z) (r : rng)
    (m : Maze) :
  Maze_init fuel rows0 cols0 r = Return m ->
  exists n,
    count_dead_ends m = Ok n /\
    n = Z.of_nat
          (length
             (filter (fun p => nonwall (maze m) p
                               && (length (neighbours m p) =? 1)%nat)
                (all_cells (rows m) (cols m)))) /\
    (5 <= rows m \/ 5 <= cols m -> 1 <= n).
Proof.
  intros Hm.
  destruct (Maze_init_layout fuel rows0 cols0 r Hm) as (Hgen & d & Hlay).
  apply (dead_ends_generated Hgen Hlay).
Qed.

Lemma generated_dead_ends_witness :
  exists n,
    count_dead_ends maze_3_5 = Ok n /\
    n = Z.of_nat
          (length
             (filter (fun p => nonwall (maze maze_3_5) p
                               && (length (neighbours maze_3_5 p) =? 1)%nat)
                (all_cells (rows maze_3_5) (cols maze_3_5)))) /\
    (5 <= rows maze_3_5 \/ 5 <= cols maze_3_5 -> 1 <= n).
Proof.
  apply (@generated_dead_ends 20 3 5 zero_rng maze_3_5).
  vm_compute. reflexivity.
Defined.

(** ** The branching factor *)

Lemma nbrb_spec (p q : coord) : nbrb p q = true <-> nbr p q.
Proof. unfold nbrb, nbr. apply Z.eqb_eq. Qed.

Lemma nbrb_sym (p q : coord) : nbrb p q = nbrb q p.
Proof. unfold nbrb. f_equal. lia. Qed.

Lemma list_sum_map_add {A} (f h : A -> nat) (l : list A) :
  list_sum (map (fun x => f x + h x)%nat l) =
  (list_sum (map f l) + list_sum (map h l))%nat.
Proof.
  induction l as [| x l IH]; [reflexivity |].
  cbn [map]. unfold list_sum in *. cbn [fold_right]. lia.
Qed.

Lemma list_sum_indicator {A} (f : A -> bool) (l : list A) :
  list_sum (map (fun x => if f x then 1 else 0)%nat l) = length (filter f l).
Proof.
  induction l as [| x l IH]; [reflexivity |].
  cbn [map filter]. unfold list_sum in *. cbn [fold_right].
  destruct (f x); cbn [length]; lia.
Qed.

Lemma list_sum_const {A} (w : A -> nat) (k : nat) (l : list A) :
  (forall x, In x l -> w x = k) ->
  list_sum (map w l) = (k * length l)%nat.
Proof.
  induction l as [| x l IH]; intros Hw; [cbn; lia |].
  cbn [map length]. unfold list_sum in *. cbn [fold_right].
  rewrite (Hw x (or_introl eq_refl)), IH; [lia |].
  intros y Hy. apply Hw. right. exact Hy.
Qed.

Lemma list_sum_split {A} (w : A -> nat) (p q : A -> bool) (l : list A) :
  list_sum (map w (filter p l)) =
  (list_sum (map w (filter (fun x => p x && q x) l)) +
   list_sum (map w (filter (fun x => p x && negb (q x)) l)))%nat.
Proof.
  induction l as [| x l IH]; [reflexivity |]. cbn [filter].
  destruct (p x), (q x); cbn [andb negb map]; unfold list_sum in *;
    cbn [fold_right]; lia.
Qed.

(** Counting the pairs of a relation by rows or by columns. *)
Lemma count_swap {A B} (r : A -> B -> bool) (la : list A) (lb : list B) :
  list_sum (map (fun a => length (filter (r a) lb)) la) =
  list_sum (map (fun b => length (filter (fun a => r a b) la)) lb).
Proof.
  induction la as [| a la IH].
  - cbn [map filter length]. symmetry.
    rewrite (@list_sum_const _ _ 0%nat lb); reflexivity.
  - cbn [map]. unfold list_sum at 1. cbn [fold_right]. fold (list_sum
      (map (fun a0 => length (filter (r a0) lb)) la)). rewrite IH.
    rewrite <- (list_sum_indicator (r a) lb), <- list_sum_map_add.
    f_equal. apply map_ext. intros b. cbn [filter].
    destruct (r a b); reflexivity.
Qed.

Lemma filter_filter_ext {A} (f h h' : A -> bool) (l : list A) :
  (forall x, In x l -> f x = true -> h x = h' x) ->
  filter f (filter h l) = filter f (filter h' l).
Proof.
  induction l as [| x l IH]; intros Hh; [reflexivity |].
  assert (IH' : filter f (filter h l) = filter f (filter h' l)).
  { apply IH. intros y Hy. apply Hh. right. exact Hy. }
  cbn [filter]. destruct (f x) eqn:Hf.
  - rewrite <- (Hh x (or_introl eq_refl) Hf).
    destruct (h x); cbn [filter]; rewrite ?Hf, IH'; reflexivity.
  - destruct (h x), (h' x); cbn [filter]; rewrite ?Hf; exact IH'.
Qed.

Lemma NoDup_around : NoDup around.
Proof.
  unfold around. repeat constructor; cbn [In]; intuition congruence.
Qed.

Lemma length_two {A} (l : list A) (a b : A) :
  NoDup l -> a <> b -> (forall x, In x l <-> x = a \/ x = b) ->
  length l = 2%nat.
Proof.
  intros Hnd Hab Hin.
  assert (Hp : Permutation l [a; b]).
  { apply NoDup_Permutation; [assumption | |].
    - repeat constructor; cbn [In]; intuition congruence.
    - intros x. rewrite Hin. cbn [In]. intuition congruence. }
  apply Permutation_length in Hp. exact Hp.
Qed.

Section Branching.

Variable m : Maze.
Variable d : coord -> nat.
Hypothesis Hgen : generated m.
Hypothesis Hlay : generated_layout m d.

Lemma in_open_cells (p : coord) :
  In p (open_cells (maze m) (rows m) (cols m)) <->
  nonwall (maze m) p = true.
Proof.
  unfold open_cells. rewrite filter_In. split; [intros [_ H]; exact H |].
  intros Hp. split; [| assumption]. apply in_all_cells.
  apply (nonwall_in_bounds _ (gen_wf Hgen) Hp).
Qed.

(** The degree of a cell counts the open cells one move from it. *)
Lemma degree_as_filter (p : coord) :
  degree m p =
  length (filter (nbrb p) (open_cells (maze m) (rows m) (cols m))).
Proof.
  unfold degree.
  rewrite (filter_ext _ (fun dir => nonwall (maze m)
                                      (fst p + fst dir, snd p + snd dir))
             (fun dir => path_at_nonwall _ Hgen)).
  rewrite <- (filter_map_length
                (fun dir => (fst p + fst dir, snd p + snd dir))
                (nonwall (maze m)) around).
  apply Permutation_length, NoDup_Permutation.
  - apply NoDup_filter, Finite.Injective_map_NoDup; [| apply NoDup_around].
    intros [a1 a2] [b1 b2] Hab. cbn [fst snd] in Hab. inversion Hab.
    f_equal; lia.
  - apply NoDup_filter, NoDup_filter, NoDup_all_cells.
  - intros q. rewrite !filter_In, in_open_cells, nbrb_spec, in_map_iff.
    split.
    + intros [(dir & <- & Hdir) Hq]. split; [assumption |].
      apply around_nbr. assumption.
    + intros [Hq Hn]. split; [| assumption].
      destruct (nbr_dirs Hn) as (dir & Hdir & ->). exists dir. auto.
Qed.

Lemma connector_degree (c : coord) :
  In c (connector_cells (maze m) (rows m) (cols m)) ->
  degree m c = 2%nat /\
  length (filter (fun q => nbrb q c) (lattice_cells (rows m) (cols m))) =
  2%nat.
Proof.
  intros Hc. apply (in_connector_cells Hgen) in Hc. destruct Hc as [Hc Hcl].
  destruct (@connector_neighbours m d Hlay c Hc Hcl)
    as (a & b & Hab & Hla & Hlb & Hoa & Hob & Hna & Hnb & Hall).
  split.
  - rewrite degree_as_filter. apply (@length_two _ _ a b).
    + apply NoDup_filter, NoDup_filter, NoDup_all_cells.
    + assumption.
    + intros x. rewrite filter_In, in_open_cells, nbrb_spec. split.
      * intros [Hx Hn]. apply Hall; assumption.
      * intros [-> | ->]; auto.
  - apply (@length_two _ _ a b).
    + apply NoDup_filter, NoDup_filter, NoDup_all_cells.
    + assumption.
    + intros x. rewrite filter_In, (in_lattice_cells m), nbrb_spec. split.
      * intros [[Hb Hl] Hn]. apply Hall; [| apply nbr_sym; assumption].
        apply (gl_lattice Hlay); [apply latticeb_spec |]; assumption.
      * intros [-> | ->].
        -- split; [split |]; [| assumption | apply nbr_sym; assumption].
           apply (nonwall_in_bounds _ (gen_wf Hgen) Hoa).
        -- split; [split |]; [| assumption | apply nbr_sym; assumption].
           apply (nonwall_in_bounds _ (gen_wf Hgen) Hob).
Qed.

Lemma open_lattice_cells :
  filter (fun x => nonwall (maze m) x && latticeb x)
    (all_cells (rows m) (cols m)) =
  lattice_cells (rows m) (cols m).
Proof.
  apply filter_ext_in. intros p Hp. apply all_cells_in_bounds in Hp.
  destruct (latticeb p) eqn:Hl; [| apply andb_false_r].
  apply latticeb_spec in Hl. rewrite (gl_lattice Hlay Hl Hp). reflexivity.
Qed.

(** Every move in the maze joins a lattice cell and a connector, and a
    connector has two of them: the degrees add up to four for each
    connector. *)
Lemma degree_sum :
  list_sum (map (degree m) (open_cells (maze m) (rows m) (cols m))) =
  (4 * length (connector_cells (maze m) (rows m) (cols m)))%nat.
Proof.
  set (Con := connector_cells (maze m) (rows m) (cols m)).
  set (Lat := lattice_cells (rows m) (cols m)).
  unfold open_cells.
  rewrite (list_sum_split (degree m) (nonwall (maze m)) latticeb).
  rewrite open_lattice_cells.
  change (filter (fun x => nonwall (maze m) x && negb (latticeb x))
            (all_cells (rows m) (cols m))) with Con.
  fold Lat.
  rewrite (@list_sum_const _ (degree m) 2%nat Con)
    by (intros c Hc; apply (@connector_degree c Hc)).
  assert (HLat : list_sum (map (degree m) Lat) = (2 * length Con)%nat).
  { rewrite (map_ext_in (degree m)
               (fun p => length (filter (nbrb p) Con))).
    - rewrite (count_swap nbrb Lat Con).
      apply list_sum_const. intros c Hc. apply (@connector_degree c Hc).
    - intros p Hp. rewrite degree_as_filter. f_equal.
      apply (in_lattice_cells m) in Hp. destruct Hp as [_ Hl].
      unfold open_cells, Con, connector_cells. apply filter_filter_ext.
      intros x _ Hn. apply nbrb_spec in Hn.
      rewrite (latticeb_nbr Hl Hn), andb_true_r. reflexivity. }
  rewrite HLat. lia.
Qed.

End Branching.

Lemma branching_generated (m : Maze) (d : coord -> nat) :
  generated m -> generated_layout m d ->
  let L := (rows m - 1) / 2 in
  let M := (cols m - 1) / 2 in
  compute_branching_factor m =
  Ok (PyFloat (truediv (4 * (L * M - 1)) (2 * L * M - 1))).
Proof.
  intros Hgen Hlay L M.
  rewrite (compute_branching_factor_spec (gen_wf Hgen)). cbv zeta.
  rewrite (filter_ext _ _ (fun p => path_at_nonwall p Hgen)).
  fold (open_cells (maze m) (rows m) (cols m)).
  rewrite (degree_sum Hgen Hlay).
  pose proof (open_cells_count Hgen Hlay) as Ho. fold L in Ho. fold M in Ho.
  pose proof (connectors_count Hgen Hlay) as Hc.
  destruct (gen_rows Hgen) as [HR HRo]. destruct (gen_cols Hgen) as [HC HCo].
  pose proof (@lattice_count (rows m) (cols m) HRo HCo ltac:(lia) ltac:(lia))
    as HL.
  fold (lattice_cells (rows m) (cols m)) in HL. fold L in HL. fold M in HL.
  assert (HL1 : 1 <= L) by (unfold L; mlia).
  assert (HM1 : 1 <= M) by (unfold M; mlia).
  clearbody L M.
  destruct (Nat.eqb_spec
              (length (open_cells (maze m) (rows m) (cols m))) 0)
    as [E | _]; [unfold coord in *; nia |].
  do 3 f_equal; unfold coord in *; nia.
Qed.

(** X18: the branching factor [compute_branching_factor] gives for a maze
    that [Maze(rows, cols)] has built depends on the stored dimensions
    alone: with R = 2L + 1 rows and C = 2M + 1 columns there are 2LM - 1
    open cells, and the open cells next to them add up to 4(LM - 1),
    whatever the random draws were. *)
Theorem generated_branching_by_size (fuel : nat) (rows0 cols0 : Z)
    (r : rng) (m : Maze) :
  Maze_init fuel rows0 cols0 r = Return m ->
  let L := (stored_dim rows0 - 1) / 2 in
  let M := (stored_dim cols0 - 1) / 2 in
  compute_branching_factor m =
  Ok (PyFloat (truediv (4 * (L * M - 1)) (2 * L * M - 1))).
Proof.
  intros Hm. pose proof (Maze_init_spec fuel rows0 cols0 r) as Hspec.
  rewrite Hm in Hspec. destruct Hspec as (_ & HR & HC).
  destruct (Maze_init_layout fuel rows0 cols0 r Hm) as (Hgen & d & Hlay).
  cbv zeta. rewrite <- HR, <- HC. apply (branching_generated Hgen Hlay).
Qed.

Lemma generated_branching_by_size_witness :
  compute_branching_factor maze_3_5 =
  Ok (PyFloat
        (truediv
           (4 * ((stored_dim 3 - 1) / 2 * ((stored_dim 5 - 1) / 2) - 1))
           (2 * ((stored_dim 3 - 1) / 2) * ((stored_dim 5 - 1) / 2) - 1))).
Proof.
  apply (@generated_branching_by_size 20 3 5 zero_rng maze_3_5).
  vm_compute. reflexivity.
Defined.

(** * The label of a maze *)

(** ** Scores of small counts are exact *)

Lemma in_py_range (b z : Z) : In z (py_range b) <-> 0 <= z < b.
Proof.
  unfold py_range. rewrite in_map_iff. split.
  - intros (k & <- & Hk). apply in_seq in Hk. lia.
  - intros Hz. exists (Z.to_nat z). split; [lia | apply in_seq; lia].
Qed.

(** By evaluation, for all the counts below 256. *)
Lemma scores_exact_256 :
  forallb (fun e =>
    forallb (fun p =>
      PrimFloat.Leibniz.eqb (weighted_score e p)
        (PrimFloat.mul one_half (float_of_Z (p + e))))
      (py_range 256))
    (py_range 256) = true.
Proof. vm_compute. reflexivity. Qed.

Lemma halves_ordered_512 :
  forallb (fun s =>
    forallb (fun s' =>
      Bool.eqb (PrimFloat.ltb (PrimFloat.mul one_half (float_of_Z s))
                  (PrimFloat.mul one_half (float_of_Z s')))
               (s <? s'))
      (py_range 512))
    (py_range 512) = true.
Proof. vm_compute. reflexivity. Qed.

Lemma weighted_score_exact (e p : Z) :
  0 <= e < 256 -> 0 <= p < 256 ->
  weighted_score e p = PrimFloat.mul one_half (float_of_Z (p + e)).
Proof.
  intros He Hp. pose proof scores_exact_256 as H.
  rewrite forallb_forall in H.
  specialize (H e (proj2 (in_py_range 256 e) He)). cbv beta in H.
  rewrite forallb_forall in H.
  specialize (H p (proj2 (in_py_range 256 p) Hp)). cbv beta in H.
  apply FloatAxioms.Leibniz.eqb_spec. exact H.
Qed.

Lemma weighted_score_lt (e p e' p' : Z) :
  0 <= e < 256 -> 0 <= p < 256 -> 0 <= e' < 256 -> 0 <= p' < 256 ->
  PrimFloat.ltb (weighted_score e p) (weighted_score e' p') =
  (e + p <? e' + p').
Proof.
  intros He Hp He' Hp'. rewrite !weighted_score_exact by assumption.
  pose proof halves_ordered_512 as H.
  rewrite forallb_forall in H.
  specialize (H (p + e) (proj2 (in_py_range 512 (p + e)) ltac:(lia))).
  cbv beta in H. rewrite forallb_forall in H.
  specialize (H (p' + e') (proj2 (in_py_range 512 (p' + e')) ltac:(lia))).
  cbv beta in H. apply Bool.eqb_prop in H. rewrite H. f_equal; lia.
Qed.

(** ** The choice *)

Lemma min_step_scored (x y : string * (Z * Z)) :
  small_counts [x; y] ->
  min_step (scored x) (scored y) = scored (sum_step x y).
Proof.
  intros Hs. inversion Hs as [| ? ? Hx Hy']; subst.
  inversion Hy' as [| ? ? Hy _]; subst.
  destruct x as [kx [ex px]], y as [ky [ey py]]. cbn [fst snd] in Hx, Hy.
  unfold min_step, sum_step, sum_key, scored. cbn [fst snd].
  rewrite (@weighted_score_lt ey py ex px) by lia.
  destruct (ey + py <? ex + px); reflexivity.
Qed.

Lemma fold_min_scored (rest : list (string * (Z * Z))) :
  forall x,
    small_counts (x :: rest) ->
    fold_left min_step (map scored rest) (scored x) =
    scored (fold_left sum_step rest x).
Proof.
  induction rest as [| y rest IH]; intros x Hs; [reflexivity |].
  inversion Hs as [| ? ? Hx Hr]; subst.
  inversion Hr as [| ? ? Hy Hrest]; subst.
  cbn [map fold_left].
  rewrite (@min_step_scored x y)
    by (apply Forall_cons; [assumption |];
        apply Forall_cons; [assumption | apply Forall_nil]).
  apply IH. constructor; [| assumption].
  unfold sum_step. destruct (sum_key y <? sum_key x); assumption.
Qed.

Lemma fold_sum_step_spec (rest : list (string * (Z * Z))) :
  forall x,
    exists pre post,
      x :: rest = pre ++ fold_left sum_step rest x :: post /\
      (forall y, In y pre ->
                 sum_key (fold_left sum_step rest x) < sum_key y) /\
      (forall y, In y post ->
                 sum_key (fold_left sum_step rest x) <= sum_key y).
Proof.
  induction rest as [| z rest IH] using rev_ind; intros x.
  - exists [], []. cbn. split; [reflexivity |]. split; intros y [].
  - destruct (IH x) as (pre & post & Heq & Hpre & Hpost).
    rewrite fold_left_app. cbn [fold_left].
    set (r := fold_left sum_step rest x) in *. unfold sum_step.
    destruct (Z.ltb_spec (sum_key z) (sum_key r)) as [Hlt | Hge].
    + exists (pre ++ r :: post), []. split; [| split].
      * rewrite app_comm_cons, Heq. reflexivity.
      * intros y Hy. apply in_app_or in Hy.
        destruct Hy as [Hy | [<- | Hy]].
        -- specialize (Hpre y Hy). lia.
        -- lia.
        -- specialize (Hpost y Hy). lia.
      * intros y [].
    + exists pre, (post ++ [z]). split; [| split].
      * rewrite app_comm_cons, Heq, <- app_assoc. reflexivity.
      * assumption.
      * intros y Hy. apply in_app_or in Hy.
        destruct Hy as [Hy | [<- | []]]; [apply Hpost; assumption | lia].
Qed.

Lemma scored_fst (it : string * (Z * Z)) : fst (scored it) = fst it.
Proof. destruct it as [k [e p]]. reflexivity. Qed.

Lemma choose_best_spec (results : list (string * (Z * Z))) :
  small_counts results -> results <> [] ->
  exists pre algo explored_len path_len post,
    results = pre ++ (algo, (explored_len, path_len)) :: post /\
    choose_best_algorithm results = Ok algo /\
    (forall it, In it pre -> explored_len + path_len < sum_key it) /\
    (forall it, In it post -> explored_len + path_len <= sum_key it).
Proof.
  intros Hs Hne. destruct results as [| x rest]; [contradiction |].
  destruct (fold_sum_step_spec rest x) as (pre & post & Heq & Hpre & Hpost).
  set (r := fold_left sum_step rest x) in *.
  exists pre, (fst r), (fst (snd r)), (snd (snd r)), post.
  replace (fst r, (fst (snd r), snd (snd r))) with r
    by (destruct r as [k [e p]]; reflexivity).
  split; [assumption |]. split; [| split; assumption].
  unfold choose_best_algorithm.
  change (map _ (x :: rest)) with (scored x :: map scored rest).
  unfold min_by_value. rewrite (fold_min_scored Hs), scored_fst.
  reflexivity.
Qed.

(** X19: [choose_best_algorithm] raises [ValueError] on an empty dict; on a
    dict whose counts are all at least 0 and below 256 it returns the first
    key, in insertion order, whose two counts have the least sum: with both
    weights at 0.5 nothing else of an entry matters. *)
Theorem choose_best_is_first_least_sum (results : list (string * (Z * Z))) :
  small_counts results ->
  (results = [] -> choose_best_algorithm results = Err ValueError) /\
  (results <> [] ->
   exists pre algo explored_len path_len post,
     results = pre ++ (algo, (explored_len, path_len)) :: post /\
     choose_best_algorithm results = Ok algo /\
     (forall it, In it pre -> explored_len + path_len < sum_key it) /\
     (forall it, In it post -> explored_len + path_len <= sum_key it)).
Proof.
  intros Hs. split.
  - intros ->. reflexivity.
  - apply choose_best_spec. assumption.
Qed.

Lemma choose_best_is_first_least_sum_witness :
  (([("BFS", (3, 5)); ("AFS", (2, 4)); ("DFS", (1, 5))]%string
    : list (string * (Z * Z))) = [] ->
   choose_best_algorithm
     [("BFS", (3, 5)); ("AFS", (2, 4)); ("DFS", (1, 5))]%string =
   Err ValueError) /\
  (([("BFS", (3, 5)); ("AFS", (2, 4)); ("DFS", (1, 5))]%string
    : list (string * (Z * Z))) <> [] ->
   exists pre algo explored_len path_len post,
     [("BFS", (3, 5)); ("AFS", (2, 4)); ("DFS", (1, 5))]%string =
     pre ++ (algo, (explored_len, path_len)) :: post /\
     choose_best_algorithm
       [("BFS", (3, 5)); ("AFS", (2, 4)); ("DFS", (1, 5))]%string =
     Ok algo /\
     (forall it, In it pre -> explored_len + path_len < sum_key it) /\
     (forall it, In it post -> explored_len + path_len <= sum_key it)).
Proof.
  apply (@choose_best_is_first_least_sum
           [("BFS", (3, 5)); ("AFS", (2, 4)); ("DFS", (1, 5))]%string).
  unfold small_counts.
  apply Forall_cons; [cbn; lia |].
  apply Forall_cons; [cbn; lia |].
  apply Forall_cons; [cbn; lia | apply Forall_nil].
Defined.

(** ** The label of a generated maze *)

(** The cells on the way up from an open cell: one for each depth. *)
Lemma depth_chain (m : Maze) (d : coord -> nat) :
  generated m -> generated_layout m d ->
  forall n q,
    nonwall (maze m) q = true -> d q = n ->
    exists l,
      length l = S n /\ NoDup (map d l) /\
      forall x, In x l -> nonwall (maze m) x = true /\ (d x <= n)%nat.
Proof.
  intros Hgen Hlay. induction n as [| n IH]; intros q Hq Hd.
  - exists [q]. split; [reflexivity |]. split.
    + cbn. constructor; [intros [] | constructor].
    + intros x [<- | []]. split; [assumption | lia].
  - assert (Hne : q <> start m).
    { intros ->. rewrite (tl_start (gl_tree Hlay)) in Hd. discriminate. }
    destruct (parent_exists Hgen Hlay Hq Hne) as (u & Hu & _ & Hdu).
    destruct (IH u Hu ltac:(lia)) as (l & Hlen & Hnd & Hl).
    exists (q :: l). split; [cbn [length]; lia |]. split.
    + cbn [map]. constructor; [| assumption].
      intros Hin. apply in_map_iff in Hin. destruct Hin as (x & Hx & Hxl).
      destruct (Hl x Hxl) as [_ Hle]. lia.
    + intros x [<- | Hx]; [split; [assumption | lia] |].
      destruct (Hl x Hx) as [Ho Hle]. split; [assumption | lia].
Qed.

Lemma depth_bound (m : Maze) (d : coord -> nat) (q : coord) :
  generated m -> generated_layout m d -> nonwall (maze m) q = true ->
  (S (d q) <= Z.to_nat (rows m) * Z.to_nat (cols m))%nat.
Proof.
  intros Hgen Hlay Hq.
  destruct (@depth_chain m d Hgen Hlay (d q) q Hq eq_refl)
    as (l & Hlen & Hnd & Hl).
  rewrite <- Hlen, <- length_all_cells.
  apply NoDup_incl_length; [apply (NoDup_map_inv d); assumption |].
  intros x Hx. apply in_all_cells.
  apply (nonwall_in_bounds _ (gen_wf Hgen) (proj1 (Hl x Hx))).
Qed.

Lemma explored_length_bound
    (search : nat -> coord -> M (path * list coord)) (m : Maze)
    (s0 : coord) (fuel : nat) (p : path) (e : list coord) :
  maze_wf m -> In search search_functions ->
  fst (search fuel s0 m) = Return (p, e) ->
  (length e <= Z.to_nat (rows m) * Z.to_nat (cols m))%nat.
Proof.
  intros Hwf Hin Hret.
  destruct (search_functions_return s0 fuel Hwf Hin Hret)
    as (_ & (Hnd & Hs0 & _ & Hreach & _) & _).
  rewrite <- length_all_cells. apply NoDup_incl_length; [assumption |].
  intros x Hx. apply in_all_cells.
  destruct (reachable_in_bounds (Hreach x Hx)) as [-> | Hb];
    [contradiction | assumption].
Qed.

Lemma search_functions_maze
    (search : nat -> coord -> M (path * list coord)) (m : Maze)
    (s0 : coord) (fuel : nat) :
  In search search_functions -> snd (search fuel s0 m) = m.
Proof.
  unfold search_functions. cbn [In].
  intros [<- | [<- | [<- | [<- | []]]]].
  - rewrite breadth_first_search_skeleton. reflexivity.
  - rewrite depth_first_search_skeleton. reflexivity.
  - rewrite greedy_first_search_skeleton. reflexivity.
  - rewrite astar_first_search_skeleton. reflexivity.
Qed.

Lemma search_functions_run
    (search : nat -> coord -> M (path * list coord)) (m : Maze)
    (s0 : coord) (fuel : nat) (r : path * list coord) :
  In search search_functions -> fst (search fuel s0 m) = Return r ->
  search fuel s0 m = (Return r, m).
Proof.
  intros Hin Hret.
  pose proof (@search_functions_maze search m s0 fuel Hin) as Hm.
  destruct (search fuel s0 m) as [o m']. cbn [fst snd] in Hret, Hm.
  subst. reflexivity.
Qed.

Lemma maze_label_generated (m : Maze) (d : coord -> nat) (fuel : nat) :
  generated m -> generated_layout m d ->
  rows m * cols m < 256 -> (search_fuel m <= fuel)%nat ->
  exists p e_bfs e_afs e_dfs e_gfs pre algo e post,
    fst (breadth_first_search fuel (start m) m) = Return (p, e_bfs) /\
    fst (astar_first_search fuel (start m) m) = Return (p, e_afs) /\
    fst (depth_first_search fuel (start m) m) = Return (p, e_dfs) /\
    fst (greedy_first_search fuel (start m) m) = Return (p, e_gfs) /\
    [("BFS"%string, e_bfs); ("AFS"%string, e_afs); ("DFS"%string, e_dfs);
     ("GFS"%string, e_gfs)] = pre ++ (algo, e) :: post /\
    maze_label fuel m = (Return algo, m) /\
    (forall it, In it pre -> (length e < length (snd it))%nat) /\
    (forall it, In it post -> (length e <= length (snd it))%nat).
Proof.
  intros Hgen Hlay Hsize Hfuel.
  destruct (generated_searches_agree Hgen Hfuel) as (p & k & Hk & Hp & Hall).
  assert (Hb : In breadth_first_search search_functions)
    by (cbn; auto).
  assert (Hd : In depth_first_search search_functions)
    by (cbn; auto).
  assert (Hg : In greedy_first_search search_functions)
    by (cbn; auto).
  assert (Ha : In astar_first_search search_functions)
    by (cbn; auto 6).
  destruct (Hall _ Hb) as [e_bfs Rb]. destruct (Hall _ Hd) as [e_dfs Rd].
  destruct (Hall _ Hg) as [e_gfs Rg]. destruct (Hall _ Ha) as [e_afs Ra].
  destruct (gen_rows Hgen) as [HR _]. destruct (gen_cols Hgen) as [HC _].
  assert (Hcells : (Z.to_nat (rows m) * Z.to_nat (cols m) < 256)%nat)
    by nia.
  pose proof (@explored_length_bound breadth_first_search m (start m) fuel p
                e_bfs
                (gen_wf Hgen) Hb Rb) as Bb.
  pose proof (@explored_length_bound depth_first_search m (start m) fuel p
                e_dfs
                (gen_wf Hgen) Hd Rd) as Bd.
  pose proof (@explored_length_bound greedy_first_search m (start m) fuel p
                e_gfs
                (gen_wf Hgen) Hg Rg) as Bg.
  pose proof (@explored_length_bound astar_first_search m (start m) fuel p
                e_afs
                (gen_wf Hgen) Ha Ra) as Ba.
  assert (Bp : (length p + 1 < 256)%nat).
  { pose proof (depth_is_shortest (goal m) Hgen Hlay (gen_goal Hgen)) as Hs.
    pose proof (shortest_len_unique Hk Hs) as ->.
    pose proof (@depth_bound m d (goal m) Hgen Hlay (gen_goal Hgen)).
    lia. }
  set (entry := fun it : string * list coord =>
                  (fst it, (len p + 1, len (snd it)))).
  set (L := [("BFS"%string, e_bfs); ("AFS"%string, e_afs);
             ("DFS"%string, e_dfs); ("GFS"%string, e_gfs)]).
  assert (Hsmall : small_counts (map entry L)).
  { unfold small_counts, L, entry, len. cbn [map fst snd].
    repeat (apply Forall_cons; [cbn [fst snd]; lia |]). apply Forall_nil. }
  destruct (@choose_best_spec (map entry L) Hsmall ltac:(discriminate))
    as (pre' & algo & el & pl & post' & Heq & Hch & Hpre & Hpost).
  apply map_eq_app in Heq.
  destruct Heq as (pre & tl & HL & Hpre' & Htl).
  apply map_eq_cons in Htl.
  destruct Htl as ([algo' e] & post & -> & Hent & Hpost').
  unfold entry in Hent. cbn [fst snd] in Hent. inversion Hent; subst.
  exists p, e_bfs, e_afs, e_dfs, e_gfs, pre, algo, e, post.
  repeat (split; [assumption |]). split; [| split].
  - unfold maze_label, bind.
    rewrite (@search_functions_run breadth_first_search m (start m) fuel
               (p, e_bfs)
               Hb Rb).
    rewrite (@search_functions_run depth_first_search m (start m) fuel
               (p, e_dfs)
               Hd Rd).
    rewrite (@search_functions_run greedy_first_search m (start m) fuel
               (p, e_gfs)
               Hg Rg).
    rewrite (@search_functions_run astar_first_search m (start m) fuel
               (p, e_afs)
               Ha Ra).
    cbv beta iota. change (choose_best_algorithm _)
      with (choose_best_algorithm (map entry L)).
    rewrite Hch. reflexivity.
  - intros it Hit.
    specialize (Hpre (entry it) (in_map entry _ _ Hit)).
    unfold sum_key, entry, len in Hpre. cbn [fst snd] in Hpre. lia.
  - intros it Hit.
    specialize (Hpost (entry it) (in_map entry _ _ Hit)).
    unfold sum_key, entry, len in Hpost. cbn [fst snd] in Hpost. lia.
Qed.

(** X20: the label the loop of [generate_maze_dataset] computes for a maze
    that [Maze(rows, cols)] has built, of fewer than 256 cells: the four
    searches return the same path, so the label is the first of BFS, AFS,
    DFS, GFS, in that order, whose list of explored cells is the shortest;
    the length of the path plays no part in it, and the maze object is left
    as it was. *)
Theorem generated_maze_label (fuel0 : nat) (rows0 cols0 : Z) (r : rng)
    (m : Maze) (fuel : nat) :
  Maze_init fuel0 rows0 cols0 r = Return m ->
  rows m * cols m < 256 -> (search_fuel m <= fuel)%nat ->
  exists p e_bfs e_afs e_dfs e_gfs pre algo e post,
    fst (breadth_first_search fuel (start m) m) = Return (p, e_bfs) /\
    fst (astar_first_search fuel (start m) m) = Return (p, e_afs) /\
    fst (depth_first_search fuel (start m) m) = Return (p, e_dfs) /\
    fst (greedy_first_search fuel (start m) m) = Return (p, e_gfs) /\
    [("BFS"%string, e_bfs); ("AFS"%string, e_afs); ("DFS"%string, e_dfs);
     ("GFS"%string, e_gfs)] = pre ++ (algo, e) :: post /\
    maze_label fuel m = (Return algo, m) /\
    (forall it, In it pre -> (length e < length (snd it))%nat) /\
    (forall it, In it post -> (length e <= length (snd it))%nat).
Proof.
  intros Hm Hsize Hfuel.
  destruct (Maze_init_layout fuel0 rows0 cols0 r Hm) as (Hgen & d & Hlay).
  apply (maze_label_generated Hgen Hlay Hsize Hfuel).
Qed.

Lemma generated_maze_label_witness :
  exists p e_bfs e_afs e_dfs e_gfs pre algo e post,
    fst (breadth_first_search 17 (start maze_3_5) maze_3_5) =
      Return (p, e_bfs) /\
    fst (astar_first_search 17 (start maze_3_5) maze_3_5) =
      Return (p, e_afs) /\
    fst (depth_first_search 17 (start maze_3_5) maze_3_5) =
      Return (p, e_dfs) /\
    fst (greedy_first_search 17 (start maze_3_5) maze_3_5) =
      Return (p, e_gfs) /\
    [("BFS"%string, e_bfs); ("AFS"%string, e_afs); ("DFS"%string, e_dfs);
     ("GFS"%string, e_gfs)] = pre ++ (algo, e) :: post /\
    maze_label 17 maze_3_5 = (Return algo, maze_3_5) /\
    (forall it, In it pre -> (length e < length (snd it))%nat) /\
    (forall it, In it post -> (length e <= length (snd it))%nat).
Proof.
  apply (@generated_maze_label 20 3 5 zero_rng maze_3_5 17).
  - vm_compute. reflexivity.
  - reflexivity.
  - vm_compute. lia.
Defined.
